(* ===== verification/_CoqProject ===== *)
-Q . S2P
Prelude.v
F64.v
Utf8.v
Frame.v
Codec.v
WireFormat.v
Framed.v
Link.v
Scrollback.v
Registry.v
SessionTask.v
Quota.v
Throttle.v
HttpHook.v
Ssh.v
Lifetime.v
Pipe.v
Negotiate.v
Progress.v
Connection.v
Bounds.v
Phases.v
Gateway.v
Custody.v
Serve.v
Startup.v
Endpoint.v
Main.v
UnitTests.v
