(* ===== verification/Prelude.v ===== *)
(** * shark-gateway, verified

    A development beside the Rust workspace under [src/crates/]: the keep-alive
    SSH gateway that holds a session on a target while its client comes and
    goes.  The definitions are translated from the source, operation by
    operation, and are executable; the theorems are about them.

    ** The parts of the program, and where they are

    A client connects over QUIC and speaks frames ([gw-proto], [gw-transport]).
    The handler ([gw-server/src/handler.rs]) negotiates with it, asks the
    control plane ([gw-core/src/quota.rs], [gw-server/src/http_hook.rs]) for
    leave, and resumes a session of the registry ([gw-core/src/lib.rs]) or opens
    one on the target ([gw-ssh]).  Two tasks then carry the client's input to
    the session and the session's output, through its scrollback and the
    bandwidth limiter, back to the client.

    - Prelude.v: results and [?], effects on a state ([Eff]), [anyhow] errors,
      machine integers with their wrap-around, bytes and strings.
    - F64.v, Utf8.v: the parts of Rust's standard library the gateway computes
      with: [f64] ([SpecFloat] at binary64) and UTF-8 decoding.
    - Frame.v, Codec.v, Framed.v: [gw-proto/src/frame.rs], [codec.rs] and
      [gw-transport/src/framed.rs].  [postcard] and [quinn] are classes with
      their documented laws; WireFormat.v and [Framed.Wire] are instances.
    - Link.v: the class [Link], what the handler asks of a client's connection;
      the framed streams implement it ([framed_link], [framed_link_wire]).
    - Scrollback.v: [SessionInner], [append] and the critical section of
      [SessionReader::next], against a specification by the whole output.
    - Registry.v: [Session], [SessionManager] and their shared objects in a
      heap, against a specification by the list of live sessions.
    - SessionTask.v: the ingest task and any number of readers of one session
      as a step relation over the mutex and [tokio]'s [Notify] (a class).
    - Lifetime.v: who owns a session: registry, connections, ingest task, actor.
    - Quota.v, Throttle.v: [gw-core/src/quota.rs] (hook, meter, token bucket)
      and the handler's [throttle], over any clock.
    - Ssh.v, Pipe.v: [gw-ssh/src/lib.rs]; [russh] is a class acting on the
      network.  Ssh.v has the actor's loop, branch by branch; Pipe.v the same
      loop one [await] at a time, between its two bounded channels.
    - Negotiate.v, Progress.v: [negotiate], [open_for_auth], [ControlSigner],
      and that they return.
    - Connection.v, Bounds.v: [handle_connection], [receiver_loop],
      [sender_task], their steps interleaved with the session's; what a
      connection keeps in memory.
    - Phases.v, Gateway.v, Custody.v: any number of connections, each suspended
      at its [await]s ([phase_step] before, [ending_step] after its live part),
      over one registry and one control plane.
    - Serve.v, Endpoint.v: [serve] of [gw-server/src/lib.rs] with
      [gw-transport/src/server.rs]; the endpoints of [server.rs], [client.rs]
      and [tls.rs].
    - HttpHook.v, Startup.v, Main.v: the HTTP control plane; configuration,
      choice of the hook, TLS identity and binding; [main] and [serve], from the
      command line to the accept loop.
    - UnitTests.v: the source's unit tests, computed on these definitions.

    ** What the theorems show

    - Transport: what is sent is received, in order and to the byte, and every
      malformed or truncated message is the error the code means.
    - Sessions: the scrollback replays the last bytes, loses none a reader was
      owed, and wakes every waiting reader; the registry's two maps are one
      list; a session ends only when its target does.
    - The pipe: nothing is lost or reordered on the way to the target and back,
      and nothing waits for ever, but for a target that takes nothing.
    - Limits: the bucket never lets more than rate and burst through, roundings
      included; waits are finite.
    - The target: a session is opened exactly when the target accepted the
      credential, or the client's signatures; the actor does what the session's
      two ends ask of it.
    - Negotiation: no effect before authorization; one answer to the client;
      the session the client's token names, or a new one, and a registry that
      holds exactly the sessions given out; signatures that answer their own
      request; termination, if what is awaited is answered.
    - Connections: input and output are faithful, usage is what was sent, memory
      is bounded, and the end closes or holds the session as the code says.
    - The gateway: the functions of the handler are the suspended tasks run
      without interference ([Phases.connection_phases],
      [Gateway.gateway_alone]); under any interleaving each session is in the
      custody of one registry and is reached only by the bearers of its token.
      The calls to the control plane are remembered with their arguments, and
      [replays] ties them to it: made in order to the hook, they have taken it
      where it is.  Of these calls the theorems say that every connection's
      usage is reported once, and every session that leaves the registry denied
      or reported closed.  The accept loop starts exactly these tasks; and so it
      is from [main] on ([Main.main_serves]).
    - Edges: the HTTP hook fails closed; startup picks the hook and identity
      the configuration names.

    ** Fuel

    Loops whose length the environment decides take fuel and return [None]
    when it runs out: [await_signature] and with it [negotiate]
    ([Progress.negotiation_returns]: any fuel above the frames the client still
    sends will do), and [throttle_loop] ([Throttle.throttle_passes_chunks]).
    The step relations and the executable runs of the other files need none.

    ** Calls that may never return

    What the gateway awaits may never come: [Link], [AuthHook], [Reqwest] and
    [Russh] are [Eff]s, whose calls are [None] when they never complete, and the
    caller is then [None] too, or its step not enabled.  No call has a deadline
    ([Progress.unanswered_authorization]).  A call without an answer leaves the
    state it was made on as it was.  The receiver's [send_input] always completes
    in Connection.v and Gateway.v; that it waits on a full channel, and what then
    happens, is in Pipe.v.

    ** Not modelled

    Logging and command-line parsing; the bodies of third-party crates;
    shutdown, which the program does not have; a panic of a lock's holder
    (poisoning), since no critical section panics; the integration test of
    [gw-transport/tests], which runs real endpoints.

    Left to extend: the rule of one [session_close] for each [session_open], which
    does not hold (see [Connection.Witness.closed_twice]), and when it would;
    UTF-8 decoding against the scalar values. *)

From stdpp Require Export base tactics list gmap strings numbers option pretty.
From Stdlib Require Export ZArith Lia.
From Stdlib Require Export Strings.Byte.

#[global] Open Scope Z_scope.
#[global] Set Default Goal Selector "!".

(** ** Fallible results *)

(** Rust's [Result<A, E>]. *)
Inductive Result (A E : Type) : Type :=
  | Ok (a : A)
  | Err (e : E).
Arguments Ok {A E} a.
Arguments Err {A E} e.

#[export] Instance Result_eq_dec {A E} `{EqDecision A, EqDecision E} : EqDecision (Result A E).
Proof. solve_decision. Defined.

(** [Result::map_err]. *)
Definition map_err {A E F} (f : E -> F) (r : Result A E) : Result A F :=
  match r with
  | Ok a => Ok a
  | Err e => Err (f e)
  end.

Definition is_ok {A E} (r : Result A E) : bool :=
  match r with Ok _ => true | Err _ => false end.

Declare Scope gw_scope.
Delimit Scope gw_scope with gw.

(** The [?] operator on a pure result. *)
Notation "'let?' x := r 'in' k" :=
  (match r with
   | Ok x => k
   | Err e => Err e
   end) (at level 10, x pattern, r at level 100, k at level 200) : gw_scope.

(** ** Effects *)

(** An [async fn] that acts on a state [W]; [None] when it never returns, or
    not within the fuel its loops were given. *)
Definition Eff (W A : Type) : Type := W -> option (A * W).

#[export] Instance eff_ret W : MRet (Eff W) := fun A a w => Some (a, w).
#[export] Instance eff_bind W : MBind (Eff W) :=
  fun A B (k : A -> Eff W B) (m : Eff W A) w =>
    match m w with
    | Some (a, w) => k a w
    | None => None
    end.

#[export] Instance eff_fmap W : FMap (Eff W) := fun A B f m => a ← m; mret (f a).

(** The state read, and changed, without suspension. *)
Definition reads {W A} (f : W -> A) : Eff W A := fun w => Some (f w, w).
Definition modifies {W} (f : W -> W) : Eff W unit := fun w => Some (tt, f w).

(** [?] on the result of a call. *)
Definition bind_ok {W A B E} (m : Eff W (Result A E)) (k : A -> Eff W (Result B E))
    : Eff W (Result B E) :=
  r ← m;
  match r with
  | Ok a => k a
  | Err e => mret (Err e)
  end.

Notation "x ←? m ; k" := (bind_ok m (fun x => k%gw))
  (at level 20, m at level 100, k at level 200, only parsing) : gw_scope.
Notation "' x ←? m ; k" := (bind_ok m (fun x => k%gw))
  (at level 20, x pattern, m at level 100, k at level 200, only parsing) : gw_scope.

(** A call on one part of a larger state. *)
Definition on_part {W P A} (get : W -> P) (put : P -> W -> W) (m : Eff P A) : Eff W A :=
  fun w =>
    match m (get w) with
    | Some (a, p) => Some (a, put p w)
    | None => None
    end.

Lemma bind_Some_inv {W A B} (m : Eff W A) (k : A -> Eff W B) w r :
  (m ≫= k) w = Some r <-> exists a w', m w = Some (a, w') /\ k a w' = Some r.
Proof.
  unfold mbind, eff_bind. destruct (m w) as [[a w']|]; split; eauto.
  - by intros (? & ? & [= <- <-] & ?).
  - done.
  - by intros (? & ? & ? & _).
Qed.

Lemma fmap_inv {W A B} (f : A -> B) (m : Eff W A) w b w' :
  (f <$> m) w = Some (b, w') <-> exists a, m w = Some (a, w') /\ b = f a.
Proof.
  unfold fmap, eff_fmap. rewrite bind_Some_inv. split.
  - intros (a & ? & H & [= <- <-]). eauto.
  - intros (a & H & ->). eauto.
Qed.

(** The call succeeds in the part exactly when it does in the whole. *)
Lemma on_part_inv {W P A} (get : W -> P) put (m : Eff P A) (w : W) a w' :
  on_part get put m w = Some (a, w') <-> exists p, m (get w) = Some (a, p) /\ w' = put p w.
Proof.
  unfold on_part. destruct (m (get w)) as [[b p]|].
  - split; [intros [= <- <-]; by exists p|]. by intros (? & [= -> ->] & ->).
  - split; [done|]. by intros (? & [=] & _).
Qed.

Lemma map_err_ok {W A E F} (f : E -> F) (m : Eff W (Result A E)) w a w' :
  (map_err f <$> m) w = Some (Ok a, w') <-> m w = Some (Ok a, w').
Proof.
  unfold fmap, eff_fmap. rewrite bind_Some_inv. split.
  - intros ([x|x] & ? & Hm & [= <- <-]). done.
  - intros Hm. by exists (Ok a), w'.
Qed.

Lemma bind_ok_inv {W A B E} (m : Eff W (Result A E)) (k : A -> Eff W (Result B E)) w r :
  bind_ok m k w = Some r <->
  (exists a w', m w = Some (Ok a, w') /\ k a w' = Some r) \/
  (exists e w', m w = Some (Err e, w') /\ r = (Err e, w')).
Proof.
  unfold bind_ok. rewrite bind_Some_inv. split.
  - intros ([a|e] & w' & Hm & Hk); [eauto|]. injection Hk as <-. eauto.
  - intros [(a & w' & Hm & Hk)|(e & w' & Hm & ->)]; eauto.
Qed.

(** ** Errors with context *)

(** [anyhow::Error]: a message, or a context and its cause. *)
Inductive Error : Type :=
  | Msg (message : string)
  | Context (context : string) (cause : Error).

(** Its [Display] shows the outermost message only. *)
Definition Error_display (e : Error) : string :=
  match e with
  | Msg m => m
  | Context c _ => c
  end.

(** [Context::context] on an error with rendering [show]. *)
Definition context {A E} (show : E -> string) (c : string) (r : Result A E) : Result A Error :=
  map_err (fun e => Context c (Msg (show e))) r.

(** ** Machine integers *)

(** Unsigned machine integers are integers with their width written out. *)
Abbreviation u16 := Z (only parsing).
Abbreviation u32 := Z (only parsing).
Abbreviation u64 := Z (only parsing).
Abbreviation u128 := Z (only parsing).
Abbreviation usize := Z (only parsing).

(** [n as uW], and the result of the wrapping operations of a release build. *)
Definition wrap (w n : Z) : Z := n mod 2 ^ w.

(** The values of an unsigned integer of [w] bits. *)
Definition fits (w n : Z) : Prop := 0 <= n < 2 ^ w.

#[export] Instance fits_dec w n : Decision (fits w n).
Proof. unfold fits. apply _. Defined.

Lemma wrap_fits w n : 0 <= w -> fits w (wrap w n).
Proof. intros Hw. unfold fits, wrap. apply Z.mod_pos_bound. lia. Qed.

Lemma wrap_id w n : fits w n -> wrap w n = n.
Proof. unfold fits, wrap. intros H. by apply Z.mod_small. Qed.

(** Length of a Rust [Vec] or slice, a [usize]. *)
Definition len {A} (l : list A) : Z := Z.of_nat (length l).

Lemma len_nonneg {A} (l : list A) : 0 <= len l.
Proof. unfold len. lia. Qed.

Lemma len_nil {A} : len (@nil A) = 0.
Proof. done. Qed.

Lemma len_cons {A} (x : A) l : len (x :: l) = 1 + len l.
Proof. unfold len. simpl. lia. Qed.

Lemma len_app {A} (l k : list A) : len (l ++ k) = len l + len k.
Proof. unfold len. rewrite length_app. lia. Qed.

Lemma len_drop {A} n (l : list A) : len (drop n l) = Z.max 0 (len l - Z.of_nat n).
Proof. unfold len. rewrite length_drop. lia. Qed.

Lemma len_take {A} n (l : list A) : len (take n l) = Z.min (Z.of_nat n) (len l).
Proof. unfold len. rewrite length_take. lia. Qed.

Create HintDb gw.
Create Rewrite HintDb gw.
Create Rewrite HintDb len.
#[export] Hint Rewrite @len_nil @len_cons @len_app @len_drop @len_take : len.
#[export] Hint Resolve len_nonneg wrap_fits wrap_id : gw.

(** Arithmetic on lengths: expose the lengths of compound lists, then [lia]. *)
Ltac len_solve :=
  autorewrite with len in *;
  repeat match goal with
         | |- context [len ?l] =>
             lazymatch goal with
             | H : 0 <= len l |- _ => fail
             | _ => pose proof (len_nonneg l)
             end
         | _ : context [len ?l] |- _ =>
             lazymatch goal with
             | H : 0 <= len l |- _ => fail
             | _ => pose proof (len_nonneg l)
             end
         end;
  lia.

(** ** Bytes and strings *)

(** A [u8]. *)
Definition byte_val (b : byte) : Z := Z.of_N (Byte.to_N b).

(** [n as u8]. *)
Definition byte_of (n : Z) : byte :=
  match Byte.of_N (Z.to_N (wrap 8 n)) with
  | Some b => b
  | None => x00
  end.

Lemma byte_val_fits b : fits 8 (byte_val b).
Proof. unfold fits, byte_val. pose proof (Byte.to_N_bounded b). lia. Qed.

Lemma byte_val_of n : byte_val (byte_of n) = wrap 8 n.
Proof.
  unfold byte_val, byte_of.
  assert (Hb : fits 8 (wrap 8 n)) by (apply wrap_fits; lia).
  destruct (Byte.of_N _) eqn:E.
  - apply Byte.to_of_N in E. rewrite E. apply Z2N.id, Hb.
  - apply Byte.of_N_None_iff in E. unfold fits in Hb. lia.
Qed.

Lemma byte_of_val b : byte_of (byte_val b) = b.
Proof.
  unfold byte_of. rewrite wrap_id by apply byte_val_fits.
  unfold byte_val. by rewrite N2Z.id, Byte.of_to_N.
Qed.

#[export] Instance byte_eq_dec : EqDecision byte := Byte.byte_eq_dec.

#[export] Instance byte_countable : Countable byte :=
  inj_countable Byte.to_N Byte.of_N Byte.of_to_N.

(** A Rust [String] is its UTF-8 bytes; [as_bytes] exposes them. *)
Definition as_bytes (s : string) : list byte := String.list_byte_of_string s.

(** The string of these bytes (the caller has checked that they are UTF-8). *)
Definition string_of_bytes (b : list byte) : string := String.string_of_list_byte b.

Lemma string_of_as_bytes s : string_of_bytes (as_bytes s) = s.
Proof. apply String.string_of_list_byte_of_string. Qed.

Lemma as_bytes_of_bytes b : as_bytes (string_of_bytes b) = b.
Proof. apply String.list_byte_of_string_of_list_byte. Qed.

#[export] Hint Rewrite string_of_as_bytes as_bytes_of_bytes : gw.

(** Decimal rendering, as [{n}] in a format string. *)
Definition fmt_int (n : Z) : string := pretty n.

(** ** Suffixes *)

(** The last [n] elements of [l] (all of it when it is shorter). *)
Definition last_n {A} (n : Z) (l : list A) : list A := drop (Z.to_nat (len l - n)) l.

Lemma last_n_all {A} n (l : list A) : len l <= n -> last_n n l = l.
Proof. intros H. unfold last_n. by replace (Z.to_nat (len l - n)) with 0%nat by lia. Qed.

Lemma len_last_n {A} n (l : list A) : 0 <= n -> len (last_n n l) = Z.min n (len l).
Proof. intros H. unfold last_n. len_solve. Qed.

(** Trimming, then appending and trimming again, is trimming once. *)
Lemma last_n_app {A} n (l d : list A) :
  0 <= n -> last_n n (last_n n l ++ d) = last_n n (l ++ d).
Proof.
  intros Hn. unfold last_n. set (k := Z.to_nat (len l - n)).
  destruct (decide (len l <= n)) as [Hle|Hgt].
  { by replace k with 0%nat by (unfold k; lia). }
  rewrite <-(drop_app_le l d k) by (unfold k, len; lia).
  rewrite drop_drop. f_equal. len_solve.
Qed.

Lemma last_n_last_n {A} n (l : list A) : 0 <= n -> last_n n (last_n n l) = last_n n l.
Proof.
  intros Hn. apply last_n_all. rewrite len_last_n by done. lia.
Qed.

#[export] Hint Rewrite @len_last_n using lia : len.
