(* ===== verification/F64.v ===== *)
(** * Double-precision arithmetic

    The bandwidth limiter computes with [f64].  Rust's [f64] is IEEE 754
    binary64 with rounding to nearest, ties to even; its executable semantics
    is the Standard Library's [SpecFloat], at precision 53 and exponent range
    1024.  This file gives the operations the gateway uses, and the one fact
    about rounding its proofs need: the result of an operation lies on the
    same side of every double as the exact result ([rounds]).

    The exact value of a finite double is an integer number of [units], of
    which there are [2 ^ scale] to one. *)

From Stdlib Require Import SpecFloat.
From S2P Require Import Prelude.

Abbreviation f64 := spec_float (only parsing).

(** ** Operations *)

Definition f64_add (x y : f64) : f64 := SFadd 53 1024 x y.
Definition f64_sub (x y : f64) : f64 := SFsub 53 1024 x y.
Definition f64_mul (x y : f64) : f64 := SFmul 53 1024 x y.
Definition f64_div (x y : f64) : f64 := SFdiv 53 1024 x y.

(** [x >= y], false on NaN. *)
Definition f64_ge (x y : f64) : bool := SFleb y x.

(** [f64::min]: the other operand when one is NaN. *)
Definition f64_min (x y : f64) : f64 :=
  match SFcompare x y with
  | Some Gt => y
  | Some _ => x
  | None => match x with S754_nan => y | _ => x end
  end.

(** [n as f64] for an unsigned integer. *)
Definition f64_of (n : Z) : f64 := binary_normalize 53 1024 n 0 false.

(** ** Values *)

Definition scale : Z := 2148.

(** A non-negative finite double. *)
Definition good (x : f64) : Prop :=
  match x with
  | S754_zero _ => True
  | S754_finite false m e => bounded 53 1024 m e = true
  | _ => False
  end.

(** [m * 2 ^ e] in units. *)
Definition at_exp (m e : Z) : Z := m * 2 ^ (e + scale).

Definition units (x : f64) : Z :=
  match x with
  | S754_finite false m e => at_exp (Z.pos m) e
  | S754_finite true m e => - at_exp (Z.pos m) e
  | _ => 0
  end.

(** [n] in units. *)
Definition of_int (n : Z) : Z := n * 2 ^ scale.

Definition is_inf (x : f64) : Prop := x = S754_infinity false.

(** [r] is on the same side of every double as the exact value [a / b] units. *)
Record rounds (a b : Z) (r : f64) : Prop := {
  rounds_good : good r \/ is_inf r;
  rounds_ge g : good g -> units g * b <= a -> is_inf r \/ units g <= units r;
  rounds_le g : good g -> a <= units g * b -> good r /\ units r <= units g;
}.

(** ** Digits and canonical mantissas *)

Abbreviation fexp := (fexp 53 1024).

Lemma digits_log2 p : Z.pos (digits2_pos p) = Z.log2 (Z.pos p) + 1.
Proof.
  assert (H : digits2_pos p = Pos.size p) by (induction p; cbn; congruence).
  rewrite H. destruct p; cbn; [| |done]; by rewrite Pos2Z.inj_succ.
Qed.

Lemma Zdigits2_log2 m : 0 < m -> Zdigits2 m = Z.log2 m + 1.
Proof. destruct m; [lia| |lia]. intros _. apply digits_log2. Qed.

Lemma fexp_eq e : fexp e = Z.max (e - 53) (-1074).
Proof. done. Qed.

(** A canonical mantissa has 53 digits, or fewer at the least exponent. *)
Lemma bounded_iff m e :
  bounded 53 1024 m e = true <->
  -1074 <= e <= 971 /\ Z.pos m < 2 ^ 53 /\ (2 ^ 52 <= Z.pos m \/ e = -1074).
Proof.
  unfold bounded, canonical_mantissa. rewrite andb_true_iff, Z.eqb_eq, Z.leb_le, digits_log2, fexp_eq.
  change (1024 - 53) with 971.
  pose proof (Z.log2_spec (Z.pos m) ltac:(lia)) as [Hlo Hhi].
  assert (H53 : Z.log2 (Z.pos m) < 53 <-> Z.pos m < 2 ^ 53)
    by (symmetry; apply Z.log2_lt_pow2; lia).
  assert (H52 : 52 <= Z.log2 (Z.pos m) <-> 2 ^ 52 <= Z.pos m)
    by (symmetry; apply Z.log2_le_pow2; lia).
  rewrite <-H53, <-H52. lia.
Qed.

(** ** Powers of two *)

Lemma at_exp_nonneg m e : 0 <= m -> 0 <= at_exp m e.
Proof. intros Hm. unfold at_exp. apply Z.mul_nonneg_nonneg; [done|]. apply Z.pow_nonneg. lia. Qed.

Lemma at_exp_shift m e k :
  0 <= k -> 0 <= e + scale -> at_exp m (e + k) = at_exp (m * 2 ^ k) e.
Proof.
  intros Hk He. unfold at_exp. replace (e + k + scale) with (k + (e + scale)) by lia.
  rewrite Z.pow_add_r by lia. lia.
Qed.

Lemma at_exp_le m1 m2 e : 0 <= e + scale -> at_exp m1 e <= at_exp m2 e <-> m1 <= m2.
Proof.
  intros He. unfold at_exp. pose proof (Z.pow_pos_nonneg 2 (e + scale)).
  symmetry. apply Z.mul_le_mono_pos_r. lia.
Qed.

Lemma at_exp_lt m1 m2 e : 0 <= e + scale -> at_exp m1 e < at_exp m2 e <-> m1 < m2.
Proof. intros He. pose proof (at_exp_le m2 m1 e He). lia. Qed.

(** A number of at most [k] digits at [e] is below one of more than [k']
    digits at a larger exponent. *)
Lemma at_exp_lt_digits m1 e1 m2 e2 k k' :
  0 <= e1 + scale -> 0 <= k -> 0 <= k' -> m1 < 2 ^ k -> 2 ^ k' <= m2 -> k + e1 <= k' + e2 ->
  e1 <= e2 -> at_exp m1 e1 < at_exp m2 e2.
Proof.
  intros He Hk Hk' H1 H2 Hexp Hle.
  apply Z.lt_le_trans with (at_exp (2 ^ k) e1); [by apply at_exp_lt|].
  apply Z.le_trans with (at_exp (2 ^ k') e2); [|apply at_exp_le; lia].
  unfold at_exp. rewrite <-!Z.pow_add_r by lia. apply Z.pow_le_mono_r; lia.
Qed.

(** ** Comparison of doubles is comparison of their values *)

Lemma units_nonneg x : good x -> 0 <= units x.
Proof. destruct x as [|[]| |[] m e]; cbn; try done. intros _. by apply at_exp_nonneg. Qed.

Lemma units_finite m e : 0 < units (S754_finite false m e) \/ e + scale < 0.
Proof.
  cbn. unfold at_exp. destruct (decide (e + scale < 0)); [by right|left].
  apply Z.mul_pos_pos; [lia|]. apply Z.pow_pos_nonneg; lia.
Qed.

Lemma good_lt_exp m1 e1 m2 e2 :
  bounded 53 1024 m1 e1 = true -> bounded 53 1024 m2 e2 = true -> e1 < e2 ->
  at_exp (Z.pos m1) e1 < at_exp (Z.pos m2) e2.
Proof.
  intros H1%bounded_iff H2%bounded_iff He.
  apply (at_exp_lt_digits _ _ _ _ 53 52); unfold scale; lia.
Qed.

Lemma SFcompare_units x y :
  good x -> good y -> SFcompare x y = Some (units x ?= units y).
Proof.
  intros Hx Hy.
  destruct x as [s1|[]| |[] m1 e1], y as [s2|[]| |[] m2 e2]; try done; cbn [SFcompare]; f_equal.
  - cbn in Hy. apply bounded_iff in Hy. destruct (units_finite m2 e2); [|unfold scale in *; lia].
    symmetry. by apply Z.compare_lt_iff.
  - cbn in Hx. apply bounded_iff in Hx. destruct (units_finite m1 e1); [|unfold scale in *; lia].
    symmetry. by apply Z.compare_gt_iff.
  - cbn [good] in *. cbn [units]. destruct (Z.compare_spec e1 e2) as [->|He|He].
    + apply bounded_iff in Hx. unfold at_exp.
      change (Pos.compare_cont Eq m1 m2) with (Z.pos m1 ?= Z.pos m2).
      apply Zmult_compare_compat_r, Z.lt_gt, Z.pow_pos_nonneg; unfold scale; lia.
    + symmetry. apply Z.compare_lt_iff. by apply good_lt_exp.
    + symmetry. apply Z.compare_gt_iff. by apply good_lt_exp.
Qed.

Lemma f64_ge_units x y : good x -> good y -> f64_ge x y = bool_decide (units y <= units x).
Proof.
  intros Hx Hy. unfold f64_ge, SFleb. rewrite SFcompare_units by done.
  case_bool_decide; destruct (Z.compare_spec (units y) (units x)); done || lia.
Qed.

(** ** Shifting right *)

(** The bits lost so far were all zero. *)
Definition exact (mrs : shr_record) : bool := negb (shr_r mrs || shr_s mrs).

Lemma shr_1_spec mrs :
  0 <= shr_m mrs ->
  shr_m (shr_1 mrs) = shr_m mrs / 2 /\
  exact (shr_1 mrs) = exact mrs && (shr_m mrs mod 2 =? 0).
Proof.
  destruct mrs as [m r s]. cbn. intros Hm. unfold exact.
  destruct m as [|[p|p|]|p]; [|..|lia]; cbn [shr_1 shr_m shr_r shr_s].
  - by destruct r, s.
  - split; [by rewrite Pos2Z.inj_xI, (Z.mul_comm 2), Z.div_add_l by lia; change (1/2) with 0; lia|].
    replace (Z.pos p~1 mod 2 =? 0) with false; [by destruct r, s|].
    rewrite Pos2Z.inj_xI. symmetry. apply Z.eqb_neq. Z.div_mod_to_equations. lia.
  - split; [by rewrite Pos2Z.inj_xO, Z.mul_comm, Z.div_mul by lia|].
    replace (Z.pos p~0 mod 2 =? 0) with true; [by destruct r, s|].
    rewrite Pos2Z.inj_xO. symmetry. apply Z.eqb_eq. Z.div_mod_to_equations. lia.
  - by destruct r, s.
Qed.

Lemma iter_pos_nat {A} (f : A -> A) n x : SpecFloat.iter_pos f n x = Nat.iter (Pos.to_nat n) f x.
Proof.
  revert x. induction n as [n IH|n IH|]; intros x; cbn [SpecFloat.iter_pos]; [..|done].
  - rewrite !IH, Pos2Nat.inj_xI, <-Nat.iter_add, <-Nat.iter_succ_r. f_equal. lia.
  - rewrite !IH, Pos2Nat.inj_xO, <-Nat.iter_add. f_equal. lia.
Qed.

Lemma iter_shr_1 n mrs :
  0 <= shr_m mrs ->
  shr_m (Nat.iter n shr_1 mrs) = shr_m mrs / 2 ^ Z.of_nat n /\
  exact (Nat.iter n shr_1 mrs) = exact mrs && (shr_m mrs mod 2 ^ Z.of_nat n =? 0).
Proof.
  intros Hm. induction n as [|n [IHm IHe]].
  { cbn. by rewrite Z.div_1_r, Z.mod_1_r, andb_true_r. }
  set (p := 2 ^ Z.of_nat n) in *.
  assert (Hp : 0 < p) by (apply Z.pow_pos_nonneg; lia).
  rewrite Nat2Z.inj_succ, Z.pow_succ_r by lia. fold p. cbn [Nat.iter nat_rect].
  change (nat_rect (fun _ => shr_record) mrs (fun _ => shr_1) n) with (Nat.iter n shr_1 mrs).
  destruct (shr_1_spec (Nat.iter n shr_1 mrs)) as [H1 H2].
  { rewrite IHm. by apply Z.div_pos. }
  rewrite H1, H2, IHm, IHe. split.
  - rewrite Z.div_div by lia. f_equal. lia.
  - rewrite <-andb_assoc. f_equal. apply eq_true_iff_eq.
    rewrite andb_true_iff, !Z.eqb_eq.
    rewrite (Z.mul_comm 2 p), Z.rem_mul_r by lia.
    pose proof (Z.mod_pos_bound (shr_m mrs) p Hp).
    pose proof (Z.mod_pos_bound (shr_m mrs / p) 2 ltac:(lia)). nia.
Qed.

Lemma shr_spec mrs e n mrs' e' :
  0 <= shr_m mrs -> 0 <= n -> shr mrs e n = (mrs', e') ->
  e' = e + n /\ shr_m mrs' = shr_m mrs / 2 ^ n /\
  exact mrs' = exact mrs && (shr_m mrs mod 2 ^ n =? 0).
Proof.
  intros Hm Hn. destruct n as [|n|n]; [| |lia]; cbn [shr].
  - intros [= <- <-]. by rewrite Z.add_0_r, Z.div_1_r, Z.mod_1_r, andb_true_r.
  - intros [= <- <-]. rewrite iter_pos_nat.
    destruct (iter_shr_1 (Pos.to_nat n) mrs Hm) as [H1 H2].
    by rewrite positive_nat_Z in H1, H2.
Qed.

(** ** Rounding *)

Definition exact_loc (l : location) : bool := match l with loc_Exact => true | _ => false end.

Lemma shr_record_of_loc_m m l : shr_m (shr_record_of_loc m l) = m.
Proof. by destruct l as [|[]]. Qed.

Lemma shr_record_of_loc_exact m l : exact (shr_record_of_loc m l) = exact_loc l.
Proof. by destruct l as [|[]]. Qed.

Lemma loc_of_shr_record_exact mrs : exact_loc (loc_of_shr_record mrs) = exact mrs.
Proof. by destruct mrs as [m [] []]. Qed.

Lemma round_nearest_even_cases m l :
  round_nearest_even m l = m \/ (exact_loc l = false /\ round_nearest_even m l = m + 1).
Proof. destruct l as [|[]]; cbn; auto. destruct (Z.even m); auto. Qed.

Lemma shr_fexp_spec m e l mrs e' :
  0 <= m -> e <= fexp (Zdigits2 m + e) -> shr_fexp 53 1024 m e l = (mrs, e') ->
  e' = fexp (Zdigits2 m + e) /\ shr_m mrs = m / 2 ^ (e' - e) /\
  exact mrs = exact_loc l && (m mod 2 ^ (e' - e) =? 0).
Proof.
  intros Hm He Hshr. unfold shr_fexp in Hshr.
  apply shr_spec in Hshr; [|by rewrite shr_record_of_loc_m|lia].
  rewrite shr_record_of_loc_m, shr_record_of_loc_exact in Hshr.
  destruct Hshr as (He' & Hm' & Hex). assert (E : e' = fexp (Zdigits2 m + e)) by lia.
  by replace (e' - e) with (fexp (Zdigits2 m + e) - e) by lia.
Qed.

(** After rounding, at most one carry has to be shifted out, exactly. *)
Lemma carry_spec m e mrs e' :
  0 <= m <= 2 ^ 53 -> -1074 <= e -> (m < 2 ^ 52 -> e = -1074) ->
  shr_fexp 53 1024 m e loc_Exact = (mrs, e') ->
  at_exp (shr_m mrs) e' = at_exp m e /\ e <= e' /\
  (0 < m -> 0 < shr_m mrs < 2 ^ 53 /\ (2 ^ 52 <= shr_m mrs \/ e' = -1074)) /\
  (m = 0 -> shr_m mrs = 0).
Proof.
  intros Hm He Hsub Hshr.
  destruct (decide (m = 0)) as [->|Hnz].
  { apply shr_fexp_spec in Hshr; [|lia|rewrite fexp_eq; cbn; lia].
    destruct Hshr as (E & Hm' & _). rewrite fexp_eq in E. cbn in E.
    assert (e' = e) as -> by lia. rewrite Z.sub_diag in Hm'. cbn in Hm'. rewrite Hm'.
    split_and!; lia || done. }
  assert (Hpos : 0 < m) by lia. destruct (decide (m = 2 ^ 53)) as [->|Hne].
  - change (Zdigits2 (2 ^ 53)) with 54 in Hshr.
    apply shr_fexp_spec in Hshr; [|lia|change (Zdigits2 (2 ^ 53)) with 54; rewrite fexp_eq; lia].
    change (Zdigits2 (2 ^ 53)) with 54 in Hshr.
    destruct Hshr as (E & Hm' & _). rewrite fexp_eq in E. assert (e' = e + 1) as -> by lia.
    replace (e + 1 - e) with 1 in Hm' by lia. change (2 ^ 53 / 2 ^ 1) with (2 ^ 52) in Hm'.
    rewrite Hm'. rewrite at_exp_shift by (unfold scale; lia).
    split_and!; [done|lia| |done]. intros _. lia.
  - assert (Hlog : Z.log2 m < 53) by (apply Z.log2_lt_pow2; lia).
    assert (Hlog' : 52 <= Z.log2 m \/ e = -1074).
    { destruct (decide (m < 2 ^ 52)); [right; auto|left]. apply Z.log2_le_pow2; lia. }
    pose proof (Z.log2_nonneg m). pose proof (Zdigits2_log2 m Hpos) as Hdig.
    apply shr_fexp_spec in Hshr; [|lia|rewrite Hdig, fexp_eq; lia].
    rewrite Hdig, fexp_eq in Hshr.
    destruct Hshr as (E & Hm' & _). assert (e' = e) as -> by lia.
    rewrite Z.sub_diag, Z.div_1_r in Hm'. rewrite Hm'. split_and!; [done|lia|lia|lia].
Qed.

(** The exponent of the canonical result for a mantissa [mx] at [ex], and the
    floor of [mx] there. *)
Abbreviation canon_exp mx ex := (fexp (Zdigits2 mx + ex)) (only parsing).
Abbreviation canon_floor mx ex := (mx / 2 ^ (canon_exp mx ex - ex)) (only parsing).

Lemma canon_floor_bounds mx ex :
  0 <= mx -> ex <= canon_exp mx ex ->
  0 <= canon_floor mx ex < 2 ^ 53 /\ (-1074 < canon_exp mx ex -> 2 ^ 52 <= canon_floor mx ex).
Proof.
  intros Hmx Hle. set (e := canon_exp mx ex) in *.
  assert (Hp : 0 < 2 ^ (e - ex)) by (apply Z.pow_pos_nonneg; lia).
  destruct (decide (mx = 0)) as [->|Hnz].
  { rewrite Z.div_0_l by lia. split; [lia|]. unfold e in *. rewrite fexp_eq in *. cbn in *. lia. }
  assert (Hpos : 0 < mx) by lia. pose proof (Z.log2_spec mx Hpos) as [Hlo Hhi].
  pose proof (Z.log2_nonneg mx). unfold e in *. rewrite Zdigits2_log2, fexp_eq in * by done.
  split; [split; [by apply Z.div_pos|]|].
  - apply Z.div_lt_upper_bound; [done|]. rewrite <-Z.pow_add_r by lia.
    eapply Z.lt_le_trans; [exact Hhi|]. apply Z.pow_le_mono_r; lia.
  - intros Hnormal. apply Z.div_le_lower_bound; [done|].
    rewrite <-Z.pow_add_r by lia. eapply Z.le_trans; [|exact Hlo].
    apply Z.pow_le_mono_r; lia.
Qed.

Lemma round_finish m e mrs e2 :
  0 <= m <= 2 ^ 53 -> -1074 <= e -> (m < 2 ^ 52 -> e = -1074) ->
  shr_fexp 53 1024 m e loc_Exact = (mrs, e2) ->
  let r := match shr_m mrs with
           | Z0 => S754_zero false
           | Zpos m => if e2 <=? 971 then S754_finite false m e2 else S754_infinity false
           | Zneg _ => S754_nan
           end in
  (good r /\ units r = at_exp m e) \/ (is_inf r /\ at_exp 1 1024 <= at_exp m e).
Proof.
  intros Hmb He Hms E2 r. subst r. apply carry_spec in E2; [|done..].
  destruct E2 as (Hval & He2 & Hpos & Hzero).
  destruct (decide (m = 0)) as [Hm0|Hm0].
  { rewrite Hzero by done. left. split; [done|]. cbn. by rewrite Hm0. }
  destruct Hpos as [Hb Hcan]; [lia|]. destruct (shr_m mrs) as [|m2|m2]; [lia| |lia].
  destruct (Z.leb_spec e2 971) as [Hmax|Hmax].
  - left. cbn [good units]. split; [apply bounded_iff; lia|done].
  - right. split; [done|]. rewrite <-Hval.
    assert (Hbig : 2 ^ 52 <= Z.pos m2) by lia. unfold at_exp.
    apply Z.le_trans with (2 ^ 52 * 2 ^ (e2 + scale)).
    + rewrite Z.mul_1_l, <-Z.pow_add_r by (unfold scale; lia).
      apply Z.pow_le_mono_r; lia.
    + apply Z.mul_le_mono_nonneg_r; [|done]. apply Z.pow_nonneg. lia.
Qed.

(** The rounded result of an exact value whose floor at exponent [ex] is [mx]:
    the floor or, if that loses something, the next integer, at the exponent
    of a canonical result; infinity only beyond every double. *)
Lemma binary_round_aux_spec mx ex lx :
  0 <= mx -> ex <= canon_exp mx ex ->
  let e := canon_exp mx ex in
  let q := canon_floor mx ex in
  let r := binary_round_aux 53 1024 false mx ex lx in
  exists m, (m = q \/ (m = q + 1 /\ ~ (exact_loc lx = true /\ mx mod 2 ^ (e - ex) = 0))) /\
    ((good r /\ units r = at_exp m e) \/ (is_inf r /\ at_exp 1 1024 <= at_exp m e)).
Proof.
  intros Hmx Hle e q r. subst r.
  assert (He : -1074 <= e) by (unfold e; rewrite fexp_eq; lia).
  assert (H : 0 <= q < 2 ^ 53 /\ (-1074 < e -> 2 ^ 52 <= q)) by by apply canon_floor_bounds.
  destruct H as [Hq Hq52].
  unfold binary_round_aux.
  destruct (shr_fexp 53 1024 mx ex lx) as [mrs1 e1] eqn:E1.
  apply shr_fexp_spec in E1; [|done..]. fold e in E1. destruct E1 as (-> & Hm1 & Hx1).
  change (shr_m mrs1 = q) in Hm1. clearbody q.
  set (m := round_nearest_even (shr_m mrs1) (loc_of_shr_record mrs1)).
  assert (Hm : m = q \/ (m = q + 1 /\ ~ (exact_loc lx = true /\ mx mod 2 ^ (e - ex) = 0))).
  { unfold m. destruct (round_nearest_even_cases (shr_m mrs1) (loc_of_shr_record mrs1))
      as [->|[Hloc ->]]; [by left|right]. rewrite Hm1. split; [done|].
    rewrite loc_of_shr_record_exact, Hx1 in Hloc. intros [Hl Hmod].
    by rewrite Hl, Hmod in Hloc. }
  destruct (shr_fexp 53 1024 m e loc_Exact) as [mrs2 e2] eqn:E2.
  exists m. split; [exact Hm|]. eapply round_finish; [lia|done|lia|exact E2].
Qed.

(** Every double is below the least power of two out of range. *)
Lemma good_lt_max g : good g -> units g < at_exp 1 1024.
Proof.
  destruct g as [|[]| |[] m e]; try done; cbn [good units].
  intros H%bounded_iff. apply (at_exp_lt_digits _ _ _ _ 53 0); unfold scale; lia.
Qed.

(** A double against the grid of exponent [e]: it is on the grid, or below the
    least number of the binade [e] stands for. *)
Lemma good_grid g e :
  good g -> -1074 <= e ->
  (exists k, 0 <= k /\ units g = at_exp k e) \/ (-1074 < e /\ units g < at_exp (2 ^ 52) e).
Proof.
  destruct g as [|[]| |[] m eg]; try done; cbn [good units]; intros Hg He.
  { left. exists 0. done. }
  apply bounded_iff in Hg. destruct (decide (e <= eg)).
  - left. exists (Z.pos m * 2 ^ (eg - e)). split; [apply Z.mul_nonneg_nonneg, Z.pow_nonneg; lia|].
    rewrite <-at_exp_shift by (unfold scale; lia). f_equal. lia.
  - right. split; [lia|]. apply (at_exp_lt_digits _ _ _ _ 53 52); unfold scale; lia.
Qed.

(** Rounding is on the right side of every double, for an exact value [a / b]
    of which [mx] is the floor at exponent [ex]. *)
Section Rounds.
Context (a b mx ex : Z) (lx : location).
Context (Hb : 0 < b) (Hmx : 0 <= mx) (Hex : -scale <= ex) (Hle : ex <= canon_exp mx ex).
Context (Hab : if exact_loc lx then a = at_exp mx ex * b
               else at_exp mx ex * b < a < at_exp (mx + 1) ex * b).

#[local] Abbreviation e := (canon_exp mx ex).
#[local] Abbreviation q := (canon_floor mx ex).

Lemma canon_exp_ge : -1074 <= e.
Proof. rewrite fexp_eq. lia. Qed.

Lemma canon_pow : 0 < 2 ^ (e - ex).
Proof. apply Z.pow_pos_nonneg; lia. Qed.

Lemma at_canon k : at_exp k e = at_exp (k * 2 ^ (e - ex)) ex.
Proof. rewrite <-at_exp_shift by lia. f_equal. lia. Qed.

(** [q] is the floor of the exact value at exponent [e]. *)
Lemma canon_below k : at_exp k e * b <= a <-> k <= q.
Proof.
  pose proof canon_pow as Hp. assert (Hxs : 0 <= ex + scale) by lia.
  assert (Hfloor : at_exp mx ex * b <= a < at_exp (mx + 1) ex * b).
  { destruct (exact_loc lx); [|lia]. pose proof (proj2 (at_exp_lt mx (mx + 1) ex Hxs)). nia. }
  rewrite at_canon. split.
  - intros H. apply Z.div_le_lower_bound; [done|]. rewrite Z.mul_comm.
    assert (at_exp (k * 2 ^ (e - ex)) ex < at_exp (mx + 1) ex) as Hlt%at_exp_lt by nia; lia.
  - intros H. pose proof (Z.mul_div_le mx (2 ^ (e - ex)) Hp).
    assert (at_exp (k * 2 ^ (e - ex)) ex <= at_exp mx ex) by (apply at_exp_le; nia). nia.
Qed.

(** When the exact value is [q], nothing is lost by rounding down. *)
Lemma canon_exact : a = at_exp q e * b -> exact_loc lx = true /\ mx mod 2 ^ (e - ex) = 0.
Proof.
  pose proof canon_pow as Hp. assert (Hxs : 0 <= ex + scale) by lia.
  intros Ha. rewrite at_canon in Ha.
  assert (Hqm : q * 2 ^ (e - ex) <= mx)
    by (pose proof (Z.mul_div_le mx (2 ^ (e - ex)) Hp); lia).
  assert (Hle2 : at_exp mx ex <= at_exp (q * 2 ^ (e - ex)) ex) by (destruct (exact_loc lx); nia).
  apply at_exp_le in Hle2; [|done].
  assert (Hmx' : mx = q * 2 ^ (e - ex)) by lia. split.
  - destruct (exact_loc lx); [done|]. rewrite <-Hmx' in Ha. lia.
  - apply Z.mod_divide; [lia|]. by exists q.
Qed.

(** A double at or above the exact value is at or above the next integer too,
    unless the exact value is [q]. *)
Lemma canon_above g m :
  m = q \/ (m = q + 1 /\ ~ (exact_loc lx = true /\ mx mod 2 ^ (e - ex) = 0)) ->
  good g -> a <= units g * b -> at_exp m e <= units g.
Proof.
  intros Hm Hg Hag. pose proof (proj2 (canon_below q) ltac:(lia)) as Hqa.
  pose proof canon_exp_ge as He. assert (Hes : 0 <= e + scale) by lia.
  destruct (canon_floor_bounds mx ex Hmx Hle) as [_ Hq52].
  destruct Hm as [->|[-> Hne]]; [nia|].
  assert (Hlt : at_exp q e < units g).
  { destruct (decide (a = at_exp q e * b)) as [E|]; [by destruct (Hne (canon_exact E))|nia]. }
  destruct (good_grid g e Hg He) as [(k & _ & Hk)|[Hee Hk]].
  - rewrite Hk in *. apply at_exp_lt in Hlt; [|done]. apply at_exp_le; lia.
  - assert (q < 2 ^ 52) by (apply (at_exp_lt _ _ e); lia). lia.
Qed.

(** A double at or below the exact value is at or below [q]. *)
Lemma canon_under g : good g -> units g * b <= a -> units g <= at_exp q e.
Proof.
  intros Hg Hga. pose proof canon_exp_ge as He. assert (Hes : 0 <= e + scale) by lia.
  destruct (canon_floor_bounds mx ex Hmx Hle) as [_ Hq52].
  destruct (good_grid g e Hg He) as [(k & _ & Hk)|[Hee Hk]].
  - rewrite Hk in *. apply at_exp_le; [done|]. by apply canon_below.
  - apply Z.lt_le_incl. eapply Z.lt_le_trans; [exact Hk|]. apply at_exp_le; auto.
Qed.

Lemma binary_round_aux_rounds : rounds a b (binary_round_aux 53 1024 false mx ex lx).
Proof.
  pose proof (binary_round_aux_spec mx ex lx Hmx Hle) as Hspec. cbn zeta in Hspec.
  set (r := binary_round_aux _ _ _ _ _ _) in *. destruct Hspec as (m & Hm & Hr).
  assert (Hqm : q <= m) by lia. pose proof canon_exp_ge as He. split.
  - destruct Hr as [[? _]|[? _]]; auto.
  - intros g Hg Hga. destruct Hr as [[_ Hr]|[Hr _]]; [right|by left]. rewrite Hr.
    apply Z.le_trans with (at_exp q e); [by apply canon_under|]. apply at_exp_le; unfold scale; lia.
  - intros g Hg Hag. pose proof (canon_above g m Hm Hg Hag) as Hup. destruct Hr as [[Hgood Hr]|[_ Hr]].
    + by rewrite Hr.
    + pose proof (good_lt_max g Hg). lia.
Qed.

End Rounds.

(** ** The operations round *)

Lemma rounds_self x : good x -> rounds (units x) 1 x.
Proof.
  intros Hx. split; [by left| |]; intros g Hg; rewrite Z.mul_1_r; auto.
Qed.

Lemma iter_xO mx d : Z.pos (Pos.iter xO mx d) = Z.pos mx * 2 ^ Z.pos d.
Proof.
  induction d as [|d IH] using Pos.peano_ind; [by cbn; lia|].
  rewrite Pos.iter_succ, Pos2Z.inj_xO, IH, Pos2Z.inj_succ, Z.pow_succ_r by lia. lia.
Qed.

Lemma shl_align_spec mx ex e' mz ez :
  shl_align mx ex e' = (mz, ez) -> -scale <= e' -> -scale <= ex ->
  ez = Z.min ex e' /\ at_exp (Z.pos mz) ez = at_exp (Z.pos mx) ex /\
  Zdigits2 (Z.pos mz) + ez = Zdigits2 (Z.pos mx) + ex.
Proof.
  intros H He' Hex. unfold shl_align in H. destruct (e' - ex) as [|d|d] eqn:E;
    injection H as <- <-; [split_and!; lia || done..|].
  assert (Hmz : Z.pos (Pos.iter xO mx d) = Z.pos mx * 2 ^ (ex - e')).
  { rewrite iter_xO. do 2 f_equal. lia. }
  rewrite !Zdigits2_log2, Hmz by lia. split_and!; [lia| |].
  - rewrite <-at_exp_shift by lia. f_equal. lia.
  - rewrite Z.log2_mul_pow2 by lia. lia.
Qed.

Lemma binary_round_rounds m e :
  -scale <= e -> rounds (at_exp (Z.pos m) e) 1 (binary_round 53 1024 false m e).
Proof.
  intros He. unfold binary_round.
  change (Z.pos (digits2_pos m) + e) with (Zdigits2 (Z.pos m) + e).
  destruct (shl_align m e _) as [mz ez] eqn:E. pose proof (fexp_eq (Zdigits2 (Z.pos m) + e)) as Hf.
  apply shl_align_spec in E; [|unfold scale; lia|done]. destruct E as (Hez & Hval & Hdig).
  rewrite <-Hval. apply binary_round_aux_rounds; [lia..|unfold scale in *; lia| |cbn; lia].
  rewrite Hdig. lia.
Qed.

Lemma binary_normalize_rounds m e :
  0 <= m -> -scale <= e -> rounds (at_exp m e) 1 (binary_normalize 53 1024 m e false).
Proof.
  intros Hm He. destruct m as [|m|m]; [|by apply binary_round_rounds|lia].
  by apply (rounds_self (S754_zero false)).
Qed.

(** [n as f64]. *)
Lemma f64_of_rounds n : 0 <= n -> rounds (of_int n) 1 (f64_of n).
Proof. intros Hn. by apply (binary_normalize_rounds n 0). Qed.

Lemma at_exp_add m1 m2 e : at_exp (m1 + m2) e = at_exp m1 e + at_exp m2 e.
Proof. unfold at_exp. lia. Qed.

Lemma good_exp m e : good (S754_finite false m e) -> -1074 <= e <= 971.
Proof. intros H%bounded_iff. lia. Qed.

Lemma f64_add_rounds x y : good x -> good y -> rounds (units x + units y) 1 (f64_add x y).
Proof.
  intros Hx Hy. destruct x as [s1|[]| |[] m1 e1]; try done; destruct y as [s2|[]| |[] m2 e2]; try done.
  - destruct s1, s2; by apply (rounds_self (S754_zero _)).
  - by apply (rounds_self (S754_finite false m2 e2)).
  - cbn [units]. rewrite Z.add_0_r. by apply (rounds_self (S754_finite false m1 e1)).
  - apply good_exp in Hx, Hy. unfold f64_add, SFadd, cond_Zopp.
    destruct (shl_align m1 e1 _) as [z1 ez1] eqn:E1, (shl_align m2 e2 _) as [z2 ez2] eqn:E2.
    apply shl_align_spec in E1, E2; [|unfold scale; lia..].
    destruct E1 as (-> & H1 & _), E2 as (-> & H2 & _). cbn [fst units].
    replace (Z.min e1 (Z.min e1 e2)) with (Z.min e1 e2) in H1 by lia.
    replace (Z.min e2 (Z.min e1 e2)) with (Z.min e1 e2) in H2 by lia.
    rewrite <-H1, <-H2, <-at_exp_add.
    apply binary_normalize_rounds; unfold scale; lia.
Qed.

Lemma f64_sub_rounds x y :
  good x -> good y -> units y <= units x -> rounds (units x - units y) 1 (f64_sub x y).
Proof.
  intros Hx Hy Hle. destruct x as [s1|[]| |[] m1 e1]; try done; destruct y as [s2|[]| |[] m2 e2]; try done.
  - destruct s1, s2; by apply (rounds_self (S754_zero _)).
  - apply good_exp in Hy. destruct (units_finite m2 e2); [cbn in Hle; cbn in *; lia|unfold scale in *; lia].
  - cbn [units]. rewrite Z.sub_0_r. by apply (rounds_self (S754_finite false m1 e1)).
  - apply good_exp in Hx, Hy. unfold f64_sub, SFsub, cond_Zopp.
    destruct (shl_align m1 e1 _) as [z1 ez1] eqn:E1, (shl_align m2 e2 _) as [z2 ez2] eqn:E2.
    apply shl_align_spec in E1, E2; [|unfold scale; lia..].
    destruct E1 as (-> & H1 & _), E2 as (-> & H2 & _). cbn [fst units] in *.
    replace (Z.min e1 (Z.min e1 e2)) with (Z.min e1 e2) in H1 by lia.
    replace (Z.min e2 (Z.min e1 e2)) with (Z.min e1 e2) in H2 by lia.
    rewrite <-H1, <-H2 in Hle |- *.
    assert (Z.pos z2 <= Z.pos z1) by (eapply at_exp_le; [|exact Hle]; unfold scale; lia).
    replace (at_exp (Z.pos z1) (Z.min e1 e2) - at_exp (Z.pos z2) (Z.min e1 e2))
      with (at_exp (Z.pos z1 - Z.pos z2) (Z.min e1 e2)) by (unfold at_exp; lia).
    apply binary_normalize_rounds; unfold scale; lia.
Qed.

Lemma rounds_zero b s : 0 < b -> rounds 0 b (S754_zero s).
Proof.
  intros Hb. split; [by left| |]; intros g Hg H; cbn; [right; nia|].
  split; [done|]. by apply units_nonneg.
Qed.

Lemma Zdigits2_ge m k : 0 < m -> 0 <= k -> 2 ^ k <= m -> k + 1 <= Zdigits2 m.
Proof. intros Hm Hk H. rewrite Zdigits2_log2 by done. apply Z.log2_le_pow2 in H; lia. Qed.

Lemma pow_scale_pos : 0 < 2 ^ scale.
Proof. by apply Z.pow_pos_nonneg. Qed.

Lemma f64_mul_rounds x y :
  good x -> good y -> rounds (units x * units y) (2 ^ scale) (f64_mul x y).
Proof.
  intros Hx Hy. pose proof pow_scale_pos as Hp.
  destruct x as [s1|[]| |[] m1 e1]; try done; destruct y as [s2|[]| |[] m2 e2]; try done;
    cbn [units]; rewrite ?Z.mul_0_l, ?Z.mul_0_r; try by apply rounds_zero.
  pose proof (proj1 (bounded_iff _ _) Hx) as Hb1. pose proof (proj1 (bounded_iff _ _) Hy) as Hb2.
  unfold f64_mul, SFmul. cbn [xorb].
  apply binary_round_aux_rounds; [done|lia|unfold scale; lia| |].
  - rewrite fexp_eq. destruct (decide (e1 + e2 <= -1074)); [lia|].
    assert (H52 : 2 ^ 52 <= Z.pos m1 \/ 2 ^ 52 <= Z.pos m2) by lia.
    pose proof (Zdigits2_ge (Z.pos (m1 * m2)) 52 ltac:(lia) ltac:(lia)) as Hdig.
    assert (Hprod : 2 ^ 52 <= Z.pos (m1 * m2)) by (rewrite Pos2Z.inj_mul; destruct H52; nia).
    specialize (Hdig Hprod). lia.
  - cbn [exact_loc]. unfold at_exp. rewrite Pos2Z.inj_mul.
    assert (E : 2 ^ (e1 + scale) * 2 ^ (e2 + scale) = 2 ^ (e1 + e2 + scale) * 2 ^ scale).
    { rewrite <-!Z.pow_add_r by (unfold scale; lia). f_equal. lia. }
    transitivity (Z.pos m1 * Z.pos m2 * (2 ^ (e1 + scale) * 2 ^ (e2 + scale))); [ring|].
    rewrite E. ring.
Qed.

Lemma new_location_exact d r : 0 < d -> exact_loc (new_location d r) = (r =? 0).
Proof.
  intros Hd. unfold new_location, new_location_even, new_location_odd.
  destruct (Z.even d), (r =? 0); by cbn.
Qed.

(** The quotient of two mantissas, the first shifted left by [s], has 53 digits
    when [s] exceeds the difference of their lengths by 53. *)
Lemma quotient_digits m1 m2 s q r :
  0 <= s -> Zdigits2 (Z.pos m2) + 53 <= Zdigits2 (Z.pos m1) + s ->
  Z.pos m1 * 2 ^ s = Z.pos m2 * q + r -> 0 <= r < Z.pos m2 -> 53 <= Zdigits2 q.
Proof.
  intros Hs Hdig Hdm Hr. rewrite !Zdigits2_log2 in Hdig by lia.
  pose proof (Z.log2_spec (Z.pos m1) ltac:(lia)) as [Hlo _].
  pose proof (Z.log2_spec (Z.pos m2) ltac:(lia)) as [_ Hhi].
  pose proof (Z.log2_nonneg (Z.pos m1)). pose proof (Z.log2_nonneg (Z.pos m2)).
  assert (Hq : 2 ^ 52 <= q); [|apply (Zdigits2_ge q 52); lia].
  assert (Hmul : 2 ^ 52 * Z.pos m2 < Z.pos m1 * 2 ^ s).
  { apply Z.lt_le_trans with (2 ^ 52 * 2 ^ Z.succ (Z.log2 (Z.pos m2))); [nia|].
    apply Z.le_trans with (2 ^ Z.log2 (Z.pos m1) * 2 ^ s);
      [|apply Z.mul_le_mono_nonneg_r; [apply Z.pow_nonneg; lia|done]].
    rewrite <-!Z.pow_add_r by lia. apply Z.pow_le_mono_r; lia. }
  assert (2 ^ 52 * Z.pos m2 < (q + 1) * Z.pos m2) as Hlt%Z.mul_lt_mono_pos_r by nia; lia.
Qed.

Lemma f64_div_rounds x y :
  good x -> good y -> 0 < units y -> rounds (units x * 2 ^ scale) (units y) (f64_div x y).
Proof.
  intros Hx Hy Hpos.
  destruct y as [s2|[]| |[] m2 e2]; try done.
  destruct x as [s1|[]| |[] m1 e1]; try done; [by apply rounds_zero|].
  pose proof (proj1 (bounded_iff _ _) Hx) as Hb1. pose proof (proj1 (bounded_iff _ _) Hy) as Hb2.
  unfold f64_div, SFdiv, SFdiv_core_binary. cbn [units xorb].
  set (d1 := Zdigits2 (Z.pos m1)). set (d2 := Zdigits2 (Z.pos m2)).
  set (e' := Z.min (fexp (d1 + e1 - (d2 + e2))) (e1 - e2)). set (s := e1 - e2 - e').
  assert (He' : -scale <= e') by (unfold e', scale; rewrite fexp_eq; lia).
  assert (Hs : 0 <= s) by (unfold s, e'; lia).
  replace (match s with Z0 => Z.pos m1 | Z.pos _ => Z.shiftl (Z.pos m1) s | Z.neg _ => 0 end)
    with (Z.pos m1 * 2 ^ s) by (destruct s; [lia|by rewrite Z.shiftl_mul_pow2|lia]).
  pose proof (Z_div_mod (Z.pos m1 * 2 ^ s) (Z.pos m2) ltac:(lia)) as Hdm.
  destruct (Z.div_eucl _ (Z.pos m2)) as [q r]. destruct Hdm as [Hm' Hr].
  assert (Hp : 0 < 2 ^ (e2 + scale)) by (apply Z.pow_pos_nonneg; unfold scale; lia).
  assert (Hp' : 0 < 2 ^ (e' + scale)) by (apply Z.pow_pos_nonneg; lia).
  assert (Ha : at_exp (Z.pos m1) e1 * 2 ^ scale =
    (Z.pos m2 * q + r) * (2 ^ (e' + scale) * 2 ^ (e2 + scale))).
  { unfold at_exp. rewrite <-Hm', <-!Z.mul_assoc, <-!Z.pow_add_r by (unfold scale in *; lia).
    do 2 f_equal. unfold s. lia. }
  apply binary_round_aux_rounds; [done|nia|done| |].
  - destruct (decide (e' <= -1074)); [rewrite fexp_eq; lia|].
    enough (53 <= Zdigits2 q) by (rewrite fexp_eq; lia).
    apply (quotient_digits m1 m2 s q r); [done| |done|done].
    fold d1 d2. unfold s, e' in *. rewrite fexp_eq in *. lia.
  - rewrite new_location_exact, Ha by lia. unfold at_exp.
    set (P := 2 ^ (e2 + scale)) in *. set (P' := 2 ^ (e' + scale)) in *.
    destruct (Z.eqb_spec r 0) as [->|Hnz]; [ring|].
    assert (0 < P' * P) by nia. split; nia.
Qed.

(** ** Consequences *)

(** Every number of at most 53 digits, at an exponent in range, is a double. *)
Lemma on_grid m e :
  0 <= m <= 2 ^ 53 -> -1074 <= e <= 970 -> exists g, good g /\ units g = at_exp m e.
Proof.
  intros Hm He. destruct (decide (m = 0)) as [->|Hnz]; [by exists (S754_zero false)|].
  destruct (decide (m = 2 ^ 53)) as [->|Hmax].
  { exists (S754_finite false (2 ^ 52) (e + 1)). split; [apply bounded_iff; lia|].
    cbn [units]. rewrite at_exp_shift by (unfold scale; lia). done. }
  pose proof (Z.log2_spec m ltac:(lia)) as [Hlo Hhi].
  assert (Hd : Z.log2 m < 53) by (apply Z.log2_lt_pow2; lia). pose proof (Z.log2_nonneg m).
  set (k := Z.min (52 - Z.log2 m) (e + 1074)).
  assert (Hpk : 0 < 2 ^ k) by (apply Z.pow_pos_nonneg; lia).
  exists (S754_finite false (Z.to_pos (m * 2 ^ k)) (e - k)). cbn [good units].
  rewrite bounded_iff, Z2Pos.id by nia. split_and!; [lia..| | |].
  - apply Z.lt_le_trans with (2 ^ Z.succ (Z.log2 m) * 2 ^ k); [nia|].
    rewrite <-Z.pow_add_r by lia. apply Z.pow_le_mono_r; lia.
  - destruct (decide (k = e + 1074)); [lia|left].
    apply Z.le_trans with (2 ^ Z.log2 m * 2 ^ k); [|nia].
    rewrite <-Z.pow_add_r by lia. apply Z.pow_le_mono_r; lia.
  - rewrite <-at_exp_shift by (unfold scale; lia). f_equal. lia.
Qed.

(** A double that is the exact result is the result. *)
Lemma rounds_exact a b r g :
  rounds a b r -> good g -> a = units g * b -> good r /\ units r = units g.
Proof.
  intros [Hr Hge Hle] Hg ->. destruct (Hle g Hg ltac:(lia)) as [Hgr ?].
  destruct (Hge g Hg ltac:(lia)) as [Hinf|?]; [by rewrite Hinf in Hgr|]. split; [done|lia].
Qed.

(** The result is between the doubles the exact result is between. *)
Lemma rounds_between a b r g h :
  rounds a b r -> good g -> good h -> units g * b <= a <= units h * b ->
  good r /\ units g <= units r <= units h.
Proof.
  intros [Hr Hge Hle] Hg Hh [Hga Hah]. destruct (Hle h Hh Hah) as [Hgr ?].
  destruct (Hge g Hg Hga) as [Hinf|?]; [by rewrite Hinf in Hgr|]. split; [done|lia].
Qed.

(** The rounding error, on a grid fine enough to contain the exact result:
    less than one step of the grid either way. *)
Lemma rounds_error a b r e :
  rounds a b r -> 0 < b -> -1074 <= e <= 970 -> 0 <= a -> a < at_exp (2 ^ 53) e * b ->
  good r /\ a - at_exp 1 e * b < units r * b < a + at_exp 1 e * b.
Proof.
  intros Hr Hb He Ha Hmax. set (u := at_exp 1 e * b).
  assert (Hu1 : 0 < at_exp 1 e)
    by (unfold at_exp; pose proof (Z.pow_pos_nonneg 2 (e + scale)); unfold scale in *; lia).
  assert (Hu : 0 < u) by (unfold u; nia).
  assert (Hk : forall k, at_exp k e = k * at_exp 1 e) by (intros k; unfold at_exp; lia).
  set (k := a / u). assert (Hka : k * u <= a < (k + 1) * u).
  { pose proof (Z.mul_div_le a u Hu). pose proof (Z.mul_succ_div_gt a u Hu). unfold k. lia. }
  assert (Hk0 : 0 <= k) by (apply Z.div_pos; lia).
  assert (Hk1 : k < 2 ^ 53) by (apply Z.div_lt_upper_bound; [done|]; rewrite (Hk (2 ^ 53)) in Hmax; unfold u; lia).
  destruct (on_grid k e) as (g & Hg & Hgu); [lia..|].
  destruct (decide (a = k * u)) as [E|Hne].
  { destruct (rounds_exact a b r g Hr Hg) as [? ->]; [rewrite Hgu, (Hk k); unfold u in E; lia|].
    rewrite Hgu, (Hk k). unfold u in *. split; [done|lia]. }
  destruct (on_grid (k + 1) e) as (h & Hh & Hhu); [lia..|].
  destruct (rounds_between a b r g h Hr Hg Hh) as [Hgr [H1 H2]].
  { rewrite Hgu, Hhu, (Hk k), (Hk (k + 1)). unfold u in *. lia. }
  split; [done|]. rewrite Hgu, Hhu, (Hk k), (Hk (k + 1)) in *. unfold u in *. nia.
Qed.

Lemma at_exp_0 m : at_exp m 0 = of_int m.
Proof. unfold at_exp, of_int. by rewrite Z.add_0_l. Qed.

(** An integer of at most 53 digits, or a larger one up to rounding. *)
Lemma f64_of_exact n : 0 <= n <= 2 ^ 53 -> good (f64_of n) /\ units (f64_of n) = of_int n.
Proof.
  intros Hn. destruct (on_grid n 0) as (g & Hg & Hu); [lia..|].
  rewrite at_exp_0 in Hu. rewrite <-Hu. apply (rounds_exact (of_int n) 1); [|done|lia].
  apply f64_of_rounds. lia.
Qed.

(** An unsigned integer of at most [k] bits is a double between 0 and [2 ^ k],
    and at least 1 when the integer is. *)
Lemma f64_of_bounds n k :
  0 <= n <= 2 ^ k -> 0 <= k <= 970 ->
  good (f64_of n) /\ units (f64_of n) <= of_int (2 ^ k) /\
  (1 <= n -> of_int 1 <= units (f64_of n)).
Proof.
  intros Hn Hk. pose proof pow_scale_pos as Hs.
  destruct (on_grid 1 k) as (h & Hh & Hhu); [lia..|].
  destruct (on_grid 0 0) as (z & Hz & Hzu); [lia..|].
  destruct (on_grid 1 0) as (o & Ho & Hou); [lia..|].
  assert (E : at_exp 1 k = of_int (2 ^ k)).
  { unfold at_exp, of_int. rewrite Z.pow_add_r by (unfold scale; lia). lia. }
  assert (E1 := at_exp_0 1).
  pose proof (f64_of_rounds n ltac:(lia)) as Hr.
  destruct (rounds_between _ _ _ z h Hr Hz Hh) as [Hg [_ Hub]].
  { rewrite Hzu, Hhu, E. unfold at_exp, of_int. nia. }
  split_and!; [done|lia|]. intros H1.
  destruct (rounds_between _ _ _ o h Hr Ho Hh) as (_ & Hlb & _); [|lia].
  rewrite Hou, Hhu, E1, E. unfold of_int. nia.
Qed.

(** [f64::min] against a finite double. *)
Lemma f64_min_units x c :
  good x \/ is_inf x -> good c ->
  good (f64_min x c) /\
  ((is_inf x /\ units (f64_min x c) = units c) \/
   (good x /\ units (f64_min x c) = Z.min (units x) (units c))).
Proof.
  intros [Hx| ->] Hc.
  - unfold f64_min. rewrite SFcompare_units by done.
    destruct (Z.compare_spec (units x) (units c)); (split; [done|right; split; [done|lia]]).
  - assert (E : f64_min (S754_infinity false) c = c) by (by destruct c as [|[]| |[]]).
    rewrite E. split; [done|left; done].
Qed.

(** The relative rounding error of a normal result is at most [2 ^ -52]. *)
Lemma rounds_rel a b r :
  rounds a b r -> 0 < b -> at_exp 1 (-1022) * b <= a -> a < at_exp 1 1000 * b ->
  good r /\ a * (2 ^ 52 - 1) <= units r * b * 2 ^ 52 <= a * (2 ^ 52 + 1).
Proof.
  intros Hr Hb Hlo Hhi. set (u := a / b).
  assert (Hu : u * b <= a < (u + 1) * b).
  { pose proof (Z.mul_div_le a b Hb). pose proof (Z.mul_succ_div_gt a b Hb). unfold u. lia. }
  assert (Hu1 : at_exp 1 (-1022) <= u) by (apply Z.div_le_lower_bound; lia).
  assert (Hu2 : u < at_exp 1 1000) by (apply Z.div_lt_upper_bound; lia).
  unfold at_exp in Hu1, Hu2. rewrite Z.mul_1_l in Hu1, Hu2.
  assert (Hu0 : 0 < u) by (eapply Z.lt_le_trans; [|exact Hu1]; by apply Z.pow_pos_nonneg).
  assert (HL1 : -1022 + scale <= Z.log2 u) by by apply Z.log2_le_pow2.
  assert (HL2 : Z.log2 u < 1000 + scale) by by apply Z.log2_lt_pow2.
  pose proof (Z.log2_spec u Hu0) as [Hs1 Hs2].
  set (e := Z.log2 u - 52 - scale).
  assert (E : 2 ^ (e + scale) * 2 ^ 52 = 2 ^ Z.log2 u).
  { rewrite <-Z.pow_add_r by (unfold e, scale in *; lia). f_equal. unfold e. lia. }
  rewrite Z.pow_succ_r in Hs2 by (unfold scale in *; lia).
  destruct (rounds_error a b r e Hr Hb) as [Hg [H1 H2]]; [unfold e; lia|nia| |].
  - unfold at_exp. set (p := 2 ^ (e + scale)) in *.
    replace (2 ^ 53 * p) with (2 * 2 ^ Z.log2 u) by (rewrite <-E; lia). nia.
  - split; [done|]. unfold at_exp in *. set (p := 2 ^ (e + scale)) in *. nia.
Qed.
