(* ===== verification/Utf8.v ===== *)
(** * UTF-8, as the standard library checks it

    The gateway turns bytes into strings twice: [String::from_utf8] on a
    delegated public key, and [String::from_utf8_lossy] on an account token.
    [first_char] is the scanner both share: it reads one character, or the
    longest start of one that an ill-formed sequence has. *)

From S2P Require Import Prelude.

Definition between (lo hi : Z) (b : byte) : bool :=
  bool_decide (lo <= byte_val b) && bool_decide (byte_val b <= hi).

(** A continuation byte. *)
Definition tail : byte -> bool := between 0x80 0xBF.

(** The second bytes allowed after a first byte of a longer sequence, which
    exclude overlong forms, surrogates and numbers above 0x10FFFF; with the
    number of tails that follow. *)
Definition lead (b : byte) : option ((byte -> bool) * nat) :=
  if between 0xC2 0xDF b then Some (tail, 0%nat)
  else if between 0xE0 0xE0 b then Some (between 0xA0 0xBF, 1%nat)
  else if between 0xE1 0xEC b then Some (tail, 1%nat)
  else if between 0xED 0xED b then Some (between 0x80 0x9F, 1%nat)
  else if between 0xEE 0xEF b then Some (tail, 1%nat)
  else if between 0xF0 0xF0 b then Some (between 0x90 0xBF, 2%nat)
  else if between 0xF1 0xF3 b then Some (tail, 2%nat)
  else if between 0xF4 0xF4 b then Some (between 0x80 0x8F, 2%nat)
  else None.

(** [n] more tails after [k] bytes. *)
Fixpoint tails (n k : nat) (l : list byte) : nat * bool :=
  match n with
  | O => (k, true)
  | S n =>
      match l with
      | b :: l => if tail b then tails n (S k) l else (k, false)
      | [] => (k, false)
      end
  end.

(** The length of the first sequence, and whether it is a character. *)
Definition first_char (l : list byte) : nat * bool :=
  match l with
  | [] => (0%nat, true)
  | b :: l =>
      if between 0 0x7F b then (1%nat, true)
      else
        match lead b with
        | None => (1%nat, false)
        | Some (second, n) =>
            match l with
            | b1 :: l => if second b1 then tails n 2 l else (1%nat, false)
            | [] => (1%nat, false)
            end
        end
  end.

(** [std::str::from_utf8(l).is_ok()]; each turn consumes a byte at least. *)
Fixpoint valid_upto (fuel : nat) (l : list byte) : bool :=
  match l, fuel with
  | [], _ => true
  | _, O => false
  | _, S fuel =>
      let '(n, ok) := first_char l in
      ok && valid_upto fuel (drop n l)
  end.

Definition valid (l : list byte) : bool := valid_upto (length l) l.

(** [String::from_utf8]; what its error carries is not used. *)
Definition from_utf8 (l : list byte) : option string :=
  if valid l then Some (string_of_bytes l) else None.

(** U+FFFD. *)
Definition REPLACEMENT : list byte := [xef; xbf; xbd].

(** [String::from_utf8_lossy]. *)
Fixpoint lossy_upto (fuel : nat) (l : list byte) : list byte :=
  match l, fuel with
  | [], _ => []
  | _, O => []
  | _, S fuel =>
      let '(n, ok) := first_char l in
      (if ok then take n l else REPLACEMENT) ++ lossy_upto fuel (drop n l)
  end.

Definition from_utf8_lossy (l : list byte) : string := string_of_bytes (lossy_upto (length l) l).

Example lossy_1 : lossy_upto 5 [x61; xe2; x82; xff; x62] = [x61] ++ REPLACEMENT ++ REPLACEMENT ++ [x62].
Proof. reflexivity. Qed.
Example lossy_2 : lossy_upto 3 [xed; xa0; x80] = REPLACEMENT ++ REPLACEMENT ++ REPLACEMENT.
Proof. reflexivity. Qed.
Example lossy_3 : valid [xf0; x9f; xa6; x88] = true.
Proof. reflexivity. Qed.

(** ** The scanner *)

Lemma tails_bounds n : forall k l, (k <= (tails n k l).1 <= k + length l)%nat.
Proof.
  induction n as [|n IH]; intros k l; cbn; [lia|]. destruct l as [|b l]; cbn; [lia|].
  destruct (tail b); cbn; [|lia]. specialize (IH (S k) l). lia.
Qed.

Lemma first_char_bounds l : l <> [] -> (1 <= (first_char l).1 <= length l)%nat.
Proof.
  destruct l as [|b [|b1 l]]; [done|..]; intros _; cbn.
  - destruct (between 0 127 b); cbn; [lia|]. by destruct (lead b) as [[]|]; cbn; lia.
  - destruct (between 0 127 b); cbn; [lia|]. destruct (lead b) as [[second n]|]; cbn; [|lia].
    destruct (second b1); cbn; [|lia]. pose proof (tails_bounds n 2 l). lia.
Qed.

(** A character is read the same whatever follows it. *)
Lemma tails_app n : forall k l m j,
  tails n k l = (j, true) -> tails n k (take (j - k) l ++ m) = (j, true).
Proof.
  induction n as [|n IH]; intros k l m j; cbn; [by intros [= ->]|].
  destruct l as [|b l]; [done|]. destruct (tail b) eqn:E; [|done]. intros H.
  pose proof (tails_bounds n (S k) l) as Hb. rewrite H in Hb. cbn in Hb.
  replace (j - k)%nat with (S (j - S k)) by lia. cbn. rewrite E. by apply IH.
Qed.

Lemma first_char_app l m j :
  l <> [] -> first_char l = (j, true) -> first_char (take j l ++ m) = (j, true).
Proof.
  intros Hl H. pose proof (first_char_bounds l Hl) as Hb. rewrite H in Hb. cbn in Hb.
  destruct l as [|b l]; [done|]. destruct j as [|j]; [lia|]. cbn in *.
  destruct (between 0 127 b); [done|]. destruct (lead b) as [[second n]|]; [|done].
  destruct l as [|b1 l]; [done|]. destruct (second b1) eqn:E; [|done].
  pose proof (tails_bounds n 2 l) as Hb2. rewrite H in Hb2. cbn in Hb2.
  destruct j as [|j]; [lia|]. cbn. rewrite E.
  pose proof (tails_app n 2 l m (S (S j)) H) as Ht. by replace (S (S j) - 2)%nat with j in Ht by lia.
Qed.

(** ** What the two conversions guarantee *)

(** Enough fuel is enough. *)
Lemma valid_upto_enough l : forall fuel, (length l <= fuel)%nat -> valid_upto fuel l = valid l.
Proof.
  induction l as [l IH] using (induction_ltof1 _ length); unfold ltof in IH. intros fuel Hf.
  unfold valid. destruct l as [|b l]; [by destruct fuel|]. destruct fuel as [|fuel]; [cbn in Hf; lia|].
  change (length (b :: l)) with (S (length l)). cbn [valid_upto].
  pose proof (first_char_bounds (b :: l) ltac:(done)) as Hb.
  destruct (first_char (b :: l)) as [n ok]. cbn [fst length] in *. f_equal.
  assert (Hd : (length (drop n (b :: l)) <= length l)%nat) by (rewrite length_drop; cbn; lia).
  rewrite IH by (cbn; lia). symmetry. apply IH; cbn; lia.
Qed.

Lemma valid_cons l :
  l <> [] -> valid l = let '(n, ok) := first_char l in ok && valid (drop n l).
Proof.
  intros Hl. destruct l as [|b l]; [done|]. unfold valid at 1. cbn [length valid_upto].
  pose proof (first_char_bounds (b :: l) Hl) as Hb. destruct (first_char (b :: l)) as [n ok].
  cbn [fst length] in *. f_equal. apply valid_upto_enough. rewrite length_drop. cbn. lia.
Qed.

Lemma valid_char_app l m n :
  l <> [] -> first_char l = (n, true) -> valid (take n l ++ m) = valid m.
Proof.
  intros Hl H. pose proof (first_char_bounds l Hl) as Hb. rewrite H in Hb. cbn in Hb.
  rewrite valid_cons by (destruct l, n; cbn in *; done || lia).
  rewrite (first_char_app _ _ _ Hl H). cbn. f_equal.
  rewrite drop_app_le, drop_ge by (rewrite length_take; lia). done.
Qed.

Lemma valid_replacement m : valid (REPLACEMENT ++ m) = valid m.
Proof. apply (valid_char_app REPLACEMENT m 3); done. Qed.

Lemma lossy_valid_id fuel : forall l,
  (length l <= fuel)%nat ->
  valid (lossy_upto fuel l) = true /\ (valid l = true -> lossy_upto fuel l = l).
Proof.
  induction fuel as [|fuel IH]; intros l Hf; destruct l as [|b l]; [done|cbn in Hf; lia|done|].
  cbn [lossy_upto]. pose proof (first_char_bounds (b :: l) ltac:(done)) as Hb.
  rewrite (valid_cons (b :: l)) by done. pose proof (fun m n => valid_char_app (b :: l) m n) as Hc.
  destruct (first_char (b :: l)) as [n ok]. cbn [fst] in Hb.
  destruct (IH (drop n (b :: l))) as [Hv Hid]; [rewrite length_drop; lia|]. split.
  - destruct ok; [by rewrite Hc|by rewrite valid_replacement].
  - intros [-> Hd]%andb_true_iff. rewrite Hid by done. apply take_drop.
Qed.

(** The lossy conversion always gives UTF-8, and changes nothing that was. *)
Lemma from_utf8_lossy_valid l : valid (as_bytes (from_utf8_lossy l)) = true.
Proof.
  unfold from_utf8_lossy. rewrite as_bytes_of_bytes. by apply lossy_valid_id.
Qed.

Lemma from_utf8_lossy_id l : valid l = true -> from_utf8_lossy l = string_of_bytes l.
Proof. intros H. unfold from_utf8_lossy. f_equal. by apply lossy_valid_id. Qed.
