(* ===== verification/Frame.v ===== *)
(** * Wire frames ([crates/gw-proto/src/frame.rs])

    The data the client and the gateway exchange, with the constructors and
    fields of the source.  Machine integers are integers; the [*_wf]
    predicates say that each field fits its declared width, which the Rust
    types guarantee for every value the program can build. *)

From S2P Require Import Prelude.

(** Compared in the [Hello] exchange. *)
Definition PROTOCOL_VERSION : u16 := 1.

Abbreviation SessionId := u128 (only parsing).

(** The token a client presents to reattach. *)
Record ResumeToken : Type := mkResumeToken { resume_bytes : list byte }.

Record TargetSpec : Type := mkTargetSpec {
  host : string;
  port : u16;
  user : string;
}.

Module AuthIntent.
Inductive AuthIntent : Type :=
  | DelegatedKey (public_key : list byte)
  | Password (secret : string)
  | PrivateKey (pem : string) (passphrase : option string)
  | GatewayKey (key_id : string).
End AuthIntent.
Abbreviation AuthIntent := AuthIntent.AuthIntent (only parsing).

Module SessionStatus.
Inductive SessionStatus : Type :=
  | Connecting
  | Authenticating
  | Live
  | Detached
  | Closed.
End SessionStatus.
Abbreviation SessionStatus := SessionStatus.SessionStatus (only parsing).

(** Frames sent client to gateway. *)
Module ClientFrame.
Inductive ClientFrame : Type :=
  | Hello (version : u16) (client_name : string)
          (resume : option ResumeToken) (account_token : option (list byte))
  | Open (target : TargetSpec) (auth : AuthIntent) (cols rows : u16)
  | Data (bytes : list byte)
  | Resize (cols rows : u16)
  | SignResponse (id : u64) (signature : list byte)
  | Ping
  | Close.
End ClientFrame.
Abbreviation ClientFrame := ClientFrame.ClientFrame (only parsing).

(** Frames sent gateway to client. *)
Module ServerFrame.
Inductive ServerFrame : Type :=
  | Hello (version : u16) (session_id : SessionId) (resumed : bool) (resume : ResumeToken)
  | Data (bytes : list byte)
  | SignRequest (id : u64) (public_key : list byte) (data : list byte)
  | Status (status : SessionStatus)
  | Pong
  | Error (message : string)
  | Closed.
End ServerFrame.
Abbreviation ServerFrame := ServerFrame.ServerFrame (only parsing).

(** ** [derive(PartialEq, Eq)] *)

#[export] Instance ResumeToken_eq_dec : EqDecision ResumeToken.
Proof. solve_decision. Defined.
#[export] Instance TargetSpec_eq_dec : EqDecision TargetSpec.
Proof. solve_decision. Defined.
#[export] Instance AuthIntent_eq_dec : EqDecision AuthIntent.
Proof. solve_decision. Defined.
#[export] Instance SessionStatus_eq_dec : EqDecision SessionStatus.
Proof. solve_decision. Defined.
#[export] Instance ClientFrame_eq_dec : EqDecision ClientFrame.
Proof. solve_decision. Defined.
#[export] Instance ServerFrame_eq_dec : EqDecision ServerFrame.
Proof. solve_decision. Defined.

(** ** Values the Rust types admit *)

(** A type whose Rust values are a subset of the model's. *)
Class WellFormed (T : Type) := wf : T -> Prop.

#[export] Instance TargetSpec_wf : WellFormed TargetSpec := fun t => fits 16 (port t).

#[export] Instance ClientFrame_wf : WellFormed ClientFrame := fun f =>
  match f with
  | ClientFrame.Hello version _ _ _ => fits 16 version
  | ClientFrame.Open target _ cols rows => wf target /\ fits 16 cols /\ fits 16 rows
  | ClientFrame.Resize cols rows => fits 16 cols /\ fits 16 rows
  | ClientFrame.SignResponse id _ => fits 64 id
  | _ => True
  end.

#[export] Instance ServerFrame_wf : WellFormed ServerFrame := fun f =>
  match f with
  | ServerFrame.Hello version session_id _ _ => fits 16 version /\ fits 128 session_id
  | ServerFrame.SignRequest id _ _ => fits 64 id
  | _ => True
  end.

#[export] Instance ClientFrame_wf_dec (f : ClientFrame) : Decision (wf f).
Proof. destruct f; cbn; apply _. Defined.
#[export] Instance ServerFrame_wf_dec (f : ServerFrame) : Decision (wf f).
Proof. destruct f; cbn; apply _. Defined.
