(* ===== verification/Codec.v ===== *)
(** * Length-prefixed framing ([crates/gw-proto/src/codec.rs])

    [encode]/[decode] delegate to the third-party [postcard] serializer, which
    is a parameter here: the class [Postcard] holds its two entry points and
    [PostcardLaws] the documented behaviour the gateway relies on.
    [WireFormat.v] gives an instance, so the laws are satisfiable. *)

From S2P Require Import Prelude Frame.

(** Hard cap on a single encoded frame. *)
Definition MAX_FRAME_LEN : usize := 8 * 1024 * 1024.

(** Length prefix width, in bytes. *)
Definition LEN_PREFIX : usize := 4.

(** ** The [postcard] crate *)

(** Its error type, with the rendering of its [Display]. *)
Class PostcardError : Type := {
  postcard_error : Type;
  postcard_display : postcard_error -> string;
}.

(** [postcard::to_stdvec] and [postcard::from_bytes] at a type [T]. *)
Class Postcard {PE : PostcardError} (T : Type) : Type := {
  to_stdvec : T -> Result (list byte) postcard_error;
  from_bytes : list byte -> Result T postcard_error;
}.

(** Deserializing the serialization of a value gives the value back, and
    deserialization only produces values of the Rust type. *)
Class PostcardLaws {PE : PostcardError} (T : Type) {W : WellFormed T} {P : Postcard T} : Prop := {
  from_to_bytes (x : T) b : wf x -> to_stdvec x = Ok b -> from_bytes b = Ok x;
  from_bytes_wf (x : T) b : from_bytes b = Ok x -> wf x;
}.

Section Codec.
Context {PE : PostcardError}.

Inductive CodecError : Type :=
  | Serialize (e : postcard_error)
  | Deserialize (e : postcard_error)
  | TooLarge (n : usize).

(** The [thiserror] renderings. *)
Definition CodecError_display (e : CodecError) : string :=
  match e with
  | Serialize e => "serialize frame: " +:+ postcard_display e
  | Deserialize e => "deserialize frame: " +:+ postcard_display e
  | TooLarge n => "frame too large: " +:+ fmt_int n +:+ " bytes"
  end.

(** Serialize a frame to bytes (no length prefix). *)
Definition encode {T} {P : Postcard T} (frame : T) : Result (list byte) CodecError :=
  map_err Serialize (to_stdvec frame).

(** Deserialize a frame from its bytes (no length prefix). *)
Definition decode {T} {P : Postcard T} (bytes : list byte) : Result T CodecError :=
  map_err Deserialize (from_bytes bytes).

(** [u32::to_be_bytes] and [u32::from_be_bytes]. *)
Definition to_be_bytes (n : u32) : list byte :=
  [byte_of (Z.shiftr n 24); byte_of (Z.shiftr n 16); byte_of (Z.shiftr n 8); byte_of n].

Definition from_be_bytes (b : list byte) : u32 :=
  fold_left (fun acc x => Z.lor (Z.shiftl acc 8) (byte_val x)) b 0.

(** Serialize a frame with a 4-byte big-endian length prefix. *)
Definition encode_framed {T} {P : Postcard T} (frame : T) : Result (list byte) CodecError :=
  (let? body := encode frame in
   if decide (MAX_FRAME_LEN < len body) then Err (TooLarge (len body))
   else Ok (to_be_bytes (wrap 32 (len body)) ++ body))%gw.

(** ** The length prefix *)

Lemma length_to_be_bytes n : length (to_be_bytes n) = Z.to_nat LEN_PREFIX.
Proof. done. Qed.

Lemma lor_shiftl_byte a b : fits 8 b -> Z.lor (Z.shiftl a 8) b = a * 256 + b.
Proof.
  intros Hb. rewrite Z.shiftl_mul_pow2 by lia. change (2 ^ 8) with 256.
  pose proof (Z.add_lor_land (a * 256) b) as H.
  enough (Z.land (a * 256) b = 0) by lia.
  apply Z.bits_inj'. intros i Hi. rewrite Z.land_spec, Z.bits_0.
  destruct (decide (i < 8)) as [Hlt|Hge].
  - change 256 with (2 ^ 8). by rewrite Z.mul_pow2_bits_low.
  - rewrite <-(Z.mod_small b (2 ^ 8)) by exact Hb.
    rewrite Z.mod_pow2_bits_high by lia. apply andb_false_r.
Qed.

Lemma from_be_bytes_app b x :
  from_be_bytes (b ++ [x]) = from_be_bytes b * 256 + byte_val x.
Proof.
  unfold from_be_bytes. rewrite fold_left_app. cbn [fold_left].
  apply lor_shiftl_byte, byte_val_fits.
Qed.

Lemma from_to_be_bytes n : fits 32 n -> from_be_bytes (to_be_bytes n) = n.
Proof.
  intros Hn. unfold to_be_bytes, fits in *.
  unfold from_be_bytes. cbn [fold_left].
  rewrite !lor_shiftl_byte by apply byte_val_fits.
  rewrite !byte_val_of. unfold wrap. rewrite !Z.shiftr_div_pow2 by lia.
  change (Z.shiftl 0 8) with 0.
  Z.div_mod_to_equations. lia.
Qed.

Lemma from_be_bytes_fits b :
  0 <= from_be_bytes b < 256 ^ len b.
Proof.
  induction b as [|x b IH] using rev_ind; [done|].
  rewrite from_be_bytes_app, len_app, Z.pow_add_r by len_solve.
  pose proof (byte_val_fits x). unfold fits in *. change (256 ^ len [x]) with 256. lia.
Qed.

Section EncodeFramed.
Context {T : Type} {P : Postcard T}.
Implicit Types (f : T) (out body : list byte).

Lemma encode_ok_inv f body : encode f = Ok body <-> to_stdvec f = Ok body.
Proof. unfold encode. destruct (to_stdvec f); cbn; split; congruence. Qed.

(** A framed message is the prefix of its body's length, then the body. *)
Lemma encode_framed_ok_inv f out :
  encode_framed f = Ok out ->
  exists body, to_stdvec f = Ok body /\ len body <= MAX_FRAME_LEN /\
    out = to_be_bytes (len body) ++ body.
Proof.
  unfold encode_framed. destruct (encode f) as [body|] eqn:E; [|done].
  apply encode_ok_inv in E. case_decide; [done|]. intros [= <-].
  exists body. split_and!; [done|lia|]. rewrite wrap_id; [done|].
  unfold fits, MAX_FRAME_LEN in *. pose proof (len_nonneg body). lia.
Qed.

End EncodeFramed.

(** The framed form of a frame, on every branch.  A frame encodes
    exactly when [postcard] serializes it to at most [MAX_FRAME_LEN] bytes;
    the output is then four bytes that read back as the body's length,
    followed by the body; a longer body is refused with its length, and a
    [postcard] error is passed on. *)
Theorem encode_framed_spec {T} {P : Postcard T} (f : T) :
  match to_stdvec f with
  | Err e => encode_framed f = Err (Serialize e)
  | Ok body =>
      if decide (len body <= MAX_FRAME_LEN) then
        exists prefix, encode_framed f = Ok (prefix ++ body) /\
          len prefix = LEN_PREFIX /\ from_be_bytes prefix = len body
      else encode_framed f = Err (TooLarge (len body))
  end.
Proof.
  unfold encode_framed, encode. destruct (to_stdvec f) as [body|e]; cbn; [|done].
  repeat case_decide; try lia; [|done].
  exists (to_be_bytes (wrap 32 (len body))). split; [done|]. split; [done|].
  assert (fits 32 (len body)).
  { unfold fits, MAX_FRAME_LEN in *. pose proof (len_nonneg body). lia. }
  by rewrite wrap_id, from_to_be_bytes.
Qed.

End Codec.
