(* ===== verification/WireFormat.v ===== *)
(** * An instance of the [postcard] interface

    The gateway only relies on [PostcardLaws].  This file shows that they can
    hold, with a serializer for the two frame types in the style of the
    format's public description: variable-length unsigned integers, a length
    before each byte string, a tag before each option and enum variant.  It
    models no file of the repository; the witnesses of the theorems about
    framing are evaluated with it. *)

From S2P Require Import Prelude Frame Codec.

(** A serializer and a parser that leaves the rest of its input. *)
Class Serde (T : Type) : Type := {
  ser : T -> list byte;
  de : list byte -> option (T * list byte);
}.

Class SerdeLaws (T : Type) {W : WellFormed T} {S : Serde T} : Prop := {
  de_ser (x : T) rest : wf x -> de (ser x ++ rest) = Some (x, rest);
  de_wf b (x : T) rest : de b = Some (x, rest) -> wf x;
}.

(** ** Variable-length integers *)

Fixpoint varint_go (fuel : nat) (n : Z) : list byte :=
  match fuel with
  | O => [byte_of n]
  | S fuel =>
      if decide (n < 128) then [byte_of n]
      else byte_of (128 + n mod 128) :: varint_go fuel (n / 128)
  end.

Definition varint (n : Z) : list byte := varint_go (Z.to_nat (Z.log2 n)) n.

Fixpoint read_varint (b : list byte) : option (Z * list byte) :=
  match b with
  | [] => None
  | x :: b =>
      if decide (byte_val x < 128) then Some (byte_val x, b)
      else '(n, b) ← read_varint b; Some (byte_val x - 128 + 128 * n, b)
  end.

Lemma read_varint_go fuel : forall n rest,
  0 <= n < 128 ^ (Z.of_nat fuel + 1) ->
  read_varint (varint_go fuel n ++ rest) = Some (n, rest).
Proof.
  induction fuel as [|fuel IH]; intros n rest Hn.
  { cbn in Hn |- *. rewrite byte_val_of, wrap_id by (unfold fits; lia).
    by rewrite decide_True by lia. }
  rewrite Nat2Z.inj_succ, Z.add_succ_l, Z.pow_succ_r in Hn by lia. cbn [varint_go].
  case_decide as Hlt; cbn [app read_varint]; rewrite byte_val_of, wrap_id;
    try (unfold fits; Z.div_mod_to_equations; lia).
  - by rewrite decide_True.
  - rewrite decide_False by (Z.div_mod_to_equations; lia).
    rewrite IH by (Z.div_mod_to_equations; lia). cbn. do 2 f_equal.
    Z.div_mod_to_equations; lia.
Qed.

Lemma read_varint_varint n rest :
  0 <= n -> read_varint (varint n ++ rest) = Some (n, rest).
Proof.
  intros Hn. apply read_varint_go. split; [done|].
  destruct (decide (n = 0)) as [->|Hne]; [done|].
  rewrite Z2Nat.id by apply Z.log2_nonneg.
  eapply Z.lt_le_trans; [apply Z.log2_spec; lia|].
  rewrite <-Z.add_1_r. apply Z.pow_le_mono_l. lia.
Qed.

(** ** Fields *)

(** An unsigned integer of [w] bits: a longer one is refused. *)
Definition de_uint (w : Z) (b : list byte) : option (Z * list byte) :=
  '(n, b) ← read_varint b; if decide (fits w n) then Some (n, b) else None.

Definition ser_bytes (b : list byte) : list byte := varint (len b) ++ b.

Definition de_bytes (b : list byte) : option (list byte * list byte) :=
  '(n, b) ← read_varint b;
  if decide (n <= len b) then Some (take (Z.to_nat n) b, drop (Z.to_nat n) b) else None.

Definition ser_string (s : string) : list byte := ser_bytes (as_bytes s).
Definition de_string (b : list byte) : option (string * list byte) :=
  '(s, b) ← de_bytes b; Some (string_of_bytes s, b).

Definition ser_option {T} (f : T -> list byte) (o : option T) : list byte :=
  match o with None => [x00] | Some x => x01 :: f x end.
Definition de_option {T} (f : list byte -> option (T * list byte)) (b : list byte)
    : option (option T * list byte) :=
  match b with
  | x00 :: b => Some (None, b)
  | x01 :: b => '(x, b) ← f b; Some (Some x, b)
  | _ => None
  end.

Definition ser_bool (x : bool) : list byte := [if x then x01 else x00].
Definition de_bool (b : list byte) : option (bool * list byte) :=
  match b with x00 :: b => Some (false, b) | x01 :: b => Some (true, b) | _ => None end.

Lemma de_uint_varint w n rest : fits w n -> de_uint w (varint n ++ rest) = Some (n, rest).
Proof.
  intros Hn. unfold de_uint. rewrite read_varint_varint by (unfold fits in Hn; lia). cbn.
  by rewrite decide_True.
Qed.

Lemma de_uint_fits w b n rest : de_uint w b = Some (n, rest) -> fits w n.
Proof.
  unfold de_uint. destruct (read_varint b) as [[m b']|]; cbn; [|done].
  case_decide; [|done]. by intros [= <- <-].
Qed.

Lemma de_ser_bytes b rest : de_bytes (ser_bytes b ++ rest) = Some (b, rest).
Proof.
  unfold de_bytes, ser_bytes. rewrite <-app_assoc, read_varint_varint by apply len_nonneg. cbn.
  rewrite decide_True by len_solve. unfold len. rewrite Nat2Z.id.
  by rewrite take_app_length, drop_app_length.
Qed.

Lemma de_ser_string s rest : de_string (ser_string s ++ rest) = Some (s, rest).
Proof. unfold de_string, ser_string. rewrite de_ser_bytes. cbn. by rewrite string_of_as_bytes. Qed.

Lemma de_ser_option {T} (f : T -> list byte) g o rest :
  (forall x rest, g (f x ++ rest) = Some (x, rest)) ->
  de_option g (ser_option f o ++ rest) = Some (o, rest).
Proof. intros Hg. destruct o; cbn; [by rewrite Hg|done]. Qed.

Lemma de_ser_bool x rest : de_bool (ser_bool x ++ rest) = Some (x, rest).
Proof. by destruct x. Qed.

#[local] Arguments varint : simpl never.
#[local] Arguments ser_bool : simpl never.
#[local] Arguments de_bool : simpl never.
#[local] Arguments de_uint : simpl never.
#[local] Arguments ser_bytes : simpl never.
#[local] Arguments de_bytes : simpl never.
#[local] Arguments ser_string : simpl never.
#[local] Arguments de_string : simpl never.
#[local] Arguments ser_option : simpl never.
#[local] Arguments de_option : simpl never.

Create Rewrite HintDb serde.
#[export] Hint Rewrite de_ser_bytes de_ser_string de_ser_bool : serde.

(** ** Frames *)

Definition ser_target (t : TargetSpec) : list byte :=
  ser_string (host t) ++ varint (port t) ++ ser_string (user t).
Definition de_target (b : list byte) : option (TargetSpec * list byte) :=
  '(h, b) ← de_string b; '(p, b) ← de_uint 16 b; '(u, b) ← de_string b;
  Some (mkTargetSpec h p u, b).

Definition ser_auth (a : AuthIntent) : list byte :=
  match a with
  | AuthIntent.DelegatedKey k => varint 0 ++ ser_bytes k
  | AuthIntent.Password s => varint 1 ++ ser_string s
  | AuthIntent.PrivateKey p o => varint 2 ++ ser_string p ++ ser_option ser_string o
  | AuthIntent.GatewayKey k => varint 3 ++ ser_string k
  end.
Definition de_auth (b : list byte) : option (AuthIntent * list byte) :=
  '(tag, b) ← de_uint 32 b;
  match tag with
  | 0 => '(k, b) ← de_bytes b; Some (AuthIntent.DelegatedKey k, b)
  | 1 => '(s, b) ← de_string b; Some (AuthIntent.Password s, b)
  | 2 => '(p, b) ← de_string b; '(o, b) ← de_option de_string b;
         Some (AuthIntent.PrivateKey p o, b)
  | 3 => '(k, b) ← de_string b; Some (AuthIntent.GatewayKey k, b)
  | _ => None
  end.

Definition ser_token (t : ResumeToken) : list byte := ser_bytes (resume_bytes t).
Definition de_token (b : list byte) : option (ResumeToken * list byte) :=
  '(t, b) ← de_bytes b; Some (mkResumeToken t, b).

Definition ser_client (f : ClientFrame) : list byte :=
  match f with
  | ClientFrame.Hello v n r t =>
      varint 0 ++ varint v ++ ser_string n ++ ser_option ser_token r ++ ser_option ser_bytes t
  | ClientFrame.Open t a c r => varint 1 ++ ser_target t ++ ser_auth a ++ varint c ++ varint r
  | ClientFrame.Data b => varint 2 ++ ser_bytes b
  | ClientFrame.Resize c r => varint 3 ++ varint c ++ varint r
  | ClientFrame.SignResponse i s => varint 4 ++ varint i ++ ser_bytes s
  | ClientFrame.Ping => varint 5
  | ClientFrame.Close => varint 6
  end.
Definition de_client (b : list byte) : option (ClientFrame * list byte) :=
  '(tag, b) ← de_uint 32 b;
  match tag with
  | 0 => '(v, b) ← de_uint 16 b; '(n, b) ← de_string b; '(r, b) ← de_option de_token b;
         '(t, b) ← de_option de_bytes b; Some (ClientFrame.Hello v n r t, b)
  | 1 => '(t, b) ← de_target b; '(a, b) ← de_auth b; '(c, b) ← de_uint 16 b;
         '(r, b) ← de_uint 16 b; Some (ClientFrame.Open t a c r, b)
  | 2 => '(d, b) ← de_bytes b; Some (ClientFrame.Data d, b)
  | 3 => '(c, b) ← de_uint 16 b; '(r, b) ← de_uint 16 b; Some (ClientFrame.Resize c r, b)
  | 4 => '(i, b) ← de_uint 64 b; '(s, b) ← de_bytes b; Some (ClientFrame.SignResponse i s, b)
  | 5 => Some (ClientFrame.Ping, b)
  | 6 => Some (ClientFrame.Close, b)
  | _ => None
  end.

Definition status_tag (s : SessionStatus) : Z :=
  match s with
  | SessionStatus.Connecting => 0 | SessionStatus.Authenticating => 1
  | SessionStatus.Live => 2 | SessionStatus.Detached => 3 | SessionStatus.Closed => 4
  end.
Definition de_status (b : list byte) : option (SessionStatus * list byte) :=
  '(tag, b) ← de_uint 32 b;
  match tag with
  | 0 => Some (SessionStatus.Connecting, b) | 1 => Some (SessionStatus.Authenticating, b)
  | 2 => Some (SessionStatus.Live, b) | 3 => Some (SessionStatus.Detached, b)
  | 4 => Some (SessionStatus.Closed, b) | _ => None
  end.

Definition ser_server (f : ServerFrame) : list byte :=
  match f with
  | ServerFrame.Hello v i d t => varint 0 ++ varint v ++ varint i ++ ser_bool d ++ ser_token t
  | ServerFrame.Data b => varint 1 ++ ser_bytes b
  | ServerFrame.SignRequest i k d => varint 2 ++ varint i ++ ser_bytes k ++ ser_bytes d
  | ServerFrame.Status s => varint 3 ++ varint (status_tag s)
  | ServerFrame.Pong => varint 4
  | ServerFrame.Error m => varint 5 ++ ser_string m
  | ServerFrame.Closed => varint 6
  end.
Definition de_server (b : list byte) : option (ServerFrame * list byte) :=
  '(tag, b) ← de_uint 32 b;
  match tag with
  | 0 => '(v, b) ← de_uint 16 b; '(i, b) ← de_uint 128 b; '(d, b) ← de_bool b;
         '(t, b) ← de_token b; Some (ServerFrame.Hello v i d t, b)
  | 1 => '(d, b) ← de_bytes b; Some (ServerFrame.Data d, b)
  | 2 => '(i, b) ← de_uint 64 b; '(k, b) ← de_bytes b; '(d, b) ← de_bytes b;
         Some (ServerFrame.SignRequest i k d, b)
  | 3 => '(s, b) ← de_status b; Some (ServerFrame.Status s, b)
  | 4 => Some (ServerFrame.Pong, b)
  | 5 => '(m, b) ← de_string b; Some (ServerFrame.Error m, b)
  | 6 => Some (ServerFrame.Closed, b)
  | _ => None
  end.

#[export] Instance client_serde : Serde ClientFrame := {| ser := ser_client; de := de_client |}.
#[export] Instance server_serde : Serde ServerFrame := {| ser := ser_server; de := de_server |}.

(** Parse what was just printed, field by field. *)
Ltac parse_back :=
  rewrite <-?app_assoc;
  repeat (first [ rewrite de_uint_varint by done | progress autorewrite with serde ]; cbn).

Lemma de_ser_token t rest : de_token (ser_token t ++ rest) = Some (t, rest).
Proof. destruct t. unfold de_token, ser_token. by parse_back. Qed.

Lemma de_ser_opt_bytes o rest :
  de_option de_bytes (ser_option ser_bytes o ++ rest) = Some (o, rest).
Proof. apply de_ser_option. intros. apply de_ser_bytes. Qed.

Lemma de_ser_opt_string o rest :
  de_option de_string (ser_option ser_string o ++ rest) = Some (o, rest).
Proof. apply de_ser_option. intros. apply de_ser_string. Qed.

Lemma de_ser_opt_token o rest :
  de_option de_token (ser_option ser_token o ++ rest) = Some (o, rest).
Proof. apply de_ser_option. intros. apply de_ser_token. Qed.

#[export] Hint Rewrite de_ser_token de_ser_opt_bytes de_ser_opt_string de_ser_opt_token : serde.

Lemma de_ser_auth a rest : de_auth (ser_auth a ++ rest) = Some (a, rest).
Proof. destruct a; unfold de_auth, ser_auth; by parse_back. Qed.

Lemma de_ser_target t rest : wf t -> de_target (ser_target t ++ rest) = Some (t, rest).
Proof.
  destruct t as [h p u]. unfold de_target, ser_target. cbn. intros Hp.
  by parse_back.
Qed.

Lemma de_ser_status s rest : de_status (varint (status_tag s) ++ rest) = Some (s, rest).
Proof. by destruct s. Qed.

#[export] Hint Rewrite de_ser_auth de_ser_status : serde.

(** Take apart a successful parse. *)
Ltac parsed H :=
  repeat match type of H with
    | _ ≫= _ = Some _ =>
        let E := fresh "E" in
        apply bind_Some in H as ([? ?] & E & H); try (apply de_uint_fits in E)
    end.

#[export] Instance client_serde_laws : SerdeLaws ClientFrame.
Proof.
  split.
  - intros f rest Hwf. destruct f; cbn in Hwf |- *; destruct_and?; unfold de_client, ser_client;
      parse_back; rewrite ?de_ser_target by done; cbn; by parse_back.
  - intros b f rest. cbn. unfold de_client. intros H.
    apply bind_Some in H as ([tag b'] & _ & H).
    destruct tag as [|[[|[]|]|[[]|[]|]|]|]; try done; parsed H; simplify_eq; cbn; auto.
    split_and!; [|done..].
    unfold de_target in *. match goal with E : _ ≫= _ = Some (?t, _) |- wf ?t => parsed E end.
    by simplify_eq.
Qed.

#[export] Instance server_serde_laws : SerdeLaws ServerFrame.
Proof.
  split.
  - intros f rest Hwf. destruct f; cbn in Hwf |- *; destruct_and?; unfold de_server, ser_server;
      by parse_back.
  - intros b f rest. cbn. unfold de_server. intros H.
    apply bind_Some in H as ([tag b'] & _ & H).
    destruct tag as [|[[|[]|]|[[]|[]|]|]|]; try done; parsed H; simplify_eq; cbn; auto.
Qed.

(** ** The [postcard] interface *)

#[export] Instance wire_error : PostcardError :=
  {| postcard_error := unit; postcard_display _ := "Postcard error" |}.

(** Trailing input is ignored, as [postcard::from_bytes] documents. *)
#[export] Instance serde_postcard {T} {S : Serde T} : Postcard T := {|
  to_stdvec x := Ok (ser x);
  from_bytes b := match de b with Some (x, _) => Ok x | None => Err tt end;
|}.

#[export] Instance serde_postcard_laws {T} {W : WellFormed T} {S : Serde T} {L : SerdeLaws T} :
  PostcardLaws T.
Proof.
  split.
  - intros x b Hwf [= <-]. cbn. rewrite <-(app_nil_r (ser x)). by rewrite de_ser.
  - intros x b. cbn. destruct (de b) as [[y rest]|] eqn:E; [|done].
    intros [= ->]. by eapply de_wf.
Qed.
