(* ===== verification/Framed.v ===== *)
(** * Frames over a byte stream ([crates/gw-transport/src/framed.rs])

    [FramedSend] and [FramedRecv] wrap the two halves of a QUIC stream of the
    third-party [quinn] crate.  The halves are parameters: [SendStream] and
    [RecvStream] hold the entry points the code calls, [SendStreamLaws] and
    [RecvStreamLaws] the documented behaviour of a reliable ordered stream.
    [Module Wire] gives the instance used by the witnesses: a stream whose
    whole contents are known. *)

From S2P Require Import Prelude Frame Codec WireFormat.

(** The errors of [quinn], with their renderings. *)
Class QuinnError : Type := {
  ConnectionError : Type;
  ConnectError : Type;
  WriteError : Type;
  ReadExactError : Type;
  quinn_display : ConnectionError + ConnectError + WriteError + ReadExactError -> string;
}.

(** [quinn::SendStream::write_all]; [written] is what the peer can read. *)
Class SendStream {QE : QuinnError} (S : Type) : Type := {
  write_all : S -> list byte -> Result unit WriteError * S;
  written : S -> list byte;
}.

(** A successful [write_all] appends all the bytes; a failed one a prefix. *)
Class SendStreamLaws {QE : QuinnError} (S : Type) {SS : SendStream S} : Prop := {
  write_all_ok (s s' : S) b u : write_all s b = (Ok u, s') -> written s' = written s ++ b;
  write_all_err (s s' : S) b e :
    write_all s b = (Err e, s') -> exists p, p `prefix_of` b /\ written s' = written s ++ p;
}.

(** [quinn::RecvStream::read_exact] into a buffer of [n] bytes; [unread] is
    what the peer wrote and the stream has not delivered yet. *)
Class RecvStream {QE : QuinnError} (R : Type) : Type := {
  read_exact : R -> usize -> Result (list byte) ReadExactError * R;
  unread : R -> list byte;
}.

(** [read_exact] delivers the next [n] bytes in order when there are that
    many, and fails when the stream ends before. *)
Class RecvStreamLaws {QE : QuinnError} (R : Type) {RS : RecvStream R} : Prop := {
  read_exact_ok (r : R) a rest :
    unread r = a ++ rest -> exists r', read_exact r (len a) = (Ok a, r') /\ unread r' = rest;
  read_exact_short (r : R) n :
    len (unread r) < n -> exists e r', read_exact r n = (Err e, r');
}.

Section Framed.
Context {PE : PostcardError} {QE : QuinnError}.

(** [gw_transport::TransportError]. [io_error] and [anyhow::Error] are carried
    as their renderings. *)
Inductive TransportError : Type :=
  | Connection (e : ConnectionError)
  | Connect (e : ConnectError)
  | Write (e : WriteError)
  | Read (e : ReadExactError)
  | Codec (e : CodecError)
  | Io (e : string)
  | FrameTooLarge (n : usize)
  | Other (e : string).

Definition TransportError_display (e : TransportError) : string :=
  match e with
  | Connection e => "connection: " +:+ quinn_display (inl (inl (inl e)))
  | Connect e => "connect: " +:+ quinn_display (inl (inl (inr e)))
  | Write e => "write: " +:+ quinn_display (inl (inr e))
  | Read e => "read: " +:+ quinn_display (inr e)
  | Codec e => "codec: " +:+ CodecError_display e
  | Io e => "io: " +:+ e
  | FrameTooLarge n => "frame too large: " +:+ fmt_int n +:+ " bytes"
  | Other e => e
  end.

(** [FramedSend::send]: serialize and write one frame. *)
Definition send {S} {SS : SendStream S} {T} {P : Postcard T}
    (self : S) (frame : T) : Result unit TransportError * S :=
  match encode_framed frame with
  | Err e => (Err (Codec e), self)
  | Ok bytes =>
      let '(r, self) := write_all self bytes in
      (map_err Write r, self)
  end.

(** [FramedRecv::recv]: read one frame. *)
Definition recv {R} {RS : RecvStream R} {T} {P : Postcard T}
    (self : R) : Result T TransportError * R :=
  match read_exact self LEN_PREFIX with
  | (Err e, self) => (Err (Read e), self)
  | (Ok prefix, self) =>
      let n := from_be_bytes prefix in
      if decide (MAX_FRAME_LEN < n) then (Err (FrameTooLarge n), self)
      else
        match read_exact self n with
        | (Err e, self) => (Err (Read e), self)
        | (Ok body, self) => (map_err Codec (decode body), self)
        end
  end.

(** ** One frame *)

Section Recv.
Context {R : Type} {RS : RecvStream R} {RL : RecvStreamLaws R}.
Context {T : Type} {W : WellFormed T} {P : Postcard T}.
Implicit Types (r : R) (f : T) (a b rest out : list byte).

Lemma read_exact_n r a rest n :
  unread r = a ++ rest -> n = len a ->
  exists r', read_exact r n = (Ok a, r') /\ unread r' = rest.
Proof. intros Hr ->. by apply read_exact_ok. Qed.

(** What [recv] does on a stream that holds a complete message. *)
Lemma recv_body r a b rest :
  unread r = a ++ b ++ rest -> len a = LEN_PREFIX -> from_be_bytes a = len b ->
  len b <= MAX_FRAME_LEN ->
  exists r', recv (T:=T) r = (map_err Codec (decode b), r') /\ unread r' = rest.
Proof.
  intros Hr Ha Hn Hmax.
  destruct (read_exact_n _ _ _ LEN_PREFIX Hr) as (r1 & E1 & Hr1); [done|].
  destruct (read_exact_n _ _ _ (len b) Hr1) as (r2 & E2 & Hr2); [done|].
  exists r2. unfold recv. rewrite E1, Hn, decide_False, E2 by lia. done.
Qed.

Lemma recv_too_large r a rest :
  unread r = a ++ rest -> len a = LEN_PREFIX -> MAX_FRAME_LEN < from_be_bytes a ->
  exists r', recv (T:=T) r = (Err (FrameTooLarge (from_be_bytes a)), r') /\ unread r' = rest.
Proof.
  intros Hr Ha Hn.
  destruct (read_exact_n _ _ _ LEN_PREFIX Hr) as (r1 & E1 & Hr1); [done|].
  exists r1. unfold recv. by rewrite E1, decide_True by lia.
Qed.

Lemma recv_short_prefix r :
  len (unread r) < LEN_PREFIX -> exists e r', recv (T:=T) r = (Err (Read e), r').
Proof.
  intros Hr. destruct (read_exact_short _ _ Hr) as (e & r' & E).
  exists e, r'. unfold recv. by rewrite E.
Qed.

Lemma recv_short_body r a b :
  unread r = a ++ b -> len a = LEN_PREFIX -> len b < from_be_bytes a ->
  from_be_bytes a <= MAX_FRAME_LEN ->
  exists e r', recv (T:=T) r = (Err (Read e), r').
Proof.
  intros Hr Ha Hb Hn.
  destruct (read_exact_n _ _ _ LEN_PREFIX Hr) as (r1 & E1 & Hr1); [done|].
  rewrite <-Hr1 in Hb. destruct (read_exact_short _ _ Hb) as (e & r2 & E2).
  exists e, r2. unfold recv. by rewrite E1, decide_False, E2 by lia.
Qed.

Context {PL : PostcardLaws T}.

Lemma recv_framed r f out rest :
  unread r = out ++ rest -> encode_framed f = Ok out -> wf f ->
  exists r', recv r = (Ok f, r') /\ unread r' = rest.
Proof.
  intros Hr Henc Hf. apply encode_framed_ok_inv in Henc as (body & Hser & Hmax & ->).
  rewrite <-app_assoc in Hr.
  assert (fits 32 (len body)).
  { unfold fits, MAX_FRAME_LEN in *. pose proof (len_nonneg body). lia. }
  destruct (recv_body _ _ _ _ Hr) as (r' & E & Hr'); [done|by rewrite from_to_be_bytes|done|].
  exists r'. rewrite E. unfold decode. by erewrite from_to_bytes.
Qed.

(** A message cut short is never delivered. *)
Lemma recv_truncated r f out :
  unread r `prefix_of` out -> unread r <> out -> encode_framed f = Ok out ->
  exists e r', recv (T:=T) r = (Err (Read e), r').
Proof.
  intros [k Hk] Hne Henc. apply encode_framed_ok_inv in Henc as (body & _ & Hmax & ->).
  destruct (decide (len (unread r) < LEN_PREFIX)) as [|Hlen]; [by apply recv_short_prefix|].
  assert (Hfit : fits 32 (len body)).
  { unfold fits, MAX_FRAME_LEN in *. pose proof (len_nonneg body). lia. }
  assert (Hsplit : unread r = to_be_bytes (len body) ++ drop 4 (unread r)).
  { rewrite <-(take_drop 4 (unread r)) at 1. f_equal.
    apply (f_equal (take 4)) in Hk. rewrite (take_app_le (unread r)) in Hk.
    - symmetry. exact Hk.
    - unfold LEN_PREFIX, len in Hlen. lia. }
  assert (Hbody : body = drop 4 (unread r) ++ k).
  { rewrite Hsplit, <-app_assoc in Hk. by apply app_inv_head in Hk. }
  eapply (recv_short_body _ _ _ Hsplit); rewrite ?from_to_be_bytes by done; [done| |done].
  assert (k <> []) by (intros ->; by rewrite app_nil_r in *; congruence).
  apply (f_equal len) in Hbody. rewrite Hbody. destruct k; [done|]. clear. len_solve.
Qed.

(** C31: receiving a frame, on every state of the stream.  With fewer than four
    bytes, or fewer than the announced length, the read fails; an announced
    length above [MAX_FRAME_LEN] is refused after the four bytes, before any
    body is allocated or read; otherwise exactly the announced bytes are
    consumed and decoded, and the rest of the stream is left for the next
    frame.  A length the sender may produce is never refused. *)
Theorem recv_spec r :
  match decide (len (unread r) < LEN_PREFIX) with
  | left _ => exists e r', recv (T:=T) r = (Err (Read e), r')
  | right _ =>
      let n := from_be_bytes (take 4 (unread r)) in
      let rest := drop 4 (unread r) in
      0 <= n < 2 ^ 32 /\
      if decide (MAX_FRAME_LEN < n) then
        exists r', recv (T:=T) r = (Err (FrameTooLarge n), r') /\ unread r' = rest
      else if decide (len rest < n) then
        exists e r', recv (T:=T) r = (Err (Read e), r')
      else
        exists r', recv (T:=T) r = (map_err Codec (decode (take (Z.to_nat n) rest)), r') /\
          unread r' = drop (Z.to_nat n) rest
  end.
Proof.
  case_decide as Hlen; [by apply recv_short_prefix|].
  set (a := take 4 (unread r)). set (rest := drop 4 (unread r)).
  assert (Hr : unread r = a ++ rest) by (symmetry; apply take_drop).
  assert (Ha : len a = LEN_PREFIX) by (unfold a, LEN_PREFIX in *; len_solve).
  split. { pose proof (from_be_bytes_fits a) as Hb. by rewrite Ha in Hb. }
  case_decide; [by apply recv_too_large|].
  case_decide; [by eapply recv_short_body; eauto with lia|].
  pose proof (from_be_bytes_fits a) as [Hpos _].
  set (n := Z.to_nat (from_be_bytes a)).
  apply (recv_body r a); [by rewrite take_drop|done| |].
  - unfold n. rewrite len_take. lia.
  - rewrite len_take. lia.
Qed.

End Recv.

(** ** Whole streams *)

Section Streams.
Context {S : Type} {SS : SendStream S} {SL : SendStreamLaws S}.
Context {R : Type} {RS : RecvStream R} {RL : RecvStreamLaws R}.
Context {T : Type} {W : WellFormed T} {P : Postcard T} {PL : PostcardLaws T}.
Implicit Types (s : S) (r : R) (f : T).

(** A peer sending frames one after the other, until a send fails: the result
    and how many were sent. *)
Fixpoint send_all s (fs : list T) : Result unit TransportError * nat * S :=
  match fs with
  | [] => (Ok tt, 0%nat, s)
  | f :: fs =>
      match send s f with
      | (Ok _, s) => let '(res, n, s) := send_all s fs in (res, Datatypes.S n, s)
      | (Err e, s) => (Err e, 0%nat, s)
      end
  end.

(** A peer receiving until a receive fails, at most [n] frames. *)
Fixpoint recv_all (n : nat) r : list T * option TransportError * R :=
  match n with
  | O => ([], None, r)
  | Datatypes.S n =>
      match recv r with
      | (Ok f, r) => let '(fs, e, r) := recv_all n r in (f :: fs, e, r)
      | (Err e, r) => ([], Some e, r)
      end
  end.

Lemma send_inv s f res s' :
  send s f = (res, s') ->
  match res with
  | Ok _ => exists out, encode_framed f = Ok out /\ written s' = written s ++ out
  | Err _ => exists p out, p `prefix_of` out /\ written s' = written s ++ p /\
               (encode_framed f = Ok out \/ p = [])
  end.
Proof.
  unfold send. destruct (encode_framed f) as [out|e] eqn:E.
  - destruct (write_all s out) as [[u|e] s1] eqn:Ew; intros [= <- <-]; cbn.
    + eexists. split; [done|]. by eapply write_all_ok.
    + apply write_all_err in Ew as (p & Hp & Hw). exists p, out. auto.
  - intros [= <- <-]. exists [], []. rewrite app_nil_r. auto.
Qed.

Lemma send_all_appends fs : forall s res n s',
  send_all s fs = (res, n, s') -> exists w, written s' = written s ++ w.
Proof.
  induction fs as [|f fs IH]; intros s res n s'; cbn.
  { intros [= <- <- <-]. exists []. by rewrite app_nil_r. }
  destruct (send s f) as [[u|e] s1] eqn:E; apply send_inv in E.
  - destruct E as (out & _ & E). destruct (send_all s1 fs) as [[res1 n1] s2] eqn:E2.
    intros [= <- <- <-]. apply IH in E2 as [w E2]. exists (out ++ w).
    by rewrite E2, E, app_assoc.
  - intros [= <- <- <-]. destruct E as (p & _ & _ & E & _). eauto.
Qed.

Lemma recv_all_ended m r :
  unread r = [] -> exists e r', recv_all (Datatypes.S m) r = (@nil T, Some (Read e), r').
Proof.
  intros Hr. destruct (recv_short_prefix (T:=T) r) as (e & r' & E).
  { by rewrite Hr. }
  exists e, r'. cbn. by rewrite E.
Qed.

(** The frame whose send failed is received whole or not at all. *)
Lemma recv_all_cut m r f out p :
  wf f -> unread r = p -> p `prefix_of` out ->
  encode_framed f = Ok out \/ p = [] ->
  exists k e r', (k <= 1)%nat /\
    recv_all (Datatypes.S (Datatypes.S m)) r = (take k [f], Some (Read e), r').
Proof.
  intros Hf Hr Hp [Henc|Hnil].
  - destruct (decide (p = out)) as [->|Hne].
    + destruct (recv_framed r f out []) as (r1 & E & Hr1); [by rewrite app_nil_r|done|done|].
      destruct (recv_all_ended m r1 Hr1) as (e & r2 & E2).
      exists 1%nat, e, r2. split; [lia|]. cbn in *. by rewrite E, E2.
    + destruct (recv_truncated r f out) as (e & r1 & E); [by rewrite Hr|by rewrite Hr|done|].
      exists 0%nat, e, r1. split; [lia|]. cbn. by rewrite E.
  - destruct (recv_all_ended (Datatypes.S m) r) as (e & r1 & E); [by rewrite Hr|].
    exists 0%nat, e, r1. split; [lia|]. exact E.
Qed.

(** C30: the frames one peer sends are the frames the other receives.
    However the sender's run ends, a receiver that reads everything written
    gets a prefix of the frames sent, in order and unaltered, then a read
    error at the end of the stream: every frame whose send succeeded, and
    beyond those at most the one frame whose write failed. *)
Theorem stream_delivers_sent_frames fs : forall s s' r res n,
  Forall wf fs -> send_all s fs = (res, n, s') -> written s' = written s ++ unread r ->
  exists k e r', recv_all (Datatypes.S (length fs)) r = (take k fs, Some (Read e), r') /\
    (n <= k <= Datatypes.S n)%nat /\ (is_ok res -> k = length fs).
Proof.
  induction fs as [|f fs IH]; intros s s' r res n Hwf.
  { cbn [send_all]. intros [= <- <- <-] Hw.
    rewrite <-(app_nil_r (written s)) in Hw at 1. apply app_inv_head in Hw.
    destruct (recv_all_ended 0 r) as (e & r' & E); [done|].
    exists 0%nat, e, r'. cbn in *. auto with lia. }
  apply Forall_cons in Hwf as [Hf Hwf]. cbn [send_all length].
  destruct (send s f) as [[u|err] s1] eqn:E; apply send_inv in E.
  - destruct E as (out & Henc & E1). destruct (send_all s1 fs) as [[res1 n1] s2] eqn:E2.
    intros [= <- <- <-] Hw. destruct (send_all_appends _ _ _ _ _ E2) as [w Happ].
    rewrite E1, <-app_assoc in Happ. rewrite Happ in Hw. apply app_inv_head in Hw.
    destruct (recv_framed r f out w) as (r1 & Er & Hr1); [done|done|done|].
    destruct (IH s1 s2 r1 res1 n1) as (k & e & r' & Ek & Hk & Hok); [done|done| |].
    { by rewrite Happ, E1, Hr1, app_assoc. }
    exists (Datatypes.S k), e, r'. split_and!; [|lia..|].
    + cbn [recv_all length take] in Ek |- *. by rewrite Er, Ek.
    + intros Hres. by rewrite Hok.
  - intros [= <- <- <-] Hw. destruct E as (p & out & Hp & E1 & Henc).
    rewrite E1 in Hw. apply app_inv_head in Hw as Hr.
    destruct (recv_all_cut (length fs) r f out p) as (k & e & r' & Hk & Ek); [done..|].
    exists k, e, r'. rewrite Ek. split_and!; [|lia..|done].
    do 2 f_equal. destruct k as [|[|]]; [done..|lia].
Qed.

End Streams.

End Framed.

(** ** An instance of the stream interface *)

Module Wire.

#[export] Instance quinn_error : QuinnError := {|
  ConnectionError := unit; ConnectError := unit; WriteError := unit; ReadExactError := unit;
  quinn_display _ := "stream error";
|}.

(** A connection that carries [budget] more bytes and then fails. *)
Record Outgoing : Type := mkOutgoing { sent : list byte; budget : nat }.

#[export] Instance outgoing_stream : SendStream Outgoing := {|
  write_all s b :=
    (if decide (length b <= budget s)%nat then Ok tt else Err tt,
     mkOutgoing (sent s ++ take (budget s) b) (budget s - length b));
  written := sent;
|}.

#[export] Instance outgoing_laws : SendStreamLaws Outgoing.
Proof.
  split; intros s s' b ?; cbn; case_decide; intros [=]; subst; cbn.
  - by rewrite take_ge by lia.
  - eexists. split; [|done]. apply prefix_take.
Qed.

(** What remains to be read, all of it known. *)
#[export] Instance incoming_stream : RecvStream (list byte) := {|
  read_exact r n :=
    if decide (n <= len r) then (Ok (take (Z.to_nat n) r), drop (Z.to_nat n) r)
    else (Err tt, []);
  unread r := r;
|}.

#[export] Instance incoming_laws : RecvStreamLaws (list byte).
Proof.
  split; cbn.
  - intros r a rest ->. rewrite decide_True by len_solve.
    unfold len. rewrite Nat2Z.id, take_app_length, drop_app_length. eauto.
  - intros r n Hn. rewrite decide_False by lia. eauto.
Qed.

End Wire.

(** ** Witnesses *)

Module Witness.
Import Wire.

Definition frames : list ClientFrame :=
  [ClientFrame.Ping; ClientFrame.Data [x61; x62]; ClientFrame.Resize 80 24].

(** The connection dies while the last of the three frames is written. *)
Definition cut : Outgoing := mkOutgoing [] 14.

(** What the peer had written when the third send failed. *)
Definition cut_output : list byte := sent (send_all cut frames).2.

Lemma stream_witness :
  send_all cut frames = (Err (Write tt), 2%nat, mkOutgoing cut_output 0) /\
  exists k e r',
    recv_all 4 cut_output = (take k frames, Some (Read e), r') /\ (2 <= k <= 3)%nat /\
    (is_ok (@Err unit _ (Write tt)) -> k = 3%nat).
Proof.
  assert (H : send_all cut frames = (Err (Write tt), 2%nat, mkOutgoing cut_output 0))
    by (vm_compute; reflexivity).
  assert (Hwf : Forall wf frames) by (repeat constructor; vm_compute; congruence).
  split; [exact H|].
  by apply (stream_delivers_sent_frames frames cut _ cut_output _ 2 Hwf H).
Defined.

(** A stream whose prefix announces more than [MAX_FRAME_LEN] bytes. *)
Definition hostile : list byte := [xff; xff; xff; xff; x00].

Lemma recv_witness :
  exists r', recv (T:=ClientFrame) hostile = (Err (FrameTooLarge 4294967295), r') /\
    r' = [x00].
Proof. exact (proj2 (recv_spec (T:=ClientFrame) hostile)). Defined.

End Witness.
