(* ===== verification/Link.v ===== *)
(** * The control stream, as the gateway's handler uses it

    [Link] is what the handler asks of a client's connection: frames go out
    and frames come in.  [LinkLaws] is what it may rely on, and what the
    handler's theorems are proved against.  [framed_link] implements it with
    the framed QUIC streams of Framed.v; a ghost log records what was sent,
    and [framed_link_wire] shows the log is what is on the wire. *)

From S2P Require Import Prelude Frame Codec Framed.

(** A call is [None] when it never completes: the connection is up, but the client
    sends nothing more, or takes nothing more. *)
Class Link {PE : PostcardError} {QE : QuinnError} (L : Type) : Type := {
  link_send : L -> ServerFrame -> option (Result unit TransportError * L);
  link_recv : L -> option (Result ClientFrame TransportError * L);
  (** The frames sent successfully, in order. *)
  sent : L -> list ServerFrame;
}.

Class LinkLaws {PE : PostcardError} {QE : QuinnError} (L : Type) {LK : Link L} : Prop := {
  link_send_ok (l l' : L) f u : link_send l f = Some (Ok u, l') -> sent l' = sent l ++ [f];
  link_send_err (l l' : L) f e : link_send l f = Some (Err e, l') -> sent l' = sent l;
  link_recv_sent (l l' : L) r : link_recv l = Some (r, l') -> sent l' = sent l;
}.

(** The client sends [fs], to a gateway that receives them. *)
Inductive receives `{Link L} : L -> list ClientFrame -> L -> Prop :=
  | receives_nil l : receives l [] l
  | receives_cons l f l1 fs l' :
      link_recv l = Some (Ok f, l1) -> receives l1 fs l' -> receives l (f :: fs) l'.

(** ** The framed streams are a link *)

(** [quinn]'s flow control and the other end decide whether a call on a stream
    completes at all. *)
Class Stalls (S R : Type) : Type := {
  send_stalls : S -> ServerFrame -> bool;
  recv_stalls : R -> bool;
}.

Section FramedLink.
Context {PE : PostcardError} {QE : QuinnError}.
Context {S : Type} {SS : SendStream S} {SL : SendStreamLaws S}.
Context {R : Type} {RS : RecvStream R} {RL : RecvStreamLaws R}.
Context {PS : Postcard ServerFrame} {PC : Postcard ClientFrame} {ST : Stalls S R}.

(** [gw_transport::ClientConnection], with the log. *)
Record FramedLink : Type := mkFramedLink { tx : S; rx : R; log : list ServerFrame }.

#[export] Instance framed_link : Link FramedLink := {|
  link_send l f :=
    if send_stalls (R:=R) (tx l) f then None
    else let '(r, s) := send (tx l) f in
      Some (r, mkFramedLink s (rx l) (if is_ok r then log l ++ [f] else log l));
  link_recv l :=
    if recv_stalls (S:=S) (rx l) then None
    else let '(r, r') := recv (rx l) in Some (r, mkFramedLink (tx l) r' (log l));
  sent := log;
|}.

#[export] Instance framed_link_laws : LinkLaws FramedLink.
Proof.
  split; intros l l' *; cbn.
  - destruct (send_stalls _ _); [done|]. destruct (send (tx l) f) as [[]]; by intros [= <- <-].
  - destruct (send_stalls _ _); [done|]. destruct (send (tx l) f) as [[]]; by intros [= <- <-].
  - destruct (recv_stalls _); [done|]. destruct (recv (rx l)). by intros [= <- <-].
Qed.

(** The bytes of a sequence of frames. *)
Fixpoint wire (fs : list ServerFrame) : option (list byte) :=
  match fs with
  | [] => Some []
  | f :: fs =>
      match encode_framed f with
      | Ok out => rest ← wire fs; Some (out ++ rest)
      | Err _ => None
      end
  end.

Lemma wire_snoc fs : forall f b out,
  wire fs = Some b -> encode_framed f = Ok out -> wire (fs ++ [f]) = Some (b ++ out).
Proof.
  induction fs as [|g fs IH]; intros f b out Hb Hout; cbn in *.
  - injection Hb as <-. rewrite Hout. cbn. by rewrite app_nil_r.
  - destruct (encode_framed g) as [o|]; [|done]. apply bind_Some in Hb as (rest & Hr & [= <-]).
    rewrite (IH _ _ _ Hr Hout). cbn. by rewrite app_assoc.
Qed.

(** The log is on the wire: as long as every send succeeded, the bytes the
    client can read are those of the logged frames. *)
Lemma framed_link_wire l f l' b :
  wire (log l) = Some b -> written (tx l) = b -> link_send l f = Some (Ok tt, l') ->
  exists b', wire (log l') = Some b' /\ written (tx l') = b'.
Proof.
  intros Hb Hw. cbn. destruct (send_stalls _ _); [done|]. destruct (send (tx l) f) as [r s] eqn:E. intros [= -> <-].
  apply send_inv in E as (out & Hout & E). cbn. exists (b ++ out).
  split; [by apply wire_snoc|by rewrite E, Hw].
Qed.

End FramedLink.
