(* ===== verification/Scrollback.v ===== *)
(** * The scrollback buffer ([crates/gw-core/src/lib.rs], [SessionInner] and
    [SessionReader])

    A session keeps the last [max_bytes] bytes its target wrote, addressed by
    their offset in the whole output.  [SessionInner] and [append] are the
    buffer, [next_poll] is the critical section of [SessionReader::next].

    [Module Spec] is what the component promises: the whole output is one
    list, a reader is a position in it, and reading delivers everything from
    that position on, less what has aged out.  [run_refines] shows that the
    buffer implements it. *)

From S2P Require Import Prelude.

(** Default bound on per-session scrollback. *)
Definition DEFAULT_SCROLLBACK_BYTES : usize := 256 * 1024.

Record SessionInner : Type := mkSessionInner {
  buf : list byte;
  start_offset : u64;
  end_offset : u64;
  closed : bool;
  max_bytes : usize;
}.

(** The buffer [Session::spawn] starts with. *)
Definition new_inner (max_bytes : usize) : SessionInner :=
  mkSessionInner [] 0 0 false max_bytes.

(** [SessionInner::append]. *)
Definition append (self : SessionInner) (data : list byte) : SessionInner :=
  let buf := buf self ++ data in
  let end_offset := wrap 64 (end_offset self + len data) in
  if decide (max_bytes self < len buf) then
    let excess := len buf - max_bytes self in
    mkSessionInner (drop (Z.to_nat excess) buf)
      (wrap 64 (start_offset self + excess)) end_offset (closed self) (max_bytes self)
  else mkSessionInner buf (start_offset self) end_offset (closed self) (max_bytes self).

(** [inner.closed = true]. *)
Definition set_closed (self : SessionInner) : SessionInner :=
  mkSessionInner (buf self) (start_offset self) (end_offset self) true (max_bytes self).

(** The outcome of one turn of the loop of [SessionReader::next]: a return,
    a wait for the next notification, or a slice index out of range. *)
Inductive Poll : Type :=
  | Ready (chunk : option (list byte))
  | Pending
  | Panic.

(** One turn, under the lock: the outcome and the new cursor. *)
Definition next_poll (inner : SessionInner) (cursor : u64) : Poll * u64 :=
  let cursor := if decide (cursor < start_offset inner) then start_offset inner else cursor in
  if decide (cursor < end_offset inner) then
    let lo := wrap 64 (cursor - start_offset inner) in
    if decide (lo <= len (buf inner)) then
      (Ready (Some (drop (Z.to_nat lo) (buf inner))), end_offset inner)
    else (Panic, cursor)
  else if closed inner then (Ready None, cursor)
  else (Pending, cursor).

#[export] Instance Poll_eq_dec : EqDecision Poll.
Proof. solve_decision. Defined.

(** What happens to a session that one reader is attached to. *)
Inductive Event : Type :=
  | Output (data : list byte)  (* the target wrote [data] *)
  | Ended                      (* the target's session ended *)
  | Attach                     (* [Session::reader]: a reader from the start *)
  | Next.                      (* a turn of [SessionReader::next] *)

(** The results of the [Next] events. *)
Fixpoint run (inner : SessionInner) (cursor : u64) (evs : list Event) : list Poll :=
  match evs with
  | [] => []
  | Output data :: evs => run (append inner data) cursor evs
  | Ended :: evs => run (set_closed inner) cursor evs
  | Attach :: evs => run inner 0 evs
  | Next :: evs => let '(p, cursor) := next_poll inner cursor in p :: run inner cursor evs
  end.

(** ** The contract *)

Module Spec.
Section Spec.
Context (max : Z).

(** Offset of the oldest byte still held. *)
Definition oldest (hist : list byte) : Z := Z.max 0 (len hist - max).

(** Reading from position [cur] of the output [hist]. *)
Definition read (hist : list byte) (ended : bool) (cur : Z) : Poll * Z :=
  let cur := Z.max cur (oldest hist) in
  if decide (cur < len hist) then (Ready (Some (drop (Z.to_nat cur) hist)), len hist)
  else (if ended then Ready None else Pending, cur).

Fixpoint run (hist : list byte) (ended : bool) (cur : Z) (evs : list Event) : list Poll :=
  match evs with
  | [] => []
  | Output data :: evs => run (hist ++ data) ended cur evs
  | Ended :: evs => run hist true cur evs
  | Attach :: evs => run hist ended 0 evs
  | Next :: evs => let '(p, cur) := read hist ended cur in p :: run hist ended cur evs
  end.

End Spec.
End Spec.

(** Everything the target writes over a run. *)
Fixpoint total (evs : list Event) : list byte :=
  match evs with
  | [] => []
  | Output data :: evs => data ++ total evs
  | _ :: evs => total evs
  end.

(** ** The buffer represents the output *)

(** The buffer [inner] after the target wrote [hist]. *)
Record represents (inner : SessionInner) (hist : list byte) : Prop := {
  rep_max : 0 <= max_bytes inner;
  rep_buf : buf inner = last_n (max_bytes inner) hist;
  rep_start : start_offset inner = Spec.oldest (max_bytes inner) hist;
  rep_end : end_offset inner = len hist;
}.

Lemma represents_new m : 0 <= m -> represents (new_inner m) [].
Proof.
  intros Hm. split; cbn; [done|by unfold last_n; rewrite drop_nil| |done].
  unfold Spec.oldest. len_solve.
Qed.

Lemma represents_closed inner hist : represents inner hist -> represents (set_closed inner) hist.
Proof. intros []. by split. Qed.

Lemma max_append inner data : max_bytes (append inner data) = max_bytes inner.
Proof. unfold append. by case_decide. Qed.

Lemma closed_append inner data : closed (append inner data) = closed inner.
Proof. unfold append. by case_decide. Qed.

(** The buffer after an append, whatever branch was taken. *)
Lemma buf_append inner data :
  buf (append inner data) = last_n (max_bytes inner) (buf inner ++ data).
Proof. unfold append. case_decide; cbn; [done|]. symmetry. apply last_n_all. lia. Qed.

Lemma end_append inner data :
  end_offset (append inner data) = wrap 64 (end_offset inner + len data).
Proof. unfold append. by case_decide. Qed.

Lemma start_append inner data :
  fits 64 (start_offset inner) ->
  start_offset (append inner data) =
  wrap 64 (start_offset inner + Z.max 0 (len (buf inner ++ data) - max_bytes inner)).
Proof.
  intros Hs. unfold append. case_decide; cbn; [by rewrite Z.max_r by lia|].
  rewrite Z.max_l, Z.add_0_r by lia. symmetry. by apply wrap_id.
Qed.

Lemma represents_append inner hist data :
  represents inner hist -> len (hist ++ data) < 2 ^ 64 ->
  represents (append inner data) (hist ++ data).
Proof.
  intros [Hm Hb Hs He] Hlen. unfold Spec.oldest in Hs.
  split; rewrite ?max_append; [done| | |].
  - by rewrite buf_append, Hb, last_n_app.
  - rewrite start_append, Hs, Hb by (unfold fits; len_solve).
    unfold Spec.oldest. rewrite wrap_id; len_solve || (unfold fits; len_solve).
  - rewrite end_append, He, len_app. apply wrap_id. unfold fits. len_solve.
Qed.

Lemma last_n_drop m hist : last_n m hist = drop (Z.to_nat (Spec.oldest m hist)) hist.
Proof. unfold last_n, Spec.oldest. f_equal. lia. Qed.

Lemma oldest_bounds m hist : 0 <= m -> 0 <= Spec.oldest m hist <= len hist.
Proof. unfold Spec.oldest. len_solve. Qed.

(** A turn of [next] on a buffer that represents [hist] reads [hist]. *)
Lemma next_poll_read inner hist cursor :
  represents inner hist -> 0 <= cursor <= len hist -> len hist < 2 ^ 64 ->
  next_poll inner cursor = Spec.read (max_bytes inner) hist (closed inner) cursor.
Proof.
  intros [Hm Hb Hs He] Hc Hlen. unfold next_poll, Spec.read. rewrite Hs, He, Hb, last_n_drop.
  pose proof (oldest_bounds _ hist Hm) as Ho.
  set (o := Spec.oldest (max_bytes inner) hist) in *.
  replace (if decide (cursor < o) then o else cursor) with (Z.max cursor o)
    by (case_decide; lia).
  set (c := Z.max cursor o). case_decide as Hlt; [|by destruct (closed inner)].
  rewrite wrap_id by (unfold fits; lia). rewrite decide_True by len_solve.
  rewrite drop_drop. do 4 f_equal. lia.
Qed.

Lemma read_cursor m hist ended cur p cur' :
  0 <= m -> 0 <= cur <= len hist -> Spec.read m hist ended cur = (p, cur') ->
  0 <= cur' <= len hist.
Proof.
  intros Hm Hc. pose proof (oldest_bounds m hist Hm). unfold Spec.read.
  case_decide; intros [= <- <-]; lia.
Qed.

Lemma run_represents evs : forall inner hist cur,
  represents inner hist -> 0 <= cur <= len hist -> len (hist ++ total evs) < 2 ^ 64 ->
  run inner cur evs = Spec.run (max_bytes inner) hist (closed inner) cur evs.
Proof.
  induction evs as [|[data| | |] evs IH]; intros inner hist cur Hrep Hc Hlen;
    cbn [run Spec.run total] in *; [done|..].
  - rewrite app_assoc in Hlen.
    rewrite (IH _ (hist ++ data)), max_append, closed_append; [done| |len_solve|done].
    apply represents_append; [done|len_solve].
  - by rewrite (IH _ hist) by (done || by apply represents_closed).
  - rewrite (IH _ hist) by (done || len_solve). done.
  - rewrite (next_poll_read _ hist) by (done || len_solve).
    destruct (Spec.read _ _ _ _) as [p cur'] eqn:E. f_equal.
    apply IH; [done| |done]. eapply read_cursor; [apply Hrep|exact Hc|exact E].
Qed.

(** C6: the bounded buffer with its two offsets implements reading from the
    whole output of the session: for any bound and any interleaving of
    output, end of session, attaching readers and reads, every read returns
    what the contract says, as long as the session writes less than 2^64
    bytes in its lifetime. *)
Theorem run_refines m evs :
  0 <= m -> len (total evs) < 2 ^ 64 ->
  run (new_inner m) 0 evs = Spec.run m [] false 0 evs.
Proof. intros Hm Hlen. apply run_represents; [by apply represents_new|done|done]. Qed.

(** ** Consequences *)

(** The bytes a run of reads delivered. *)
Fixpoint received (ps : list Poll) : list byte :=
  match ps with
  | Ready (Some chunk) :: ps => chunk ++ received ps
  | _ :: ps => received ps
  | [] => []
  end.

Section Consequences.
Context (m : Z) (Hm : 0 <= m).
Implicit Types (evs : list Event) (hist : list byte).

Lemma spec_polls_bounded evs : forall hist ended cur,
  0 <= cur <= len hist ->
  Forall (fun p => match p with
                   | Ready (Some chunk) => 0 < len chunk <= m
                   | Panic => False
                   | _ => True
                   end) (Spec.run m hist ended cur evs).
Proof.
  induction evs as [|[data| | |] evs IH]; intros hist ended cur Hc; cbn [Spec.run];
    [constructor|apply IH; len_solve|apply IH; done|apply IH; len_solve|].
  destruct (Spec.read m hist ended cur) as [p cur'] eqn:E.
  constructor; [|apply IH; by eapply read_cursor].
  pose proof (oldest_bounds m hist Hm). revert E. unfold Spec.read, Spec.oldest in *.
  case_decide; intros [= <- <-]; [len_solve|by destruct ended].
Qed.

End Consequences.

Lemma run_polls_bounded m evs p :
  0 <= m -> len (total evs) < 2 ^ 64 -> p ∈ run (new_inner m) 0 evs ->
  match p with
  | Ready (Some chunk) => 0 < len chunk <= m
  | Panic => False
  | _ => True
  end.
Proof.
  intros Hm Hlen Hp. rewrite (run_represents _ _ []) in Hp
    by (done || by apply represents_new).
  pose proof (spec_polls_bounded m Hm evs [] false 0 ltac:(done)) as Hall.
  rewrite Forall_forall in Hall. by apply Hall.
Qed.

(** No read panics on its slice index, no chunk is empty, and no chunk is
    longer than the scrollback bound, whatever happened to the session
    before. *)
Theorem polls_bounded m evs p :
  0 <= m -> len (total evs) < 2 ^ 64 -> p ∈ run (new_inner m) 0 evs ->
  p <> Panic /\ forall chunk, p = Ready (Some chunk) -> 0 < len chunk <= m.
Proof.
  intros Hm Hlen Hp. pose proof (run_polls_bounded m evs p Hm Hlen Hp).
  destruct p as [[chunk|]| |]; [|done..]. split; [done|]. by intros ? [= <-].
Qed.

(** ** Readers that keep up *)

(** Between two reads the target writes at most [m] bytes ([pending] of them
    already), and no other reader takes over. *)
Fixpoint keeps_up (m pending : Z) (evs : list Event) : Prop :=
  match evs with
  | [] => True
  | Output data :: evs => pending + len data <= m /\ keeps_up m (pending + len data) evs
  | Ended :: evs => keeps_up m pending evs
  | Attach :: _ => False
  | Next :: evs => keeps_up m 0 evs
  end.

Lemma read_all m hist ended cur :
  0 <= cur <= len hist -> len hist - cur <= m ->
  exists p, Spec.read m hist ended cur = (p, len hist) /\
    received [p] = drop (Z.to_nat cur) hist.
Proof.
  intros Hc Hm. unfold Spec.read, Spec.oldest. rewrite Z.max_l by len_solve.
  case_decide.
  - eexists. split; [done|]. cbn. by rewrite app_nil_r.
  - replace cur with (len hist) by lia.
    exists (if ended then Ready None else Pending). split; [done|].
    rewrite drop_ge by (unfold len; lia). by destruct ended.
Qed.

Lemma received_cons p ps : received (p :: ps) = received [p] ++ received ps.
Proof. destruct p as [[|]| |]; cbn; by rewrite ?app_nil_r. Qed.

Lemma spec_run_lossless m evs : forall hist ended cur,
  0 <= m -> 0 <= cur <= len hist -> len hist - cur <= m ->
  keeps_up m (len hist - cur) evs ->
  received (Spec.run m hist ended cur (evs ++ [Next])) = drop (Z.to_nat cur) hist ++ total evs.
Proof.
  induction evs as [|[data| | |] evs IH]; intros hist ended cur Hm Hc Hmax Hk;
    cbn [keeps_up total Spec.run app] in *; [| |by apply IH|done|].
  - destruct (read_all m hist ended cur) as (p & -> & E); [done..|]. by rewrite E, app_nil_r.
  - destruct Hk as [Hk1 Hk2]. rewrite IH; [|done|len_solve|len_solve|].
    + rewrite drop_app_le by (unfold len in *; lia). by rewrite app_assoc.
    + rewrite len_app. by replace (len hist + len data - cur) with (len hist - cur + len data) by lia.
  - destruct (read_all m hist ended cur) as (p & -> & E); [done..|].
    rewrite received_cons, E. f_equal. rewrite IH; [|done|len_solve|lia|by rewrite Z.sub_diag].
    by rewrite drop_ge by (unfold len; lia).
Qed.

Lemma total_app evs1 evs2 : total (evs1 ++ evs2) = total evs1 ++ total evs2.
Proof. induction evs1 as [|[data| | |] evs1 IH]; cbn; [done|by rewrite IH, app_assoc|done..]. Qed.

(** A reader that is never more than the scrollback bound behind receives
    exactly what the target wrote: nothing lost, duplicated or reordered. *)
Theorem reader_lossless m evs :
  0 <= m -> len (total evs) < 2 ^ 64 -> keeps_up m 0 evs ->
  received (run (new_inner m) 0 (evs ++ [Next])) = total evs.
Proof.
  intros Hm Hlen Hk.
  rewrite (run_represents _ _ []);
    [|by apply represents_new|done|by rewrite total_app, app_nil_r].
  by rewrite spec_run_lossless.
Qed.

(** ** Reattaching *)

(** The buffer and the reader's cursor after a run. *)
Fixpoint after (inner : SessionInner) (cursor : u64) (evs : list Event) : SessionInner * u64 :=
  match evs with
  | [] => (inner, cursor)
  | Output data :: evs => after (append inner data) cursor evs
  | Ended :: evs => after (set_closed inner) cursor evs
  | Attach :: evs => after inner 0 evs
  | Next :: evs => after inner (next_poll inner cursor).2 evs
  end.

(** Whether the target's session ended during a run. *)
Fixpoint ended_in (evs : list Event) : bool :=
  match evs with
  | [] => false
  | Ended :: _ => true
  | _ :: evs => ended_in evs
  end.

Lemma after_represents evs : forall inner hist cur,
  represents inner hist -> 0 <= cur <= len hist -> len (hist ++ total evs) < 2 ^ 64 ->
  let '(inner', cur') := after inner cur evs in
  represents inner' (hist ++ total evs) /\ max_bytes inner' = max_bytes inner /\
  0 <= cur' <= len (hist ++ total evs) /\ closed inner' = closed inner || ended_in evs.
Proof.
  induction evs as [|[data| | |] evs IH]; intros inner hist cur Hrep Hc Hlen;
    cbn [after total ended_in] in *.
  - by rewrite app_nil_r, orb_false_r.
  - rewrite app_assoc in *.
    specialize (IH (append inner data) (hist ++ data) cur). rewrite max_append, closed_append in IH.
    apply IH; [|len_solve|done]. apply represents_append; [done|len_solve].
  - specialize (IH (set_closed inner) hist cur).
    destruct (after (set_closed inner) cur evs) as [inner' cur'].
    destruct IH as (? & ? & ? & IH); [by apply represents_closed|done..|].
    rewrite IH, orb_true_r. done.
  - apply IH; [done|len_solve|done].
  - apply IH; [done| |done]. rewrite (next_poll_read _ hist) by (done || len_solve).
    destruct (Spec.read _ _ _ _) as [p cur'] eqn:E.
    eapply read_cursor; [apply Hrep|exact Hc|exact E].
Qed.

(** C32: keep-alive.  Whatever happened to a session and however many readers
    came and went, the memory it holds is at most the scrollback bound, and a
    client that attaches now is sent, in one chunk, exactly the last
    [max_bytes] bytes of everything the target ever wrote; when there are
    none it waits, or is told that the session is over if it is. *)
Theorem reattach_replays m evs :
  0 <= m -> len (total evs) < 2 ^ 64 ->
  let inner := (after (new_inner m) 0 evs).1 in
  len (buf inner) <= m /\
  (next_poll inner 0).1 =
    if decide (last_n m (total evs) = []) then (if ended_in evs then Ready None else Pending)
    else Ready (Some (last_n m (total evs))).
Proof.
  intros Hm Hlen.
  pose proof (after_represents evs (new_inner m) [] 0) as H.
  destruct (after (new_inner m) 0 evs) as [inner cur]. cbn [fst].
  destruct H as (Hrep & Hmax & _ & Hclosed); [by apply represents_new|done|done|].
  cbn in Hmax, Hclosed, Hrep. rewrite (next_poll_read _ (total evs)) by (done || len_solve).
  rewrite (rep_buf _ _ Hrep), Hmax, Hclosed. split; [len_solve|].
  pose proof (oldest_bounds m (total evs) Hm). unfold Spec.read.
  rewrite last_n_drop, Z.max_r by lia. case_decide as Hlt; case_decide as Hnil; [|done..|].
  - apply (f_equal len) in Hnil. len_solve.
  - destruct Hnil. apply drop_ge. unfold len in *. lia.
Qed.

(** ** Witnesses *)

Module Witness.

(** A target writes 10 bytes into a buffer of 8; two readers, one after the
    other; the session ends. *)
Definition digits : list byte := as_bytes "0123456789".
Definition history : list Event := [Output digits; Next; Attach; Next; Ended; Next].

Lemma history_short : len (total history) < 2 ^ 64.
Proof. done. Qed.

Lemma run_refines_witness :
  run (new_inner 8) 0 history =
  [Ready (Some (drop 2 digits)); Ready (Some (drop 2 digits)); Ready None].
Proof. rewrite (run_refines 8 history); [reflexivity|lia|reflexivity]. Defined.

Lemma polls_bounded_witness :
  Ready (Some (drop 2 digits)) <> Panic /\
  forall chunk, Ready (Some (drop 2 digits)) = Ready (Some chunk) -> 0 < len chunk <= 8.
Proof.
  apply (polls_bounded 8 history); [lia|reflexivity|].
  vm_compute. apply list_elem_of_here.
Defined.

Lemma reader_lossless_witness :
  received (run (new_inner 8) 0 [Output (take 6 digits); Next; Output (drop 6 digits); Next]) = digits.
Proof.
  apply (reader_lossless 8 [Output (take 6 digits); Next; Output (drop 6 digits)]);
    [lia|reflexivity|]. vm_compute. repeat split; congruence.
Defined.

Lemma reattach_replays_witness :
  let inner := (after (new_inner 8) 0 history).1 in
  len (buf inner) <= 8 /\ (next_poll inner 0).1 = Ready (Some (drop 2 digits)).
Proof. exact (reattach_replays 8 history ltac:(lia) history_short). Defined.

End Witness.
