(* ===== verification/Registry.v ===== *)
(** * The session registry ([crates/gw-core/src/lib.rs], [Session] and
    [SessionManager])

    A session is shared: the registry, the connections attached to it and its
    ingest task hold [Arc] pointers to one object.  [Session] is such a
    pointer with the fields that never change; what changes (the scrollback
    behind its mutex, the input channel) lives in a [Heap] of [Cell]s at the
    address [cell].

    The registry finds a session by its id and by its resume token through two
    maps.  [Module Spec] is the contract: a list of the live sessions. *)

From S2P Require Import Prelude Frame Scrollback.

(** ** The target's end of a session ([crates/gw-ssh/src/lib.rs]) *)

Module SshInput.
Inductive SshInput : Type :=
  | Data (bytes : list byte)
  | Resize (cols rows : u32).
End SshInput.
Abbreviation SshInput := SshInput.SshInput (only parsing).

#[export] Instance SshInput_eq_dec : EqDecision SshInput.
Proof. solve_decision. Defined.

(** What [SshSession::spawn] hands over.  The channels to the actor are in the
    session's [Cell]; [fingerprint] is the one datum the handle carries. *)
Record SshHandle : Type := mkSshHandle { handle_fingerprint : option string }.

(** ** Sessions *)

Record Session : Type := mkSession {
  id : SessionId;
  resume_token : list byte;
  server_fingerprint : option string;
  cell : positive;
}.

(** The mutable part of a session: its scrollback, and its input channel with
    everything sent so far and whether the actor still holds the receiver. *)
Record Cell : Type := mkCell {
  inner : SessionInner;
  sent_input : list SshInput;
  input_open : bool;
}.

Abbreviation Heap := (gmap positive Cell) (only parsing).

#[export] Instance Session_eq_dec : EqDecision Session.
Proof. solve_decision. Defined.

(** [Session::spawn]: a fresh object with an empty scrollback. *)
Definition spawn (heap : Heap) (id : SessionId) (resume_token : list byte) (ssh : SshHandle)
    (max_bytes : usize) : Session * Heap :=
  let cell := fresh (dom heap) in
  (mkSession id resume_token (handle_fingerprint ssh) cell,
   <[cell := mkCell (new_inner max_bytes) [] true]> heap).

(** [Session::send_input]: false if the session has ended. *)
Definition send_input (heap : Heap) (self : Session) (input : SshInput) : bool * Heap :=
  match heap !! cell self with
  | Some c =>
      if input_open c then
        (true, <[cell self := mkCell (inner c) (sent_input c ++ [input]) true]> heap)
      else (false, heap)
  | None => (false, heap)
  end.

(** [Session::is_closed]. *)
Definition is_closed (heap : Heap) (self : Session) : bool :=
  match heap !! cell self with
  | Some c => closed (inner c)
  | None => false
  end.

(** ** The registry *)

Record Registry : Type := mkRegistry {
  by_id : gmap SessionId Session;
  by_token : gmap (list byte) SessionId;
}.

Record SessionManager : Type := mkSessionManager {
  registry : Registry;
  max_scrollback : usize;
}.

(** [SessionManager::with_scrollback] and [SessionManager::new]. *)
Definition with_scrollback (max_scrollback : usize) : SessionManager :=
  mkSessionManager (mkRegistry ∅ ∅) max_scrollback.

Definition new : SessionManager := with_scrollback DEFAULT_SCROLLBACK_BYTES.

(** [uuid::Uuid::new_v4] and [rand::random] for 32 bytes, third-party. *)
Class Entropy (G : Type) : Type := {
  new_v4 : G -> SessionId * G;
  random_32 : G -> list byte * G;
}.

Section Manager.
Context {G : Type} {EN : Entropy G}.

Definition new_session_id (g : G) : SessionId * G := new_v4 g.
Definition new_resume_token (g : G) : list byte * G := random_32 g.

(** [SessionManager::create]. *)
Definition create (self : SessionManager) (heap : Heap) (g : G) (ssh : SshHandle)
    : Session * SessionManager * Heap * G :=
  let '(id, g) := new_session_id g in
  let '(token, g) := new_resume_token g in
  let '(session, heap) := spawn heap id token ssh (max_scrollback self) in
  let reg := registry self in
  let reg := mkRegistry (<[id := session]> (by_id reg)) (<[token := id]> (by_token reg)) in
  (session, mkSessionManager reg (max_scrollback self), heap, g).

End Manager.

(** [SessionManager::resume]. *)
Definition resume (self : SessionManager) (token : list byte) : option Session :=
  id ← by_token (registry self) !! token;
  by_id (registry self) !! id.

(** [SessionManager::remove]. *)
Definition remove (self : SessionManager) (id : SessionId) : SessionManager :=
  let reg := registry self in
  match by_id reg !! id with
  | Some session =>
      mkSessionManager
        (mkRegistry (delete id (by_id reg)) (delete (resume_token session) (by_token reg)))
        (max_scrollback self)
  | None => self
  end.

(** [SessionManager::len] and [SessionManager::is_empty]. *)
Definition manager_len (self : SessionManager) : usize := Z.of_nat (size (by_id (registry self))).
Definition is_empty (self : SessionManager) : bool := bool_decide (manager_len self = 0).

(** ** The contract: a list of live sessions *)

Module Spec.

Definition bearer (live : list Session) (token : list byte) : option Session :=
  head (filter (fun s => resume_token s = token) live).

Definition without (live : list Session) (i : SessionId) : list Session :=
  filter (fun s => id s <> i) live.

End Spec.

(** The manager holds exactly the sessions [live], no two of which share an id
    or a token. *)
Record holds (self : SessionManager) (live : list Session) : Prop := {
  ids_distinct : NoDup (id <$> live);
  tokens_distinct : NoDup (resume_token <$> live);
  by_id_live i s : by_id (registry self) !! i = Some s <-> s ∈ live /\ id s = i;
  by_token_live t i :
    by_token (registry self) !! t = Some i <->
    exists s, s ∈ live /\ resume_token s = t /\ id s = i;
}.

Lemma holds_new m : holds (with_scrollback m) [].
Proof.
  split; cbn; [constructor..| |]; intros; rewrite lookup_empty; split; [done| |done|].
  - by intros [?%elem_of_nil _].
  - by intros (s & ?%elem_of_nil & _).
Qed.

Lemma NoDup_fmap_inj {A B} (f : A -> B) (l : list A) x y :
  NoDup (f <$> l) -> x ∈ l -> y ∈ l -> f x = f y -> x = y.
Proof.
  induction l as [|z l IH]; cbn; [by intros _ ?%elem_of_nil|].
  rewrite NoDup_cons, !elem_of_cons. intros [Hz Hl] [->|Hx] [->|Hy] Hf; [done| | |by apply IH].
  - destruct Hz. rewrite Hf. by apply list_elem_of_fmap_2.
  - destruct Hz. rewrite <-Hf. by apply list_elem_of_fmap_2.
Qed.

Lemma resume_spec_Some live t s :
  NoDup (resume_token <$> live) ->
  Spec.bearer live t = Some s <-> s ∈ live /\ resume_token s = t.
Proof.
  intros Hnd. unfold Spec.bearer. split.
  - intros H%head_Some_elem_of. by apply list_elem_of_filter in H as [-> ?].
  - intros [Hs Ht]. assert (Hf : s ∈ filter (fun s => resume_token s = t) live)
      by by apply list_elem_of_filter.
    destruct (filter _ live) as [|s' fl] eqn:E; [by apply elem_of_nil in Hf|]. cbn. f_equal.
    assert (Hs' : s' ∈ filter (fun s => resume_token s = t) live) by (rewrite E; left).
    apply list_elem_of_filter in Hs' as [Ht' Hs'].
    eapply NoDup_fmap_inj; [exact Hnd|done..|by rewrite Ht, Ht'].
Qed.

Section Operations.
Context (self : SessionManager) (live : list Session) (Hlive : holds self live).

Lemma resume_holds t : resume self t = Spec.bearer live t.
Proof.
  apply option_eq. intros s. rewrite resume_spec_Some by apply Hlive.
  unfold resume. rewrite bind_Some. split.
  - intros (i & (s' & Hs' & Ht & Hi)%(by_token_live _ _ Hlive) & [Hs Hi']%(by_id_live _ _ Hlive)).
    assert (s = s') as ->; [|done].
    eapply NoDup_fmap_inj; [apply (ids_distinct _ _ Hlive)|done..|congruence].
  - intros [Hs Ht]. exists (id s). split.
    + apply (by_token_live _ _ Hlive). eauto.
    + by apply (by_id_live _ _ Hlive).
Qed.

Lemma len_holds : manager_len self = len live.
Proof.
  unfold manager_len, len. f_equal.
  rewrite <-(length_fmap id live). rewrite <-size_dom.
  rewrite <-(size_list_to_set (C:=gset SessionId) (id <$> live)) by apply Hlive. f_equal.
  apply set_eq. intros i. rewrite elem_of_dom, elem_of_list_to_set, list_elem_of_fmap. split.
  - intros [s [Hs Hi]%(by_id_live _ _ Hlive)]. eauto.
  - intros (s & -> & Hs). exists s. by apply (by_id_live _ _ Hlive).
Qed.

Lemma remove_holds i : holds (remove self i) (Spec.without live i).
Proof.
  assert (Hsub : Spec.without live i `sublist_of` live) by apply sublist_filter.
  destruct Hlive as [Hids Htoks Hid Htok].
  assert (Hin : forall s, s ∈ Spec.without live i <-> s ∈ live /\ id s <> i).
  { intros s. unfold Spec.without. rewrite list_elem_of_filter. tauto. }
  split; [by eapply sublist_NoDup, fmap_sublist|by eapply sublist_NoDup, fmap_sublist| |];
    unfold remove; destruct (by_id (registry self) !! i) as [gone|] eqn:E; cbn.
  - intros j s. rewrite Hin, lookup_delete_Some, Hid. split.
    + intros (Hne & Hs & <-). auto.
    + intros [[Hs Hne] <-]. auto.
  - intros j s. rewrite Hin, Hid. split; [|tauto]. intros [Hs Hj]. split_and!; [done| |done].
    intros Hsi. enough (by_id (registry self) !! i = Some s) by congruence. by apply Hid.
  - apply Hid in E as [Hgone Hgid]. intros t j. rewrite lookup_delete_Some, Htok. split.
    + intros (Hne & s & Hs & <- & <-). exists s. rewrite Hin. split_and!; [done| |done..].
      intros Hsi. apply Hne. f_equal. eapply NoDup_fmap_inj; [exact Hids|done..|congruence].
    + intros (s & [Hs Hsi]%Hin & <- & <-). split; [|eauto].
      intros Ht. destruct Hsi. rewrite <-Hgid. f_equal.
      eapply NoDup_fmap_inj; [exact Htoks|done..].
  - intros t j. rewrite Htok. split; intros (s & Hs & <- & <-); exists s; rewrite Hin in *;
      split_and!; try done; [|tauto].
    intros Hsi. enough (by_id (registry self) !! i = Some s) by congruence. by apply Hid.
Qed.

Context {G : Type} {EN : Entropy G}.

(** A session created with an id and a token that no live session has. *)
Lemma create_holds heap g ssh session self' heap' g' :
  create self heap g ssh = (session, self', heap', g') ->
  id session ∉ id <$> live -> resume_token session ∉ resume_token <$> live ->
  holds self' (session :: live).
Proof.
  unfold create, spawn. destruct (new_session_id g) as [i g1], (new_resume_token g1) as [t g2].
  intros [= <- <- _ _]. cbn. intros Hi Ht. destruct Hlive as [Hids Htoks Hid Htok].
  split; cbn; [by apply NoDup_cons..| |].
  - intros j s. rewrite elem_of_cons, lookup_insert_Some, Hid. split.
    + intros [[<- <-]|(Hne & Hs & Hj)]; auto.
    + intros [[->|Hs] <-]; cbn; [by left|right]. split_and!; [|done..].
      intros ->. apply Hi. by apply list_elem_of_fmap_2.
  - intros u j. rewrite lookup_insert_Some, Htok. split.
    + intros [[<- <-]|(Hne & s & Hs & <- & <-)].
      * eexists. split; [by left|done].
      * exists s. split; [by right|done].
    + intros (s & Hs & <- & <-). rewrite elem_of_cons in Hs. destruct Hs as [->|Hs]; cbn; [by left|].
      right. split; [|eauto]. intros ->. apply Ht. by apply list_elem_of_fmap_2.
Qed.

End Operations.

(** A created session has an object of its own, with an empty open scrollback;
    every other session's object is left as it was. *)
Lemma create_heap `{Entropy G} self heap g ssh session self' heap' g' :
  create self heap g ssh = (session, self', heap', g') ->
  heap !! cell session = None /\
  heap' = <[cell session := mkCell (new_inner (max_scrollback self)) [] true]> heap /\
  max_scrollback self' = max_scrollback self.
Proof.
  unfold create, spawn. destruct (new_session_id g) as [i g1], (new_resume_token g1) as [t g2].
  intros [= <- <- <- _]. cbn. split_and!; [|done..].
  apply not_elem_of_dom, is_fresh.
Qed.

(** ** Runs *)

Inductive Op : Type :=
  | Create (ssh : SshHandle)
  | Resume (token : list byte)
  | Remove (i : SessionId).

Section Runs.
Context {G : Type} {EN : Entropy G}.

(** The manager after a run of operations, and the answers of its [Resume]s. *)
Fixpoint exec (self : SessionManager) (heap : Heap) (g : G) (ops : list Op)
    : SessionManager * list (option Session) :=
  match ops with
  | [] => (self, [])
  | Create ssh :: ops =>
      let '(_, self, heap, g) := create self heap g ssh in exec self heap g ops
  | Resume token :: ops =>
      let '(self', rs) := exec self heap g ops in (self', resume self token :: rs)
  | Remove i :: ops => exec (remove self i) heap g ops
  end.

(** The same run on the list of live sessions; [create] only serves to draw
    the new session's id, token and object. *)
Fixpoint spec_exec (max : usize) (live : list Session) (heap : Heap) (g : G) (ops : list Op)
    : list Session * list (option Session) :=
  match ops with
  | [] => (live, [])
  | Create ssh :: ops =>
      let '(session, _, heap, g) := create (with_scrollback max) heap g ssh in
      spec_exec max (session :: live) heap g ops
  | Resume token :: ops =>
      let '(live', rs) := spec_exec max live heap g ops in
      (live', Spec.bearer live token :: rs)
  | Remove i :: ops => spec_exec max (Spec.without live i) heap g ops
  end.

(** No id or token drawn during the run is that of a session live then. *)
Fixpoint draws_fresh (max : usize) (live : list Session) (heap : Heap) (g : G) (ops : list Op)
    : Prop :=
  match ops with
  | [] => True
  | Create ssh :: ops =>
      let '(session, _, heap, g) := create (with_scrollback max) heap g ssh in
      (id session ∉ id <$> live) /\ (resume_token session ∉ resume_token <$> live) /\
      draws_fresh max (session :: live) heap g ops
  | Resume _ :: ops => draws_fresh max live heap g ops
  | Remove i :: ops => draws_fresh max (Spec.without live i) heap g ops
  end.

Lemma create_draw self heap g ssh :
  let '(session, _, heap1, g1) := create (with_scrollback (max_scrollback self)) heap g ssh in
  exists self', create self heap g ssh = (session, self', heap1, g1).
Proof.
  unfold create, spawn. destruct (new_session_id g) as [i g1], (new_resume_token g1) as [t g2].
  eexists. reflexivity.
Qed.

Lemma max_remove self i : max_scrollback (remove self i) = max_scrollback self.
Proof. unfold remove. by destruct (by_id (registry self) !! i). Qed.

Lemma exec_holds ops : forall self live heap g,
  holds self live -> draws_fresh (max_scrollback self) live heap g ops ->
  holds (exec self heap g ops).1 (spec_exec (max_scrollback self) live heap g ops).1 /\
  (exec self heap g ops).2 = (spec_exec (max_scrollback self) live heap g ops).2.
Proof.
  induction ops as [|[ssh|token|i] ops IH]; intros self live heap g Hlive Hfresh;
    cbn [exec spec_exec draws_fresh] in *; [done|..].
  - pose proof (create_draw self heap g ssh) as Hdraw.
    destruct (create (with_scrollback _) heap g ssh) as [[[session m] heap1] g1].
    destruct Hdraw as [self' Hc], Hfresh as (Hi & Ht & Hfresh). rewrite Hc.
    destruct (create_heap _ _ _ _ _ _ _ _ Hc) as (_ & _ & Hmax). rewrite <-Hmax in *.
    apply IH; [|done]. by eapply create_holds.
  - destruct (IH self live heap g) as [H1 H2]; [done..|].
    destruct (exec self heap g ops), (spec_exec _ live heap g ops). cbn in *.
    split; [done|]. f_equal; [by apply resume_holds|done].
  - rewrite <-(max_remove self i) in Hfresh |- *. apply IH; [|done]. by apply remove_holds.
Qed.

(** C14: resume tokens.  Over any run of [create], [resume] and [remove] in
    which no fresh id or token collides with a live session's, every [resume]
    answers with the session that has that token and is still live, and with
    nothing for any other token; the two maps together hold exactly the live
    sessions, and [len] counts them. *)
Theorem registry_refines max heap g ops :
  draws_fresh max [] heap g ops ->
  let '(self, answers) := exec (with_scrollback max) heap g ops in
  let '(live, spec_answers) := spec_exec max [] heap g ops in
  answers = spec_answers /\ holds self live /\ manager_len self = len live.
Proof.
  intros Hfresh. destruct (exec_holds ops (with_scrollback max) [] heap g) as [H1 H2];
    [apply holds_new|done|].
  cbn [max_scrollback with_scrollback] in *.
  destruct (exec (with_scrollback max) heap g ops), (spec_exec max [] heap g ops). cbn in *.
  split_and!; [done..|]. by apply len_holds.
Qed.

End Runs.

(** ** Witness *)

Module Witness.

(** A generator that counts. *)
#[export] Instance counter : Entropy Z := {|
  new_v4 g := (g, g + 1);
  random_32 g := (repeat (byte_of g) 32, g + 1);
|}.

Definition token (g : Z) : list byte := repeat (byte_of g) 32.

(** Two sessions; the first is removed and its token tried again. *)
Definition ops : list Op :=
  let ssh := mkSshHandle None in
  [Create ssh; Create ssh; Resume (token 1); Resume (token 3); Remove 0; Resume (token 1);
   Resume (token 3); Resume (token 7)].

Lemma registry_refines_witness :
  let '(self, answers) := exec (with_scrollback 8) ∅ 0 ops in
  let '(live, spec_answers) := spec_exec 8 [] ∅ 0 ops in
  answers = spec_answers /\ holds self live /\ manager_len self = len live.
Proof.
  apply (registry_refines 8 ∅ 0 ops). vm_compute.
  repeat split; intros H; inversion H; subst; try done;
    match goal with H : _ ∈ _ |- _ => inversion H end.
Defined.

(** What the two sides answer there. *)
Example registry_answers :
  map (option_map id) (exec (with_scrollback 8) ∅ 0 ops).2 =
  [Some 0; Some 2; None; Some 2; None].
Proof. reflexivity. Qed.

End Witness.
