(* ===== verification/SessionTask.v ===== *)
(** * A session's tasks ([crates/gw-core/src/lib.rs], [spawn_ingest] and
    [SessionReader::next])

    One ingest task appends the target's output to the scrollback and notifies;
    any number of readers wait for notifications.  Every critical section of
    the session's mutex is one step here, and so is every operation on the
    [Notify]; the steps of the tasks interleave freely.

    [tokio]'s [Notify] is third-party: [Notify] holds the operations the code
    uses and [NotifyLaws] what their documentation promises. *)

From S2P Require Import Prelude Scrollback.

(** [notified] creates a future, [notify_waiters] wakes those that exist,
    [is_ready] tells whether awaiting one returns at once.  [issued n t]: the
    future [t] was created from [n] or earlier. *)
Class Notify (N Tok : Type) : Type := {
  notified : N -> Tok;
  notify_waiters : N -> N;
  is_ready : N -> Tok -> bool;
  issued : N -> Tok -> Prop;
}.

(** A future receives the wakeups of [notify_waiters] as soon as it has been
    created, even before it is first polled, and does not lose them. *)
Class NotifyLaws (N Tok : Type) {NO : Notify N Tok} : Prop := {
  notified_issued (n : N) : issued n (notified n);
  notify_issued (n : N) t : issued n t -> issued (notify_waiters n) t;
  notify_ready (n : N) t : issued n t -> is_ready (notify_waiters n) t;
}.

Section Tasks.
Context {N Tok : Type} {NO : Notify N Tok}.

(** Where the ingest task is. *)
Inductive IngestPc : Type :=
  | Receiving       (* awaiting [output.recv()] *)
  | Appended        (* has appended, has not notified *)
  | ClosedSet       (* has set [closed], has not notified *)
  | IngestDone.

(** Where a reader is in [next]. *)
Inductive ReaderPc : Type :=
  | Outside                (* no call in progress *)
  | Enabled (t : Tok)      (* registered for wakeups, about to look *)
  | Waiting (t : Tok)      (* awaiting the notification *)
  | Crashed.               (* a slice index was out of range *)

(** A reader, with everything its calls returned so far. *)
Record Reader : Type := mkReader {
  cursor : u64;
  pc : ReaderPc;
  returned : list (option (list byte));
}.

(** The session, and all the bytes its target wrote so far. *)
Record Sys : Type := mkSys {
  inner : SessionInner;
  notify : N;
  ingest : IngestPc;
  readers : gmap nat Reader;
  written : list byte;
}.

(** ** The ingest task *)

Inductive ingest_step : Sys -> Sys -> Prop :=
  | ingest_recv s bytes :
      ingest s = Receiving ->
      ingest_step s (mkSys (append (inner s) bytes) (notify s) Appended (readers s)
                       (written s ++ bytes))
  | ingest_notify s :
      ingest s = Appended ->
      ingest_step s (mkSys (inner s) (notify_waiters (notify s)) Receiving (readers s) (written s))
  | ingest_end s :
      ingest s = Receiving ->
      ingest_step s (mkSys (set_closed (inner s)) (notify s) ClosedSet (readers s) (written s))
  | ingest_notify_end s :
      ingest s = ClosedSet ->
      ingest_step s (mkSys (inner s) (notify_waiters (notify s)) IngestDone (readers s) (written s)).

(** ** The readers *)

Definition set_reader (s : Sys) (i : nat) (r : Reader) : Sys :=
  mkSys (inner s) (notify s) (ingest s) (<[i := r]> (readers s)) (written s).

(** [Session::reader]. *)
Definition reader : Reader := mkReader 0 Outside [].

(** A turn of the loop of [next]: look at the buffer, return or wait. *)
Definition look (s : Sys) (r : Reader) (t : Tok) : Reader :=
  match next_poll (inner s) (cursor r) with
  | (Ready o, cursor) => mkReader cursor Outside (returned r ++ [o])
  | (Pending, cursor) => mkReader cursor (Waiting t) (returned r)
  | (Panic, cursor) => mkReader cursor Crashed (returned r)
  end.

Inductive reader_step (i : nat) : Sys -> Sys -> Prop :=
  | reader_attach s :
      readers s !! i = None ->
      reader_step i s (set_reader s i reader)
  | reader_call s r :
      readers s !! i = Some r -> pc r = Outside ->
      reader_step i s (set_reader s i (mkReader (cursor r) (Enabled (notified (notify s))) (returned r)))
  | reader_look s r t :
      readers s !! i = Some r -> pc r = Enabled t ->
      reader_step i s (set_reader s i (look s r t))
  | reader_wake s r t :
      readers s !! i = Some r -> pc r = Waiting t -> is_ready (notify s) t ->
      reader_step i s (set_reader s i (mkReader (cursor r) (Enabled (notified (notify s))) (returned r)))
  | reader_cancel s r t :
      readers s !! i = Some r -> pc r = Waiting t ->
      reader_step i s (set_reader s i (mkReader (cursor r) Outside (returned r))).

Definition step (s s' : Sys) : Prop := ingest_step s s' \/ exists i, reader_step i s s'.

(** A new session ([Session::spawn]). *)
Definition init (n : N) (max : usize) : Sys := mkSys (new_inner max) n Receiving ∅ [].

Definition reachable (n : N) (max : usize) (s : Sys) : Prop := rtc step (init n max) s.

(** ** The invariant *)

Context {NL : NotifyLaws N Tok}.

(** There is something for the reader to return. *)
Definition has_news (s : Sys) (r : Reader) : Prop :=
  cursor r < len (written s) \/ closed (inner s) = true.

(** The ingest task has changed the buffer and is about to notify. *)
Definition about_to_notify (s : Sys) : Prop := ingest s = Appended \/ ingest s = ClosedSet.

(** The bytes of the chunks a reader's calls returned. *)
Definition delivered (rets : list (option (list byte))) : list byte :=
  concat (omap (fun o => o) rets).

Record reader_ok (s : Sys) (r : Reader) : Prop := {
  ok_cursor : 0 <= cursor r <= len (written s);
  ok_running : pc r <> Crashed;
  ok_enabled t : pc r = Enabled t -> issued (notify s) t;
  ok_waiting t : pc r = Waiting t ->
    issued (notify s) t /\
    (has_news s r -> is_ready (notify s) t \/ about_to_notify s);
  ok_delivered :
    len (written s) <= max_bytes (inner s) ->
    delivered (returned r) = take (Z.to_nat (cursor r)) (written s);
  ok_ended : None ∈ returned r -> closed (inner s) = true /\ cursor r = len (written s);
}.

Record sys_ok (max : usize) (s : Sys) : Prop := {
  ok_represents : represents (inner s) (written s);
  ok_max : max_bytes (inner s) = max;
  ok_closed : closed (inner s) = true <-> ingest s = ClosedSet \/ ingest s = IngestDone;
  ok_readers : map_Forall (fun _ r => reader_ok s r) (readers s);
}.

Lemma delivered_snoc rets o :
  delivered (rets ++ [o]) = delivered rets ++ default [] o.
Proof.
  unfold delivered. rewrite omap_app, concat_app. f_equal. by destruct o; cbn; rewrite ?app_nil_r.
Qed.

#[local] Arguments delivered : simpl never.

Lemma ended_snoc (rets : list (option (list byte))) o : None ∈ rets ++ [o] -> None ∈ rets \/ o = None.
Proof. rewrite elem_of_app, list_elem_of_singleton. by intros [|<-]; auto. Qed.

Lemma look_ok s r t :
  represents (inner s) (written s) -> len (written s) < 2 ^ 64 ->
  reader_ok s r -> pc r = Enabled t -> reader_ok s (look s r t).
Proof.
  intros Hrep Hlen [Hc _ Hen _ Hdel Hended] Hpc.
  pose proof (oldest_bounds (max_bytes (inner s)) (written s) (rep_max _ _ Hrep)) as Ho.
  assert (Hsmall : len (written s) <= max_bytes (inner s) ->
    Spec.oldest (max_bytes (inner s)) (written s) = 0) by (unfold Spec.oldest; lia).
  unfold look. rewrite (next_poll_read _ (written s)) by done. unfold Spec.read.
  set (c := Z.max (cursor r) (Spec.oldest _ _)).
  assert (Hcm : len (written s) <= max_bytes (inner s) -> c = cursor r)
    by (intros Hm; specialize (Hsmall Hm); lia).
  case_decide as Hlt; [|destruct (closed (inner s)) eqn:Hcl]; split; cbn; try done; try lia.
  - intros Hm. rewrite delivered_snoc. cbn. rewrite Hdel, Hcm, take_drop by done.
    symmetry. apply take_ge. unfold len. lia.
  - intros [Hin|[=]]%ended_snoc. split; [by apply Hended|done].
  - intros Hm. rewrite delivered_snoc. cbn. by rewrite app_nil_r, Hcm, Hdel.
  - intros _. split; [done|lia].
  - intros t' [= <-]. split; [by apply Hen|]. unfold has_news. cbn. rewrite Hcl. by intros [?|]; [lia|].
  - intros Hm. by rewrite Hcm, Hdel.
  - intros Hin. by destruct (Hended Hin).
Qed.

(** The other steps of a reader only change where it is. *)
Lemma moved_ok s r pc' :
  reader_ok s r ->
  (pc' = Outside \/ pc' = Enabled (notified (notify s))) ->
  reader_ok s (mkReader (cursor r) pc' (returned r)).
Proof.
  intros [Hc _ _ _ Hdel Hended] Hpc. split; cbn; try done.
  - by destruct Hpc as [->| ->].
  - intros t ->. destruct Hpc as [[=]|[= ->]]. apply notified_issued.
  - intros t ->. by destruct Hpc as [[=]|[=]].
Qed.

(** A reader's view of the session after a step of the ingest task. *)
Lemma reader_ok_ingest s s' r :
  ingest_step s s' -> sys_ok (max_bytes (inner s)) s -> reader_ok s r ->
  len (written s') < 2 ^ 64 -> reader_ok s' r.
Proof.
  intros Hstep [Hrep _ Hclosed _] [Hc Hrun Hen Hwait Hdel Hended] Hlen.
  destruct Hstep as [s bytes Hpc|s Hpc|s Hpc|s Hpc]; split; cbn in *; try done.
  - len_solve.
  - intros t Ht. destruct (Hwait t Ht). split; [done|]. intros _. right. by left.
  - rewrite max_append. intros Hm. rewrite Hdel by len_solve.
    rewrite take_app_le; [done|]. unfold len in *. lia.
  - intros Hin. exfalso. destruct (Hended Hin) as [[?|?]%Hclosed _]; congruence.
  - intros t Ht. apply notify_issued; auto.
  - intros t Ht. destruct (Hwait t Ht) as [Hi _]. split; [by apply notify_issued|].
    intros _. left. by apply notify_ready.
  - intros t Ht. destruct (Hwait t Ht). split; [done|]. intros _. right. by right.
  - intros Hin. split; [done|]. by apply Hended.
  - intros t Ht. apply notify_issued; auto.
  - intros t Ht. destruct (Hwait t Ht) as [Hi _]. split; [by apply notify_issued|].
    intros _. left. by apply notify_ready.
Qed.

Lemma ingest_step_ok max s s' :
  ingest_step s s' -> sys_ok max s -> len (written s') < 2 ^ 64 -> sys_ok max s'.
Proof.
  intros Hstep Hok Hlen. pose proof Hok as [Hrep Hmax Hclosed Hrs].
  assert (Hrs' : map_Forall (fun _ r => reader_ok s' r) (readers s)).
  { intros i r Hr. eapply reader_ok_ingest; [done|by rewrite Hmax|by eapply Hrs|done]. }
  destruct Hstep as [s bytes Hpc|s Hpc|s Hpc|s Hpc]; split; cbn in *; try done.
  - by apply represents_append.
  - by rewrite max_append.
  - rewrite closed_append, Hclosed, Hpc. intuition congruence.
  - rewrite Hclosed, Hpc. intuition congruence.
  - by apply represents_closed.
  - intuition congruence.
  - rewrite Hclosed, Hpc. intuition congruence.
Qed.

Lemma set_reader_ok max s i r :
  sys_ok max s -> reader_ok s r -> sys_ok max (set_reader s i r).
Proof.
  intros [Hrep Hmax Hclosed Hrs] Hr. split; cbn; [done..|].
  apply map_Forall_insert_2; [by destruct Hr|].
  intros j r' Hr'. by destruct (Hrs j r' Hr').
Qed.

Lemma reader_step_ok max s s' i :
  reader_step i s s' -> sys_ok max s -> len (written s') < 2 ^ 64 -> sys_ok max s'.
Proof.
  intros Hstep Hok Hlen. pose proof (ok_readers _ _ Hok) as Hrs.
  destruct Hstep as [s Hnone|s r Hr Hpc|s r t Hr Hpc|s r t Hr Hpc Hready|s r t Hr Hpc];
    apply set_reader_ok; try done.
  - split; cbn; try done; [len_solve|]. by intros ?%elem_of_nil.
  - apply moved_ok; [by eapply Hrs|by right].
  - apply look_ok; [apply Hok|done|by eapply Hrs|done].
  - apply moved_ok; [by eapply Hrs|by right].
  - apply moved_ok; [by eapply Hrs|by left].
Qed.

Lemma step_written s s' : step s s' -> len (written s) <= len (written s').
Proof. intros [[]|[i []]]; cbn; len_solve. Qed.

Lemma init_ok n max : 0 <= max -> sys_ok max (init n max).
Proof.
  intros Hm. split; cbn; [by apply represents_new|done| |by apply map_Forall_empty].
  split; [done|]. by intros [|].
Qed.

Lemma reachable_ok n max s :
  0 <= max -> reachable n max s -> len (written s) < 2 ^ 64 -> sys_ok max s.
Proof.
  intros Hm Hreach. revert s Hreach.
  apply (rtc_ind_r (fun s => len (written s) < 2 ^ 64 -> sys_ok max s)).
  { intros _. by apply init_ok. }
  intros s s' _ Hstep IH Hlen. pose proof (step_written _ _ Hstep).
  destruct Hstep as [Hstep|[i Hstep]]; [eapply ingest_step_ok|eapply reader_step_ok];
    try done; apply IH; lia.
Qed.

(** A step of reader [i] that does not cancel its call. *)
Definition goes_on (i : nat) (s s' : Sys) : Prop :=
  reader_step i s s' /\
  forall r t r', readers s !! i = Some r -> pc r = Waiting t -> readers s' !! i = Some r' ->
    pc r' <> Outside.

(** Runs in which reader [i] takes [k] steps and cancels nothing, and the other
    tasks any. *)
Inductive watched (i : nat) : nat -> Sys -> Sys -> Prop :=
  | watched_nil s : watched i 0 s s
  | watched_own k s s1 s' : goes_on i s s1 -> watched i k s1 s' -> watched i (S k) s s'
  | watched_other k s s1 s' :
      ingest_step s s1 \/ (exists j, j <> i /\ reader_step j s s1) ->
      watched i k s1 s' -> watched i k s s'.

(** A session that is over, its last notification sent. *)
Record quiet (max : usize) (s : Sys) : Prop := {
  quiet_ok : sys_ok max s;
  quiet_len : len (written s) < 2 ^ 64;
  quiet_done : ingest s = IngestDone;
}.

Lemma quiet_closed max s : quiet max s -> closed (inner s) = true.
Proof. intros [Hok _ Hd]. apply (ok_closed _ _ Hok). by right. Qed.

Lemma reader_step_same i s s' :
  reader_step i s s' -> written s' = written s /\ ingest s' = ingest s /\
    exists r', readers s' = <[i := r']> (readers s).
Proof. destruct 1; cbn; eauto. Qed.

Lemma quiet_step max s i s' : quiet max s -> reader_step i s s' -> quiet max s'.
Proof.
  intros [Hok Hlen Hd] Hstep. destruct (reader_step_same _ _ _ Hstep) as (Hw & Hi & _).
  split; [|by rewrite Hw|by rewrite Hi]. eapply reader_step_ok; [done|done|by rewrite Hw].
Qed.

(** The steps left to the end of the stream, at most. *)
Definition steps_left (s : Sys) (r : Reader) : nat :=
  let more := if decide (cursor r < len (written s)) then 2%nat else 0%nat in
  match pc r with
  | Enabled _ => 1 + more
  | Outside | Waiting _ | Crashed => 2 + more
  end.

(** A look at a buffer that will not change any more: what is left of it, or
    its end. *)
Lemma look_quiet max s i r t :
  quiet max s -> readers s !! i = Some r -> pc r = Enabled t ->
  exists o, returned (look s r t) = returned r ++ [o] /\
    (o = None \/ (steps_left s (look s r t) < steps_left s r)%nat).
Proof.
  intros Hq Hr Hpc. destruct Hq as [Hok Hlen Hd] eqn:E. clear E.
  unfold look. rewrite (next_poll_read _ (written s));
    [|apply Hok|by apply (ok_readers _ _ Hok i r Hr)|done].
  unfold Spec.read. rewrite (quiet_closed max s Hq). case_decide as Hlt; cbn; [|by eauto].
  eexists. split; [done|]. right. unfold steps_left. rewrite Hpc. cbn [cursor pc].
  assert (Hbehind : cursor r < len (written s)).
  { pose proof (oldest_bounds (max_bytes (inner s)) (written s) (rep_max _ _ (ok_represents _ _ Hok))).
    pose proof (ok_cursor _ _ (ok_readers _ _ Hok i r Hr)). lia. }
  rewrite (decide_True _ _ Hbehind), decide_False by lia. lia.
Qed.

(** Each of its steps takes a reader nearer to the end, or to it. *)
Lemma goes_on_nearer max s i r s' :
  quiet max s -> readers s !! i = Some r -> goes_on i s s' ->
  exists r' l, readers s' !! i = Some r' /\ returned r' = returned r ++ l /\ written s' = written s /\
    (None ∈ l \/ (steps_left s' r' < steps_left s r)%nat).
Proof.
  intros Hq Hr [Hstep Hno].
  assert (Hset : forall r' l, s' = set_reader s i r' -> returned r' = returned r ++ l ->
    None ∈ l \/ (steps_left s r' < steps_left s r)%nat ->
    exists r' l, readers s' !! i = Some r' /\ returned r' = returned r ++ l /\ written s' = written s /\
      (None ∈ l \/ (steps_left s' r' < steps_left s r)%nat)).
  { intros r' l -> Hl Hn. exists r', l. cbn. by rewrite lookup_insert_eq. }
  inversion Hstep as [? Hnone|? r0 Hr0 Hpc|? r0 t Hr0 Hpc|? r0 t Hr0 Hpc Hready|? r0 t Hr0 Hpc];
    subst; [congruence|rewrite Hr in Hr0; injection Hr0 as <-..].
  - eapply (Hset _ []); [done|by rewrite app_nil_r|]. right. unfold steps_left. rewrite Hpc. cbn. lia.
  - destruct (look_quiet max s i r t Hq Hr Hpc) as (o & Ho & Hn).
    eapply (Hset _ [o]); [done|done|]. destruct Hn as [->|]; [left; left|by right].
  - eapply (Hset _ []); [done|by rewrite app_nil_r|]. right. unfold steps_left. rewrite Hpc. cbn. lia.
  - exfalso. by eapply (Hno r t); [done|done|apply lookup_insert_eq|].
Qed.

Lemma watched_nearer max i k s s' : watched i k s s' -> forall r,
  quiet max s -> readers s !! i = Some r ->
  exists r' l, quiet max s' /\ readers s' !! i = Some r' /\ returned r' = returned r ++ l /\
    (None ∈ l \/ (steps_left s' r' + k <= steps_left s r)%nat).
Proof.
  induction 1 as [s|k s s1 s' Hgo _ IH|k s s1 s' Hother _ IH]; intros r Hq Hr.
  - exists r, []. rewrite app_nil_r. split_and!; [done..|right; lia].
  - destruct (goes_on_nearer _ _ _ _ _ Hq Hr Hgo) as (r1 & l1 & Hr1 & Hl1 & _ & Hn1).
    destruct Hgo as [Hstep _]. destruct (IH r1) as (r' & l & Hq' & Hr' & Hl & Hn);
      [by eapply quiet_step|done|]. exists r', (l1 ++ l).
    rewrite Hl, Hl1, app_assoc. split_and!; [done..|]. rewrite elem_of_app.
    destruct Hn1, Hn; [tauto..|right; lia].
  - assert (Hs1 : exists j, j <> i /\ reader_step j s s1).
    { destruct Hother as [Hin|]; [|done]. pose proof (quiet_done _ _ Hq). destruct Hin; congruence. }
    destruct Hs1 as (j & Hj & Hstep). destruct (reader_step_same _ _ _ Hstep) as (Hw & _ & r0 & Hrs).
    destruct (IH r) as (r' & l & Hq' & Hr' & Hl & Hn);
      [by eapply quiet_step|by rewrite Hrs, lookup_insert_ne|].
    exists r', l. split_and!; [done..|]. unfold steps_left in *. by rewrite Hw in Hn.
Qed.

(** It is never held up: a reader that waits has been woken. *)
Lemma quiet_goes_on max s i r : quiet max s -> readers s !! i = Some r -> exists s', goes_on i s s'.
Proof.
  intros Hq Hr. pose proof Hq as [Hok Hlen Hd]. pose proof (ok_readers _ _ Hok i r Hr) as Hrok.
  destruct (pc r) as [|t|t|] eqn:Hpc; [| | |by destruct (ok_running _ _ Hrok)].
  - eexists. split; [by eapply reader_call|]. intros r0 t0 r' Hr0 Hpc0. congruence.
  - eexists. split; [by eapply reader_look|]. intros r0 t0 r' Hr0 Hpc0. congruence.
  - assert (Hready : is_ready (notify s) t).
    { destruct (ok_waiting _ _ Hrok t Hpc) as [_ [|[|]]]; [right; by eapply quiet_closed|done|congruence..]. }
    eexists. split; [by eapply reader_wake|]. intros r0 t0 r' _ _. cbn. rewrite lookup_insert_eq.
    by intros [= <-].
Qed.

(** ** Properties *)

Section Reachable.
Context (n : N) (max : usize) (s : Sys).
Context (Hmax : 0 <= max) (Hreach : reachable n max s) (Hlen : len (written s) < 2 ^ 64).

(** C1: no lost wakeup.  In every reachable state, a reader that waits while
    there is output it has not returned, or while the session is over, either
    can go on at once, or the ingest task is about to notify and its next
    step, the only one it can take, wakes the reader. *)
Theorem no_lost_wakeup i r t :
  readers s !! i = Some r -> pc r = Waiting t -> has_news s r ->
  is_ready (notify s) t \/
  ((exists s', ingest_step s s') /\ forall s', ingest_step s s' -> is_ready (notify s') t).
Proof.
  intros Hr Hpc Hnews. pose proof (reachable_ok _ _ _ Hmax Hreach Hlen) as Hok.
  destruct (ok_waiting _ _ (ok_readers _ _ Hok i r Hr) t Hpc) as [Hissued Hw].
  destruct (Hw Hnews) as [|Habout]; [by left|right]. split.
  - destruct Habout as [E|E]; eexists; [by apply ingest_notify|by apply ingest_notify_end].
  - intros s' Hstep. unfold about_to_notify in Habout.
    destruct Hstep; cbn; first [by apply notify_ready|intuition congruence].
Qed.

(** C34: what a reader has returned, in every reachable state.  Its slice index
    was never out of range; as long as the session wrote no more than its
    scrollback bound, the chunks it returned are exactly the bytes written up
    to its cursor, although its calls may have been cancelled while waiting;
    and it returned the end of the stream only when the session was over and
    everything written had been passed. *)
Theorem reader_delivers i r :
  readers s !! i = Some r ->
  pc r <> Crashed /\ 0 <= cursor r <= len (written s) /\
  (len (written s) <= max ->
   delivered (returned r) = take (Z.to_nat (cursor r)) (written s)) /\
  (None ∈ returned r -> closed (inner s) = true /\ cursor r = len (written s)).
Proof.
  intros Hr. pose proof (reachable_ok _ _ _ Hmax Hreach Hlen) as Hok.
  pose proof (ok_readers _ _ Hok i r Hr) as []. rewrite (ok_max _ _ Hok) in *. auto.
Qed.

(** C35: the end of a session reaches every reader.  Once the ingest task is
    done, a reader is never held up again, wherever it is: if it waits, it has
    been woken.  Unless it cancels its call, its next four steps, whatever the
    other readers do between them, have returned it the end of the stream. *)
Theorem reader_finishes i r k s' :
  ingest s = IngestDone -> readers s !! i = Some r -> watched i k s s' ->
  (exists s'', goes_on i s' s'') /\
  ((4 <= k)%nat -> exists r' l, readers s' !! i = Some r' /\ returned r' = returned r ++ l /\ None ∈ l).
Proof.
  intros Hdone Hr Hw. pose proof (reachable_ok _ _ _ Hmax Hreach Hlen) as Hok.
  destruct (watched_nearer max _ _ _ _ Hw r) as (r' & l & Hq' & Hr' & Hl & Hn); [by split|done|].
  split; [by eapply quiet_goes_on|]. intros Hk. exists r', l. split_and!; [done..|].
  destruct Hn as [|Hn]; [done|]. exfalso. unfold steps_left in Hn.
  repeat case_decide; destruct (pc r), (pc r'); lia.
Qed.

End Reachable.

End Tasks.

(** ** An instance of [Notify], and witnesses *)

Module Witness.

(** A counter of wakeups; a future remembers the count at its creation. *)
#[export] Instance counting : Notify nat nat := {|
  notified n := n;
  notify_waiters n := S n;
  is_ready n t := (t <? n)%nat;
  issued n t := (t <= n)%nat;
|}.

#[export] Instance counting_laws : NotifyLaws nat nat.
Proof.
  split; cbn; intros; [lia|lia|]. by apply Is_true_true, Nat.leb_le.
Qed.

(** A reader looks before there is output and waits; the target writes. *)
Definition waiting_reader : Reader (Tok:=nat) := mkReader 0 (Waiting 0%nat) [].
Definition missed : Sys (N:=nat) (Tok:=nat) :=
  mkSys (append (new_inner 8) [x61]) 0%nat Appended {[0%nat := waiting_reader]} [x61].

Lemma missed_reachable : reachable 0%nat 8 missed.
Proof.
  eapply rtc_l; [right; exists 0%nat; by apply reader_attach|].
  eapply rtc_l; [right; exists 0%nat; by eapply reader_call|].
  eapply rtc_l; [right; exists 0%nat; by eapply reader_look|].
  eapply rtc_l; [left; by apply (ingest_recv _ [x61])|].
  reflexivity.
Qed.

Lemma no_lost_wakeup_witness :
  is_ready (notify missed) 0%nat \/
  ((exists s', ingest_step missed s') /\
   forall s', ingest_step missed s' -> is_ready (notify s') 0%nat).
Proof.
  apply (no_lost_wakeup 0%nat 8 missed ltac:(lia) missed_reachable eq_refl 0%nat waiting_reader
    0%nat eq_refl eq_refl).
  left. reflexivity.
Defined.

Lemma reader_delivers_witness :
  pc waiting_reader <> Crashed /\ 0 <= cursor waiting_reader <= len (written missed) /\
  (len (written missed) <= 8 ->
   delivered (returned waiting_reader) = take (Z.to_nat (cursor waiting_reader)) (written missed)) /\
  (None ∈ returned waiting_reader ->
   closed (inner missed) = true /\ cursor waiting_reader = len (written missed)).
Proof.
  exact (reader_delivers 0%nat 8 missed ltac:(lia) missed_reachable eq_refl 0%nat waiting_reader
    eq_refl).
Defined.

(** The session then ends. *)
Definition over : Sys (N:=nat) (Tok:=nat) :=
  mkSys (set_closed (append (new_inner 8) [x61])) 2%nat IngestDone
    {[0%nat := waiting_reader]} [x61].

Lemma over_reachable : reachable 0%nat 8 over.
Proof.
  eapply rtc_trans; [exact missed_reachable|].
  eapply rtc_l; [left; by apply ingest_notify|].
  eapply rtc_l; [left; by apply ingest_end|].
  eapply rtc_l; [left; by apply ingest_notify_end|].
  reflexivity.
Qed.

(** The reader is woken, returns the byte, calls again and returns the end. *)
Definition ended : Sys (N:=nat) (Tok:=nat) :=
  set_reader over 0 (mkReader 1 Outside [Some [x61]; None]).

Lemma ended_watched : watched 0 4 over ended.
Proof.
  eapply watched_own; [split; [by eapply reader_wake|by intros ? ? ? _ _ [= <-]]|].
  eapply watched_own; [split; [by eapply reader_look|by intros ? ? ? [= <-]]|].
  eapply watched_own; [split; [by eapply reader_call|by intros ? ? ? [= <-]]|].
  eapply watched_own; [split; [by eapply reader_look|by intros ? ? ? [= <-]]|].
  apply (watched_nil 0 ended).
Qed.

Lemma reader_finishes_witness :
  (exists s'', goes_on 0 ended s'') /\
  ((4 <= 4)%nat -> exists r' l, readers ended !! 0%nat = Some r' /\
     returned r' = returned waiting_reader ++ l /\ None ∈ l).
Proof.
  exact (reader_finishes 0%nat 8 over ltac:(lia) over_reachable eq_refl 0%nat waiting_reader 4 ended
    eq_refl eq_refl ended_watched).
Defined.

End Witness.
