(* ===== verification/Quota.v ===== *)
(** * Quotas ([crates/gw-core/src/quota.rs])

    The control plane's interface ([AuthHook]) and its two effects on the data
    plane: bytes are counted ([UsageMeter]) and output is limited to a rate
    ([TokenBucket]).  The bucket computes in [f64] (see F64.v); its theorems
    account for every rounding, so the bounds they give are in bytes. *)

From Stdlib Require Import SpecFloat.
From S2P Require Import Prelude F64.

(** ** The control plane's interface *)

Record Entitlement : Type := mkEntitlement {
  max_bytes_per_sec : option u64;
  max_sessions : option u32;
}.

#[export] Instance Entitlement_eq_dec : EqDecision Entitlement.
Proof. solve_decision. Defined.

(** [Entitlement::unlimited]. *)
Definition unlimited : Entitlement := mkEntitlement None None.

Record Denied : Type := mkDenied { denied_reason : string }.

#[export] Instance Denied_eq_dec : EqDecision Denied.
Proof. solve_decision. Defined.

(** Its [Display]. *)
Definition Denied_display (e : Denied) : string := "authorization denied: " +:+ denied_reason e.

(** [dyn AuthHook]: the calls act on the control plane's state [W], and may never
    be answered. *)
Record AuthHook (W : Type) : Type := mkAuthHook {
  authorize : string -> option (list byte) -> Eff W (Result Entitlement Denied);
  session_open : option (list byte) -> string -> string -> Eff W (Result unit Denied);
  session_close : option (list byte) -> string -> Eff W unit;
  report_usage : option (list byte) -> string -> u64 -> u64 -> Eff W unit;
}.
Arguments mkAuthHook {W} _ _ _ _.
Arguments authorize {W} _ _ _ _.
Arguments session_open {W} _ _ _ _ _.
Arguments session_close {W} _ _ _ _.
Arguments report_usage {W} _ _ _ _ _ _.

(** The default methods: no-ops. *)
Definition default_session_open {W} (_ : option (list byte)) (_ _ : string)
    : Eff W (Result unit Denied) := mret (Ok tt).
Definition default_session_close {W} (_ : option (list byte)) (_ : string) : Eff W unit := mret tt.
Definition default_report_usage {W} (_ : option (list byte)) (_ : string) (_ _ : u64)
    : Eff W unit := mret tt.

Definition AllowAll {W} : AuthHook W := {|
  authorize _ _ := mret (Ok unlimited);
  session_open := default_session_open;
  session_close := default_session_close;
  report_usage := default_report_usage;
|}.

(** ** Usage *)

(** Two atomic counters; [fetch_add] wraps. *)
Record UsageMeter : Type := mkUsageMeter { bytes_in : u64; bytes_out : u64 }.

Definition meter_default : UsageMeter := mkUsageMeter 0 0.

Definition add_in (self : UsageMeter) (n : u64) : UsageMeter :=
  mkUsageMeter (wrap 64 (bytes_in self + n)) (bytes_out self).

Definition add_out (self : UsageMeter) (n : u64) : UsageMeter :=
  mkUsageMeter (bytes_in self) (wrap 64 (bytes_out self + n)).

Definition totals (self : UsageMeter) : u64 * u64 := (bytes_in self, bytes_out self).

(** ** Durations ([std::time]) *)

Definition NANOS_PER_SEC : Z := 1000000000.

Record Duration : Type := mkDuration { secs : u64; subsec_nanos : u32 }.

#[export] Instance Duration_eq_dec : EqDecision Duration.
Proof. solve_decision. Defined.

Definition duration_ok (d : Duration) : Prop :=
  fits 64 (secs d) /\ 0 <= subsec_nanos d < NANOS_PER_SEC.

Definition of_nanos (n : Z) : Duration := mkDuration (n / NANOS_PER_SEC) (n mod NANOS_PER_SEC).
Definition as_nanos (d : Duration) : Z := secs d * NANOS_PER_SEC + subsec_nanos d.
Definition ZERO : Duration := mkDuration 0 0.

(** [Duration::as_secs_f64]. *)
Definition as_secs_f64 (d : Duration) : f64 :=
  f64_add (f64_of (secs d)) (f64_div (f64_of (subsec_nanos d)) (f64_of NANOS_PER_SEC)).

(** [n / d] to the nearest integer, ties to even. *)
Definition div_half_even (n d : Z) : Z :=
  let q := n / d in
  match 2 * (n mod d) ?= d with
  | Lt => q
  | Gt => q + 1
  | Eq => q + q mod 2
  end.

(** [Duration::from_secs_f64]: the nearest whole number of nanoseconds; [None]
    is the panic on a negative, overflowing or NaN argument. *)
Definition from_secs_f64 (x : f64) : option Duration :=
  match x with
  | S754_zero _ => Some ZERO
  | S754_finite false _ _ =>
      let n := div_half_even (units x * NANOS_PER_SEC) (2 ^ scale) in
      if decide (n / NANOS_PER_SEC < 2 ^ 64) then Some (of_nanos n) else None
  | _ => None
  end.

(** ** The token bucket *)

Record TokenBucket : Type := mkTokenBucket { capacity : f64; tokens : f64; rate : f64 }.

(** [TokenBucket::new]. *)
Definition bucket_new (rate_per_sec burst : u64) : TokenBucket :=
  let capacity := f64_of (Z.max burst 1) in
  mkTokenBucket capacity capacity (f64_of (Z.max rate_per_sec 1)).

(** [TokenBucket::refill]. *)
Definition refill (self : TokenBucket) (elapsed : Duration) : TokenBucket :=
  mkTokenBucket (capacity self)
    (f64_min (f64_add (tokens self) (f64_mul (as_secs_f64 elapsed) (rate self))) (capacity self))
    (rate self).

(** [TokenBucket::try_consume]. *)
Definition try_consume (self : TokenBucket) (amount : u64) : bool * TokenBucket :=
  let amount := f64_of amount in
  if f64_ge (tokens self) amount then
    (true, mkTokenBucket (capacity self) (f64_sub (tokens self) amount) (rate self))
  else (false, self).

(** [TokenBucket::time_until]; [None] is a panic. *)
Definition time_until (self : TokenBucket) (amount : u64) : option Duration :=
  let amount := f64_min (f64_of amount) (capacity self) in
  if f64_ge (tokens self) amount then Some ZERO
  else from_secs_f64 (f64_div (f64_sub amount (tokens self)) (rate self)).

(** ** Rounding in the bucket's arithmetic *)

Lemma of_int_mono m n : m <= n -> of_int m <= of_int n.
Proof. intros H. unfold of_int. pose proof pow_scale_pos. nia. Qed.

Lemma of_int_add m n : of_int (m + n) = of_int m + of_int n.
Proof. unfold of_int. lia. Qed.

Lemma of_int_le_inv m n : of_int m <= of_int n -> m <= n.
Proof. unfold of_int. pose proof pow_scale_pos. nia. Qed.

Lemma of_int_pow k : 0 <= k + scale -> 0 <= k -> of_int (2 ^ k) = at_exp 1 k.
Proof. intros. unfold of_int, at_exp. rewrite Z.pow_add_r by (unfold scale; lia). lia. Qed.

(** A small unit to count rounding errors in: [2 ^ -32] bytes. *)
Definition tick : Z := at_exp 1 (-32).

Lemma tick_pos : 0 < tick.
Proof. unfold tick, at_exp. rewrite Z.mul_1_l. apply Z.pow_pos_nonneg; unfold scale; lia. Qed.

Lemma of_int_tick n : of_int n = n * 2 ^ 32 * tick.
Proof.
  unfold of_int, tick, at_exp. rewrite Z.mul_1_l, <-Z.mul_assoc, <-Z.pow_add_r by (unfold scale; lia).
  done.
Qed.

(** Results below [2 ^ 21] are within a tick of the exact ones. *)
Lemma rounds_tick a r :
  rounds a 1 r -> 0 <= a < of_int (2 ^ 21) -> good r /\ a - tick < units r < a + tick.
Proof.
  intros Hr Ha. destruct (rounds_error a 1 r (-32) Hr) as [Hg [H1 H2]]; [lia..| |].
  - rewrite Z.mul_1_r. replace (at_exp (2 ^ 53) (-32)) with (2 ^ 53 * tick)
      by (unfold tick, at_exp; lia). rewrite of_int_tick in Ha. lia.
  - rewrite !Z.mul_1_r in *. fold tick in *. done.
Qed.

(** The integer [k] as a double that other doubles can be compared with. *)
Lemma good_int k : 0 <= k <= 2 ^ 53 -> exists g, good g /\ units g = of_int k.
Proof. intros Hk. destruct (on_grid k 0) as (g & Hg & Hu); [lia..|]. rewrite at_exp_0 in Hu. eauto. Qed.

Lemma good_pow k : 0 <= k <= 970 -> exists g, good g /\ units g = of_int (2 ^ k).
Proof.
  intros Hk. destruct (on_grid 1 k) as (g & Hg & Hu); [lia..|].
  rewrite <-of_int_pow in Hu by (unfold scale; lia). eauto.
Qed.

Lemma f64_of_ge n k : 0 <= k <= n -> k <= 2 ^ 53 -> n < 2 ^ 64 -> of_int k <= units (f64_of n).
Proof.
  intros Hk Hk53 Hn. destruct (good_int k) as (g & Hg & Hu); [lia|].
  destruct (good_pow 64) as (h & Hh & Huh); [lia|].
  destruct (rounds_between _ _ _ g h (f64_of_rounds n ltac:(lia)) Hg Hh) as (_ & H1 & _);
    [rewrite Hu, Huh, !Z.mul_1_r; split; apply of_int_mono; lia|]. by rewrite <-Hu.
Qed.

Lemma normal_lo : at_exp 1 (-1022) <= tick.
Proof. apply Z.leb_le. vm_compute. reflexivity. Qed.

Lemma normal_hi : of_int (2 ^ 200) < at_exp 1 1000.
Proof. apply Z.ltb_lt. vm_compute. reflexivity. Qed.

(** The relative error of a result that is zero or between [2 ^ -32] and
    [2 ^ 200] is at most [2 ^ -52]. *)
Lemma rounds_rel_tick a b r :
  rounds a b r -> 0 < b -> a = 0 \/ tick * b <= a -> a <= of_int (2 ^ 200) * b ->
  good r /\ a * (2 ^ 52 - 1) <= units r * b * 2 ^ 52 <= a * (2 ^ 52 + 1).
Proof.
  pose proof normal_lo. pose proof normal_hi. intros Hr Hb [->|Hlo] Hhi.
  - destruct (good_int 0) as (g & Hg & Hu); [lia|]. change (of_int 0) with 0 in Hu.
    destruct (rounds_exact _ _ _ g Hr Hg) as [? ->]; [by rewrite Hu|]. rewrite Hu. split; [done|lia].
  - apply rounds_rel; [done..|nia|nia].
Qed.

(** [n as f64] is exact or off by a factor of at most [1 + 2 ^ -52]. *)
Lemma f64_of_rel n :
  fits 64 n -> good (f64_of n) /\ units (f64_of n) <= of_int (2 ^ 64) /\
  of_int n * (2 ^ 52 - 1) <= units (f64_of n) * 2 ^ 52 <= of_int n * (2 ^ 52 + 1).
Proof.
  intros [H0 Hn]. destruct (f64_of_bounds n 64) as (Hg & Hle & _); [lia..|]. split; [done|].
  split; [done|]. pose proof tick_pos.
  destruct (rounds_rel_tick _ _ _ (f64_of_rounds n H0)) as [_ Hrel]; [lia| | |].
  - destruct (decide (n = 0)) as [->|]; [by left|right]. rewrite of_int_tick. nia.
  - rewrite Z.mul_1_r. apply of_int_mono. lia.
  - by rewrite Z.mul_1_r in Hrel.
Qed.

Lemma good_4tick : exists g, good g /\ units g = 4 * tick.
Proof.
  destruct (on_grid 1 (-30)) as (h & Hh & Huh); [lia..|]. exists h. split; [done|]. rewrite Huh.
  unfold tick. change (-30) with (-32 + 2). rewrite at_exp_shift by (unfold scale; lia).
  unfold at_exp. lia.
Qed.

Lemma rounds_scale a b c r : 0 < c -> rounds (a * c) (b * c) r -> rounds a b r.
Proof. intros Hc [H1 H2 H3]. split; [done| |]; intros g Hg H; [apply H2|apply H3]; done || nia. Qed.

(** The fractional part of a number of seconds. *)
Lemma nanos_f64_spec n :
  0 <= n < NANOS_PER_SEC ->
  let q := f64_div (f64_of n) (f64_of NANOS_PER_SEC) in
  good q /\ units q <= of_int 1 /\ (0 < n -> 4 * tick <= units q) /\
  units q * NANOS_PER_SEC * 2 ^ 52 <= of_int n * (2 ^ 52 + 1).
Proof.
  intros Hn q. pose proof tick_pos as Ht. pose proof pow_scale_pos as Hp. unfold NANOS_PER_SEC in *.
  destruct (f64_of_exact n) as [Hgn Hun]; [lia|].
  destruct (f64_of_exact 1000000000) as [Hg9 Hu9]; [lia|].
  assert (Hr : rounds (of_int n) 1000000000 q).
  { apply (rounds_scale _ _ (2 ^ scale)); [done|]. rewrite <-Hun. change (1000000000 * 2 ^ scale)
      with (of_int 1000000000). rewrite <-Hu9. apply f64_div_rounds; [done..|].
    rewrite Hu9, of_int_tick. lia. }
  destruct (good_int 0) as (z & Hz & Huz); [lia|]. destruct (good_int 1) as (o & Ho & Huo); [lia|].
  destruct (rounds_between _ _ _ z o Hr Hz Ho) as (Hg & _ & Hle);
    [rewrite Huz, Huo; split; rewrite !of_int_tick; nia|].
  split_and!; [done|lia| |].
  - intros H0. destruct good_4tick as (h & Hh & Huh). rewrite <-Huh.
    destruct (rounds_between _ _ _ h o Hr Hh Ho) as (_ & ? & _); [|done].
    rewrite Huh, Huo. split; rewrite !of_int_tick; nia.
  - apply rounds_rel_tick; [done|lia| |].
    + destruct (decide (n = 0)) as [->|]; [by left|right]. rewrite of_int_tick. nia.
    + rewrite !of_int_tick. nia.
Qed.

(** [as_secs_f64]: zero for no time, else at least [2 ^ -30] seconds; within a
    factor [(1 + 2 ^ -52) ^ 2] of the exact number of seconds. *)
Lemma as_secs_f64_spec d :
  duration_ok d ->
  good (as_secs_f64 d) /\ units (as_secs_f64 d) <= of_int (2 ^ 65) /\
  (0 < as_nanos d -> 4 * tick <= units (as_secs_f64 d)) /\
  units (as_secs_f64 d) * NANOS_PER_SEC * 2 ^ 104 <= of_int (as_nanos d) * (2 ^ 52 + 1) ^ 2.
Proof.
  intros [Hs Hn]. pose proof tick_pos as Ht.
  destruct (f64_of_rel (secs d) Hs) as (Hgs & Hles & _ & Hups).
  destruct (nanos_f64_spec _ Hn) as (Hgq & Hleq & Hposq & Hupq).
  unfold as_secs_f64. set (s := f64_of (secs d)) in *. set (q := f64_div _ _) in *.
  pose proof (f64_add_rounds s q Hgs Hgq) as Hr.
  pose proof (units_nonneg s Hgs) as Hs0. pose proof (units_nonneg q Hgq) as Hq0.
  destruct (good_int 0) as (z & Hz & Huz); [lia|].
  destruct (good_pow 65) as (h & Hh & Huh); [lia|].
  destruct (rounds_between _ _ _ z h Hr Hz Hh) as (Hg & _ & Hle);
    [rewrite Huz, Huh; rewrite !of_int_tick in *; lia|].
  assert (Hpos : 0 < as_nanos d -> 4 * tick <= units s + units q).
  { unfold as_nanos. intros H0. destruct (decide (0 < subsec_nanos d)); [intuition lia|].
    enough (of_int 1 <= units s) by (rewrite of_int_tick in *; lia).
    destruct Hs, Hn. unfold NANOS_PER_SEC in *. apply f64_of_ge; lia. }
  split_and!; [done|lia| |].
  - intros H0. destruct good_4tick as (o & Ho & Huo). rewrite <-Huo.
    destruct (rounds_between _ _ _ o h Hr Ho Hh) as (_ & ? & _); [|done].
    rewrite Huo, Huh. rewrite !of_int_tick in *. intuition lia.
  - destruct (rounds_rel_tick _ _ _ Hr) as (_ & _ & Hrel); [lia| |rewrite !of_int_tick in *; lia|].
    + destruct (decide (0 < as_nanos d)); [right; intuition lia|left].
      assert (secs d = 0 /\ subsec_nanos d = 0) as [E1 E2]
        by (unfold as_nanos, NANOS_PER_SEC in *; destruct Hs; lia).
      rewrite E1 in Hups. rewrite E2 in Hupq. change (of_int 0) with 0 in *. unfold NANOS_PER_SEC in *. lia.
    + unfold as_nanos. rewrite of_int_tick in *. unfold NANOS_PER_SEC in *. lia.
Qed.

(** ** The bucket's invariant *)

(** A bucket made by [bucket_new rate_per_sec burst], at any point of its life. *)
Record bucket_ok (rate_per_sec burst : u64) (b : TokenBucket) : Prop := {
  ok_capacity : capacity b = f64_of (Z.max burst 1);
  ok_rate : rate b = f64_of (Z.max rate_per_sec 1);
  ok_tokens : good (tokens b);
  ok_bounded : units (tokens b) <= units (capacity b);
}.

Lemma max_fits n : fits 64 n -> fits 64 (Z.max n 1).
Proof. unfold fits. lia. Qed.

(** The factors [1 + 2 ^ -52] of four roundings make less than [1 + 2 ^ -49]. *)
Lemma four_roundings g s r ns R P N :
  0 < P -> 0 <= s -> 0 <= r -> 0 <= N -> 0 <= ns * R ->
  g * P * 2 ^ 52 <= s * r * (2 ^ 52 + 1) ->
  s * N * 2 ^ 104 <= ns * P * (2 ^ 52 + 1) ^ 2 ->
  r * 2 ^ 52 <= R * P * (2 ^ 52 + 1) ->
  g * N * 2 ^ 49 <= ns * R * P * (2 ^ 49 + 1).
Proof.
  intros HP Hs Hr HN HX Hg Hsu Hru. set (C := 2 ^ 52 + 1) in *.
  assert (HsN : 0 <= s * N) by nia.
  assert (H1 : s * N * 2 ^ 104 * (r * 2 ^ 52) <= ns * P * C ^ 2 * (R * P * C))
    by (apply Z.mul_le_mono_nonneg; lia).
  assert (H2 : g * P * 2 ^ 52 * (N * 2 ^ 156) <= s * r * C * (N * 2 ^ 156))
    by (apply Z.mul_le_mono_nonneg_r; lia).
  assert (H3 : g * N * 2 ^ 208 * P <= ns * R * P * C ^ 4 * P).
  { transitivity (s * N * 2 ^ 104 * (r * 2 ^ 52) * C); [lia|].
    transitivity (ns * P * C ^ 2 * (R * P * C) * C); [|lia].
    apply Z.mul_le_mono_nonneg_r; [unfold C; lia|done]. }
  apply Z.mul_le_mono_pos_r in H3; [|done].
  assert (HC : C ^ 4 * 2 ^ 49 <= (2 ^ 49 + 1) * 2 ^ 208) by (unfold C; lia).
  assert (H4 : ns * R * P * (C ^ 4 * 2 ^ 49) <= ns * R * P * ((2 ^ 49 + 1) * 2 ^ 208))
    by (apply Z.mul_le_mono_nonneg_l; [nia|done]).
  lia.
Qed.

Section Bucket.
Context (rate_per_sec burst : u64) (Hrate : fits 64 rate_per_sec) (Hburst : fits 64 burst).

#[local] Abbreviation ok := (bucket_ok rate_per_sec burst).
#[local] Abbreviation R := (Z.max rate_per_sec 1).

Lemma ok_new : ok (bucket_new rate_per_sec burst).
Proof. split; [done..| |done]. by apply f64_of_rel, max_fits. Qed.

Lemma capacity_spec b :
  ok b -> good (capacity b) /\ of_int 1 <= units (capacity b) /\ units (capacity b) <= of_int (2 ^ 64).
Proof.
  intros Hb. rewrite (ok_capacity _ _ _ Hb).
  destruct (f64_of_bounds (Z.max burst 1) 64) as (? & ? & H1); [destruct Hburst; lia..|].
  split_and!; [done| |done]. apply H1. lia.
Qed.

Lemma rate_spec b :
  ok b -> good (rate b) /\ of_int 1 <= units (rate b) /\ units (rate b) <= of_int (2 ^ 64) /\
  units (rate b) * 2 ^ 52 <= of_int R * (2 ^ 52 + 1).
Proof.
  intros Hb. rewrite (ok_rate _ _ _ Hb).
  destruct (f64_of_bounds R 64) as (? & ? & H1); [destruct Hrate; lia..|].
  destruct (f64_of_rel R) as (_ & _ & _ & ?); [by apply max_fits|]. split_and!; [done| |done..].
  apply H1. lia.
Qed.

(** The bytes a refill is worth. *)
Definition gain (b : TokenBucket) (d : Duration) : f64 := f64_mul (as_secs_f64 d) (rate b).

Lemma gain_spec b d :
  ok b -> duration_ok d ->
  good (gain b d) /\ (0 < as_nanos d -> 4 * tick <= units (gain b d)) /\
  units (gain b d) * NANOS_PER_SEC * 2 ^ 49 <= of_int (as_nanos d * R) * (2 ^ 49 + 1).
Proof.
  intros Hb Hd. destruct (rate_spec b Hb) as (Hgr & Hr1 & Hr64 & Hrup).
  destruct (as_secs_f64_spec d Hd) as (Hgs & Hs65 & Hspos & Hsup).
  pose proof (f64_mul_rounds _ _ Hgs Hgr) as Hr. fold (gain b d) in Hr.
  set (s := units (as_secs_f64 d)) in *. set (r := units (rate b)) in *.
  pose proof (units_nonneg _ Hgs) as Hs0. fold s in Hs0.
  pose proof tick_pos as Ht. pose proof pow_scale_pos as Hp.
  assert (Hone : of_int 1 = 2 ^ scale) by (unfold of_int; lia).
  destruct good_4tick as (t4 & Ht4 & Hut4).
  destruct (good_int 0) as (z & Hz & Huz); [lia|]. destruct (good_pow 130) as (h & Hh & Huh); [lia|].
  assert (Hhi : s * r <= of_int (2 ^ 130) * 2 ^ scale).
  { transitivity (of_int (2 ^ 65) * of_int (2 ^ 64)); [nia|]. unfold of_int. nia. }
  assert (Hlo : 0 < as_nanos d -> 4 * tick * 2 ^ scale <= s * r) by (intros; nia).
  destruct (rounds_between _ _ _ z h Hr Hz Hh) as (Hg & _ & _).
  { rewrite Huz, Huh. change (of_int 0) with 0. nia. }
  split_and!; [done| |].
  - intros Hpos. destruct (rounds_between _ _ _ t4 h Hr Ht4 Hh) as (_ & ? & _);
      rewrite Hut4, ?Huh in *; auto.
  - destruct (rounds_rel_tick _ _ _ Hr) as (_ & _ & Hrel); [done| | |].
    + destruct (decide (0 < as_nanos d)) as [Hpos|Hpos]; [right; specialize (Hlo Hpos); nia|left].
      enough (s = 0) by nia. assert (of_int (as_nanos d) <= of_int 0) by (apply of_int_mono; lia).
      change (of_int 0) with 0 in *. unfold NANOS_PER_SEC in *. nia.
    + assert (of_int (2 ^ 130) <= of_int (2 ^ 200)) by (apply of_int_mono; lia). nia.
    + replace (of_int (as_nanos d * R)) with (as_nanos d * R * 2 ^ scale) by (unfold of_int; lia).
      apply (four_roundings _ s r); try (done || lia).
      destruct Hd as [[? _] [? _]]. unfold as_nanos, NANOS_PER_SEC. nia.
Qed.

Lemma refill_ok b d : ok b -> duration_ok d -> ok (refill b d).
Proof.
  intros Hb Hd. destruct (gain_spec b d Hb Hd) as (Hg & _ & _).
  destruct (capacity_spec b Hb) as (Hc & _). pose proof (ok_tokens _ _ _ Hb) as Ht.
  pose proof (f64_add_rounds _ _ Ht Hg) as Hr.
  destruct (f64_min_units _ _ (rounds_good _ _ _ Hr) Hc) as [Hm Hu].
  unfold refill. fold (gain b d). split; cbn; [apply Hb..|done|]. destruct Hu as [[_ Hu]|[_ Hu]]; lia.
Qed.

Lemma consume_ok b n b' r : ok b -> fits 64 n -> try_consume b n = (r, b') -> ok b'.
Proof.
  intros Hb Hn. unfold try_consume. destruct (f64_of_rel n Hn) as (Hgn & _).
  pose proof (ok_tokens _ _ _ Hb) as Ht. pose proof (units_nonneg _ Hgn) as Hn0.
  rewrite f64_ge_units by done. case_bool_decide as Hle; intros [= <- <-]; [|done].
  pose proof (f64_sub_rounds _ _ Ht Hgn Hle) as Hr.
  destruct (good_int 0) as (z & Hz & Huz); [lia|]. change (of_int 0) with 0 in Huz.
  destruct (rounds_between _ _ _ z (tokens b) Hr Hz Ht) as (Hg & _ & Hup); [lia|].
  split; cbn; [apply Hb..|done|]. pose proof (ok_bounded _ _ _ Hb). lia.
Qed.

(** From here on the bucket is no larger than 2 ^ 20 bytes, so that its
    arithmetic is exact to a tick. *)
Context (Hsmall : burst <= 2 ^ 20).

Lemma capacity_exact b : ok b -> units (capacity b) = of_int (Z.max burst 1).
Proof. intros Hb. rewrite (ok_capacity _ _ _ Hb). apply f64_of_exact. destruct Hburst. lia. Qed.

(** The ideal refill, to a tick. *)
Lemma refill_tick b d :
  ok b -> duration_ok d ->
  let ideal := Z.min (units (tokens b) + units (gain b d)) (units (capacity b)) in
  ideal - tick <= units (tokens (refill b d)) <= ideal + tick /\
  (ideal = units (capacity b) -> units (tokens (refill b d)) = ideal).
Proof.
  intros Hb Hd ideal. destruct (gain_spec b d Hb Hd) as (Hg & _ & _).
  destruct (capacity_spec b Hb) as (Hc & _). pose proof (ok_tokens _ _ _ Hb) as Ht.
  pose proof (f64_add_rounds _ _ Ht Hg) as Hr. pose proof tick_pos.
  assert (Hcap : units (capacity b) <= of_int (2 ^ 20))
    by (rewrite capacity_exact by done; apply of_int_mono; destruct Hburst; lia).
  assert (H21 : of_int (2 ^ 20) <= of_int (2 ^ 21)) by (apply of_int_mono; lia).
  destruct (f64_min_units _ _ (rounds_good _ _ _ Hr) Hc) as [_ Hu].
  unfold refill. fold (gain b d). cbn [tokens]. unfold ideal.
  set (a := units (tokens b) + units (gain b d)) in *.
  assert (Hfull : units (capacity b) <= a ->
    is_inf (f64_add (tokens b) (gain b d)) \/ units (capacity b) <= units (f64_add (tokens b) (gain b d)))
    by (intros; apply (rounds_ge _ _ _ Hr); [done|lia]).
  destruct (decide (a < of_int (2 ^ 21))) as [Hlt|Hge].
  - pose proof (units_nonneg _ Ht). pose proof (units_nonneg _ Hg).
    destruct (rounds_tick a _ Hr) as [Hgood Hbd]; [lia|].
    destruct Hu as [[Hinf _]|[_ Hu]]; [by rewrite Hinf in Hgood|]. split; [lia|].
    intros. destruct Hfull as [Hinf|?]; [lia|by rewrite Hinf in Hgood|lia].
  - destruct (good_pow 21) as (g & Hgg & Hug); [lia|].
    destruct (rounds_ge _ _ _ Hr g Hgg ltac:(lia)) as [Hinf|Hle];
      destruct Hu as [[_ Hu]|[Hgood Hu]]; try lia. by rewrite Hinf in Hgood.
Qed.

(** [try_consume] succeeds exactly when there are [n] whole bytes in the bucket;
    it takes them, to a tick. *)
Lemma consume_tick b n :
  ok b -> fits 64 n ->
  exists b', try_consume b n = (bool_decide (of_int n <= units (tokens b)), b') /\
    if decide (of_int n <= units (tokens b)) then
      units (tokens b) - of_int n - tick <= units (tokens b') <= units (tokens b) - of_int n + tick
    else b' = b.
Proof.
  intros Hb Hn. pose proof (ok_tokens _ _ _ Hb) as Ht. pose proof tick_pos.
  destruct (f64_of_rel n Hn) as (Hgn & _). pose proof (ok_bounded _ _ _ Hb) as Hle.
  assert (Hcap : units (capacity b) <= of_int (2 ^ 20))
    by (rewrite capacity_exact by done; apply of_int_mono; destruct Hburst; lia).
  assert (H21 : of_int (2 ^ 20) < of_int (2 ^ 20 + 1)) by (rewrite !of_int_tick; lia).
  unfold try_consume. rewrite f64_ge_units by done.
  destruct (decide (n <= 2 ^ 20)) as [Hn20|Hn20].
  - destruct (f64_of_exact n) as [_ Hun]; [destruct Hn; lia|]. rewrite Hun.
    case_bool_decide as Hc; (eexists; split; [reflexivity|]);
      [rewrite decide_True by done|by rewrite decide_False]. cbn [tokens]. rewrite <-Hun in Hc |- *.
    assert (of_int (2 ^ 20) < of_int (2 ^ 21)) by (rewrite !of_int_tick; lia).
    pose proof (units_nonneg _ Hgn).
    destruct (rounds_tick _ _ (f64_sub_rounds _ _ Ht Hgn Hc)) as [_ Hbd]; lia.
  - pose proof (f64_of_ge n (2 ^ 20 + 1) ltac:(lia) ltac:(lia) ltac:(destruct Hn; lia)).
    assert (of_int (2 ^ 20 + 1) <= of_int n) by (apply of_int_mono; lia).
    exists b. rewrite !bool_decide_false by lia. rewrite decide_False by lia. done.
Qed.

(** ** Waiting *)

Lemma div_half_even_spec n d :
  0 < d -> Z.abs (2 * div_half_even n d * d - 2 * n) <= d.
Proof.
  intros Hd. unfold div_half_even. pose proof (Z.div_mod n d ltac:(lia)) as Hdm.
  pose proof (Z.mod_pos_bound n d Hd). pose proof (Z.mod_pos_bound (n / d) 2 ltac:(lia)).
  set (q := n / d) in *. set (m := n mod d) in *. set (p := q mod 2) in *. clearbody q m p.
  assert (Hp : p = 0 \/ p = 1) by lia. subst n.
  destruct (Z.compare_spec (2 * m) d); [destruct Hp as [->| ->]|..]; apply Z.abs_le; split; nia.
Qed.

Lemma as_of_nanos n : as_nanos (of_nanos n) = n.
Proof. unfold as_nanos, of_nanos. cbn. pose proof (Z.div_mod n NANOS_PER_SEC ltac:(done)). lia. Qed.

(** [from_secs_f64] is the nearest number of nanoseconds. *)
Lemma from_secs_f64_spec x :
  good x -> units x <= of_int (2 ^ 63) ->
  exists d, from_secs_f64 x = Some d /\
    Z.abs (2 * as_nanos d * 2 ^ scale - 2 * (units x * NANOS_PER_SEC)) <= 2 ^ scale.
Proof.
  intros Hx Hle. pose proof pow_scale_pos as Hp.
  destruct x as [s| | |[] m e]; try done; [exists ZERO; split; [done|]|].
  { change (as_nanos ZERO) with 0. change (units _) with 0. lia. }
  unfold from_secs_f64. set (u := units _) in *. set (n := div_half_even _ _).
  pose proof (div_half_even_spec (u * NANOS_PER_SEC) (2 ^ scale) Hp) as Hn. fold n in Hn.
  rewrite decide_True; [|].
  - eexists. split; [done|]. by rewrite as_of_nanos.
  - apply Z.div_lt_upper_bound; [done|]. unfold of_int, NANOS_PER_SEC in *. nia.
Qed.

Lemma burst_le : of_int (Z.max burst 1) <= of_int (2 ^ 20).
Proof. apply of_int_mono. destruct Hburst. lia. Qed.

(** The amount waited for is capped at the capacity. *)
Lemma capped_amount b n :
  ok b -> fits 64 n ->
  good (f64_min (f64_of n) (capacity b)) /\
  units (f64_min (f64_of n) (capacity b)) = of_int (Z.min n (Z.max burst 1)).
Proof.
  intros Hb Hn. destruct (capacity_spec b Hb) as (Hc & _). destruct (f64_of_rel n Hn) as (Hgn & _).
  destruct (f64_min_units (f64_of n) (capacity b)) as [Hm Hum]; [by left|done|]. split; [done|].
  destruct Hum as [[Hinf _]|[_ ->]]; [by rewrite Hinf in Hgn|]. rewrite capacity_exact by done.
  pose proof burst_le. destruct (decide (n <= 2 ^ 20)).
  - destruct (f64_of_exact n) as [_ ->]; [destruct Hn; lia|]. unfold of_int. pose proof pow_scale_pos. nia.
  - pose proof (f64_of_ge n (2 ^ 20) ltac:(lia) ltac:(lia) ltac:(destruct Hn; lia)).
    rewrite Z.min_r by lia. f_equal. destruct Hburst; lia.
Qed.

(** The number of seconds it computes: off by the errors of the subtraction
    and of the division, a tick each. *)
Lemma wait_seconds b x :
  ok b -> rate_per_sec <= 2 ^ 53 -> good x -> units x <= of_int (2 ^ 20) ->
  units (tokens b) <= units x ->
  let q := f64_div (f64_sub x (tokens b)) (rate b) in
  good q /\ units q <= of_int (2 ^ 22) /\
  Z.abs (units q * R - (units x - units (tokens b))) < tick * (R + 1).
Proof.
  intros Hb HR Hx Hx20 Hle q. pose proof (ok_tokens _ _ _ Hb) as Ht. pose proof tick_pos as Htp.
  pose proof (units_nonneg _ Ht) as Ht0. destruct (rate_spec b Hb) as (Hgr & _).
  assert (Hur : units (rate b) = R * 2 ^ scale).
  { rewrite (ok_rate _ _ _ Hb). apply f64_of_exact. destruct Hrate. lia. }
  destruct (rounds_tick _ _ (f64_sub_rounds _ _ Hx Ht Hle)) as [Hgs Hs].
  { rewrite !of_int_tick in *. lia. }
  set (s := f64_sub x (tokens b)) in *. pose proof (units_nonneg _ Hgs) as Hs0.
  assert (Hr : rounds (units s) R q).
  { apply (rounds_scale _ _ (2 ^ scale)); [apply pow_scale_pos|]. rewrite <-Hur.
    apply f64_div_rounds; [done..|]. rewrite Hur. pose proof pow_scale_pos. nia. }
  destruct (rounds_error _ _ _ (-32) Hr) as [Hgq Hq]; [lia..|done| |].
  { replace (at_exp (2 ^ 53) (-32)) with (2 ^ 53 * tick) by (unfold tick, at_exp; lia).
    rewrite of_int_tick in *. nia. }
  fold tick in Hq. split_and!; [done| |lia]. rewrite of_int_tick in *. nia.
Qed.

(** Half a nanosecond, and two ticks of a second, are less than a nanosecond. *)
Lemma wait_error q D n r t :
  1 <= r -> 0 < t -> Z.abs (q * r - D) < t * (r + 1) ->
  Z.abs (2 * n * (2 ^ 32 * t) - 2 * (q * NANOS_PER_SEC)) <= 2 ^ 32 * t ->
  Z.abs (n * (r * 2 ^ 32 * t) - D * NANOS_PER_SEC) < r * 2 ^ 32 * t.
Proof.
  unfold NANOS_PER_SEC. intros Hr Ht Hq Hn.
  assert (H1 : Z.abs (2 * n * (2 ^ 32 * t) - 2 * (q * 1000000000)) * r <= 2 ^ 32 * t * r) by nia.
  assert (H2 : t * (r + 1) <= 2 * (t * r)) by nia.
  assert (H3 : Z.abs (2 * n * (2 ^ 32 * t) * r - 2 * (q * r * 1000000000)) <= 2 ^ 32 * t * r).
  { rewrite <-(Z.abs_eq r) in H1 by lia. rewrite <-Z.abs_mul, (Z.abs_eq r) in H1 by lia.
    replace (2 * n * (2 ^ 32 * t) * r - 2 * (q * r * 1000000000))
      with ((2 * n * (2 ^ 32 * t) - 2 * (q * 1000000000)) * r) by ring. lia. }
  replace (n * (r * 2 ^ 32 * t)) with (n * (2 ^ 32 * t) * r) by ring.
  assert (0 < t * r) by nia. set (X := n * (2 ^ 32 * t) * r) in *.
  replace (2 * n * (2 ^ 32 * t) * r) with (2 * X) in H3 by (unfold X; ring).
  set (Y := q * r) in *. set (T := t * r) in *. clearbody X Y.
  replace (2 ^ 32 * t * r) with (2 ^ 32 * T) in H3 by (unfold T; ring).
  replace (r * 2 ^ 32 * t) with (2 ^ 32 * T) by (unfold T; ring). lia.
Qed.

(** [time_until] of a bucket of at most 2 ^ 20 bytes and at most 2 ^ 53 bytes a
    second, against the exact [deficit / rate]. *)
Lemma time_until_spec b n :
  ok b -> fits 64 n -> rate_per_sec <= 2 ^ 53 ->
  let deficit := of_int (Z.min n (Z.max burst 1)) - units (tokens b) in
  if decide (deficit <= 0) then time_until b n = Some ZERO
  else exists d, time_until b n = Some d /\
    Z.abs (as_nanos d * of_int R - deficit * NANOS_PER_SEC) < of_int R.
Proof.
  intros Hb Hn HR deficit. pose proof (ok_tokens _ _ _ Hb) as Ht. pose proof tick_pos as Htp.
  destruct (capped_amount b n Hb Hn) as [Hm Hum].
  unfold time_until. rewrite f64_ge_units, Hum by done.
  destruct (decide (deficit <= 0)) as [Hd|Hd];
    [by rewrite bool_decide_true by (unfold deficit in Hd; lia)|].
  rewrite bool_decide_false by (unfold deficit in Hd; lia).
  pose proof burst_le. assert (of_int (Z.min n (Z.max burst 1)) <= of_int (Z.max burst 1))
    by (apply of_int_mono; lia).
  destruct (wait_seconds b _ Hb HR Hm) as (Hgq & Hq22 & Hq); [lia|unfold deficit in Hd; lia|].
  rewrite Hum in Hq. fold deficit in Hq.
  destruct (from_secs_f64_spec _ Hgq) as (d & -> & Hns).
  { rewrite of_int_tick in *. lia. }
  exists d. split; [done|].
  replace (2 ^ scale) with (2 ^ 32 * tick) in Hns by (pose proof (of_int_tick 1); unfold of_int in *; lia).
  rewrite of_int_tick. by eapply wait_error; [|done|exact Hq|exact Hns]; lia.
Qed.

End Bucket.

(** ** Runs of the limiter *)

Inductive BucketOp : Type :=
  | Refill (elapsed : Duration)
  | TryConsume (amount : u64).

Definition op_ok (op : BucketOp) : Prop :=
  match op with
  | Refill d => duration_ok d
  | TryConsume n => fits 64 n
  end.

(** The bucket after a run, and the bytes it let through. *)
Fixpoint bucket_run (b : TokenBucket) (ops : list BucketOp) : TokenBucket * Z :=
  match ops with
  | [] => (b, 0)
  | Refill d :: ops => bucket_run (refill b d) ops
  | TryConsume n :: ops =>
      let '(r, b) := try_consume b n in
      let '(b, admitted) := bucket_run b ops in
      (b, (if r then n else 0) + admitted)
  end.

(** The time that passes in a run, in nanoseconds. *)
Fixpoint run_nanos (ops : list BucketOp) : Z :=
  match ops with
  | [] => 0
  | Refill d :: ops => as_nanos d + run_nanos ops
  | TryConsume _ :: ops => run_nanos ops
  end.

Section Runs.
Context (rate_per_sec burst : u64) (Hrate : fits 64 rate_per_sec) (Hburst : fits 64 burst).

#[local] Abbreviation ok := (bucket_ok rate_per_sec burst).
#[local] Abbreviation R := (Z.max rate_per_sec 1).

Lemma bucket_run_ok ops : forall b, ok b -> Forall op_ok ops -> ok (bucket_run b ops).1.
Proof.
  induction ops as [|[d|n] ops IH]; intros b Hb Hops; [done|..];
    apply Forall_cons in Hops as [Hop Hops]; cbn.
  - apply IH; [by apply refill_ok|done].
  - destruct (try_consume b n) as [r b'] eqn:E. specialize (IH b').
    destruct (bucket_run b' ops). apply IH; [|done]. by eapply consume_ok.
Qed.

Lemma bucket_run_app ops1 : forall b ops2,
  bucket_run b (ops1 ++ ops2) =
  let '(b, n1) := bucket_run b ops1 in let '(b, n2) := bucket_run b ops2 in (b, n1 + n2).
Proof.
  induction ops1 as [|[d|n] ops1 IH]; intros b ops2; cbn [app bucket_run].
  - destruct (bucket_run b ops2). done.
  - apply IH.
  - destruct (try_consume b n) as [r b']. rewrite IH. destruct (bucket_run b' ops1) as [b1 n1].
    destruct (bucket_run b1 ops2) as [b2 n2]. f_equal. lia.
Qed.

Lemma run_nanos_app ops1 ops2 : run_nanos (ops1 ++ ops2) = run_nanos ops1 + run_nanos ops2.
Proof. induction ops1 as [|[d|n] ops1 IH]; cbn [app run_nanos]; lia. Qed.

(** What is let through is paid for: by tokens, by gains, or by roundings. *)
Lemma bucket_run_ledger (Hsmall : burst <= 2 ^ 20) ops : forall b,
  ok b -> Forall op_ok ops ->
  (units (tokens (bucket_run b ops).1) + of_int (bucket_run b ops).2) * (NANOS_PER_SEC * 2 ^ 49) <=
  (units (tokens b) + len ops * tick) * (NANOS_PER_SEC * 2 ^ 49) +
  of_int (run_nanos ops * R) * (2 ^ 49 + 1).
Proof.
  induction ops as [|[d|n] ops IH]; intros b Hb Hops;
    [|apply Forall_cons in Hops as [Hop Hops]; cbn [bucket_run run_nanos]; rewrite len_cons..].
  - cbn [bucket_run run_nanos fst snd]. change (len []) with 0. rewrite !Z.mul_0_l. change (of_int 0) with 0. lia.
  - destruct (gain_spec _ _ Hrate b d Hb Hop) as (_ & _ & Hg).
    pose proof (refill_tick _ _ Hrate Hburst Hsmall b d Hb Hop) as [Hr _].
    specialize (IH (refill b d) ltac:(by apply refill_ok) Hops).
    rewrite !Z.mul_add_distr_r. rewrite of_int_add. unfold NANOS_PER_SEC in *. lia.
  - destruct (consume_tick _ _ Hburst Hsmall b n Hb Hop) as (b' & E & Hc). rewrite E.
    specialize (IH b' ltac:(by eapply consume_ok) Hops). destruct (bucket_run b' ops) as [b2 adm].
    pose proof tick_pos. cbn [fst snd] in *. unfold NANOS_PER_SEC in *. rewrite of_int_add.
    case_bool_decide; [rewrite decide_True in Hc by done; lia|rewrite decide_False in Hc by done].
    subst b'. change (of_int 0) with 0. lia.
Qed.

(** The bytes a window of operations lets through. *)
Lemma window_cap b window :
  burst <= 2 ^ 20 -> ok b -> Forall op_ok window ->
  (bucket_run b window).2 * 2 ^ 32 * (NANOS_PER_SEC * 2 ^ 49) <=
  (Z.max burst 1 * 2 ^ 32 + len window) * (NANOS_PER_SEC * 2 ^ 49) +
  run_nanos window * R * (2 ^ 49 + 1) * 2 ^ 32.
Proof.
  intros Hsmall Hok Hw.
  pose proof (bucket_run_ledger Hsmall window b Hok Hw) as Hl.
  pose proof (bucket_run_ok window b Hok Hw) as Hok'.
  pose proof (units_nonneg _ (ok_tokens _ _ _ Hok')). pose proof (ok_bounded _ _ _ Hok) as Hle.
  rewrite (capacity_exact _ _ Hburst Hsmall b Hok) in Hle. rewrite !of_int_tick in *.
  pose proof tick_pos. apply (Z.mul_le_mono_pos_r _ _ tick); [done|]. unfold NANOS_PER_SEC in *. lia.
Qed.

(** C36: the bandwidth cap is enforced.  For a limiter of at most 1 MiB of
    burst, in any window of a run, from any point reached by refilling for
    elapsed times and consuming, the bytes let through are at most the burst,
    plus the rate times the elapsed time (to a factor [1 + 2 ^ -49]), plus
    [2 ^ -32] of a byte per operation: floating point lets nothing else
    through.  (Both sides are multiplied by [10 ^ 9 * 2 ^ 81].) *)
Theorem bandwidth_cap before window :
  burst <= 2 ^ 20 -> Forall op_ok (before ++ window) ->
  let b := (bucket_run (bucket_new rate_per_sec burst) before).1 in
  (bucket_run b window).2 * 2 ^ 32 * (NANOS_PER_SEC * 2 ^ 49) <=
  (Z.max burst 1 * 2 ^ 32 + len window) * (NANOS_PER_SEC * 2 ^ 49) +
  run_nanos window * R * (2 ^ 49 + 1) * 2 ^ 32.
Proof.
  intros Hsmall [Hb Hw]%Forall_app b. apply window_cap; [done| |done].
  apply bucket_run_ok; [by apply ok_new|done].
Qed.

(** C37: [try_consume] and [time_until] agree.  In every state of a limiter of
    at most 1 MiB of burst and [2 ^ 53] bytes a second, for an amount within
    the burst: either the amount can be consumed now and the wait is zero, or
    it cannot and the wait is the missing bytes over the rate, to less than a
    nanosecond. *)
Theorem time_until_exact ops n :
  burst <= 2 ^ 20 -> rate_per_sec <= 2 ^ 53 -> Forall op_ok ops -> 0 <= n <= Z.max burst 1 ->
  let b := (bucket_run (bucket_new rate_per_sec burst) ops).1 in
  if (try_consume b n).1 then time_until b n = Some ZERO
  else exists d, time_until b n = Some d /\
    Z.abs (as_nanos d * of_int R - (of_int n - units (tokens b)) * NANOS_PER_SEC) < of_int R.
Proof.
  intros Hsmall HR Hops Hn b. assert (Hf : fits 64 n) by (destruct Hburst; split; lia).
  assert (Hok : ok b) by (apply bucket_run_ok; [by apply ok_new|done]).
  destruct (consume_tick _ _ Hburst Hsmall b n Hok Hf) as (b' & E & _).
  pose proof (time_until_spec _ _ Hrate Hburst Hsmall b n Hok Hf HR) as Hw.
  rewrite (Z.min_l n) in Hw by lia. rewrite E. cbn [fst].
  cbv zeta in Hw. destruct (decide (of_int n - units (tokens b) <= 0)); case_bool_decide; done || lia.
Qed.

(** An amount above the capacity is never available. *)
Lemma oversized_refused b n :
  burst <= 2 ^ 20 -> ok b -> fits 64 n -> Z.max burst 1 < n -> try_consume b n = (false, b).
Proof.
  intros Hsmall Hok Hf Hn. destruct (consume_tick _ _ Hburst Hsmall b n Hok Hf) as (b' & -> & Hb').
  pose proof (ok_bounded _ _ _ Hok) as Hle. rewrite (capacity_exact _ _ Hburst Hsmall b Hok) in Hle.
  assert (of_int (Z.max burst 1) < of_int n) by (rewrite !of_int_tick; pose proof tick_pos; nia).
  rewrite bool_decide_false by lia. rewrite decide_False in Hb' by lia. by subst b'.
Qed.

Lemma time_until_some b n :
  burst <= 2 ^ 63 -> ok b -> fits 64 n -> is_Some (time_until b n).
Proof.
  intros H63 Hok Hn.
  destruct (capacity_spec _ _ Hburst b Hok) as (Hc & _). destruct (f64_of_rel n Hn) as (Hgn & _).
  destruct (rate_spec _ _ Hrate b Hok) as (Hgr & Hr1 & _). pose proof (ok_tokens _ _ _ Hok) as Ht.
  destruct (f64_min_units (f64_of n) (capacity b)) as [Hm Hum]; [by left|done|].
  assert (Hcap : units (capacity b) <= of_int (2 ^ 63)).
  { rewrite (ok_capacity _ _ _ Hok). apply f64_of_bounds; destruct Hburst; lia. }
  set (x := f64_min (f64_of n) (capacity b)) in *.
  unfold time_until. fold x. rewrite f64_ge_units by done. case_bool_decide as Hle; [done|].
  destruct (good_int 0) as (z & Hz & Huz); [lia|]. change (of_int 0) with 0 in Huz.
  destruct (good_pow 63) as (h & Hh & Huh); [lia|]. pose proof (units_nonneg _ Ht).
  assert (Hx63 : units x <= of_int (2 ^ 63)) by (destruct Hum as [[_ ->]|[_ ->]]; lia).
  destruct (rounds_between _ _ _ z h (f64_sub_rounds x (tokens b) Hm Ht ltac:(lia)) Hz Hh)
    as (Hgs & Hs0 & Hs); [lia|].
  assert (H1 : of_int 1 = 2 ^ scale) by (unfold of_int; lia). pose proof pow_scale_pos.
  destruct (rounds_between _ _ _ z h (f64_div_rounds _ _ Hgs Hgr ltac:(lia)) Hz Hh) as (Hgq & _ & Hq).
  { rewrite Huz, Huh in *. nia. }
  destruct (from_secs_f64_spec _ Hgq) as (d & -> & _); [lia|done].
Qed.

(** [time_until] never panics in [Duration::from_secs_f64], in any state of
    a limiter whose burst is at most [2 ^ 63] (the gateway's is [2 ^ 20]),
    whatever the rate. *)
Theorem time_until_no_panic ops n :
  burst <= 2 ^ 63 -> Forall op_ok ops -> fits 64 n ->
  is_Some (time_until (bucket_run (bucket_new rate_per_sec burst) ops).1 n).
Proof.
  intros H63 Hops Hn. apply time_until_some; [done| |done].
  apply bucket_run_ok; [by apply ok_new|done].
Qed.

End Runs.

(** With the whole [u64] range as burst it can: the wait for [u64::MAX] bytes at
    one byte a second rounds up to [2 ^ 64] seconds. *)
Example time_until_can_panic :
  time_until (try_consume (bucket_new 1 (2 ^ 64 - 1)) (2 ^ 64 - 1)).2 (2 ^ 64 - 1) = None.
Proof. vm_compute. reflexivity. Qed.

(** ** The meter *)

(** A mixed sequence of counts, [true] for output. *)
Definition meter_run (m : UsageMeter) (ops : list (bool * u64)) : UsageMeter :=
  fold_left (fun m '(out, n) => if out : bool then add_out m n else add_in m n) ops m.

Fixpoint counted (out : bool) (ops : list (bool * u64)) : Z :=
  match ops with
  | [] => 0
  | (o, n) :: ops => (if Bool.eqb o out then n else 0) + counted out ops
  end.

Lemma wrap_add w a b : 0 <= w -> wrap w (wrap w a + b) = wrap w (a + b).
Proof. intros Hw. unfold wrap. apply Z.add_mod_idemp_l. pose proof (Z.pow_pos_nonneg 2 w). lia. Qed.

Lemma wrap_id_fits w a : 0 <= w -> wrap w (wrap w a) = wrap w a.
Proof. intros. apply wrap_id. auto with gw. Qed.

Lemma meter_run_totals ops : forall i o,
  totals (meter_run (mkUsageMeter (wrap 64 i) (wrap 64 o)) ops) =
  (wrap 64 (i + counted false ops), wrap 64 (o + counted true ops)).
Proof.
  induction ops as [|[[] n] ops IH]; intros i o.
  - cbn [counted]. by rewrite !Z.add_0_r.
  - specialize (IH i (o + n)). rewrite <-(wrap_add 64 o n) in IH by lia.
    cbn [counted Bool.eqb]. rewrite Z.add_0_l, !Z.add_assoc. by rewrite <-IH.
  - specialize (IH (i + n) o). rewrite <-(wrap_add 64 i n) in IH by lia.
    cbn [counted Bool.eqb]. rewrite Z.add_0_l, !Z.add_assoc. by rewrite <-IH.
Qed.

(** Usage metering.  However the counts of the two directions interleave,
    each total is the sum of its own bytes modulo [2 ^ 64], and so exactly that
    sum as long as it fits a [u64]. *)
Theorem meter_totals ops :
  totals (meter_run meter_default ops) = (wrap 64 (counted false ops), wrap 64 (counted true ops)).
Proof. apply (meter_run_totals ops 0 0). Qed.

(** ** Witnesses *)

Module Witness.

(** A limiter of 1000 bytes a second and 1 MiB of burst, drained, refilled for
    a second and a third, and used again. *)
Definition before : list BucketOp := [TryConsume (2 ^ 20); Refill (mkDuration 1 333333333)].
Definition window : list BucketOp :=
  [TryConsume 1000; TryConsume 400; Refill (mkDuration 0 100000000); TryConsume 400].

Lemma ops_ok : Forall op_ok (before ++ window).
Proof. repeat constructor; cbn; done. Defined.

Lemma bandwidth_cap_witness :
  let b := (bucket_run (bucket_new 1000 (2 ^ 20)) before).1 in
  (bucket_run b window).2 * 2 ^ 32 * (NANOS_PER_SEC * 2 ^ 49) <=
  (Z.max (2 ^ 20) 1 * 2 ^ 32 + len window) * (NANOS_PER_SEC * 2 ^ 49) +
  run_nanos window * Z.max 1000 1 * (2 ^ 49 + 1) * 2 ^ 32.
Proof. apply (bandwidth_cap 1000 (2 ^ 20)); [done|done|lia|exact ops_ok]. Defined.

Lemma time_until_exact_witness :
  let b := (bucket_run (bucket_new 1000 (2 ^ 20)) before).1 in
  if (try_consume b 4000).1 then time_until b 4000 = Some ZERO
  else exists d, time_until b 4000 = Some d /\
    Z.abs (as_nanos d * of_int (Z.max 1000 1) - (of_int 4000 - units (tokens b)) * NANOS_PER_SEC) <
    of_int (Z.max 1000 1).
Proof.
  apply (time_until_exact 1000 (2 ^ 20) ltac:(done) ltac:(done) before 4000); [lia|lia| |lia].
  repeat constructor; cbn; done.
Defined.

Lemma time_until_no_panic_witness :
  is_Some (time_until (bucket_run (bucket_new 1 (2 ^ 63)) [TryConsume (2 ^ 63)]).1 (2 ^ 64 - 1)).
Proof.
  apply (time_until_no_panic 1 (2 ^ 63) ltac:(done) ltac:(done) [TryConsume (2 ^ 63)]); [lia| |done].
  repeat constructor; cbn; done.
Defined.

(** What they come to there. *)
Example bandwidth_run :
  (bucket_run (bucket_run (bucket_new 1000 (2 ^ 20)) before).1 window).2 = 1400.
Proof. vm_compute. reflexivity. Qed.

End Witness.
