(* ===== verification/Throttle.v ===== *)
(** * The bandwidth limiter at work ([throttle] in
    [crates/gw-server/src/handler.rs])

    Before each chunk of output the sender task waits until the bucket has
    room for it.  The clock is the environment's: [now i] is what the [i]-th
    call of [Instant::now] returns, in nanoseconds, and a sleep is a duration
    asked for, which shows up only in the later readings.  The theorems are
    about any such clock; those that need it to advance say so. *)

From S2P Require Import Prelude F64 Quota Scrollback.

(** 1 MiB. *)
Definition BANDWIDTH_BURST : u64 := Z.shiftl 1 20.

Abbreviation Instant := Z (only parsing).

(** [Instant::duration_since] saturates. *)
Definition duration_since (now earlier : Instant) : Duration := of_nanos (Z.max 0 (now - earlier)).

(** What the sender task is set up with: no limiter without a cap. *)
Definition limiter_new (e : Entitlement) (now : Instant) : option (TokenBucket * Instant) :=
  rate ← max_bytes_per_sec e; Some (bucket_new rate BANDWIDTH_BURST, now).

(** How a call ends: with the clock readings used up and the durations slept. *)
Inductive Throttled : Type :=
  | Returned (bucket : TokenBucket) (last : Instant) (i : nat) (slept : list Duration)
  | Panicked.

Section Clock.
Context (now : nat -> Instant).

(** The loop; [None] when it takes more than [fuel] iterations. *)
Fixpoint throttle_loop (fuel : nat) (bucket : TokenBucket) (last : Instant) (i : nat)
    (slept : list Duration) (amount : u64) : option Throttled :=
  match fuel with
  | O => None
  | S fuel =>
      let now := now i in
      let bucket := refill bucket (duration_since now last) in
      let last := now in
      let '(r, bucket) := try_consume bucket amount in
      if r then Some (Returned bucket last (S i) slept)
      else
        match time_until bucket amount with
        | None => Some Panicked
        | Some d => throttle_loop fuel bucket last (S i) (slept ++ [d]) amount
        end
  end.

(** [throttle]: the limiter afterwards, and the next clock reading. *)
Definition throttle (fuel : nat) (limiter : option (TokenBucket * Instant)) (i : nat) (amount : u64)
    : option (option (option (TokenBucket * Instant) * nat)) :=
  match limiter with
  | None => Some (Some (None, i))
  | Some (bucket, last) =>
      r ← throttle_loop fuel bucket last i [] amount;
      match r with
      | Returned bucket last i _ => Some (Some (Some (bucket, last), i))
      | Panicked => Some None
      end
  end.

End Clock.

(** Two bytes at one byte a second, with an empty bucket and a clock that is
    asked every second. *)
Example throttle_waits :
  let bucket := (try_consume (bucket_new 1 2) 2).2 in
  match throttle_loop (fun i => Z.of_nat i * 1000000000) 10 bucket 0 0 [] 2 with
  | Some (Returned b last i slept) => Some (last, i, slept)
  | _ => None
  end = Some (2000000000, 3%nat, [mkDuration 2 0; mkDuration 1 0]).
Proof. vm_compute. reflexivity. Qed.

(** ** What a call does to the bucket *)

Lemma duration_since_ok now earlier :
  now < earlier + 2 ^ 64 * NANOS_PER_SEC -> duration_ok (duration_since now earlier).
Proof.
  intros Hn. unfold duration_since, of_nanos. split; cbn; [split|].
  - apply Z.div_pos; [lia|done].
  - apply Z.div_lt_upper_bound; [done|]. unfold NANOS_PER_SEC in *. lia.
  - by apply Z.mod_pos_bound.
Qed.

Lemma burst_fits : fits 64 BANDWIDTH_BURST.
Proof. done. Qed.

Lemma burst_small : BANDWIDTH_BURST <= 2 ^ 20.
Proof. done. Qed.

Section Throttle.
Context (now : nat -> Instant) (rate_per_sec : u64) (Hrate : fits 64 rate_per_sec).
(** The clock does not run backwards, and the time between two readings fits a
    [Duration]. *)
Context (Hclock : forall i, now i <= now (S i) < now i + 2 ^ 64 * NANOS_PER_SEC).

#[local] Abbreviation ok := (bucket_ok rate_per_sec BANDWIDTH_BURST).

(** A call is a run of the bucket: the time between the first reading before
    it and its last one goes in, and exactly [amount] comes out. *)
Lemma throttle_loop_run amount : fits 64 amount -> forall fuel b last i slept r,
  ok b -> last <= now i < last + 2 ^ 64 * NANOS_PER_SEC ->
  throttle_loop now fuel b last i slept amount = Some r ->
  exists b' i' slept' ops, r = Returned b' (now (pred i')) i' slept' /\ (i < i')%nat /\
    Forall op_ok ops /\ bucket_run b ops = (b', amount) /\
    run_nanos ops = now (pred i') - last /\ len ops = 2 * Z.of_nat (i' - i).
Proof.
  intros Ha. induction fuel as [|fuel IH]; [done|]. intros b last i slept r Hb Hlast H.
  cbn [throttle_loop] in H. set (d := duration_since (now i) last) in *.
  assert (Hd : duration_ok d) by (apply duration_since_ok; lia).
  assert (Hdn : as_nanos d = now i - last) by (unfold d, duration_since; rewrite as_of_nanos; lia).
  pose proof (refill_ok _ _ Hrate burst_fits b d Hb Hd) as Hb1.
  destruct (try_consume (refill b d) amount) as [[] b2] eqn:E.
  - injection H as <-. exists b2, (S i), slept, [Refill d; TryConsume amount]. split_and!;
      [done|lia|by rewrite !Forall_cons| |cbn; lia|rewrite !len_cons, len_nil; lia].
    cbn. rewrite E. f_equal. lia.
  - assert (Hb2 : ok b2) by by eapply consume_ok.
    destruct (time_until_some _ _ Hrate burst_fits b2 amount) as [w Ew]; [done..|]. rewrite Ew in H.
    destruct (fun Hl => IH b2 (now i) (S i) _ _ Hb2 Hl H)
      as (b' & i' & slept' & ops & -> & Hi & Hops & Hrun & Hnanos & Hlen); [apply Hclock|].
    exists b', i', slept', (Refill d :: TryConsume amount :: ops). split_and!;
      [done|lia|by rewrite !Forall_cons| | |rewrite !len_cons; lia].
    + cbn. by rewrite E, Hrun.
    + cbn. lia.
Qed.

(** While it waits, each turn adds three ticks or fills the bucket. *)
Lemma refill_progress b d :
  ok b -> duration_ok d -> 0 < as_nanos d ->
  units (tokens (refill b d)) = units (capacity b) \/
  units (tokens b) + 3 * tick <= units (tokens (refill b d)).
Proof.
  intros Hb Hd Hpos. destruct (gain_spec _ _ Hrate b d Hb Hd) as (_ & Hg & _).
  destruct (refill_tick _ _ Hrate burst_fits burst_small b d Hb Hd) as [Hr Hfull].
  specialize (Hg Hpos). destruct (decide (units (tokens b) + units (gain b d) < units (capacity b))).
  - right. rewrite Z.min_l in Hr by lia. lia.
  - left. rewrite Z.min_r in Hfull by lia. auto.
Qed.

Lemma burst_capacity b : ok b -> units (capacity b) = of_int BANDWIDTH_BURST.
Proof. intros Hb. by apply (capacity_exact rate_per_sec _ burst_fits burst_small). Qed.

(** A wait of no more than the burst ends: with a clock that advances between
    readings, in as many turns as there are missing tokens, three ticks a
    turn. *)
Lemma throttle_loop_ends amount :
  0 <= amount <= BANDWIDTH_BURST -> (forall i, now i < now (S i)) -> forall fuel b last i slept,
  ok b -> last < now i < last + 2 ^ 64 * NANOS_PER_SEC ->
  of_int BANDWIDTH_BURST < units (tokens b) + (Z.of_nat fuel) * (3 * tick) ->
  is_Some (throttle_loop now fuel b last i slept amount).
Proof.
  intros Ha Hadv. assert (Hfa : fits 64 amount) by (pose proof burst_small; split; lia).
  assert (Hab : of_int amount <= of_int BANDWIDTH_BURST) by (apply of_int_mono; lia).
  induction fuel as [|fuel IH]; intros b last i slept Hb Hlast Hfuel.
  { pose proof (ok_bounded _ _ _ Hb). rewrite (burst_capacity b Hb) in *. lia. }
  cbn [throttle_loop]. set (d := duration_since (now i) last) in *.
  assert (Hd : duration_ok d) by (apply duration_since_ok; lia).
  assert (Hdn : 0 < as_nanos d) by (unfold d, duration_since; rewrite as_of_nanos; lia).
  pose proof (refill_ok _ _ Hrate burst_fits b d Hb Hd) as Hb1.
  destruct (consume_tick _ _ burst_fits burst_small _ amount Hb1 Hfa) as (b2 & -> & Hb2).
  case_bool_decide as Hc; [done|]. rewrite decide_False in Hb2 by done. subst b2.
  destruct (time_until_some _ _ Hrate burst_fits (refill b d) amount) as [w ->]; [done..|].
  apply IH; [done|pose proof (Hadv i); pose proof (Hclock i); lia|].
  destruct (refill_progress b d Hb Hd Hdn) as [Hfull|Hstep]; [|lia].
  rewrite Hfull, (burst_capacity b Hb) in Hc. lia.
Qed.

(** An amount above the burst is never available: the call does not return. *)
Lemma throttle_loop_stuck amount :
  BANDWIDTH_BURST < amount -> fits 64 amount -> forall fuel b last i slept,
  ok b -> last <= now i < last + 2 ^ 64 * NANOS_PER_SEC -> throttle_loop now fuel b last i slept amount = None.
Proof.
  intros Ha Hfa. induction fuel as [|fuel IH]; intros b last i slept Hb Hlast; [done|].
  cbn [throttle_loop]. set (d := duration_since (now i) last) in *.
  assert (Hd : duration_ok d) by (apply duration_since_ok; lia).
  pose proof (refill_ok _ _ Hrate burst_fits b d Hb Hd) as Hb1.
  rewrite (oversized_refused _ _ burst_fits _ _ burst_small Hb1 Hfa ltac:(done)).
  destruct (time_until_some _ _ Hrate burst_fits (refill b d) amount) as [w ->]; [done..|].
  by apply IH.
Qed.

End Throttle.

(** ** The sender's limiter *)

(** The sender throttles one chunk after the other; [None] when a call does
    not return within [fuel] turns, or panics. *)
Fixpoint throttle_all (now : nat -> Instant) (fuel : nat) (limiter : option (TokenBucket * Instant))
    (i : nat) (amounts : list u64) : option (option (TokenBucket * Instant) * nat) :=
  match amounts with
  | [] => Some (limiter, i)
  | amount :: amounts =>
      r ← throttle now fuel limiter i amount;
      '(limiter, i) ← r;
      throttle_all now fuel limiter i amounts
  end.

(** A limiter between two calls, the next clock reading being [now i]. *)
Definition limiter_ok (now : nat -> Instant) (rate_per_sec : u64) (i : nat)
    (limiter : option (TokenBucket * Instant)) : Prop :=
  match limiter with
  | None => True
  | Some (b, last) => bucket_ok rate_per_sec BANDWIDTH_BURST b /\
      last < now i < last + 2 ^ 64 * NANOS_PER_SEC
  end.

(** A clock that advances at every reading, by no more than a [Duration] holds. *)
Definition advancing (now : nat -> Instant) : Prop :=
  forall i, now i < now (S i) < now i + 2 ^ 64 * NANOS_PER_SEC.

Section Sender.
Context (now : nat -> Instant) (rate_per_sec : u64) (Hrate : fits 64 rate_per_sec).
Context (Hadv : advancing now).

#[local] Lemma clock i : now i <= now (S i) < now i + 2 ^ 64 * NANOS_PER_SEC.
Proof. pose proof (Hadv i). lia. Qed.

(** One call, on a limiter between two calls. *)
Lemma throttle_step fuel b last i amount r :
  limiter_ok now rate_per_sec i (Some (b, last)) -> fits 64 amount ->
  throttle now fuel (Some (b, last)) i amount = Some r ->
  exists b' i' ops, r = Some (Some (b', now (pred i')), i') /\ (i < i')%nat /\
    limiter_ok now rate_per_sec i' (Some (b', now (pred i'))) /\
    Forall op_ok ops /\ bucket_run b ops = (b', amount) /\
    run_nanos ops = now (pred i') - last /\ len ops = 2 * Z.of_nat (i' - i).
Proof.
  intros [Hb Hlast] Ha (r0 & E & H)%bind_Some.
  eapply (throttle_loop_run _ _ Hrate clock) in E; [|done|done|lia].
  destruct E as (b' & i' & sl & ops & -> & Hi & Hops & Hrun & Hn & Hl). injection H as <-.
  exists b', i', ops. split_and!; try done. split.
  - change b' with (b', amount).1. rewrite <-Hrun. by apply (bucket_run_ok _ _ Hrate burst_fits).
  - destruct i'; [lia|]. apply Hadv.
Qed.

(** C21: output is never blocked for good.  A chunk that a reader of a session
    with the default scrollback delivers fits the burst: in any state of the
    limiter, and with any clock that advances, [throttle] returns, without
    panicking, in at most [2 ^ 51] turns, and leaves the limiter in a good
    state. *)
Theorem throttle_passes_chunks evs chunk limiter i fuel :
  len (total evs) < 2 ^ 64 ->
  Ready (Some chunk) ∈ run (new_inner DEFAULT_SCROLLBACK_BYTES) 0 evs ->
  limiter_ok now rate_per_sec i limiter -> 2 ^ 51 <= Z.of_nat fuel ->
  exists limiter' i', throttle now fuel limiter i (len chunk) = Some (Some (limiter', i')) /\
    limiter_ok now rate_per_sec i' limiter'.
Proof.
  intros Hlen Hchunk%run_polls_bounded Hl Hfuel; [|done..].
  destruct limiter as [[b last]|]; [|by exists None, i].
  pose proof Hl as [Hb Hlast]. unfold DEFAULT_SCROLLBACK_BYTES in Hchunk.
  assert (Ha : 0 <= len chunk <= BANDWIDTH_BURST) by (change BANDWIDTH_BURST with (2 ^ 20); lia).
  assert (Hf : fits 64 (len chunk)) by (split; lia).
  destruct (throttle_loop_ends now _ Hrate clock _ Ha (fun i => proj1 (Hadv i)) fuel b last i [])
    as [r Hr]; [done..| |].
  { pose proof tick_pos. pose proof (units_nonneg _ (ok_tokens _ _ _ Hb)).
    rewrite of_int_tick. change BANDWIDTH_BURST with (2 ^ 20). nia. }
  assert (Ht : exists r, throttle now fuel (Some (b, last)) i (len chunk) = Some r)
    by (unfold throttle; rewrite Hr; destruct r; eauto).
  destruct Ht as [r' Ht]. destruct (throttle_step _ _ _ _ _ _ Hl Hf Ht)
    as (b' & i' & ops & -> & _ & Hok & _). eauto.
Qed.

(** A sequence of calls is a run of the bucket that lets all the chunks through. *)
Lemma throttle_all_run fuel amounts : Forall (fits 64) amounts -> forall b last i limiter i',
  limiter_ok now rate_per_sec i (Some (b, last)) ->
  throttle_all now fuel (Some (b, last)) i amounts = Some (limiter, i') ->
  exists b' last' ops, limiter = Some (b', last') /\ (i <= i')%nat /\
    limiter_ok now rate_per_sec i' (Some (b', last')) /\
    Forall op_ok ops /\ bucket_run b ops = (b', foldr Z.add 0 amounts) /\
    run_nanos ops = last' - last /\ len ops = 2 * Z.of_nat (i' - i).
Proof.
  induction 1 as [|amount amounts Ha Has IH]; intros b last i limiter i' Hl H.
  - injection H as <- <-. exists b, last, []. split_and!; try done; [cbn [run_nanos]; lia|rewrite len_nil; lia].
  - cbn [throttle_all] in H. apply bind_Some in H as (r & Hstep & H).
    destruct (throttle_step _ _ _ _ _ _ Hl Ha Hstep)
      as (b1 & i1 & ops1 & -> & Hi1 & Hl1 & Hops1 & Hrun1 & Hn1 & Hlen1).
    destruct (IH _ _ _ _ _ Hl1 H) as (b2 & last2 & ops2 & -> & Hi2 & Hl2 & Hops2 & Hrun2 & Hn2 & Hlen2).
    exists b2, last2, (ops1 ++ ops2). split_and!; [done|lia|done| | |rewrite run_nanos_app; lia|].
    + by apply Forall_app.
    + by rewrite bucket_run_app, Hrun1, Hrun2.
    + rewrite len_app. lia.
Qed.

(** C12: the sender keeps to the cap.  Over any sequence of chunks the limiter
    lets through, however long each wait was, their total is at most the
    burst, plus the rate times the time that passed (to a factor
    [1 + 2 ^ -49]), plus [2 ^ -31] of a byte for each reading of the clock.
    (Both sides are multiplied by [10 ^ 9 * 2 ^ 81].) *)
Theorem sender_keeps_cap fuel amounts start limiter i i' :
  Forall (fits 64) amounts -> start < now i < start + 2 ^ 64 * NANOS_PER_SEC ->
  throttle_all now fuel (limiter_new (mkEntitlement (Some rate_per_sec) None) start) i amounts =
    Some (limiter, i') ->
  foldr Z.add 0 amounts * 2 ^ 32 * (NANOS_PER_SEC * 2 ^ 49) <=
  (BANDWIDTH_BURST * 2 ^ 32 + 2 * Z.of_nat (i' - i)) * (NANOS_PER_SEC * 2 ^ 49) +
  (now i' - start) * Z.max rate_per_sec 1 * (2 ^ 49 + 1) * 2 ^ 32.
Proof.
  intros Ha Hstart H. assert (Hl : limiter_ok now rate_per_sec i
    (Some (bucket_new rate_per_sec BANDWIDTH_BURST, start))) by (split; [by apply ok_new|done]).
  destruct (throttle_all_run _ _ Ha _ _ _ _ _ Hl H)
    as (b' & last' & ops & -> & Hi & [_ Hlast'] & Hops & Hrun & Hn & Hlen).
  pose proof (window_cap _ _ Hrate burst_fits _ ops burst_small (proj1 Hl) Hops) as Hcap.
  rewrite Hrun, Hn, Hlen in Hcap. cbn [snd] in Hcap.
  change (Z.max BANDWIDTH_BURST 1) with BANDWIDTH_BURST in Hcap.
  assert ((last' - start) * Z.max rate_per_sec 1 <= (now i' - start) * Z.max rate_per_sec 1) by nia.
  lia.
Qed.

(** C40: a limiter cannot serve a chunk larger than its burst: [throttle] then
    never returns, nor panics, however long it runs.  (No chunk of a session
    with the default scrollback is that large.) *)
Theorem oversized_chunk_stalls fuel limiter i amount :
  BANDWIDTH_BURST < amount -> fits 64 amount -> limiter_ok now rate_per_sec i (Some limiter) ->
  throttle now fuel (Some limiter) i amount = None.
Proof.
  intros Ha Hf. destruct limiter as [b last]. intros [Hb Hlast]. unfold throttle.
  by rewrite (throttle_loop_stuck now _ Hrate clock) by (done || lia).
Qed.

End Sender.

(** ** Witnesses *)

Module Witness.

(** A clock asked every millisecond; a cap of 600 bytes a second. *)
Definition ticking (i : nat) : Instant := Z.of_nat i * 1000000.

Lemma ticking_advances : advancing ticking.
Proof. intros i. unfold ticking, NANOS_PER_SEC. lia. Defined.

Definition start : option (TokenBucket * Instant) := limiter_new (mkEntitlement (Some 600) None) 0.

Lemma start_ok : limiter_ok ticking 600 1 start.
Proof. split; [by apply ok_new|done]. Defined.

Definition evs : list Event := [Output (as_bytes "hello"); Next].

Lemma throttle_passes_chunks_witness :
  exists limiter' i', throttle ticking (Z.to_nat (2 ^ 51)) start 1 (len (as_bytes "hello")) =
      Some (Some (limiter', i')) /\ limiter_ok ticking 600 i' limiter'.
Proof.
  apply (throttle_passes_chunks ticking 600 ltac:(done) ticking_advances evs (as_bytes "hello") start 1);
    [done| |exact start_ok|lia].
  vm_compute. apply list_elem_of_here.
Defined.

(** Two chunks, the second of which has to wait. *)
Definition amounts : list u64 := [2 ^ 20; 1].

Lemma sender_keeps_cap_witness :
  exists limiter i', throttle_all ticking 20 start 1 amounts = Some (limiter, i') /\
    foldr Z.add 0 amounts * 2 ^ 32 * (NANOS_PER_SEC * 2 ^ 49) <=
    (BANDWIDTH_BURST * 2 ^ 32 + 2 * Z.of_nat (i' - 1)) * (NANOS_PER_SEC * 2 ^ 49) +
    (ticking i' - 0) * Z.max 600 1 * (2 ^ 49 + 1) * 2 ^ 32.
Proof.
  pose proof (sender_keeps_cap ticking 600 ltac:(done) ticking_advances 20 amounts 0) as Hcap.
  assert (Ha : Forall (fits 64) amounts) by (unfold amounts; by rewrite !Forall_cons).
  assert (Hs : 0 < ticking 1 < 0 + 2 ^ 64 * NANOS_PER_SEC) by done.
  destruct (throttle_all ticking 20 start 1 amounts) as [[limiter i']|] eqn:E.
  - exists limiter, i'. split; [reflexivity|exact (Hcap limiter 1%nat i' Ha Hs E)].
  - exfalso. revert E. clear. vm_compute. discriminate.
Defined.

Lemma oversized_chunk_stalls_witness : throttle ticking 1000 start 1 (2 ^ 20 + 1) = None.
Proof.
  apply (oversized_chunk_stalls ticking 600 ltac:(done) ticking_advances 1000); [done|done|].
  exact start_ok.
Defined.

End Witness.
