(* ===== verification/HttpHook.v ===== *)
(** * The HTTP control plane ([crates/gw-server/src/http_hook.rs])

    The built-in [AuthHook]: each call is one POST to the control plane.  The
    HTTP client and the JSON encoding are the third-party [reqwest] and
    [serde]: a request is what is handed to them, and [Reqwest] is what they
    answer, acting on the outside world [W]. *)

From S2P Require Import Prelude Utf8 Quota.

(** ** The messages *)

(** The request bodies, by the source's types. *)
Inductive Body : Type :=
  | AuthorizeRequest (client_name : string) (account_token : option string)
  | SessionOpenRequest (account_token session_id client_name : string)
  | SessionCloseRequest (account_token session_id : string)
  | UsageReport (account_token session_id : string) (bytes_in bytes_out : u64).

Record EntitlementDto : Type := mkEntitlementDto {
  dto_max_bytes_per_sec : option u64;
  dto_max_sessions : option u32;
}.

Record AuthorizeResponse : Type := mkAuthorizeResponse {
  authorize_allowed : bool;
  authorize_reason : option string;
  authorize_entitlement : EntitlementDto;
}.

Record SessionOpenResponse : Type := mkSessionOpenResponse {
  open_allowed : bool;
  open_reason : option string;
}.

(** A POST with a JSON body, and the [x-gateway-key] header if there is one. *)
Record Request : Type := mkRequest {
  url : string;
  gateway_key_header : option string;
  body : Body;
}.

(** [reqwest]: sending a request, and reading the body of a response as one of
    the two types. *)
Class Reqwest (W : Type) : Type := {
  ReqwestError : Type;
  Response : Type;
  reqwest_display : ReqwestError -> string;
  is_success : Response -> bool;
  status_display : Response -> string;
  post_send : Request -> Eff W (Result Response ReqwestError);
  json_authorize : Response -> Eff W (Result AuthorizeResponse ReqwestError);
  json_session_open : Response -> Eff W (Result SessionOpenResponse ReqwestError);
}.

(** ** The hook *)

Record HttpAuthHook : Type := mkHttpAuthHook { base : string; key : option string }.

(** [str::strip_suffix]. *)
Definition strip_suffix (s suffix : string) : option string :=
  let l := as_bytes s in
  let n := (length l - length (as_bytes suffix))%nat in
  if decide (drop n l = as_bytes suffix) then Some (string_of_bytes (take n l)) else None.

Definition SLASH : byte := x2f.

(** [while base.ends_with('/') { base.pop(); }], on the bytes in reverse. *)
Fixpoint pop_slashes (rev : list byte) : list byte :=
  match rev with
  | b :: rest => if decide (b = SLASH) then pop_slashes rest else rev
  | [] => []
  end.

Definition trim_slashes (s : string) : string :=
  string_of_bytes (reverse (pop_slashes (reverse (as_bytes s)))).

(** [HttpAuthHook::new]. *)
Definition hook_new (base : string) (key : option string) : HttpAuthHook :=
  let base := default base (strip_suffix base "/v1/authorize") in
  mkHttpAuthHook (trim_slashes base) key.

(** [post(path).json(body)]. *)
Definition post (self : HttpAuthHook) (path : string) (body : Body) : Request :=
  mkRequest (base self +:+ path) (key self) body.

Definition token_string (account_token : option (list byte)) : string :=
  default EmptyString (from_utf8_lossy <$> account_token).

Section Hook.
Context {W : Type} {RQ : Reqwest W}.

(** POST, and read the answer with [json]; every failure is a denial. *)
Definition call_json {A} (json : Response -> Eff W (Result A ReqwestError)) (req : Request)
    : Eff W (Result A Denied) :=
  sent ← post_send req;
  match sent with
  | Err e => mret (Err (mkDenied ("control plane unreachable: " +:+ reqwest_display e)))
  | Ok response =>
      if is_success response then
        read ← json response;
        mret (map_err (fun e => mkDenied ("bad control-plane response: " +:+ reqwest_display e)) read)
      else mret (Err (mkDenied ("control plane returned " +:+ status_display response)))
  end.

(** [authorize]. *)
Definition http_authorize (self : HttpAuthHook) (client_name : string)
    (account_token : option (list byte)) : Eff W (Result Entitlement Denied) :=
  let body := AuthorizeRequest client_name (from_utf8_lossy <$> account_token) in
  (parsed ←? call_json json_authorize (post self "/v1/authorize" body);
   if authorize_allowed parsed then
     let e := authorize_entitlement parsed in
     mret (Ok (mkEntitlement (dto_max_bytes_per_sec e) (dto_max_sessions e)))
   else mret (Err (mkDenied (default "authorization denied" (authorize_reason parsed)))))%gw.

(** [session_open]. *)
Definition http_session_open (self : HttpAuthHook) (account_token : option (list byte))
    (session_id client_name : string) : Eff W (Result unit Denied) :=
  let body := SessionOpenRequest (token_string account_token) session_id client_name in
  (parsed ←? call_json json_session_open (post self "/v1/sessions/open" body);
   if open_allowed parsed then mret (Ok tt)
   else mret (Err (mkDenied (default "session refused" (open_reason parsed)))))%gw.

(** [session_close]; a failure is logged. *)
Definition http_session_close (self : HttpAuthHook) (account_token : option (list byte))
    (session_id : string) : Eff W unit :=
  let body := SessionCloseRequest (token_string account_token) session_id in
  _ ← post_send (post self "/v1/sessions/close" body); mret tt.

(** [report_usage]; a failure is logged. *)
Definition http_report_usage (self : HttpAuthHook) (account_token : option (list byte))
    (session_id : string) (bytes_in bytes_out : u64) : Eff W unit :=
  if decide (bytes_in = 0 /\ bytes_out = 0) then mret tt
  else
    let body := UsageReport (token_string account_token) session_id bytes_in bytes_out in
    _ ← post_send (post self "/v1/usage" body); mret tt.

(** [impl AuthHook for HttpAuthHook]. *)
Definition http_hook (self : HttpAuthHook) : AuthHook W := {|
  authorize := http_authorize self;
  session_open := http_session_open self;
  session_close := http_session_close self;
  report_usage := http_report_usage self;
|}.

(** ** The control plane decides *)

(** What the control plane answered to a request, when it was a success the
    code could read. *)
Definition answers {A} (json : Response -> Eff W (Result A ReqwestError)) (req : Request) (w : W)
    (a : A) (w' : W) : Prop :=
  exists response w1, post_send req w = Some (Ok response, w1) /\ is_success response = true /\
    json response w1 = Some (Ok a, w').

Lemma call_json_ok {A} (json : Response -> Eff W (Result A ReqwestError)) req w a w' :
  call_json json req w = Some (Ok a, w') <-> answers json req w a w'.
Proof.
  unfold call_json, answers. rewrite bind_Some_inv. split.
  - intros ([r|e] & w1 & Hp & H); [|done]. destruct (is_success r) eqn:Es; [|done].
    apply bind_Some_inv in H as ([b|e] & w2 & Hj & H); [|done]. injection H as <- <-.
    by exists r, w1.
  - intros (r & w1 & Hp & Hs & Hj). exists (Ok r), w1. split; [done|]. rewrite Hs.
    apply bind_Some_inv. by exists (Ok a), w'.
Qed.

(** C22: the hook fails closed.  A client is authorized exactly when the control
    plane was reached, answered with a success status and a well-formed body,
    and that body allows it; its limits are then the ones the body states.  A
    session may open exactly when the control plane answered so and allowed
    it.  An unreachable, failing or unintelligible control plane admits
    nobody. *)
Theorem http_fails_closed self name token sid w :
  (forall e w', http_authorize self name token w = Some (Ok e, w') <->
     exists r, answers json_authorize
         (post self "/v1/authorize" (AuthorizeRequest name (from_utf8_lossy <$> token))) w r w' /\
       authorize_allowed r = true /\
       max_bytes_per_sec e = dto_max_bytes_per_sec (authorize_entitlement r) /\
       max_sessions e = dto_max_sessions (authorize_entitlement r)) /\
  (forall w', http_session_open self token sid name w = Some (Ok tt, w') <->
     exists r, answers json_session_open
         (post self "/v1/sessions/open" (SessionOpenRequest (token_string token) sid name)) w r w' /\
       open_allowed r = true).
Proof.
  split.
  - intros e w'. setoid_rewrite <-call_json_ok. unfold http_authorize. rewrite bind_ok_inv. split.
    + intros [(r & w1 & Hr & H)|(? & ? & _ & [=])]. destruct (authorize_allowed r) eqn:E; [|done].
      injection H as <- <-. by exists r.
    + intros (r & Hr & Ha & Hm & Hs). left. exists r, w'. split; [done|]. rewrite Ha.
      destruct e; cbn in *. by rewrite Hm, Hs.
  - intros w'. setoid_rewrite <-call_json_ok. unfold http_session_open. rewrite bind_ok_inv. split.
    + intros [(r & w1 & Hr & H)|(? & ? & _ & [=])]. destruct (open_allowed r) eqn:E; [|done].
      injection H as <-. by exists r.
    + intros (r & Hr & Ha). left. exists r, w'. split; [done|]. by rewrite Ha.
Qed.

End Hook.

(** ** The base URL *)

Lemma as_bytes_app s t : as_bytes (s +:+ t) = as_bytes s ++ as_bytes t.
Proof.
  unfold as_bytes, String.list_byte_of_string. induction s as [|c s IH]; [done|].
  change (String c s +:+ t) with (String c (s +:+ t)). cbn. f_equal. exact IH.
Qed.

Lemma strip_suffix_app s t : strip_suffix (s +:+ t) t = Some s.
Proof.
  unfold strip_suffix. rewrite as_bytes_app, length_app.
  replace (length (as_bytes s) + length (as_bytes t) - length (as_bytes t))%nat
    with (length (as_bytes s)) by lia.
  rewrite decide_True by apply drop_app_length. rewrite take_app_length. by rewrite string_of_as_bytes.
Qed.

Lemma pop_slashes_head l : head (pop_slashes l) <> Some SLASH.
Proof.
  induction l as [|b l IH]; cbn; [done|]. case_decide; [done|]. cbn. congruence.
Qed.

Lemma pop_slashes_id l : head l <> Some SLASH -> pop_slashes l = l.
Proof. destruct l as [|b l]; [done|]. cbn. intros H. rewrite decide_False; congruence. Qed.

Lemma pop_slashes_idemp l : pop_slashes (pop_slashes l) = pop_slashes l.
Proof. apply pop_slashes_id, pop_slashes_head. Qed.

(** No slash at the end. *)
Definition no_final_slash (s : string) : Prop := last (as_bytes s) <> Some SLASH.

Lemma trim_slashes_ok s : no_final_slash (trim_slashes s).
Proof.
  unfold no_final_slash, trim_slashes. rewrite as_bytes_of_bytes, last_reverse.
  apply pop_slashes_head.
Qed.

Lemma trim_slashes_id s : no_final_slash s -> trim_slashes s = s.
Proof.
  unfold no_final_slash, trim_slashes. intros H. rewrite pop_slashes_id.
  - by rewrite reverse_involutive, string_of_as_bytes.
  - rewrite head_reverse. done.
Qed.

Lemma trim_slashes_slash s : trim_slashes (s +:+ "/") = trim_slashes s.
Proof. unfold trim_slashes. rewrite as_bytes_app, reverse_app. done. Qed.

(** A suffix has the last byte of the string. *)
Lemma strip_suffix_last s t r :
  strip_suffix s t = Some r -> as_bytes t <> [] -> last (as_bytes s) = last (as_bytes t).
Proof.
  unfold strip_suffix. case_decide as H; [|done]. intros _ Ht.
  rewrite <-(take_drop (length (as_bytes s) - length (as_bytes t)) (as_bytes s)), H.
  rewrite last_app. destruct (last (as_bytes t)) eqn:E; [done|]. by apply last_None in E.
Qed.

(** The base URL.  A trailing [/v1/authorize] and then any number of
    trailing slashes are removed, and nothing else, so that every request goes
    to the base, one slash and its path; a base given without either is kept
    as it is.  The suffix is looked for first, so one followed by a slash
    stays. *)
Theorem base_url b k :
  no_final_slash (base (hook_new b k)) /\
  base (hook_new (b +:+ "/v1/authorize") k) = trim_slashes b /\
  (no_final_slash b -> strip_suffix b "/v1/authorize" = None -> base (hook_new b k) = b) /\
  base (hook_new (b +:+ "/v1/authorize/") k) = b +:+ "/v1/authorize".
Proof.
  unfold hook_new. cbn [base]. split_and!.
  - apply trim_slashes_ok.
  - by rewrite strip_suffix_app.
  - intros Hb ->. by apply trim_slashes_id.
  - assert (E : b +:+ "/v1/authorize/" = (b +:+ "/v1/authorize") +:+ "/").
    { rewrite <-(string_of_as_bytes (b +:+ "/v1/authorize/")), <-(string_of_as_bytes (_ +:+ "/")).
      by rewrite !as_bytes_app, <-app_assoc. }
    rewrite E. destruct (strip_suffix _ _) eqn:Hs.
    + apply strip_suffix_last in Hs; [|done]. rewrite as_bytes_app, last_app in Hs. done.
    + cbn [default]. rewrite trim_slashes_slash. apply trim_slashes_id.
      unfold no_final_slash. rewrite as_bytes_app, last_app. done.
Qed.

(** ** What is reported *)

(** Usage and closes are reported once or not at all.  A connection that
    moved no bytes makes no request; any other makes exactly one, to
    [/v1/usage], with its two counts; the end of a session makes exactly one,
    to [/v1/sessions/close].  Each carries the session's id, the configured key
    and the token as the control plane knows it: itself when it is UTF-8, the
    empty string when there is none. *)
Theorem http_reports `{Reqwest W} (self : HttpAuthHook) token sid i o (w : W) :
  http_report_usage self token sid i o w =
    (if bool_decide (i = 0) && bool_decide (o = 0) then Some (tt, w)
     else (const tt <$> post_send (mkRequest (base self +:+ "/v1/usage") (key self)
                                     (UsageReport (token_string token) sid i o))) w) /\
  http_session_close self token sid w =
    (const tt <$> post_send (mkRequest (base self +:+ "/v1/sessions/close") (key self)
                               (SessionCloseRequest (token_string token) sid))) w /\
  match token with
  | Some b => valid b = true -> as_bytes (token_string token) = b
  | None => token_string token = EmptyString
  end.
Proof.
  split_and!.
  - unfold http_report_usage, post. case_decide; repeat case_bool_decide; tauto.
  - done.
  - destruct token as [b|]; [|done]. intros Hb. cbn. rewrite from_utf8_lossy_id by done.
    apply as_bytes_of_bytes.
Qed.

(** ** Witness *)

Module Witness.

(** A control plane that logs the requests and allows the token [tok-123]. *)
#[export] Instance mock : Reqwest (list Request) := {|
  ReqwestError := unit; Response := Request;
  reqwest_display _ := "connection refused";
  is_success r := bool_decide (gateway_key_header r = Some "secret");
  status_display _ := "401 Unauthorized";
  post_send r w := Some (Ok r, r :: w);
  json_authorize r w :=
    Some (Ok match body r with
        | AuthorizeRequest _ (Some "tok-123") =>
            mkAuthorizeResponse true None (mkEntitlementDto (Some 1000) (Some 5))
        | _ => mkAuthorizeResponse false (Some "over session quota") (mkEntitlementDto None None)
        end, w);
  json_session_open r w := Some (Ok (mkSessionOpenResponse true None), w);
|}.

Example refused_status :
  fst <$> http_authorize (hook_new "http://cp" None) "ipad" (Some (as_bytes "tok-123")) [] =
  Some (Err (mkDenied "control plane returned 401 Unauthorized")).
Proof. reflexivity. Qed.

(** The base keeps the path when a slash follows it. *)
Example base_url_is_not_normalized :
  base (hook_new "http://cp:8080/v1/authorize/" None) = "http://cp:8080/v1/authorize"%string.
Proof. reflexivity. Qed.

Lemma base_url_witness : base (hook_new "http://cp:8080" None) = "http://cp:8080"%string.
Proof.
  refine (proj1 (proj2 (proj2 (base_url "http://cp:8080" None))) _ _); [|reflexivity].
  vm_compute. discriminate.
Defined.

Lemma http_reports_witness : as_bytes (token_string (Some (as_bytes "tok-123"))) = as_bytes "tok-123".
Proof.
  exact (proj2 (proj2 (http_reports (hook_new "http://cp" None) (Some (as_bytes "tok-123")) "0" 0 0 []))
           eq_refl).
Defined.

End Witness.
