(* ===== verification/Ssh.v ===== *)
(** * The SSH client ([crates/gw-ssh/src/lib.rs])

    Opening a session on a target (connect, authenticate, PTY and shell), the
    adapter that lets the client sign authentication challenges, and the actor
    that drives an open session.  The SSH protocol is the third-party [russh]
    crate's: [Russh] holds the entry points the code calls, acting on the
    network [N].  What the theorems conclude of an opened session is in its
    terms, not in those of the code: what [russh] was asked, on which connection,
    and what it answered. *)

From S2P Require Import Prelude Registry.

(** ** Data *)

Record SshTarget : Type := mkSshTarget { host : string; port : u16; user : string }.

Module Auth.
Inductive Auth : Type :=
  | Password (password : string)
  | PrivateKey (pem : string) (passphrase : option string).
End Auth.
Abbreviation Auth := Auth.Auth (only parsing).

Record RemoteSignerError : Type := mkRemoteSignerError { signer_message : string }.

Definition RemoteSignerError_display (e : RemoteSignerError) : string :=
  "remote signer: " +:+ signer_message e.

Module SignerError.
Inductive SignerError : Type :=
  | Send
  | Key (e : string)
  | Remote (e : RemoteSignerError).
End SignerError.
Abbreviation SignerError := SignerError.SignerError (only parsing).

Definition SignerError_display (e : SignerError) : string :=
  match e with
  | SignerError.Send => "ssh send error"
  | SignerError.Key e => "public key: " +:+ e
  | SignerError.Remote e => RemoteSignerError_display e
  end.

(** [russh::keys::HashAlg], a non-exhaustive enum. *)
Inductive HashAlg : Type := Sha256 | Sha512 | OtherHash.

Definition hash_alg_name (alg : HashAlg) : string :=
  match alg with
  | Sha256 => "rsa-sha2-256"
  | Sha512 => "rsa-sha2-512"
  | OtherHash => "rsa-sha2-512"
  end.

(** [dyn RemoteSigner], acting on the state [W]. *)
Definition RemoteSigner (W : Type) : Type :=
  string -> option string -> list byte -> Eff W (Result (list byte) RemoteSignerError).

(** ** [russh] *)

(** An authentication that asks its caller for signatures: each [Ask] calls
    [russh::Signer::auth_publickey_sign] and goes on with its result. *)
Inductive Dialog (K N A : Type) : Type :=
  | Finished (a : A) (n : N)
  | Hangs
  | Ask (key : K) (hash_alg : option HashAlg) (to_sign : list byte)
      (k : Result (list byte) SignerError -> Dialog K N A).
Arguments Finished {K N A} a n.
Arguments Hangs {K N A}.
Arguments Ask {K N A} key hash_alg to_sign k.

Class Russh (N : Type) : Type := {
  PublicKey : Type;
  PrivateKey : Type;
  Handle : Type;
  Channel : Type;
  RusshError : Type;
  KeyError : Type;
  russh_display : RusshError -> string;
  key_display : KeyError -> string;
  (** [PublicKey::fingerprint(SHA256).to_string()], [to_openssh], [from_openssh]. *)
  fingerprint : PublicKey -> string;
  to_openssh : PublicKey -> Result string KeyError;
  from_openssh : string -> Result PublicKey KeyError;
  decode_secret_key : string -> option string -> Result PrivateKey KeyError;
  (** [client::connect], which calls the handler on the keys the server shows. *)
  client_connect : forall H, (PublicKey -> H -> Result bool RusshError * H) ->
    string -> u16 -> H -> Eff N (Result Handle RusshError * H);
  (** The authentications; [true] is [AuthResult::success()]. *)
  authenticate_password : Handle -> string -> string -> Eff N (Result bool RusshError);
  authenticate_publickey : Handle -> string -> PrivateKey -> Eff N (Result bool RusshError);
  authenticate_publickey_with : Handle -> string -> PublicKey -> option HashAlg -> N ->
    Dialog PublicKey N (Result bool SignerError);
  channel_open_session : Handle -> Eff N (Result Channel RusshError);
  request_pty : Channel -> bool -> string -> u32 -> u32 -> u32 -> u32 ->
    Eff N (Result unit RusshError);
  request_shell : Channel -> bool -> Eff N (Result unit RusshError);
}.

(** ** Opening a session *)

Section Open.
Context {N : Type} {RU : Russh N}.

Record SshSession : Type := mkSshSession {
  channel : Channel;
  handle : Handle;
  session_fingerprint : option string;
}.

(** [ClientHandler::check_server_key]: record the key's fingerprint, accept. *)
Definition check_server_key (server_public_key : PublicKey) (_ : option string)
    : Result bool RusshError * option string :=
  (Ok true, Some (fingerprint server_public_key)).

(** [connect]. *)
Definition connect (target : SshTarget) : Eff N (Result (Handle * option string) Error) :=
  '(r, fp) ← client_connect (option string) check_server_key (host target) (port target) None;
  mret (match context russh_display
            ("ssh connect " +:+ host target +:+ ":" +:+ fmt_int (port target)) r with
        | Ok handle => Ok (handle, fp)
        | Err e => Err e
        end).

(** [finish_open]. *)
Definition finish_open (handle : Handle) (server_fingerprint : option string) (cols rows : u32)
    : Eff N (Result SshSession Error) :=
  (channel ←? (context russh_display "open session" <$> channel_open_session handle);
   _ ←? (context russh_display "request pty" <$>
           request_pty channel false "xterm-256color" cols rows 0 0);
   _ ←? (context russh_display "request shell" <$> request_shell channel false);
   mret (Ok (mkSshSession channel handle server_fingerprint)))%gw.

(** The authentication of [SshSession::open]. *)
Definition authenticate (handle : Handle) (user : string) (auth : Auth)
    : Eff N (Result bool Error) :=
  match auth with
  | Auth.Password password =>
      context russh_display "password auth" <$> authenticate_password handle user password
  | Auth.PrivateKey pem passphrase =>
      match context key_display "decode private key" (decode_secret_key pem passphrase) with
      | Err e => mret (Err e)
      | Ok key => context russh_display "publickey auth" <$> authenticate_publickey handle user key
      end
  end.

(** [SshSession::open]. *)
Definition open (target : SshTarget) (auth : Auth) (cols rows : u32)
    : Eff N (Result SshSession Error) :=
  ('(handle, fingerprint) ←? connect target;
   ok ←? authenticate handle (user target) auth;
   if ok : bool then finish_open handle fingerprint cols rows
   else mret (Err (Msg ("authentication failed for " +:+ user target))))%gw.

(** ** Delegated signing *)

Section Delegated.
(** The signer's state [W] has the network as a part. *)
Context {W : Type} (net : W -> N) (set_net : N -> W -> W).

(** [DelegatedSigner::auth_publickey_sign]. *)
Definition auth_publickey_sign (remote : RemoteSigner W) (key : PublicKey)
    (hash_alg : option HashAlg) (to_sign : list byte)
    : Eff W (Result (list byte) SignerError) :=
  (openssh ←? mret (map_err (fun e => SignerError.Key (key_display e)) (to_openssh key));
   let algorithm := hash_alg_name <$> hash_alg in
   signature ←? (map_err SignerError.Remote <$> remote openssh algorithm to_sign);
   mret (Ok signature))%gw.

(** An authentication with its signatures made by [remote]. *)
Fixpoint drive {A} (remote : RemoteSigner W) (d : Dialog PublicKey N A) : Eff W A :=
  match d with
  | Finished a n => fun w => Some (a, set_net n w)
  | Hangs => fun _ => None
  | Ask key hash_alg to_sign k =>
      signature ← auth_publickey_sign remote key hash_alg to_sign;
      drive remote (k signature)
  end.

(** [SshSession::open_delegated]. *)
Definition open_delegated (target : SshTarget) (public_key_openssh : string)
    (signer : RemoteSigner W) (cols rows : u32) : Eff W (Result SshSession Error) :=
  ('(handle, fingerprint) ←? on_part net set_net (connect target);
   public_key ←? mret (context key_display "parse delegated public key"
                         (from_openssh public_key_openssh));
   ok ←? (fun w =>
            (map_err (fun e => Msg ("delegated auth: " +:+ SignerError_display e)) <$>
             drive signer
               (authenticate_publickey_with handle (user target) public_key None (net w))) w);
   if ok : bool then on_part net set_net (finish_open handle fingerprint cols rows)
   else mret (Err (Msg ("delegated authentication failed for " +:+ user target))))%gw.

End Delegated.

End Open.

(** ** The session actor *)

(** [russh::ChannelMsg]; the constructors the actor does not name are [OtherMsg]. *)
Module ChannelMsg.
Inductive ChannelMsg : Type :=
  | Data (data : list byte)
  | ExtendedData (data : list byte) (ext : u32)
  | Eof
  | Close
  | OtherMsg.
End ChannelMsg.
Abbreviation ChannelMsg := ChannelMsg.ChannelMsg (only parsing).

(** What the actor does to the outside. *)
Inductive ActorEffect : Type :=
  | WindowChange (cols rows : u32)
  | SendOutput (data : list byte)
  | WriteAll (bytes : list byte)
  | Flush.

(** One [select!]: the branch that is ready, with what it received and whether
    the call the branch then makes succeeds. *)
Inductive Selected : Type :=
  | FromChannel (msg : option ChannelMsg) (receiver_alive : bool)
  | FromInput (cmd : option SshInput) (write_ok : bool).

(** [pending_resize]. *)
Abbreviation Resize := (option (u32 * u32)) (only parsing).

(** The top of the loop. *)
Definition apply_resize (pending_resize : Resize) : list ActorEffect :=
  match pending_resize with
  | Some (cols, rows) => [WindowChange cols rows]
  | None => []
  end.

(** The [select!]: effects, and the pending resize, or [None] on [break]. *)
Definition select (sel : Selected) : list ActorEffect * option Resize :=
  match sel with
  | FromChannel (Some (ChannelMsg.Data data)) alive =>
      ([SendOutput data], if alive then Some None else None)
  | FromChannel (Some (ChannelMsg.ExtendedData data _)) alive =>
      ([SendOutput data], if alive then Some None else None)
  | FromChannel (Some ChannelMsg.Eof | Some ChannelMsg.Close | None) _ => ([], None)
  | FromChannel (Some ChannelMsg.OtherMsg) _ => ([], Some None)
  | FromInput (Some (SshInput.Data bytes)) ok =>
      if ok then ([WriteAll bytes; Flush], Some None) else ([WriteAll bytes], None)
  | FromInput (Some (SshInput.Resize cols rows)) _ => ([], Some (Some (cols, rows)))
  | FromInput None _ => ([], None)
  end.

(** The loop over the branches selected: the effects, and how it stands
    afterwards ([None]: it has ended, and dropped the output channel). *)
Fixpoint actor (pending_resize : Resize) (sels : list Selected)
    : list ActorEffect * option Resize :=
  match sels with
  | [] => ([], Some pending_resize)
  | sel :: sels =>
      let top := apply_resize pending_resize in
      let '(effects, next) := select sel in
      match next with
      | None => (top ++ effects, None)
      | Some pending_resize =>
          let '(effects', final) := actor pending_resize sels in
          (top ++ effects ++ effects', final)
      end
  end.

(** [SshSession::spawn]. *)
Definition spawn_actor {N : Type} {RU : Russh N} (self : SshSession) : SshHandle :=
  mkSshHandle (session_fingerprint self).

(** ** No shell without authentication *)

(** Documented behaviour of [client::connect]: a connection that is made was
    made to a server whose keys, one or more, the handler was shown and
    accepted, in turn. *)
Class RusshLaws (N : Type) {RU : Russh N} : Prop := {
  client_connect_ok H check host port (st st' : H) (n n' : N) h :
    client_connect H check host port st n = Some ((Ok h, st'), n') ->
    exists keys last, st' = foldl (fun st k => (check k st).2) st (keys ++ [last]);
}.

Section Opened.
Context {N : Type} {RU : Russh N}.

(** A PTY of the client's size, and a shell, on the channel [ch] of [h]. *)
Definition shell_opened (h : Handle) (ch : Channel) (cols rows : u32) (n n' : N) : Prop :=
  exists n1 n2, channel_open_session h n = Some (Ok ch, n1) /\
    request_pty ch false "xterm-256color" cols rows 0 0 n1 = Some (Ok tt, n2) /\
    request_shell ch false n2 = Some (Ok tt, n').

Lemma context_ok {A E} (show : E -> string) c (m : Eff N (Result A E)) n a n' :
  (context show c <$> m) n = Some (Ok a, n') <-> m n = Some (Ok a, n').
Proof.
  unfold fmap, eff_fmap. rewrite bind_Some_inv. split.
  - intros ([x|x] & ? & Hm & [= <- <-]). done.
  - intros Hm. by exists (Ok a), n'.
Qed.

Lemma finish_open_ok h fp cols rows n s n' :
  finish_open h fp cols rows n = Some (Ok s, n') <->
  exists ch, s = mkSshSession ch h fp /\ shell_opened h ch cols rows n n'.
Proof.
  unfold finish_open, shell_opened. rewrite bind_ok_inv. setoid_rewrite bind_ok_inv.
  setoid_rewrite context_ok. split.
  - intros [(ch & n1 & H1 & [([] & n2 & H2 & Hk)|(? & ? & _ & [=])])|(? & ? & _ & [=])].
    apply bind_ok_inv in Hk as [([] & n3 & H3%context_ok & [= <- <-])|(? & ? & _ & [=])]. eauto 8.
  - intros (ch & -> & n1 & n2 & H1 & H2 & H3). left. exists ch, n1. split; [done|]. left.
    exists tt, n2. split; [done|]. apply bind_ok_inv. left. exists tt, n'. by rewrite context_ok.
Qed.

Lemma connect_fingerprint {RL : RusshLaws N} target n h fp n' :
  connect target n = Some (Ok (h, fp), n') -> exists k, fp = Some (fingerprint k).
Proof.
  unfold connect. rewrite bind_Some_inv. intros ([r st] & n1 & Hc & Hr).
  destruct r as [h'|e]; [|done]. cbn in Hr. injection Hr as -> -> ->.
  destruct (client_connect_ok _ _ _ _ _ _ _ _ _ Hc) as (keys & k & ->).
  rewrite foldl_app. cbn. by exists k.
Qed.

(** The target accepts the credential for the user on the connection [h]: the
    password itself, or the private key it decodes to. *)
Definition accepts (h : Handle) (user : string) (auth : Auth) (n n' : N) : Prop :=
  match auth with
  | Auth.Password password => authenticate_password h user password n = Some (Ok true, n')
  | Auth.PrivateKey pem passphrase =>
      exists key, decode_secret_key pem passphrase = Ok key /\
        authenticate_publickey h user key n = Some (Ok true, n')
  end.

Lemma authenticate_ok h user auth n n' :
  authenticate h user auth n = Some (Ok true, n') <-> accepts h user auth n n'.
Proof.
  destruct auth as [password|pem passphrase]; cbn; [apply context_ok|].
  destruct (decode_secret_key pem passphrase) as [key|e]; cbn.
  - rewrite context_ok. split; [by eauto|]. by intros (? & [= <-] & H).
  - split; [done|]. by intros (? & [=] & _).
Qed.

Lemma connect_ok target n h fp n' :
  connect target n = Some (Ok (h, fp), n') <->
  client_connect (option string) check_server_key (host target) (port target) None n =
    Some ((Ok h, fp), n').
Proof.
  unfold connect. rewrite bind_Some_inv. split.
  - intros ([[h'|e] st] & n1 & Hc & Hr); [|done]. cbn in Hr. by injection Hr as <- <- <-.
  - intros Hc. by exists (Ok h, fp), n'.
Qed.

(** C19: no shell without authentication.  [SshSession::open] returns a session
    exactly when a connection was made to the target's host and port, on that
    very connection the target then accepted for the target's user the password,
    or the private key that the PEM text and its passphrase decode to, and then
    granted a channel, a PTY of the requested size and a shell, in this order.
    The session has that connection and that channel, and the fingerprint of a
    key the target showed. *)
Theorem open_authenticated {RL : RusshLaws N} target auth cols rows n s n' :
  (open target auth cols rows n = Some (Ok s, n') <->
   exists n1 n2,
     client_connect (option string) check_server_key (host target) (port target) None n =
       Some ((Ok (handle s), session_fingerprint s), n1) /\
     accepts (handle s) (user target) auth n1 n2 /\
     shell_opened (handle s) (channel s) cols rows n2 n') /\
  (open target auth cols rows n = Some (Ok s, n') ->
   exists k, session_fingerprint s = Some (fingerprint k)).
Proof.
  assert (Hopen : open target auth cols rows n = Some (Ok s, n') <->
    exists n1 n2, connect target n = Some (Ok (handle s, session_fingerprint s), n1) /\
      authenticate (handle s) (user target) auth n1 = Some (Ok true, n2) /\
      shell_opened (handle s) (channel s) cols rows n2 n').
  { unfold open. rewrite bind_ok_inv. split.
    - intros [([h fp] & n1 & Hc & Hk)|(? & ? & _ & [=])].
      apply bind_ok_inv in Hk as [([] & n2 & Ha & Hf)|(? & ? & _ & [=])]; [|done].
      apply finish_open_ok in Hf as (ch & -> & Hs). by exists n1, n2.
    - intros (n1 & n2 & Hc & Ha & Hs). left. exists (handle s, session_fingerprint s), n1. split; [done|].
      apply bind_ok_inv. left. exists true, n2. split; [done|]. apply finish_open_ok.
      exists (channel s). split; [by destruct s|done]. }
  split.
  - rewrite Hopen. setoid_rewrite connect_ok. by setoid_rewrite authenticate_ok.
  - intros (n1 & _ & Hc & _)%Hopen. by eapply connect_fingerprint.
Qed.

(** *** With the key at the client *)

Section Delegation.
Context {W : Type} (net : W -> N) (set_net : N -> W -> W).

(** [russh]'s side of an authentication comes to the answer [a], its challenges
    answered by [remote]: each is sent with the line of the key and the name of
    the hash it wants, and [russh] goes on with the very signature, or with why
    there is none. *)
Inductive signed_by {A} (remote : RemoteSigner W) : Dialog PublicKey N A -> W -> A -> W -> Prop :=
  | signed_over a n w : signed_by remote (Finished a n) w a (set_net n w)
  | signed_with key alg data k line signature w w1 a w' :
      to_openssh key = Ok line ->
      remote line (hash_alg_name <$> alg) data w = Some (Ok signature, w1) ->
      signed_by remote (k (Ok signature)) w1 a w' -> signed_by remote (Ask key alg data k) w a w'
  | signed_without key alg data k line e w w1 a w' :
      to_openssh key = Ok line ->
      remote line (hash_alg_name <$> alg) data w = Some (Err e, w1) ->
      signed_by remote (k (Err (SignerError.Remote e))) w1 a w' ->
      signed_by remote (Ask key alg data k) w a w'
  | signed_unasked key alg data k e w a w' :
      to_openssh key = Err e ->
      signed_by remote (k (Err (SignerError.Key (key_display e)))) w a w' ->
      signed_by remote (Ask key alg data k) w a w'.

Lemma drive_signed {A} remote (d : Dialog PublicKey N A) : forall w a w',
  drive set_net remote d w = Some (a, w') <-> signed_by remote d w a w'.
Proof.
  induction d as [a0 n| |key alg data k IH]; intros w a w'; cbn [drive].
  - split; [intros [= <- <-]; constructor|by inversion 1].
  - split; [done|by inversion 1].
  - rewrite bind_Some_inv. unfold auth_publickey_sign, bind_ok, mbind, eff_bind, mret, eff_ret.
    destruct (to_openssh key) as [line|e] eqn:E; cbn [map_err].
    + unfold fmap, eff_fmap, mbind, eff_bind, mret, eff_ret.
      change (option_fmap _ _ hash_alg_name alg) with (hash_alg_name <$> alg). split.
      * intros (r & w1 & Hr & Hd). apply IH in Hd.
        destruct (remote line _ data w) as [[[sig|e] w2]|] eqn:Er; [| |done]; injection Hr as <- <-;
          [by eapply signed_with|by eapply signed_without].
      * inversion 1 as [|? ? ? ? l ? ? ? ? ? El Er Hs|? ? ? ? l ? ? ? ? ? El Er Hs|? ? ? ? e ? ? ? El Hs];
          subst; rewrite E in El; [injection El as <-..|done]; rewrite Er; eexists _, _;
          (split; [reflexivity|by apply IH]).
    + split.
      * intros (r & w1 & [= <- <-] & Hd). eapply signed_unasked; [done|by apply IH].
      * inversion 1 as [|? ? ? ? l ? ? ? ? ? El Er Hs|? ? ? ? l ? ? ? ? ? El Er Hs|? ? ? ? e' ? ? ? El Hs];
          subst; rewrite E in El; [done..|injection El as <-]. eexists _, _. split; [done|by apply IH].
Qed.


End Delegation.

End Opened.

(** ** The actor is faithful *)

(** What each event asks for.  Of the channel: what the target prints, on either
    stream, goes to the consumer.  Of the input: data is written, and flushed if
    the write succeeded; a resize changes the window. *)
Definition direct (sel : Selected) : list ActorEffect :=
  match sel with
  | FromChannel msg _ =>
      match msg with
      | Some (ChannelMsg.Data data) | Some (ChannelMsg.ExtendedData data _) => [SendOutput data]
      | Some ChannelMsg.Eof | Some ChannelMsg.Close | Some ChannelMsg.OtherMsg | None => []
      end
  | FromInput (Some (SshInput.Data bytes)) write_ok =>
      WriteAll bytes :: (if write_ok then [Flush] else [])
  | FromInput (Some (SshInput.Resize cols rows)) _ => [WindowChange cols rows]
  | FromInput None _ => []
  end.

(** The events that end the session: the end of the channel, output for a
    consumer that is gone, a failed write, and the last sender's end. *)
Definition ends (sel : Selected) : bool :=
  match sel with
  | FromChannel (Some (ChannelMsg.Eof | ChannelMsg.Close) | None) _ => true
  | FromChannel (Some (ChannelMsg.Data _ | ChannelMsg.ExtendedData _ _)) receiver_alive =>
      negb receiver_alive
  | FromInput (Some (SshInput.Data _)) write_ok => negb write_ok
  | FromInput None _ => true
  | FromChannel (Some ChannelMsg.OtherMsg) _ | FromInput (Some (SshInput.Resize _ _)) _ => false
  end.

(** One turn of the loop does what its event asks for, a resize at the next. *)
Lemma select_direct sel :
  match (select sel).2 with
  | Some p => (select sel).1 ++ apply_resize p = direct sel /\ ends sel = false
  | None => (select sel).1 = direct sel /\ ends sel = true
  end.
Proof. destruct sel as [[[| | | |]|] []|[[|]|] []]; cbn; auto. Qed.

(** The branches up to the one that ends the session, included. *)
Fixpoint served (sels : list Selected) : list Selected :=
  match sels with
  | [] => []
  | sel :: sels => sel :: if ends sel then [] else served sels
  end.

Lemma actor_direct sels : forall pending,
  let '(effects, final) := actor pending sels in
  effects ++ match final with Some p => apply_resize p | None => [] end =
  apply_resize pending ++ concat (map direct (served sels)).
Proof.
  induction sels as [|sel sels IH]; intros pending; cbn [actor served map concat];
    [by rewrite app_nil_r|].
  pose proof (select_direct sel) as Hsel. destruct (select sel) as [effects next]. cbn [fst snd] in Hsel.
  destruct next as [p|]; destruct Hsel as [<- ->]; cbn.
  - specialize (IH p). destruct (actor p sels) as [effects' final].
    by rewrite <-!app_assoc, IH.
  - by rewrite !app_nil_r.
Qed.

Lemma actor_ends sels : forall pending,
  (actor pending sels).2 = None <-> existsb ends sels = true.
Proof.
  induction sels as [|sel sels IH]; intros pending; cbn [actor existsb]; [done|].
  pose proof (select_direct sel) as Hsel.
  destruct (select sel) as [effects [p|]]; destruct Hsel as [_ ->]; cbn [snd orb]; [|done].
  rewrite <-(IH p). by destruct (actor p sels).
Qed.

(** C27: the actor changes nothing.  Up to the event that ends the session, it
    does to the channel and to the output exactly what [direct] says the events
    ask for, in their order: every chunk the target prints, on either stream, is
    passed on, every chunk of input is written and flushed, every resize is
    applied before anything later (the last one possibly still pending).  It
    stops exactly at the events of [ends]: the end of the channel, a failed
    write, output for a consumer that is gone, the end of the last sender. *)
Theorem actor_faithful sels :
  let '(effects, final) := actor None sels in
  effects ++ match final with Some p => apply_resize p | None => [] end =
    concat (map direct (served sels)) /\
  (final = None <-> existsb ends sels = true).
Proof.
  pose proof (actor_direct sels None) as H1. pose proof (actor_ends sels None) as H2.
  by destruct (actor None sels).
Qed.

(** ** Witness *)

Module Witness.

(** A network that logs the calls, with one target: it shows the key [K],
    takes the password [pw], and wants [challenge] signed by reversing it. *)
Definition challenge : list byte := [x01; x02; x03].

Definition log {A} (entry : string) (a : A) : Eff (list string) A := fun n => Some (a, entry :: n).

#[export] Instance lab : Russh (list string) := {|
  PublicKey := string; PrivateKey := string; Handle := string; Channel := string;
  RusshError := string; KeyError := string;
  russh_display e := e; key_display e := e;
  fingerprint k := "SHA256:" +:+ k;
  to_openssh k := Ok k; from_openssh s := if decide (s = EmptyString) then Err "empty" else Ok s;
  decode_secret_key pem _ := if decide (pem = EmptyString) then Err "empty" else Ok pem;
  client_connect H check host port st n :=
    let '(r, st) := check "K" st in Some (Ok host, st, "connect" :: n);
  authenticate_password h u pw := log "password" (Ok (bool_decide (pw = "pw")));
  authenticate_publickey h u k := log "publickey" (Ok (bool_decide (k = "KEY")));
  authenticate_publickey_with h u k alg n :=
    Ask k (Some Sha512) challenge (fun r =>
      match r with
      | Ok s => Finished (Ok (bool_decide (s = reverse challenge))) ("delegated" :: n)
      | Err e => Finished (Err e) n
      end);
  channel_open_session h := log "channel" (Ok "ch");
  request_pty ch r term c rw pw ph := log "pty" (Ok tt);
  request_shell ch r := log "shell" (Ok tt);
|}.

#[export] Instance lab_laws : RusshLaws (list string).
Proof. split. intros H check host port st st' n n' h. cbn. destruct (check "K" st) as [r s] eqn:E.
  intros [= <- <- <-]. exists [], "K". cbn. by rewrite E. Defined.

Definition target : SshTarget := mkSshTarget "box" 22 "me".

Definition opened : SshSession (RU:=lab) := mkSshSession (RU:=lab) "ch" "box" (Some "SHA256:K").

(** With the password, and with a private key. *)
Lemma open_authenticated_witness :
  (exists n1 n2,
     client_connect (Russh:=lab) (option string) check_server_key "box" 22 None [] =
       Some ((Ok "box", Some "SHA256:K"), n1) /\
     accepts (RU:=lab) "box" "me" (Auth.Password "pw") n1 n2 /\
     shell_opened (RU:=lab) "box" "ch" 80 24 n2 ["shell"; "pty"; "channel"; "password"; "connect"]) /\
  (exists n1 n2,
     client_connect (Russh:=lab) (option string) check_server_key "box" 22 None [] =
       Some ((Ok "box", Some "SHA256:K"), n1) /\
     accepts (RU:=lab) "box" "me" (Auth.PrivateKey "KEY" None) n1 n2 /\
     shell_opened (RU:=lab) "box" "ch" 80 24 n2 ["shell"; "pty"; "channel"; "publickey"; "connect"]) /\
  (exists k, Some "SHA256:K" = Some (fingerprint (Russh:=lab) k)).
Proof.
  pose proof (open_authenticated (RU:=lab) target (Auth.Password "pw") 80 24 [] opened
    ["shell"; "pty"; "channel"; "password"; "connect"]) as [Hp Hk].
  pose proof (open_authenticated (RU:=lab) target (Auth.PrivateKey "KEY" None) 80 24 [] opened
    ["shell"; "pty"; "channel"; "publickey"; "connect"]) as [Hq _].
  split; [exact (proj1 Hp eq_refl)|split; [exact (proj1 Hq eq_refl)|exact (Hk eq_refl)]].
Defined.

(** A wrong password: no channel is opened. *)
Example open_refused :
  open (RU:=lab) target (Auth.Password "no") 80 24 [] =
  Some (Err (Msg "authentication failed for me"), ["password"; "connect"]).
Proof. reflexivity. Qed.

(** Nor with a key the target does not know. *)
Example open_refused_key :
  open (RU:=lab) target (Auth.PrivateKey "OTHER" None) 80 24 [] =
  Some (Err (Msg "authentication failed for me"), ["publickey"; "connect"]).
Proof. reflexivity. Qed.

(** A client that signs by reversing; its state is the network. *)
Definition reverser : RemoteSigner (list string) := fun line alg data n => Some (Ok (reverse data), n).


End Witness.
