(* ===== verification/Lifetime.v ===== *)
(** * Who keeps a session alive ([SshSession::spawn] in
    [crates/gw-ssh/src/lib.rs], [Session::spawn] and [spawn_ingest] in
    [crates/gw-core/src/lib.rs])

    Three kinds of owner share a session: the registry, the connections
    attached to it (the handler's own pointer and its reader) and the ingest
    task, each by an [Arc<Session>].  The session owns the only sender of the
    actor's input; the actor owns the sender of the output, the ingest task
    its receiver.  [life_step] is what each of them may do, the actor by the
    branches of its loop (Ssh.v); [tokio]'s channels are as documented:
    receiving ends once every sender is gone, sending fails once the receiver
    is. *)

From S2P Require Import Prelude Registry Ssh.

Record Life : Type := mkLife {
  registered : bool;   (* the registry's pointer *)
  attached : nat;      (* the connections' pointers *)
  ingesting : bool;    (* the ingest task's pointer, and the output's receiver *)
  acting : bool;       (* the actor: the output's sender, the input's receiver *)
}.

(** Just after [manager.create(ssh.spawn())]: the registry has the session, and
    the handler, and both tasks run. *)
Definition born : Life := mkLife true 1 true true.

(** The session object, and with it the input's sender. *)
Definition session_alive (l : Life) : bool :=
  registered l || bool_decide (0 < attached l)%nat || ingesting l.

(** The branches of the actor's [select!] that can be ready. *)
Definition selectable (l : Life) (sel : Selected) : bool :=
  acting l &&
  match sel with
  | FromInput None _ => negb (session_alive l)
  | FromInput (Some _) _ => true
  | FromChannel _ receiver_alive => Bool.eqb receiver_alive (ingesting l)
  end.

Inductive life_step : Life -> option Selected -> Life -> Prop :=
  | Attaches l : (* [manager.resume] *)
      registered l = true ->
      life_step l None (mkLife (registered l) (S (attached l)) (ingesting l) (acting l))
  | Clones l : (* a reader, or a task's pointer *)
      (0 < attached l)%nat ->
      life_step l None (mkLife (registered l) (S (attached l)) (ingesting l) (acting l))
  | Releases l n :
      attached l = S n -> life_step l None (mkLife (registered l) n (ingesting l) (acting l))
  | Removed l : (* [manager.remove] *)
      life_step l None (mkLife false (attached l) (ingesting l) (acting l))
  | Selects l sel :
      selectable l sel = true ->
      life_step l (Some sel)
        (mkLife (registered l) (attached l) (ingesting l) (acting l && negb (ends sel)))
  | IngestEnds l : (* [output.recv()] is [None]; mark the end and return *)
      ingesting l = true -> acting l = false ->
      life_step l None (mkLife (registered l) (attached l) false (acting l)).

(** A run, with the branches the actor took. *)
Inductive life_run : Life -> list Selected -> Life -> Prop :=
  | life_done l : life_run l [] l
  | life_quiet l l1 l2 sels : life_step l None l1 -> life_run l1 sels l2 -> life_run l sels l2
  | life_select l l1 l2 sel sels :
      life_step l (Some sel) l1 -> life_run l1 sels l2 -> life_run l (sel :: sels) l2.

(** The target's end of the channel goes away, or a write to it fails. *)
Definition target_ends (sel : Selected) : bool :=
  match sel with
  | FromChannel (Some ChannelMsg.Eof | Some ChannelMsg.Close | None) _ => true
  | FromInput (Some (SshInput.Data _)) ok => negb ok
  | _ => false
  end.

(** The ingest task runs as long as the actor does. *)
Definition life_ok (l : Life) : Prop := acting l = true -> ingesting l = true.

Lemma life_step_ok l o l' : life_step l o l' -> life_ok l -> life_ok l'.
Proof.
  unfold life_ok. destruct 1; cbn; try done; [|congruence].
  intros Hl [Ha _]%andb_true_iff. auto.
Qed.

(** While the actor runs, it keeps its own input open: the branch without
    senders is never ready, and its output is never refused. *)
Lemma selectable_ends l sel : life_ok l -> selectable l sel = true -> ends sel = target_ends sel.
Proof.
  unfold life_ok, selectable. intros Hl [Ha H]%andb_true_iff. specialize (Hl Ha).
  destruct sel as [[[| | | |]|] alive|[[|]|] ok]; cbn in *; try done;
    rewrite ?Hl in H; try (by destruct alive); try (by destruct ok).
  unfold session_alive in H. by rewrite Hl, orb_true_r in H.
Qed.

Lemma life_run_acting l sels l' :
  life_run l sels l' -> life_ok l -> acting l = true ->
  (acting l' = negb (existsb target_ends sels)) /\ (acting l' = true -> ingesting l' = true).
Proof.
  induction 1 as [l|l l1 l2 sels Hs _ IH|l l1 l2 sel sels Hs Hr IH]; intros Hok Ha; [auto|..].
  - assert (acting l1 = true) by (inversion Hs; subst; cbn in *; congruence).
    apply IH; [by eapply life_step_ok|done].
  - pose proof (life_step_ok _ _ _ Hs Hok) as Hok1. inversion Hs as [| | | |? ? Hsel|]; subst.
    rewrite (selectable_ends _ _ Hok Hsel), Ha in *. cbn [existsb andb].
    destruct (target_ends sel) eqn:E; cbn in *; [|by apply IH].
    assert (Hdead : forall a sels b, life_run a sels b -> acting a = false -> acting b = false).
    { clear. induction 1 as [|a b c sels Hs _ IH|a b c sel sels Hs _ IH]; [done|..]; intros Ha; apply IH;
        inversion Hs; subst; cbn in *; rewrite ?Ha; done. }
    by rewrite (Hdead _ _ _ Hr eq_refl).
Qed.

(** C25: only the target ends a session.  Whatever clients and the registry do,
    closing included, the session's actor, its connection to the target and
    its scrollback live on until the target's end goes away: when every
    client is gone and the session has been removed, the actor is still
    running, because the ingest task that waits for it to finish owns the
    sender whose loss would finish it. *)
Theorem only_target_ends_session sels l :
  life_run born sels l ->
  acting l = negb (existsb target_ends sels) /\
  (acting l = true -> session_alive l = true /\ forall ok, selectable l (FromInput None ok) = false).
Proof.
  intros H. destruct (life_run_acting _ _ _ H) as [Ha Hi]; [done|done|]. split; [done|].
  intros E. specialize (Hi E). assert (Hs : session_alive l = true)
    by (unfold session_alive; by rewrite Hi, orb_true_r).
  split; [done|]. intros ok. unfold selectable. by rewrite Hs, andb_false_r.
Qed.

(** An ended session is freed.  Once the actor has ended, nothing but the
    registry and the clients holds the session: its ingest task can always
    end, and when it has, a session removed and left by its clients is gone. *)
Theorem ended_session_freed sels l :
  life_run born sels l -> existsb target_ends sels = true ->
  exists l', life_run l [] l' /\ ingesting l' = false /\
    registered l' = registered l /\ attached l' = attached l /\
    (session_alive l' = true <-> registered l = true \/ (0 < attached l)%nat).
Proof.
  intros H He. destruct (life_run_acting _ _ _ H) as [Ha _]; [done|done|]. rewrite He in Ha.
  exists (mkLife (registered l) (attached l) false (acting l)). split_and!; try done.
  - destruct (ingesting l) eqn:E.
    + eapply life_quiet; [by apply IngestEnds|constructor].
    + rewrite <-E. destruct l. constructor.
  - unfold session_alive. cbn. rewrite orb_false_r, orb_true_iff, bool_decide_eq_true. done.
Qed.

(** ** Witnesses *)

Module Witness.

(** Typed at, closed by its only client, removed. *)
Lemma closed_run : life_run born [FromInput (Some (SshInput.Data [])) true] (mkLife false 0 true true).
Proof.
  eapply life_select; [by apply Selects|]. eapply life_quiet; [apply Removed|].
  eapply life_quiet; [by eapply (Releases _ 0)|]. constructor.
Defined.

Lemma only_target_ends_session_witness :
  acting (mkLife false 0 true true) = true /\ session_alive (mkLife false 0 true true) = true.
Proof.
  destruct (only_target_ends_session _ _ closed_run) as [Ha Hs]. split; [exact Ha|].
  exact (proj1 (Hs eq_refl)).
Defined.

Lemma ended_run : life_run born [FromChannel (Some ChannelMsg.Eof) true] (mkLife true 1 true false).
Proof. eapply life_select; [by apply Selects|]. constructor. Defined.

Lemma ended_session_freed_witness :
  exists l', life_run (mkLife true 1 true false) [] l' /\ ingesting l' = false /\
    registered l' = true /\ attached l' = 1%nat /\
    (session_alive l' = true <-> true = true \/ (0 < 1)%nat).
Proof. exact (ended_session_freed _ _ ended_run eq_refl). Defined.

End Witness.
