(* ===== verification/Pipe.v ===== *)
(** * From keyboard to target and back ([SshSession::spawn] in
    [crates/gw-ssh/src/lib.rs], [spawn_ingest] and [Session::send_input] in
    [crates/gw-core/src/lib.rs])

    Between a connection's receiver and the target sit a bounded channel and
    the actor's loop; between the target and the scrollback, the actor again,
    another bounded channel and the ingest task.  A send on a full channel
    waits.  [pipe_step] is one step of any of them; the actor's branches and
    what they do are those of Ssh.v, performed one [await] at a time. *)

From S2P Require Import Prelude Frame Scrollback Registry Ssh.

(** The two channels of [spawn]. *)
Definition INPUT_CAPACITY : usize := 64.
Definition OUTPUT_CAPACITY : usize := 256.

(** Where the actor is: at the top of its loop; at its [select!]; performing what
    a branch asks for, before it loops with a pending resize or breaks; gone. *)
Inductive ActorPc : Type :=
  | Top (pending_resize : option (u32 * u32))
  | Selecting
  | Performing (todo : list ActorEffect) (next : option (option (u32 * u32)))
  | ActorDone.

Record Pipe : Type := mkPipe {
  input : list SshInput;
  actor_pc : ActorPc;
  output : list (list byte);
  scrollback : SessionInner;
}.

Definition set_input (x : list SshInput) (s : Pipe) : Pipe :=
  mkPipe x (actor_pc s) (output s) (scrollback s).
Definition set_actor (x : ActorPc) (s : Pipe) : Pipe :=
  mkPipe (input s) x (output s) (scrollback s).
Definition set_output (x : list (list byte)) (s : Pipe) : Pipe :=
  mkPipe (input s) (actor_pc s) x (scrollback s).
Definition set_scrollback (x : SessionInner) (s : Pipe) : Pipe :=
  mkPipe (input s) (actor_pc s) (output s) x.

(** A receiver's [send_input]; the actor's own next step; a call of the actor's
    on the target that returns; a branch of its [select!] that is ready; the
    ingest task's turn. *)
Inductive PipeEvent : Type :=
  | Type_ (cmd : SshInput)
  | Proceed
  | TargetTakes
  | Ready (sel : Selected)
  | IngestTurn.

(** Whether the target has to take an effect. *)
Definition on_target (e : ActorEffect) : bool :=
  match e with
  | WindowChange _ _ | WriteAll _ | Flush => true
  | SendOutput _ => false
  end.

(** One step; [None] when it has to wait. *)
Definition pipe_step (e : PipeEvent) (s : Pipe) : option Pipe :=
  match e with
  | Type_ cmd =>
      match actor_pc s with
      | ActorDone => Some s (* refused: the receiver of the channel is gone *)
      | _ => if decide (len (input s) < INPUT_CAPACITY) then Some (set_input (input s ++ [cmd]) s)
             else None
      end
  | Proceed =>
      match actor_pc s with
      | Top None => Some (set_actor Selecting s)
      | Performing (SendOutput data :: todo) next =>
          if decide (len (output s) < OUTPUT_CAPACITY) then
            Some (set_actor (Performing todo next) (set_output (output s ++ [data]) s))
          else None
      | Performing [] (Some pending_resize) => Some (set_actor (Top pending_resize) s)
      | Performing [] None => Some (set_actor ActorDone s)
      | _ => None
      end
  | TargetTakes =>
      match actor_pc s with
      | Top (Some _) => Some (set_actor Selecting s)
      | Performing (e :: todo) next =>
          if on_target e then Some (set_actor (Performing todo next) s) else None
      | _ => None
      end
  | Ready sel =>
      match actor_pc s with
      | Selecting =>
          let performing := let '(effects, next) := select sel in Performing effects next in
          match sel, input s with
          | FromChannel _ true, _ => Some (set_actor performing s)
          | FromInput (Some cmd) _, cmd' :: rest =>
              if decide (cmd = cmd') then Some (set_actor performing (set_input rest s)) else None
          | _, _ => None
          end
      | _ => None
      end
  | IngestTurn =>
      match output s, actor_pc s with
      | data :: rest, _ => Some (set_output rest (set_scrollback (append (scrollback s) data) s))
      | [], ActorDone => Some (set_scrollback (set_closed (scrollback s)) s)
      | [], _ => None
      end
  end.

Fixpoint pipe_steps (es : list PipeEvent) (s : Pipe) : option Pipe :=
  match es with
  | [] => Some s
  | e :: es => s ← pipe_step e s; pipe_steps es s
  end.

(** [spawn], [Session::spawn]. *)
Definition pipe_new (max : usize) : Pipe := mkPipe [] (Top None) [] (new_inner max).

(** ** What a run was about *)

(** The inputs accepted, the branches taken, the effects performed. *)
Definition accepts (e : PipeEvent) (s : Pipe) : list SshInput :=
  match e, actor_pc s with
  | Type_ cmd, (Top _ | Selecting | Performing _ _) => [cmd]
  | _, _ => []
  end.

Fixpoint accepted (es : list PipeEvent) (s : Pipe) : list SshInput :=
  match es with
  | [] => []
  | e :: es =>
      match pipe_step e s with
      | None => []
      | Some s' => accepts e s ++ accepted es s'
      end
  end.

Definition selects (e : PipeEvent) : list Selected :=
  match e with Ready sel => [sel] | _ => [] end.

Definition selected (es : list PipeEvent) : list Selected := concat (map selects es).

Definition performs (e : PipeEvent) (s : Pipe) : list ActorEffect :=
  match e, actor_pc s with
  | Proceed, Performing (SendOutput data :: _) _ => [SendOutput data]
  | TargetTakes, Top (Some (cols, rows)) => [WindowChange cols rows]
  | TargetTakes, Performing (eff :: _) _ => [eff]
  | _, _ => []
  end.

Fixpoint performed (es : list PipeEvent) (s : Pipe) : list ActorEffect :=
  match es with
  | [] => []
  | e :: es =>
      match pipe_step e s with
      | None => []
      | Some s' => performs e s ++ performed es s'
      end
  end.

Definition input_taken (sel : Selected) : list SshInput :=
  match sel with FromInput (Some cmd) _ => [cmd] | _ => [] end.

Definition inputs_taken (sels : list Selected) : list SshInput := concat (map input_taken sels).

Definition output_of (e : ActorEffect) : list byte :=
  match e with SendOutput data => data | _ => [] end.

Definition outputs_of (es : list ActorEffect) : list byte := concat (map output_of es).

(** What is left of a branch, and how the loop then stands. *)
Definition todo_of (p : ActorPc) : list ActorEffect :=
  match p with
  | Top pending => apply_resize pending
  | Performing todo (Some next) => todo ++ apply_resize next
  | Performing todo None => todo
  | Selecting | ActorDone => []
  end.

(** The branch taken ends the loop. *)
Definition ending (p : ActorPc) : bool :=
  match p with
  | ActorDone | Performing _ None => true
  | Top _ | Selecting | Performing _ (Some _) => false
  end.

(** What a branch asks for, at once or at the top of the loop. *)
Lemma todo_select sel :
  todo_of (let '(effects, next) := select sel in Performing effects next) = direct sel.
Proof. by destruct sel as [[[| | | |]|] []|[[|]|] []]. Qed.

(** [acc] was typed, [sels] chosen, [dn] performed, and so the pipe is [s]. *)
Record flows (acc : list SshInput) (sels : list Selected) (dn : list ActorEffect) (s : Pipe) : Prop := {
  flows_input : acc = inputs_taken sels ++ input s;
  flows_actor : dn ++ todo_of (actor_pc s) = concat (map direct sels);
  flows_output : exists shown, outputs_of dn = shown ++ concat (output s) /\
    represents (scrollback s) shown;
  flows_bounds : len (input s) <= INPUT_CAPACITY /\ len (output s) <= OUTPUT_CAPACITY;
  flows_served : served sels = sels /\ existsb ends sels = ending (actor_pc s);
  flows_closed : closed (scrollback s) = true -> actor_pc s = ActorDone /\ output s = [];
}.

Lemma outputs_app es1 es2 : outputs_of (es1 ++ es2) = outputs_of es1 ++ outputs_of es2.
Proof. unfold outputs_of. by rewrite map_app, concat_app. Qed.

Lemma inputs_taken_snoc sels sel : inputs_taken (sels ++ [sel]) = inputs_taken sels ++ input_taken sel.
Proof. unfold inputs_taken. rewrite map_app, concat_app. cbn. by rewrite app_nil_r. Qed.

Lemma outputs_target e : on_target e = true -> outputs_of [e] = [].
Proof. by destruct e. Qed.

Lemma served_snoc sels sel :
  served sels = sels -> existsb ends sels = false ->
  served (sels ++ [sel]) = sels ++ [sel] /\ existsb ends (sels ++ [sel]) = ends sel.
Proof.
  induction sels as [|a sels IH]; cbn; [by destruct (ends sel)|].
  intros Hs [Ha He]%orb_false_iff. rewrite Ha in *. injection Hs as Hs. cbn.
  destruct (IH Hs He) as [-> ->]. done.
Qed.

Lemma ending_select sel :
  ending (let '(effects, next) := select sel in Performing effects next) = ends sel.
Proof.
  pose proof (select_direct sel) as H. destruct (select sel) as [? []]; by destruct H as [_ ->].
Qed.

(** The actor moves on, with nothing said or heard. *)
Lemma flows_move acc sels dn s p :
  flows acc sels dn s -> actor_pc s <> ActorDone -> todo_of p = todo_of (actor_pc s) ->
  ending p = ending (actor_pc s) ->
  flows (acc ++ []) (sels ++ []) (dn ++ []) (set_actor p s).
Proof.
  intros [Hi Ha Ho Hb Hv Hc] Hne Ht He. rewrite !app_nil_r. split; try done; cbn.
  - by rewrite Ht.
  - by rewrite He.
  - by intros [? _]%Hc.
Qed.

(** The actor has performed one effect for the target. *)
Lemma flows_take acc sels dn s p e :
  flows acc sels dn s -> actor_pc s <> ActorDone -> on_target e = true ->
  e :: todo_of p = todo_of (actor_pc s) -> ending p = ending (actor_pc s) ->
  flows (acc ++ []) (sels ++ []) (dn ++ [e]) (set_actor p s).
Proof.
  intros [Hi Ha (shown & Hs & Hr) Hb Hv Hc] Hne He Ht Hen. rewrite !app_nil_r. split; try done; cbn.
  - by rewrite <-app_assoc, <-Ha, <-Ht.
  - exists shown. by rewrite outputs_app, outputs_target, app_nil_r.
  - by rewrite Hen.
  - by intros [? _]%Hc.
Qed.

(** The actor takes a branch; [rest] is left in its channel. *)
Lemma flows_branch acc sels dn s sel rest :
  flows acc sels dn s -> actor_pc s = Selecting ->
  acc = inputs_taken (sels ++ [sel]) ++ rest -> len rest <= INPUT_CAPACITY ->
  flows (acc ++ []) (sels ++ [sel]) (dn ++ [])
    (set_actor (let '(effects, next) := select sel in Performing effects next) (set_input rest s)).
Proof.
  intros [Hi Ha (shown & Hs & Hr) [Hbi Hbo] [Hsv Hend] Hc] Hpc Hacc Hlr. rewrite Hpc in *.
  rewrite !app_nil_r. split; try done; cbn [set_actor set_input actor_pc].
  - rewrite todo_select, map_app, concat_app, <-Ha. cbn. by rewrite !app_nil_r.
  - by exists shown.
  - rewrite ending_select. by apply served_snoc.
  - by intros [? _]%Hc.
Qed.

(** The ingest task takes a chunk. *)
Lemma flows_ingest acc sels dn s data rest :
  flows acc sels dn s -> output s = data :: rest -> len (outputs_of dn) < 2 ^ 64 ->
  flows acc sels dn (set_output rest (set_scrollback (append (scrollback s) data) s)).
Proof.
  intros [Hi Ha (shown & Hs & Hr) [Hbi Hbo] Hv Hc] Eo Hlen. rewrite Eo in *. cbn in Hs.
  split; try done; cbn.
  - exists (shown ++ data). split; [by rewrite Hs, <-app_assoc|]. apply represents_append; [done|].
    rewrite Hs, app_assoc, len_app in Hlen. pose proof (len_nonneg (concat rest)). lia.
  - split; [done|]. unfold len in *. cbn in Hbo. lia.
  - rewrite closed_append. by intros [_ ?]%Hc.
Qed.

(** The ingest task marks the session closed. *)
Lemma flows_close acc sels dn s :
  flows acc sels dn s -> output s = [] -> actor_pc s = ActorDone ->
  flows acc sels dn (set_scrollback (set_closed (scrollback s)) s).
Proof.
  intros [Hi Ha (shown & Hs & Hr) Hb Hv Hc] Eo Hpc. split; try done; cbn.
  exists shown. split; [done|by apply represents_closed].
Qed.

(** An input is accepted. *)
Lemma flows_type acc sels dn s cmd :
  flows acc sels dn s -> len (input s) < INPUT_CAPACITY ->
  flows (acc ++ [cmd]) (sels ++ []) (dn ++ []) (set_input (input s ++ [cmd]) s).
Proof.
  intros [Hi Ha (shown & Hs & Hr) [Hbi Hbo] Hv Hc] Hlt. rewrite !app_nil_r. split; try done; cbn.
  - by rewrite Hi, app_assoc.
  - by exists shown.
  - rewrite len_app. unfold len at 2. cbn. split; [lia|done].
Qed.

(** The actor sends a chunk of output. *)
Lemma flows_send acc sels dn s data todo next :
  flows acc sels dn s -> actor_pc s = Performing (SendOutput data :: todo) next ->
  len (output s) < OUTPUT_CAPACITY ->
  flows (acc ++ []) (sels ++ []) (dn ++ [SendOutput data])
    (set_actor (Performing todo next) (set_output (output s ++ [data]) s)).
Proof.
  intros [Hi Ha (shown & Hs & Hr) [Hbi Hbo] Hv Hc] Hpc Hlt. rewrite Hpc in *. rewrite !app_nil_r.
  split; try done; cbn.
  - rewrite <-app_assoc, <-Ha. by destruct next.
  - exists shown. rewrite outputs_app, Hs, concat_app. unfold outputs_of. cbn.
    by rewrite !app_nil_r, app_assoc.
  - split; [done|]. rewrite len_app. unfold len at 2. cbn. lia.
  - by intros [? _]%Hc.
Qed.

Lemma pipe_step_flows acc sels dn e s s' :
  flows acc sels dn s -> pipe_step e s = Some s' -> len (outputs_of (dn ++ performs e s)) < 2 ^ 64 ->
  flows (acc ++ accepts e s) (sels ++ selects e) (dn ++ performs e s) s'.
Proof.
  intros Hf H Hlen. pose proof (flows_input _ _ _ _ Hf) as Hi. pose proof (flows_bounds _ _ _ _ Hf) as [Hb _].
  destruct e as [cmd| | |sel|]; cbn [pipe_step selects] in *; unfold accepts, performs in *.
  - destruct (actor_pc s) eqn:Hpc;
      try (case_decide; [|done]; injection H as <-; by apply flows_type).
    injection H as <-. by rewrite !app_nil_r.
  - destruct (actor_pc s) as [[r|]| |[|[c r|data|b|] todo] [next|]|] eqn:Hpc; try done;
      try (injection H as <-; apply flows_move; by rewrite ?Hpc).
    all: case_decide; [|done]; injection H as <-; by apply flows_send.
  - destruct (actor_pc s) as [[[c r]|]| |[|eff todo] next|] eqn:Hpc; try done.
    + injection H as <-. by apply flows_take; rewrite ?Hpc.
    + destruct (on_target eff) eqn:Et; [|done]. injection H as <-.
      apply flows_take; rewrite ?Hpc; by destruct next.
  - destruct (actor_pc s) eqn:Hpc; try done.
    destruct sel as [msg [|]|[cmd|] ok]; try done.
    + injection H as <-. replace s with (set_input (input s) s) at 2 by by destruct s.
      apply flows_branch; try done. rewrite inputs_taken_snoc. cbn. by rewrite app_nil_r.
    + destruct (input s) as [|cmd' rest] eqn:Ein; [done|]. case_decide; [subst cmd'|done].
      injection H as <-. apply flows_branch; try done; [|unfold len in *; cbn in Hb; lia].
      by rewrite inputs_taken_snoc, Hi, <-app_assoc.
  - rewrite !app_nil_r in *. destruct (output s) as [|data rest] eqn:Eo.
    + destruct (actor_pc s) eqn:Hpc; try done. injection H as <-. by apply flows_close.
    + injection H as <-. by apply flows_ingest.
Qed.

Lemma pipe_steps_flows es : forall acc sels dn s s',
  flows acc sels dn s -> pipe_steps es s = Some s' ->
  len (outputs_of (dn ++ performed es s)) < 2 ^ 64 ->
  flows (acc ++ accepted es s) (sels ++ selected es) (dn ++ performed es s) s'.
Proof.
  induction es as [|e es IH]; intros acc sels dn s s' Hf H Hlen; cbn [pipe_steps performed accepted] in *.
  - injection H as <-. unfold selected. cbn. by rewrite !app_nil_r.
  - destruct (pipe_step e s) as [s1|] eqn:E; [|done]. cbn in H. unfold selected. cbn [map concat].
    rewrite !app_assoc in *. apply IH; [|done|done]. apply pipe_step_flows; [done|done|].
    rewrite outputs_app, len_app in Hlen.
    pose proof (len_nonneg (outputs_of (performed es s1))). lia.
Qed.

Lemma pipe_new_flows m : 0 <= m -> flows [] [] [] (pipe_new m).
Proof. intros Hm. split; try done. exists []. split; [done|by apply represents_new]. Qed.

(** C13: a session's pipe loses, repeats and reorders nothing in either
    direction.  After any run of typing, the actor's steps and the ingest
    task's from [spawn], of less than 2^64 bytes of output: the inputs accepted
    are those the actor has taken, in order, and then those in the channel; what
    the actor has done and still has to do for its branch is what its loop
    ([actor] of Ssh.v, without channels) does on the branches chosen; the output
    it has sent is what the scrollback represents and then what the channel
    holds; neither channel is over its capacity; and a session marked closed has
    had all of its output. *)
Theorem pipe_faithful m es s :
  0 <= m -> pipe_steps es (pipe_new m) = Some s ->
  len (outputs_of (performed es (pipe_new m))) < 2 ^ 64 ->
  accepted es (pipe_new m) = inputs_taken (selected es) ++ input s /\
  (let '(effects, final) := actor None (selected es) in
   performed es (pipe_new m) ++ todo_of (actor_pc s) =
     effects ++ match final with Some pending => apply_resize pending | None => [] end) /\
  (exists shown, outputs_of (performed es (pipe_new m)) = shown ++ concat (output s) /\
    represents (scrollback s) shown) /\
  len (input s) <= INPUT_CAPACITY /\ len (output s) <= OUTPUT_CAPACITY /\
  (closed (scrollback s) = true -> actor_pc s = ActorDone /\ output s = []).
Proof.
  intros Hm H Hlen.
  destruct (pipe_steps_flows es [] [] [] _ s (pipe_new_flows m Hm) H Hlen) as [Hi Ha Ho Hb [Hs _] Hc].
  cbn [app] in *. destruct Hb.
  pose proof (actor_direct (selected es) None) as Hd. destruct (actor None (selected es)) as [effects final].
  rewrite Ha, Hd, Hs. split_and!; auto.
Qed.

(** ** Waiting *)

Definition typing (e : PipeEvent) : bool := match e with Type_ _ => true | _ => false end.
Definition target_takes (e : PipeEvent) : bool := match e with TargetTakes => true | _ => false end.

(** The actor waits for the target. *)
Definition awaits_target (s : Pipe) : bool :=
  match actor_pc s with
  | Top (Some _) => true
  | Performing (e :: _) _ => on_target e
  | _ => false
  end.

Lemma pipe_steps_app es1 es2 s :
  pipe_steps (es1 ++ es2) s = s' ← pipe_steps es1 s; pipe_steps es2 s'.
Proof.
  revert s. induction es1 as [|e es1 IH]; intros s; cbn; [done|].
  destruct (pipe_step e s); cbn; [apply IH|done].
Qed.

(** [es], without typing, takes [s] to [s'] and leaves the inputs as they are. *)
Record leads (es : list PipeEvent) (s s' : Pipe) : Prop := {
  leads_steps : pipe_steps es s = Some s';
  leads_quiet : forallb (fun e => negb (typing e)) es = true;
  leads_input : input s' = input s;
  leads_output : len (output s) <= OUTPUT_CAPACITY -> len (output s') <= OUTPUT_CAPACITY;
}.

Lemma leads_nil s : leads [] s s.
Proof. by split. Qed.

Lemma leads_app es1 es2 s s1 s2 : leads es1 s s1 -> leads es2 s1 s2 -> leads (es1 ++ es2) s s2.
Proof.
  intros [H1 Hq1 Hi1 Ho1] [H2 Hq2 Hi2 Ho2]. split; [|by rewrite forallb_app, Hq1|by rewrite Hi2|auto].
  by rewrite pipe_steps_app, H1.
Qed.

Lemma leads_one e s s' :
  pipe_step e s = Some s' -> typing e = false -> input s' = input s ->
  (len (output s) <= OUTPUT_CAPACITY -> len (output s') <= OUTPUT_CAPACITY) -> leads [e] s s'.
Proof. intros H Ht Hi Ho. split; [cbn; by rewrite H|cbn; by rewrite Ht|done|done]. Qed.

Lemma leads_send s data todo next :
  actor_pc s = Performing (SendOutput data :: todo) next -> len (output s) < OUTPUT_CAPACITY ->
  leads [Proceed] s (set_actor (Performing todo next) (set_output (output s ++ [data]) s)).
Proof.
  intros Hpc Hlt. apply leads_one; [|done|done|].
  - cbn. by rewrite Hpc, decide_True.
  - cbn. rewrite len_app. unfold len at 3. cbn. lia.
Qed.

(** One effect done; a full output channel takes an ingest turn first. *)
Lemma perform_one s e todo next :
  actor_pc s = Performing (e :: todo) next -> len (output s) <= OUTPUT_CAPACITY ->
  exists es s', leads es s s' /\ actor_pc s' = Performing todo next /\ (length es <= 2)%nat.
Proof.
  intros Hpc Ho. destruct (on_target e) eqn:Et.
  { exists [TargetTakes], (set_actor (Performing todo next) s). split_and!; [|done|cbn; lia].
    apply leads_one; [|done..]. cbn. by rewrite Hpc, Et. }
  destruct e as [| data | |]; try done. destruct (decide (len (output s) < OUTPUT_CAPACITY)) as [Hlt|Hge].
  { exists [Proceed]. eexists. split_and!; [by apply leads_send|done|cbn; lia]. }
  destruct (output s) as [|c rest] eqn:Eo; [by destruct Hge|].
  assert (Hr : len rest < OUTPUT_CAPACITY) by (unfold len in *; cbn [length] in Ho; lia).
  set (s1 := set_output rest (set_scrollback (append (scrollback s) c) s)).
  assert (L1 : leads [IngestTurn] s s1)
    by (apply leads_one; [cbn; by rewrite Eo|done|done|cbn; lia]).
  exists ([IngestTurn] ++ [Proceed]). eexists. split_and!; [eapply leads_app, leads_send|done|cbn; lia]; done.
Qed.

Lemma perform_all todo : forall s next,
  actor_pc s = Performing todo next -> len (output s) <= OUTPUT_CAPACITY ->
  exists es s', leads es s s' /\ actor_pc s' = Performing [] next /\ (length es <= 2 * length todo)%nat.
Proof.
  induction todo as [|e todo IH]; intros s next Hpc Ho; [by exists [], s; split; [apply leads_nil|auto]|].
  destruct (perform_one _ _ _ _ Hpc Ho) as (es1 & s1 & L1 & Hpc1 & Hn1).
  destruct (IH s1 next Hpc1 (leads_output _ _ _ L1 Ho)) as (es2 & s2 & L2 & Hpc2 & Hn2).
  exists (es1 ++ es2), s2. split; [by eapply leads_app|]. rewrite length_app. cbn. split; [done|lia].
Qed.

(** The actor comes to its [select!], or it ends. *)
Lemma comes_to_select s :
  len (output s) <= OUTPUT_CAPACITY ->
  exists es s', leads es s s' /\ (actor_pc s' = Selecting \/ actor_pc s' = ActorDone) /\
    (length es <= 2 * length (todo_of (actor_pc s)) + 2)%nat.
Proof.
  assert (Htop : forall s r, actor_pc s = Top r -> exists e s', leads [e] s s' /\ actor_pc s' = Selecting).
  { intros s0 [r|] Hpc; [exists TargetTakes|exists Proceed]; exists (set_actor Selecting s0);
      (split; [|done]); apply leads_one; try done; cbn; by rewrite Hpc. }
  intros Ho. destruct (actor_pc s) as [r| |todo next|] eqn:Hpc.
  - destruct (Htop s r Hpc) as (e & s' & L & H). exists [e], s'. cbn. split_and!; [done|auto|lia].
  - exists [], s. cbn. split_and!; [apply leads_nil|auto|lia].
  - destruct (perform_all todo s next Hpc Ho) as (es & s1 & L & H1 & Hn).
    assert (Hlen : (length todo <= length (todo_of (Performing todo next)))%nat)
      by (destruct next; cbn; rewrite ?length_app; lia).
    destruct next as [r|].
    + set (s2 := set_actor (Top r) s1). destruct (Htop s2 r) as (e & s3 & L3 & H3); [done|].
      assert (L2 : leads [Proceed] s1 s2) by (apply leads_one; try done; cbn; by rewrite H1).
      exists (es ++ [Proceed] ++ [e]), s3. split; [eapply leads_app; [done|]; by eapply leads_app|].
      rewrite !length_app. cbn [length]. split; [auto|lia].
    + exists (es ++ [Proceed]), (set_actor ActorDone s1).
      split; [eapply leads_app; [done|]; apply leads_one; try done; cbn; by rewrite H1|].
      rewrite length_app. cbn [length]. split; [auto|lia].
  - exists [], s. cbn. split_and!; [apply leads_nil|auto|lia].
Qed.

Lemma type_room cmd s : len (input s) < INPUT_CAPACITY -> is_Some (pipe_step (Type_ cmd) s).
Proof. intros H. cbn. destruct (actor_pc s); rewrite ?decide_True by done; eauto. Qed.

(** C24: the pipe does not deadlock.  From any state within the channels'
    capacities, a bounded number of steps of the actor, of the ingest task and of
    the target, with nothing typed in between, brings the pipe to where a
    receiver's [send_input] returns: at most two for each effect the actor still
    has to perform, and three more. *)
Theorem pipe_progress cmd s :
  len (input s) <= INPUT_CAPACITY -> len (output s) <= OUTPUT_CAPACITY ->
  exists es s' s'', pipe_steps es s = Some s' /\ forallb (fun e => negb (typing e)) es = true /\
    (length es <= 2 * length (todo_of (actor_pc s)) + 3)%nat /\ pipe_step (Type_ cmd) s' = Some s''.
Proof.
  intros Hi Ho. destruct (comes_to_select s Ho) as (es & s1 & [H1 Hq Hi1 Ho1] & Hpc & Hn).
  destruct (decide (len (input s) < INPUT_CAPACITY)) as [Hlt|Hge].
  { destruct (type_room cmd s1) as [s2 H2]; [by rewrite Hi1|].
    exists es, s1, s2. split_and!; [done|done|lia|done]. }
  destruct Hpc as [Hpc|Hpc].
  - destruct (input s) as [|cmd' rest] eqn:Ein; [by destruct Hge|].
    set (sel := FromInput (Some cmd') true).
    assert (H2 : exists s2, pipe_step (Ready sel) s1 = Some s2 /\ input s2 = rest)
      by (cbn; rewrite Hpc, Hi1, decide_True by done; eexists; split; [reflexivity|done]).
    destruct H2 as (s2 & H2 & Hi2). destruct (type_room cmd s2) as [s3 H3];
      [rewrite Hi2; unfold len in *; cbn [length] in Hi; lia|].
    exists (es ++ [Ready sel]), s2, s3. split_and!; [|by rewrite forallb_app, Hq|rewrite length_app; cbn; lia|done].
    rewrite pipe_steps_app, H1. cbn [mbind option_bind pipe_steps]. by rewrite H2.
  - exists es, s1, s1. split_and!; [done|done|lia|]. cbn. by rewrite Hpc.
Qed.

Lemma stalled_step e s s' :
  awaits_target s = true -> target_takes e = false -> pipe_step e s = Some s' ->
  len (input s) <= INPUT_CAPACITY ->
  actor_pc s' = actor_pc s /\ input s' = input s ++ accepts e s /\ len (input s') <= INPUT_CAPACITY.
Proof.
  unfold awaits_target, accepts.
  destruct e as [cmd| | |sel|]; intros Hw Ht H Hl; try done; cbn [pipe_step] in H.
  - destruct (actor_pc s) eqn:Hpc; try done; case_decide; try done; injection H as <-; cbn;
      (split_and!; [done|done|]; rewrite len_app; unfold len at 2; cbn; lia).
  - destruct (actor_pc s) as [[]| |[|[] ]|]; done.
  - by destruct (actor_pc s).
  - rewrite app_nil_r. destruct (output s); [destruct (actor_pc s) eqn:E; try done|]; by injection H as <-.
Qed.

(** C23: a target that takes nothing blocks the session's input.  While the
    actor waits for the target - in [window_change], [write_all] or [flush] -
    and the target takes nothing, whatever else happens: the actor stays where it
    is, so it hears neither the target's output nor its end; the inputs accepted
    pile up in the channel, never more than 64 of them; and [send_input] waits
    exactly when 64 are there. *)
Theorem stalled_target_blocks es s s' :
  awaits_target s = true -> len (input s) <= INPUT_CAPACITY ->
  pipe_steps es s = Some s' -> existsb target_takes es = false ->
  actor_pc s' = actor_pc s /\ input s' = input s ++ accepted es s /\
  len (input s') <= INPUT_CAPACITY /\
  (forall cmd, pipe_step (Type_ cmd) s' = None <-> len (input s') = INPUT_CAPACITY).
Proof.
  revert s. induction es as [|e es IH]; intros s Hw Hl H Ht; cbn [pipe_steps accepted existsb] in *.
  - injection H as <-. rewrite app_nil_r. split_and!; [done|done|done|]. intros cmd.
    unfold awaits_target in Hw. cbn. destruct (actor_pc s); try done; case_decide; split; try done; lia.
  - apply orb_false_iff in Ht as [Hte Htes]. destruct (pipe_step e s) as [s1|] eqn:E; [|done].
    destruct (stalled_step e s s1 Hw Hte E Hl) as (Hpc & Hin & Hl1).
    destruct (IH s1) as (Hpc' & Hin' & Hrest); [by unfold awaits_target; rewrite Hpc|done..|].
    split_and!; [by rewrite Hpc'|by rewrite Hin', Hin, app_assoc|apply Hrest..].
Qed.

(** ** Witnesses *)

Module Witness.

Definition ls : SshInput := SshInput.Data [x6c; x73].
Definition listing : list byte := [x61; x0a].

(** A command is typed while the window is resized; the target answers, and ends. *)
Definition run : list PipeEvent :=
  [Type_ ls; Proceed; Type_ (SshInput.Resize 80 24); Ready (FromInput (Some ls) true);
   TargetTakes; TargetTakes; Proceed; Proceed; Ready (FromInput (Some (SshInput.Resize 80 24)) true);
   Proceed; TargetTakes; Ready (FromChannel (Some (ChannelMsg.Data listing)) true); Proceed;
   Type_ ls; Proceed; Proceed; Ready (FromChannel (Some ChannelMsg.Eof) true); Proceed;
   IngestTurn; IngestTurn].

Definition ended : Pipe :=
  mkPipe [ls] ActorDone [] (set_closed (append (new_inner 1024) listing)).

Lemma run_ends : pipe_steps run (pipe_new 1024) = Some ended.
Proof. vm_compute. reflexivity. Qed.

Lemma run_output : len (outputs_of (performed run (pipe_new 1024))) < 2 ^ 64.
Proof. vm_compute. reflexivity. Qed.

Lemma pipe_faithful_witness :
  accepted run (pipe_new 1024) = [ls; SshInput.Resize 80 24; ls] /\
  inputs_taken (selected run) ++ input ended = [ls; SshInput.Resize 80 24; ls].
Proof.
  split; [vm_compute; reflexivity|].
  destruct (pipe_faithful 1024 run ended ltac:(lia) run_ends run_output) as [<- _].
  vm_compute. reflexivity.
Defined.

(** The actor is writing, the input channel full, the output channel too. *)
Definition full : Pipe :=
  mkPipe (replicate 64 ls) (Performing [SendOutput listing] (Some None)) (replicate 256 listing)
    (new_inner 1024).

Lemma pipe_progress_witness :
  exists es s' s'', pipe_steps es full = Some s' /\ forallb (fun e => negb (typing e)) es = true /\
    (length es <= 5)%nat /\ pipe_step (Type_ ls) s' = Some s''.
Proof.
  apply (pipe_progress ls full).
  - vm_compute. discriminate.
  - vm_compute. discriminate.
Defined.

(** The target has stopped reading; 64 more inputs are typed. *)
Definition stalled : Pipe :=
  mkPipe [] (Performing [WriteAll [x6c; x73]; Flush] (Some None)) [listing] (new_inner 1024).

Definition waiting : Pipe :=
  mkPipe (replicate 64 ls) (actor_pc stalled) [] (append (new_inner 1024) listing).

Lemma stalled_target_blocks_witness : pipe_step (Type_ ls) waiting = None.
Proof.
  destruct (stalled_target_blocks (IngestTurn :: replicate 64 (Type_ ls)) stalled waiting) as (_ & _ & _ & H).
  - reflexivity.
  - vm_compute. discriminate.
  - vm_compute. reflexivity.
  - vm_compute. reflexivity.
  - apply H. vm_compute. reflexivity.
Defined.

End Witness.
