(* ===== verification/Negotiate.v ===== *)
(** * From [Hello] to a live session ([negotiate], [open_for_auth] and
    [ControlSigner] in [crates/gw-server/src/handler.rs])

    One client's negotiation acts on its control stream, the control plane,
    the session registry with the sessions' objects, and the network its
    target is reached over: the parts of [World].  [negotiate] is the source's
    function, effect by effect. *)

From S2P Require Import Prelude Utf8 Frame Codec WireFormat Framed Scrollback Registry Quota Link Ssh.

(** What [negotiate] produces. *)
Record Negotiated : Type := mkNegotiated {
  session : Session;
  entitlement : Entitlement;
  account_token : option (list byte);
}.

(** [Uuid]'s [Display] and [ClientFrame]'s [Debug]. *)
Class Renderings : Type := {
  uuid_to_string : SessionId -> string;
  frame_debug : ClientFrame -> string;
}.

(** The message of a refusal. *)
Definition version_mismatch (version : u16) : string :=
  "protocol version mismatch: client " +:+ fmt_int version +:+ ", server " +:+
  fmt_int PROTOCOL_VERSION.

Section Negotiate.
Context {PE : PostcardError} {QE : QuinnError} {RN : Renderings}.
Context {L : Type} {LK : Link L}.
Context {CP : Type} {G : Type} {EN : Entropy G} {N : Type} {RU : Russh N}.

Record World : Type := mkWorld {
  link : L;
  plane : CP;
  manager : SessionManager;
  heap : Heap;
  entropy : G;
  net : N;
}.

Definition set_link (l : L) (w : World) : World :=
  mkWorld l (plane w) (manager w) (heap w) (entropy w) (net w).
Definition set_plane (p : CP) (w : World) : World :=
  mkWorld (link w) p (manager w) (heap w) (entropy w) (net w).
Definition set_manager (m : SessionManager) (w : World) : World :=
  mkWorld (link w) (plane w) m (heap w) (entropy w) (net w).
Definition set_net (n : N) (w : World) : World :=
  mkWorld (link w) (plane w) (manager w) (heap w) (entropy w) n.

(** The calls on the parts. *)
Definition send_frame (f : ServerFrame) : Eff World (Result unit TransportError) :=
  on_part link set_link (fun l => link_send l f).
Definition recv_frame : Eff World (Result ClientFrame TransportError) :=
  on_part link set_link link_recv.
Definition on_plane {A} (f : Eff CP A) : Eff World A := on_part plane set_plane f.

(** [?] turns a [TransportError] into an [anyhow::Error]. *)
Definition any {A} (m : Eff World (Result A TransportError)) : Eff World (Result A Error) :=
  map_err (fun e => Msg (TransportError_display e)) <$> m.

(** ** Signatures from the client *)

(** [ControlSigner]: the world, and [next_id]. *)
Record Signing : Type := mkSigning { world : World; next_id : u64 }.

Definition on_world {A} : Eff World A -> Eff Signing A :=
  on_part world (fun w s => mkSigning w (next_id s)).

Definition signer_error (e : TransportError) : RemoteSignerError :=
  mkRemoteSignerError (TransportError_display e).

(** The loop of [ControlSigner::sign]: read until the matching response. *)
Fixpoint await_signature (fuel : nat) (id : u64)
    : Eff World (Result (list byte) RemoteSignerError) :=
  match fuel with
  | O => fun _ => None
  | S fuel =>
      (frame ←? (map_err signer_error <$> recv_frame);
       match frame with
       | ClientFrame.SignResponse rid signature =>
           if decide (rid = id) then mret (Ok signature) else await_signature fuel id
       | ClientFrame.Ping => await_signature fuel id
       | other =>
           mret (Err (mkRemoteSignerError
                        ("unexpected frame during signing: " +:+ frame_debug other)))
       end)%gw
  end.

(** [ControlSigner::sign]. *)
Definition sign (fuel : nat) : RemoteSigner Signing :=
  fun public_key_openssh _ to_sign =>
    id ← reads next_id;
    _ ← modifies (fun s => mkSigning (world s) (wrap 64 (id + 1)));
    on_world (_ ←? (map_err signer_error <$> send_frame
                      (ServerFrame.SignRequest id (as_bytes public_key_openssh) to_sign));
              await_signature fuel id)%gw.

(** ** Opening the target *)

(** A call with a fresh [ControlSigner]. *)
Definition with_signer {A} (m : Eff Signing A) : Eff World A := fun w =>
  match m (mkSigning w 1) with
  | Some (a, s) => Some (a, world s)
  | None => None
  end.

Definition signing_net (s : Signing) : N := net (world s).
Definition set_signing_net (n : N) (s : Signing) : Signing :=
  mkSigning (set_net n (world s)) (next_id s).

(** [open_for_auth]. *)
Definition open_for_auth (fuel : nat) (target : TargetSpec) (auth : AuthIntent) (cols rows : u16)
    : Eff World (Result SshSession Error) :=
  let ssh_target := mkSshTarget (Frame.host target) (Frame.port target) (Frame.user target) in
  match auth with
  | AuthIntent.Password secret =>
      on_part net set_net (open ssh_target (Auth.Password secret) cols rows)
  | AuthIntent.PrivateKey pem passphrase =>
      on_part net set_net (open ssh_target (Auth.PrivateKey pem passphrase) cols rows)
  | AuthIntent.DelegatedKey public_key =>
      match from_utf8 public_key with
      | None => mret (Err (Msg "delegated public key is not OpenSSH text"))
      | Some openssh =>
          with_signer (open_delegated signing_net set_signing_net ssh_target openssh
                         (sign fuel) cols rows)
      end
  | AuthIntent.GatewayKey _ => mret (Err (Msg "gateway-stored keys not yet implemented"))
  end.

(** ** Negotiation *)

(** An error frame, and [Ok(None)]. *)
Definition refuse {A} (message : string) : Eff World (Result (option A) Error) :=
  (_ ←? any (send_frame (ServerFrame.Error message)); mret (Ok None))%gw.

(** [manager.create(ssh.spawn())]. *)
Definition create_session (ssh : SshHandle) : Eff World Session := fun w =>
  let '(s, m, h, g) := create (manager w) (heap w) (entropy w) ssh in
  Some (s, mkWorld (link w) (plane w) m h g (net w)).

(** The session to attach to: resumed, or freshly opened; [None] when an error
    was reported. *)
Definition find_session (fuel : nat) (resume_token : option ResumeToken)
    : Eff World (Result (option (Session * bool)) Error) :=
  existing ← reads (fun w => token ← resume_token; resume (manager w) (resume_bytes token));
  match existing with
  | Some existing => mret (Ok (Some (existing, true)))
  | None =>
      (frame ←? any recv_frame;
       match frame with
       | ClientFrame.Open target auth cols rows =>
           opened ← open_for_auth fuel target auth cols rows;
           match opened with
           | Ok ssh => s ← create_session (spawn_actor ssh); mret (Ok (Some (s, false)))
           | Err error => refuse ("connect failed: " +:+ Error_display error)
           end
       | _ => refuse "expected Open"
       end)%gw
  end.

(** The new session is announced to the control plane, which may refuse it. *)
Definition announce (hook : AuthHook CP) (client_name : string)
    (account_token : option (list byte)) (s : Session) (resumed : bool)
    : Eff World (Result unit Denied) :=
  if resumed then mret (Ok tt)
  else on_plane (session_open hook account_token (uuid_to_string (id s)) client_name).

(** The end of [negotiate]: announce a new session, or withdraw it; welcome the
    client. *)
Definition welcome_client (hook : AuthHook CP) (client_name : string)
    (account_token : option (list byte)) (entitlement : Entitlement) (s : Session)
    (resumed : bool) : Eff World (Result (option Negotiated) Error) :=
  announced ← announce hook client_name account_token s resumed;
  match announced with
  | Err denied =>
      _ ← modifies (fun w => set_manager (remove (manager w) (id s)) w);
      refuse (Denied_display denied)
  | Ok _ =>
      (_ ←? any (send_frame (ServerFrame.Hello PROTOCOL_VERSION (id s) resumed
                               (mkResumeToken (Registry.resume_token s))));
       _ ←? any (send_frame (ServerFrame.Status SessionStatus.Live));
       mret (Ok (Some (mkNegotiated s entitlement account_token))))%gw
  end.

(** [negotiate]. *)
Definition negotiate (fuel : nat) (hook : AuthHook CP)
    : Eff World (Result (option Negotiated) Error) :=
  (hello ←? any recv_frame;
   match hello with
   | ClientFrame.Hello version client_name resume_token account_token =>
       if decide (version <> PROTOCOL_VERSION) then refuse (version_mismatch version)
       else
         authorized ← on_plane (authorize hook client_name account_token);
         match authorized with
         | Err denied => refuse (Denied_display denied)
         | Ok entitlement =>
             found ←? find_session fuel resume_token;
             match found with
             | None => mret (Ok None)
             | Some (s, resumed) =>
                 welcome_client hook client_name account_token entitlement s resumed
             end
         end
   | _ => refuse "expected Hello"
   end)%gw.

End Negotiate.

(** ** What each part of a negotiation can touch *)

Section Frame.
Context {PE : PostcardError} {QE : QuinnError} {RN : Renderings}.
Context {L : Type} {LK : Link L} {LL : LinkLaws L}.
Context {CP : Type} {G : Type} {EN : Entropy G} {N : Type} {RU : Russh N}.

#[local] Abbreviation World := (@World L CP G N).
#[local] Abbreviation Signing := (@Signing L CP G N).
Implicit Types (w : World) (s : Session) (frames : list ServerFrame).

(** The sessions: the registry, their objects, the draws of ids and tokens. *)
Definition same_sessions w w' : Prop :=
  manager w' = manager w /\ heap w' = heap w /\ entropy w' = entropy w.

(** [w'] is [w] after talking to the client and the target only. *)
Record talked w frames w' : Prop := {
  talked_sessions : same_sessions w w';
  talked_plane : plane w' = plane w;
  talked_sent : sent (link w') = sent (link w) ++ frames;
}.

Lemma talked_refl w : talked w [] w.
Proof. split; [by repeat split|done|by rewrite app_nil_r]. Qed.

Lemma talked_trans w1 w2 w3 f1 f2 : talked w1 f1 w2 -> talked w2 f2 w3 -> talked w1 (f1 ++ f2) w3.
Proof.
  intros [(M1 & H1 & E1) P1 S1] [(M2 & H2 & E2) P2 S2].
  split; [repeat split; congruence|congruence|]. by rewrite S2, S1, app_assoc.
Qed.

Lemma talked_net w n : talked w [] (set_net n w).
Proof. split; [by repeat split|done|by rewrite app_nil_r]. Qed.

Lemma send_frame_inv f w r w' :
  send_frame f w = Some (r, w') -> talked w (if is_ok r then [f] else []) w' /\ net w' = net w.
Proof.
  unfold send_frame, on_part. destruct (link_send (link w) f) as [[r0 l]|] eqn:E; [|done].
  intros [= <- <-]. split; [|done]. split; [by repeat split|done|]. cbn.
  destruct r0; cbn; [by eapply link_send_ok|]. rewrite app_nil_r. by eapply link_send_err.
Qed.

Lemma recv_frame_inv w r w' : recv_frame w = Some (r, w') -> talked w [] w' /\ net w' = net w.
Proof.
  unfold recv_frame, on_part. destruct (link_recv (link w)) as [[r0 l]|] eqn:E; [|done].
  intros [= <- <-]. split; [|done]. split; [by repeat split|done|]. cbn.
  rewrite app_nil_r. by eapply link_recv_sent.
Qed.

Lemma refuse_inv {A} msg w (r : Result (option A) Error) w' :
  refuse msg w = Some (r, w') ->
  (r = Ok None /\ talked w [ServerFrame.Error msg] w') \/ (exists e, r = Err e /\ talked w [] w').
Proof.
  unfold refuse. rewrite bind_ok_inv. unfold any. setoid_rewrite fmap_inv.
  intros [(u & w1 & ([|] & Hs & [= ->]) & [= <- <-])|(e & w1 & ([|] & Hs & [= ->]) & [= -> ->])];
    apply send_frame_inv in Hs as [Hs _]; eauto.
Qed.

(** ** Delegated signing *)

Definition is_sign_request (f : ServerFrame) : bool :=
  match f with ServerFrame.SignRequest _ _ _ => true | _ => false end.

Abbreviation signing frames := (Forall is_sign_request frames).

Lemma await_signature_talked fuel id : forall w r w',
  await_signature fuel id w = Some (r, w') -> talked w [] w'.
Proof.
  induction fuel as [|fuel IH]; intros w r w'; cbn [await_signature]; [done|].
  rewrite bind_ok_inv. setoid_rewrite fmap_inv.
  intros [(f & w1 & (a & Hr & _) & Hk)|(e & w1 & (a & Hr & _) & [= -> ->])];
    apply recv_frame_inv in Hr as [Hr _]; [|done].
  rewrite <-(app_nil_l []). eapply talked_trans; [exact Hr|].
  destruct f; try (injection Hk as <- <-; apply talked_refl); [|by eapply IH].
  case_decide; [injection Hk as <- <-; apply talked_refl|by eapply IH].
Qed.

Lemma sign_talked fuel key alg data (st : Signing) r st' :
  sign fuel key alg data st = Some (r, st') ->
  exists frames, signing frames /\ talked (world st) frames (world st').
Proof.
  unfold sign. rewrite bind_Some_inv. intros (i & ? & [= <- <-] & Hk).
  rewrite bind_Some_inv in Hk. destruct Hk as (? & ? & [= <- <-] & Hk).
  unfold on_world, on_part in Hk. cbn [world] in Hk.
  destruct (bind_ok _ _ _) as [[a w1]|] eqn:E; [|done]. injection Hk as <- <-.
  apply bind_ok_inv in E. setoid_rewrite fmap_inv in E.
  destruct E as [(u & w2 & ([|] & Hs & [= ->]) & Hw)|(e & w2 & ([|] & Hs & [= ->]) & [= -> ->])];
    apply send_frame_inv in Hs as [Hs _]; cbn [world] in *.
  - apply await_signature_talked in Hw. eexists. split; [|by eapply talked_trans].
    by repeat constructor.
  - by exists [].
Qed.

(** Whatever [russh] asks to be signed, only sign requests reach the client. *)
Lemma drive_talked {A} fuel (d : Dialog PublicKey N A) : forall (st : Signing) a st',
  drive set_signing_net (sign fuel) d st = Some (a, st') ->
  exists frames, signing frames /\ talked (world st) frames (world st').
Proof.
  induction d as [a n| |key alg data k IH]; intros st a' st'; cbn [drive].
  - intros [= <- <-]. exists []. split; [done|]. apply talked_net.
  - done.
  - rewrite bind_Some_inv. intros (r & st1 & Hs & Hk). apply IH in Hk as (f2 & Hf2 & Ht2).
    unfold auth_publickey_sign in Hs. apply bind_ok_inv in Hs.
    destruct Hs as [(o & ? & [= _ <-] & Hs)|(e & ? & [= _ <-] & [= -> ->])]; [|eauto].
    apply bind_ok_inv in Hs. setoid_rewrite fmap_inv in Hs.
    assert (Hst1 : exists r0, sign fuel o (hash_alg_name <$> alg) data st = Some (r0, st1)).
    { destruct Hs as [(x & ? & (r0 & Hr0 & _) & [= <- <-])|(x & ? & (r0 & Hr0 & _) & [= -> ->])]; eauto. }
    destruct Hst1 as [r0 (f1 & Hf1 & Ht1)%sign_talked].
    exists (f1 ++ f2). split; [by apply Forall_app|by eapply talked_trans].
Qed.

Lemma on_signing_net {A} (m : Eff N A) (st : Signing) r st' :
  on_part signing_net set_signing_net m st = Some (r, st') -> talked (world st) [] (world st').
Proof.
  unfold on_part. destruct (m _) as [[a n]|]; [|done]. intros [= _ <-]. apply talked_net.
Qed.

Lemma open_delegated_talked fuel target key cols rows (st : Signing) r st' :
  open_delegated signing_net set_signing_net target key (sign fuel) cols rows st = Some (r, st') ->
  exists frames, signing frames /\ talked (world st) frames (world st').
Proof.
  unfold open_delegated. intros H. apply bind_ok_inv in H.
  destruct H as [([h fp] & st1 & Hc%on_signing_net & H)|(e & st1 & Hc%on_signing_net & [= -> ->])];
    [|by exists []].
  apply bind_ok_inv in H as [(k & st2 & [= _ <-] & H)|(e & st2 & [= _ <-] & [= -> ->])]; [|by exists []].
  apply bind_ok_inv in H. setoid_rewrite fmap_inv in H.
  assert (Hd : exists frames st2, signing frames /\ talked (world st1) frames (world st2) /\
    (st2 = st' \/ talked (world st2) [] (world st'))).
  { destruct H as [(ok & st2 & (a & (f & Hf & Ht)%drive_talked & _) & H)|
                   (e & st2 & (a & (f & Hf & Ht)%drive_talked & _) & [= -> ->])]; exists f, st2;
      split_and!; try done; [|by left].
    destruct ok; [right; by eapply on_signing_net|injection H as <- <-; by left]. }
  destruct Hd as (f & st2 & Hf & Ht & Hend). exists f. split; [done|].
  pose proof (talked_trans _ _ _ _ _ Hc Ht) as Ht'. destruct Hend as [->|He]; [done|].
  rewrite <-(app_nil_r f). by eapply talked_trans.
Qed.

Lemma on_net_talked {A} (m : Eff N A) w r w' : on_part net set_net m w = Some (r, w') -> talked w [] w'.
Proof. unfold on_part. destruct (m _) as [[a n]|]; [|done]. intros [= _ <-]. apply talked_net. Qed.

(** Opening the target only shows the client sign requests, and leaves the
    sessions and the control plane alone. *)
Lemma open_for_auth_talked fuel target auth cols rows w r w' :
  open_for_auth fuel target auth cols rows w = Some (r, w') ->
  exists frames, signing frames /\ talked w frames w'.
Proof.
  unfold open_for_auth. destruct auth as [key|secret|pem pass|key_id].
  - destruct (from_utf8 key) as [openssh|]; [|intros [= _ <-]; exists []; split; [done|apply talked_refl]].
    unfold with_signer. destruct (open_delegated _ _ _ _ _ _ _ _) as [[a st]|] eqn:E; [|done].
    intros [= _ <-]. by apply open_delegated_talked in E.
  - intros H%on_net_talked. by exists [].
  - intros H%on_net_talked. by exists [].
  - intros [= _ <-]. exists []. split; [done|apply talked_refl].
Qed.

(** ** The contract of a negotiation *)

(** A session made from [w], leading to the sessions of [w']. *)
Definition created w s w' : Prop :=
  exists ssh, create (manager w) (heap w) (entropy w) ssh = (s, manager w', heap w', entropy w').

(** The last word to the client: both frames, the first only, or neither. *)
Definition welcome s (resumed : bool) : list ServerFrame :=
  [ServerFrame.Hello PROTOCOL_VERSION (id s) resumed (mkResumeToken (Registry.resume_token s));
   ServerFrame.Status SessionStatus.Live].

(** The resume token in the first frame, and the session it names. *)
Definition presented_token w : option (list byte) :=
  match link_recv (link w) with
  | Some (Ok (ClientFrame.Hello _ _ resume_token _), _) => resume_bytes <$> resume_token
  | _ => None
  end.

Definition named w : option Session := presented_token w ≫= resume (manager w).

(** The send of the [n]th frame of the greeting failed: that was the end. *)
Definition greeting_cut w frames s (resumed : bool) (n : nat) (e : Error) w' : Prop :=
  exists f l t, welcome s resumed !! n = Some f /\
    sent l = sent (link w) ++ frames ++ take n (welcome s resumed) /\
    link_send l f = Some (Err t, link w') /\ e = Msg (TransportError_display t).

(** How a negotiation can end: its result, the frames the client was sent, and
    the sessions afterwards. *)
Inductive outcome w w' : Result (option Negotiated) Error -> list ServerFrame -> Prop :=
  | Refused frames msg :
      signing frames -> same_sessions w w' ->
      outcome w w' (Ok None) (frames ++ [ServerFrame.Error msg])
  | Broken frames e :
      signing frames -> same_sessions w w' -> outcome w w' (Err e) frames
  | Resumed s e tok :
      named w = Some s -> same_sessions w w' ->
      outcome w w' (Ok (Some (mkNegotiated s e tok))) (welcome s true)
  | BrokenResuming s n e :
      named w = Some s -> same_sessions w w' -> greeting_cut w [] s true n e w' ->
      outcome w w' (Err e) (take n (welcome s true))
  | Opened frames s e tok :
      named w = None -> signing frames -> created w s w' ->
      outcome w w' (Ok (Some (mkNegotiated s e tok))) (frames ++ welcome s false)
  | Orphaned frames s n e :
      named w = None -> signing frames -> created w s w' -> greeting_cut w frames s false n e w' ->
      outcome w w' (Err e) (frames ++ take n (welcome s false))
  | Withdrawn frames s w1 r msg :
      signing frames -> created w s w1 -> manager w' = remove (manager w1) (id s) ->
      (r = Ok None /\ msg <> None \/ (exists e, r = Err e) /\ msg = None) ->
      outcome w w' r (frames ++ match msg with Some m => [ServerFrame.Error m] | None => [] end).

(** Sending one more frame with [?]. *)
Lemma any_send_inv {A} f (k : unit -> Eff World (Result A Error)) w r w' :
  bind_ok (any (send_frame f)) k w = Some (r, w') ->
  (exists w1, talked w [f] w1 /\ k tt w1 = Some (r, w')) \/
  (exists t, r = Err (Msg (TransportError_display t)) /\ talked w [] w' /\
     link_send (link w) f = Some (Err t, link w')).
Proof.
  unfold any. rewrite bind_ok_inv. setoid_rewrite fmap_inv.
  intros [([] & w1 & ([|] & Hs & [= ->]) & Hk)|(e & w1 & ([u|t] & Hs & He) & [= -> ->])]; [| |].
  - apply send_frame_inv in Hs as [Hs _]; eauto.
  - done.
  - injection He as ->. right. exists t. pose proof (send_frame_inv _ _ _ _ Hs) as [Ht _].
    split_and!; [done|done|]. unfold send_frame, on_part in Hs.
    destruct (link_send (link w) f) as [[r l]|]; [|done]. by injection Hs as -> <-.
Qed.

Lemma any_recv_inv {A} (k : ClientFrame -> Eff World (Result A Error)) w r w' :
  bind_ok (any recv_frame) k w = Some (r, w') ->
  (exists f w1, link_recv (link w) = Some (Ok f, link w1) /\ talked w [] w1 /\ k f w1 = Some (r, w')) \/
  (exists e, r = Err e /\ talked w [] w').
Proof.
  unfold any. rewrite bind_ok_inv. setoid_rewrite fmap_inv.
  intros [(f & w1 & ([a|a] & Hs & Hf) & Hk)|(e & w1 & (a & Hs & _) & [= -> ->])]; [|done|];
    pose proof (recv_frame_inv _ _ _ Hs) as [Ht _]; [|eauto].
  left. exists f, w1. injection Hf as ->. split_and!; [|done|done]. unfold recv_frame, on_part in Hs.
  destruct (link_recv (link w)) as [[r0 l]|]; [|done]. by injection Hs as -> <-.
Qed.

Lemma welcome_inv {A} s resumed (x : A) w r w' :
  bind_ok (any (send_frame (ServerFrame.Hello PROTOCOL_VERSION (id s) resumed
                              (mkResumeToken (Registry.resume_token s)))))
    (fun _ => bind_ok (any (send_frame (ServerFrame.Status SessionStatus.Live)))
                (fun _ => mret (Ok x))) w = Some (r, w') ->
  (r = Ok x /\ talked w (welcome s resumed) w') \/
  (exists n e, r = Err e /\ talked w (take n (welcome s resumed)) w' /\ greeting_cut w [] s resumed n e w').
Proof.
  intros [(w1 & H1 & H)|(t & -> & Ht & Hl)]%any_send_inv.
  2: { right. exists 0%nat. eexists. split_and!; [done|done|]. eexists _, _, t. split_and!; [done| |done|done].
       by rewrite app_nil_r. }
  apply any_send_inv in H as [(w2 & H2 & [= <- <-])|(t & -> & Ht & Hl)].
  - left. split; [done|]. exact (talked_trans _ _ _ _ _ H1 H2).
  - right. exists 1%nat. eexists. split_and!; [done|exact (talked_trans _ _ _ _ _ H1 Ht)|].
    eexists _, _, t. split_and!; [done|apply H1|done|done].
Qed.

(** A session opened for this client: [w'] is [w] but for the conversation and
    the new session. *)
Record opened_for w frames s w' : Prop := {
  opened_created : created w s w';
  opened_plane : plane w' = plane w;
  opened_sent : sent (link w') = sent (link w) ++ frames;
}.

Lemma find_session_inv fuel tok w r w' :
  find_session fuel tok w = Some (r, w') ->
  (exists s t, tok = Some t /\ resume (manager w) (resume_bytes t) = Some s /\
     r = Ok (Some (s, true)) /\ w' = w) \/
  (tok ≫= fun t => resume (manager w) (resume_bytes t)) = None /\
  exists frames, signing frames /\
    ((exists s, r = Ok (Some (s, false)) /\ opened_for w frames s w') \/
     (exists msg, r = Ok None /\ talked w (frames ++ [ServerFrame.Error msg]) w') \/
     (exists e, r = Err e /\ talked w frames w')).
Proof.
  unfold find_session. rewrite bind_Some_inv. intros (ex & ? & [= <- <-] & H).
  destruct (tok ≫= _) as [s|] eqn:Et.
  { apply bind_Some in Et as (t & -> & Hs). injection H as <- <-. left. by exists s, t. }
  right. split; [done|]. apply any_recv_inv in H as [(f & w1 & _ & H1 & H)|(e & -> & Ht)];
    [|exists []; split; [done|eauto]].
  assert (Hrefuse : forall msg w1, talked w [] w1 -> refuse msg w1 = Some (r, w') ->
    exists frames, signing frames /\
    ((exists s, r = Ok (Some (s, false)) /\ opened_for w frames s w') \/
     (exists msg, r = Ok None /\ talked w (frames ++ [ServerFrame.Error msg]) w') \/
     (exists e, r = Err e /\ talked w frames w'))).
  { intros msg w2 H2 [(-> & Ht)|(e & -> & Ht)]%refuse_inv;
      pose proof (talked_trans _ _ _ _ _ H2 Ht); exists []; split; eauto. }
  destruct f; try (by eapply Hrefuse).
  rewrite bind_Some_inv in H. destruct H as ([ssh|error] & w2 & Ho & H);
    apply open_for_auth_talked in Ho as (frames & Hf & Ho);
    pose proof (talked_trans _ _ _ _ _ H1 Ho) as Hw2; cbn [app] in Hw2; exists frames; (split; [done|]).
  - rewrite bind_Some_inv in H. destruct H as (s & w3 & Hc & [= <- <-]). left. exists s.
    split; [done|]. unfold create_session in Hc. destruct Hw2 as [(Hm & Hh & He) Hp Hs].
    destruct (create _ _ _ _) as [[[s0 m] h] g] eqn:E. injection Hc as <- <-.
    rewrite Hm, Hh, He in E. split; [by eexists|done|done].
  - right. apply refuse_inv in H as [(-> & Ht)|(e & -> & Ht)];
      pose proof (talked_trans _ _ _ _ _ Hw2 Ht) as Ht'; [left|right]; eauto.
    rewrite app_nil_r in Ht'. eauto.
Qed.

Lemma on_plane_inv {A} (f : Eff CP A) w r w' :
  on_plane f w = Some (r, w') ->
  same_sessions w w' /\ link w' = link w /\ f (plane w) = Some (r, plane w').
Proof.
  unfold on_plane, on_part. destruct (f (plane w)) as [[a p]|] eqn:E; [|done]. intros [= <- <-].
  by repeat split.
Qed.

Lemma announce_inv hook name tok s resumed w r w' :
  announce hook name tok s resumed w = Some (r, w') ->
  same_sessions w w' /\ link w' = link w /\ (resumed = true -> r = Ok tt).
Proof.
  unfold announce. destruct resumed.
  - intros [= <- <-]. by repeat split.
  - intros (? & ? & _)%on_plane_inv. done.
Qed.

Lemma same_sessions_trans w1 w2 w3 : same_sessions w1 w2 -> same_sessions w2 w3 -> same_sessions w1 w3.
Proof. intros (?&?&?) (?&?&?). repeat split; congruence. Qed.

Lemma created_moved w1 w2 w3 w4 s :
  same_sessions w1 w2 -> created w2 s w3 -> same_sessions w3 w4 -> created w1 s w4.
Proof.
  intros (Hm & Hh & He) [ssh Hc] (Hm' & Hh' & He'). exists ssh.
  rewrite Hm, Hh, He in Hc. by rewrite Hm', Hh', He'.
Qed.

Lemma greeting_cut_from w0 frames w s resumed n e w' :
  sent (link w) = sent (link w0) ++ frames -> greeting_cut w [] s resumed n e w' ->
  greeting_cut w0 frames s resumed n e w'.
Proof.
  intros Hs (f & l & t & Hf & Hl & Hsend & He). exists f, l, t. split_and!; [done| |done..].
  by rewrite Hl, Hs, <-app_assoc.
Qed.

(** The part of [negotiate] that follows a session being found. *)
Lemma welcome_outcome hook name tok ent s (resumed : bool) w0 frames w w' r :
  signing frames -> sent (link w) = sent (link w0) ++ frames ->
  (if resumed then frames = [] /\ same_sessions w0 w /\ named w0 = Some s
   else named w0 = None /\ created w0 s w) ->
  welcome_client hook name tok ent s resumed w = Some (r, w') ->
  exists frames', sent (link w') = sent (link w0) ++ frames' /\ outcome w0 w' r frames'.
Proof.
  intros Hf Hsent Hs H. unfold welcome_client in H. rewrite bind_Some_inv in H. destruct H as (a & w1 & Ha & H).
  apply announce_inv in Ha as (Hs1 & Hl1 & Hres). rewrite <-Hl1 in Hsent. destruct a as [[]|denied].
  - apply welcome_inv in H as [(-> & [Hs2 _ Hw])|(n & e & -> & [Hs2 _ Hw] & Hcut)];
      [|apply (greeting_cut_from w0 frames) in Hcut; [|done]];
      rewrite Hsent, <-app_assoc in Hw; eexists; (split; [exact Hw|]);
      pose proof (same_sessions_trans _ _ _ Hs1 Hs2) as Hs12; destruct resumed.
    + destruct Hs as (-> & Hs0 & Ht). apply Resumed; [done|]. by eapply same_sessions_trans.
    + destruct Hs as [Hn Hc]. apply Opened; [done..|]. by eapply (created_moved w0 w0).
    + destruct Hs as (-> & Hs0 & Ht). apply BrokenResuming; [done| |done]. by eapply same_sessions_trans.
    + destruct Hs as [Hn Hc]. apply Orphaned; [done..| |done]. by eapply (created_moved w0 w0).
  - destruct resumed; [by specialize (Hres eq_refl)|]. destruct Hs as [_ Hs].
    rewrite bind_Some_inv in H. destruct H as ([] & w2 & [= <-] & H).
    assert (Hc : created w0 s w1) by (by eapply (created_moved w0 w0)).
    apply refuse_inv in H as [(-> & [(Hm & _ & _) _ Hw])|(e & -> & [(Hm & _ & _) _ Hw])];
      cbn [link set_manager] in Hw; rewrite Hsent, <-app_assoc in Hw;
      eexists; (split; [exact Hw|]).
    + apply (Withdrawn _ _ frames s w1 _ (Some (Denied_display denied))); auto.
    + apply (Withdrawn _ _ frames s w1 _ None); eauto.
Qed.

Lemma negotiate_outcome fuel hook w r w' :
  negotiate fuel hook w = Some (r, w') ->
  exists frames, sent (link w') = sent (link w) ++ frames /\ outcome w w' r frames.
Proof.
  unfold negotiate. intros H. apply any_recv_inv in H as [(f & w1 & Hf1 & Hw1 & H)|(e & -> & [Hs _ Hw])].
  2: { exists []. split; [done|]. by apply Broken. }
  assert (Hrefuse : forall msg w2, same_sessions w w2 -> link w2 = link w1 ->
    refuse msg w2 = Some (r, w') ->
    exists frames, sent (link w') = sent (link w) ++ frames /\ outcome w w' r frames).
  { destruct Hw1 as [_ _ Hw]. rewrite app_nil_r in Hw.
    intros msg w2 H2 Hl [(-> & [Hs _ Ht])|(e & -> & [Hs _ Ht])]%refuse_inv; rewrite Hl, Hw in Ht;
      pose proof (same_sessions_trans _ _ _ H2 Hs) as Hs'; eexists; (split; [exact Ht|]).
    - by apply (Refused _ _ []).
    - by apply Broken. }
  destruct Hw1 as [Hs1 _ Hl1]. rewrite app_nil_r in Hl1.
  destruct f as [version name tok acct| | | | | |]; try (by eapply Hrefuse).
  case_decide; [by eapply Hrefuse|].
  assert (Hnamed : named w = tok ≫= fun t => resume (manager w) (resume_bytes t))
    by (unfold named, presented_token; rewrite Hf1; by destruct tok).
  rewrite bind_Some_inv in H. destruct H as (a & w2 & (Hs2 & Hl2 & _)%on_plane_inv & H).
  pose proof (same_sessions_trans _ _ _ Hs1 Hs2) as Hs12. rewrite <-Hl2 in Hl1.
  destruct a as [ent|denied]; [|by eapply Hrefuse]. clear Hrefuse.
  pose proof Hs12 as (Hm & _ & _). rewrite <-Hm in Hnamed.
  rewrite bind_ok_inv in H. destruct H as [(found & w3 & Hfind & H)|(e & w3 & Hfind & [= -> ->])];
    apply find_session_inv in Hfind as
      [(s & t & -> & Ht & [= ->] & ->)|(Hno & fr & Hf & [(s & [= ->] & Ho)|[(msg & [= ->] & Ht)|(e' & [= ->] & Ht)]])].
  - eapply (welcome_outcome _ _ _ _ _ true w []); [done|by rewrite app_nil_r| |exact H].
    split_and!; [done|done|by rewrite Hnamed].
  - destruct Ho as [Hc _ Hsent]. rewrite Hl1 in Hsent.
    eapply (welcome_outcome _ _ _ _ _ false w fr); [done|done| |exact H]. split; [by rewrite Hnamed|].
    eapply created_moved; [exact Hs12|exact Hc|by repeat split].
  - injection H as <- <-. destruct Ht as [Hs3 _ Hsent]. rewrite Hl1 in Hsent. eexists.
    split; [exact Hsent|]. apply Refused; [done|]. by eapply same_sessions_trans.
  - destruct Ht as [Hs3 _ Hsent]. rewrite Hl1 in Hsent. eexists.
    split; [exact Hsent|]. apply Broken; [done|]. by eapply same_sessions_trans.
Qed.

(** C17: what the client is told.  A negotiation that succeeds ends with exactly
    the greeting, which carries the session's id and token, and the [Live]
    status; one that the gateway refuses ends with exactly one error frame;
    one cut short by the connection has sent at most the greeting.  Before
    that the client sees nothing but sign requests. *)
Theorem negotiation_dialogue fuel hook w r w' :
  negotiate fuel hook w = Some (r, w') ->
  exists signs tail, signing signs /\ sent (link w') = sent (link w) ++ signs ++ tail /\
    match r with
    | Ok (Some n) => exists resumed, tail = welcome (session n) resumed
    | Ok None => exists msg, tail = [ServerFrame.Error msg]
    | Err _ => tail = [] \/ exists s resumed, tail = take 1 (welcome s resumed)
    end.
Proof.
  intros (frames & Hs & Ho)%negotiate_outcome. rewrite Hs. clear Hs.
  assert (Hcut : forall w frames s resumed n e, greeting_cut w frames s resumed n e w' -> (n < 2)%nat).
  { intros w1 frames1 s resumed n e (f & _ & _ & Hf & _). by apply lookup_lt_Some in Hf. }
  destruct Ho as [fr msg Hf|fr e Hf|s e tok Hr|s n e Hr _ Hn%Hcut|fr s e tok _ Hf Hc|fr s n e _ Hf Hc Hn%Hcut|
                  fr s w1 r msg Hf Hc Hm Hr].
  - exists fr, [ServerFrame.Error msg]. eauto.
  - exists fr, []. rewrite app_nil_r. eauto.
  - exists [], (welcome s true). cbn. eauto.
  - exists [], (take n (welcome s true)). split_and!; [done..|].
    destruct n as [|[|]]; [by left|right; eauto|lia].
  - exists fr, (welcome s false). cbn. eauto.
  - exists fr, (take n (welcome s false)). split_and!; [done..|].
    destruct n as [|[|]]; [by left|right; eauto|lia].
  - eexists fr, _. split_and!; [done..|]. destruct msg as [msg|].
    + destruct Hr as [[-> _]|[_ [=]]]. eauto.
    + destruct Hr as [[_ Hne]|[[e ->] _]]; [by destruct Hne|by left].
Qed.

(** Ids and tokens drawn next are those of no live session. *)
Definition next_draw_fresh w (live : list Session) : Prop :=
  let '(i, g) := new_session_id (entropy w) in
  let '(t, _) := new_resume_token g in
  (i ∉ id <$> live) /\ t ∉ Registry.resume_token <$> live.

Lemma created_holds w s w1 live :
  holds (manager w) live -> next_draw_fresh w live -> created w s w1 ->
  holds (manager w1) (s :: live) /\ id s ∉ id <$> live.
Proof.
  intros Hl Hf [ssh Hc]. unfold next_draw_fresh in Hf. assert (Hids : (id s ∉ id <$> live) /\
    Registry.resume_token s ∉ Registry.resume_token <$> live).
  { unfold create, spawn in Hc. destruct (new_session_id (entropy w)) as [i g1],
      (new_resume_token g1) as [t g2]. injection Hc as <- _ _ _. exact Hf. }
  split; [|apply Hids]. eapply create_holds; [done|exact Hc|apply Hids..].
Qed.

Lemma spec_without_fresh s live : id s ∉ id <$> live -> Spec.without (s :: live) (id s) = live.
Proof.
  intros Hs. unfold Spec.without. rewrite filter_cons_False by auto.
  induction live as [|x live IH]; [done|].
  rewrite fmap_cons, not_elem_of_cons in Hs. rewrite filter_cons_True by (destruct Hs; congruence).
  f_equal. apply IH, Hs.
Qed.

(** C9: negotiation and the registry.  A client that is let in is given the
    session that the resume token of its first frame names, if it names one,
    with the registry as it was; and otherwise a new session, which the registry
    then holds besides the others.  A refused client leaves the registry as it
    was, the session it had opened withdrawn if the control plane was what
    refused.  When the connection breaks, the registry is as it was as well,
    unless it broke on a frame of the greeting for a new session: that session
    then stays behind, though nobody was given it. *)
Theorem negotiation_sessions fuel hook w r w' live :
  negotiate fuel hook w = Some (r, w') -> holds (manager w) live -> next_draw_fresh w live ->
  let asked := presented_token w ≫= Spec.bearer live in
  match r with
  | Ok (Some n) =>
      match asked with
      | Some s => session n = s /\ holds (manager w') live
      | None => (session n ∉ live) /\ holds (manager w') (session n :: live)
      end
  | Ok None => holds (manager w') live
  | Err e =>
      holds (manager w') live \/
      exists s signs k, asked = None /\ (s ∉ live) /\ holds (manager w') (s :: live) /\
        signing signs /\ greeting_cut w signs s false k e w'
  end.
Proof.
  intros (frames & _ & Ho)%negotiate_outcome Hl Hf asked.
  assert (Hasked : named w = asked).
  { unfold named, asked. destruct (presented_token w); [|done]. cbn. by apply resume_holds. }
  assert (Hsame : same_sessions w w' -> holds (manager w') live) by (by intros [-> _]).
  assert (Hnew : forall s, created w s w' -> (s ∉ live) /\ holds (manager w') (s :: live)).
  { intros s Hc. destruct (created_holds _ _ _ _ Hl Hf Hc) as [Hh Hi]. split; [|done].
    intros Hin. apply Hi. by apply list_elem_of_fmap_2. }
  destruct Ho as [fr msg _ Hs|fr e _ Hs|s e tok Hn Hs|s n e _ Hs _|fr s e tok Hn _ Hc|fr s n e Hn Hsg Hc Hcut|
                  fr s w1 r msg _ Hc Hm Hr]; auto.
  - rewrite <-Hasked, Hn. auto.
  - rewrite <-Hasked, Hn. by apply Hnew.
  - right. exists s, fr, n. destruct (Hnew s Hc). rewrite <-Hasked. by split_and!.
  - destruct (created_holds _ _ _ _ Hl Hf Hc) as [Hh Hi].
    apply (remove_holds _ _) with (i := id s) in Hh. rewrite spec_without_fresh in Hh by done.
    rewrite <-Hm in Hh. destruct Hr as [[-> _]|[[e ->] _]]; auto.
Qed.

(** Why a first frame is turned away, and the control plane's state then. *)
Definition rejection (hook : AuthHook CP) w (f : ClientFrame) : option (string * CP) :=
  match f with
  | ClientFrame.Hello version client_name _ account_token =>
      if decide (version <> PROTOCOL_VERSION) then Some (version_mismatch version, plane w)
      else
        match authorize hook client_name account_token (plane w) with
        | Some (Err denied, p) => Some (Denied_display denied, p)
        | Some (Ok _, _) | None => None
        end
  | _ => Some ("expected Hello"%string, plane w)
  end.

(** C11: nothing happens for a client that was not let in.  When the first frame
    is not a [Hello], speaks another version or is denied by the control
    plane, negotiation ends there: the client is sent that one error, no frame
    more is read, no target is contacted, no session is looked up, resumed or
    created, and nothing else reaches the control plane. *)
Theorem authorization_gate fuel hook w f l1 msg p :
  link_recv (link w) = Some (Ok f, l1) -> rejection hook w f = Some (msg, p) ->
  negotiate fuel hook w =
    '(sent, l2) ← link_send l1 (ServerFrame.Error msg);
    Some (match sent with
          | Ok _ => Ok None
          | Err e => Err (Msg (TransportError_display e))
          end, set_link l2 (set_plane p w)).
Proof.
  intros Hr Hrej. assert (Href : forall w2, link w2 = l1 ->
    refuse (A:=Negotiated) msg w2 =
    '(sent, l2) ← link_send l1 (ServerFrame.Error msg);
    Some (match sent with Ok _ => Ok None | Err e => Err (Msg (TransportError_display e)) end,
          set_link l2 w2)).
  { intros w2 <-. unfold refuse, any, bind_ok, mbind, eff_bind, fmap, eff_fmap, mbind, eff_bind.
    unfold send_frame, on_part. by destruct (link_send (link w2) _) as [[[]]|]. }
  assert (Hrecv : any recv_frame w = Some (Ok f, set_link l1 w)).
  { unfold any, fmap, eff_fmap, mbind, eff_bind, recv_frame, on_part. by rewrite Hr. }
  unfold negotiate, bind_ok at 1. unfold mbind at 1, eff_bind at 1. rewrite Hrecv.
  destruct f as [version name tok acct| | | | | |]; cbn [rejection] in Hrej;
    try (injection Hrej as <- <-; rewrite Href by done; by destruct (link_send _ _) as [[]|], w).
  case_decide; [injection Hrej as <- <-; rewrite Href by done; by destruct (link_send _ _) as [[]|], w|].
  unfold mbind at 1, eff_bind at 1. unfold on_plane, on_part. cbn [plane set_link].
  destruct (authorize hook name acct (plane w)) as [[[ent|denied] p0]|] eqn:Ea; [done| |done].
  injection Hrej as <- <-. rewrite Href by done. by destruct (link_send _ _) as [[]|], w.
Qed.

(** What the signer passes over while it waits for response [i]. *)
Definition skipped (i : u64) (f : ClientFrame) : Prop :=
  match f with
  | ClientFrame.Ping => True
  | ClientFrame.SignResponse rid _ => rid <> i
  | _ => False
  end.

Lemma await_signature_ok i sig fuel : forall w w',
  await_signature fuel i w = Some (Ok sig, w') ->
  exists noise l', Forall (skipped i) noise /\ w' = set_link l' w /\
    receives (link w) (noise ++ [ClientFrame.SignResponse i sig]) l'.
Proof.
  induction fuel as [|fuel IH]; intros w w'; cbn [await_signature]; [done|].
  rewrite bind_ok_inv. setoid_rewrite fmap_inv.
  intros [(f & w1 & (a & Hr & Hf) & Hk)|(? & ? & _ & [=])].
  unfold recv_frame, on_part in Hr. destruct (link_recv (link w)) as [[r0 l1]|] eqn:E; [|done].
  injection Hr as <- <-. destruct r0 as [f0|]; [|done]. injection Hf as ->.
  assert (Hskip : skipped i f0 -> await_signature fuel i (set_link l1 w) = Some (Ok sig, w') ->
    exists noise l', Forall (skipped i) noise /\ w' = set_link l' w /\
      receives (link w) (noise ++ [ClientFrame.SignResponse i sig]) l').
  { intros Hs (noise & l' & Hn & -> & Hrec)%IH. exists (f0 :: noise), l'. split_and!.
    - by constructor.
    - done.
    - by eapply receives_cons. }
  destruct f0; try done; [|by apply Hskip].
  case_decide as Hid; [|by apply Hskip]. injection Hk as -> <-. subst.
  exists [], l1. split_and!; [done..|]. eapply receives_cons; [done|constructor].
Qed.

Lemma await_signature_enough i sig noise : forall w l' fuel,
  Forall (skipped i) noise -> receives (link w) (noise ++ [ClientFrame.SignResponse i sig]) l' ->
  (length noise < fuel)%nat -> await_signature fuel i w = Some (Ok sig, set_link l' w).
Proof.
  induction noise as [|f noise IH]; intros w l' fuel Hn Hrec Hf;
    (destruct fuel as [|fuel]; [cbn in Hf; lia|]); inversion Hrec as [|? ? l1 ? ? Hr Hrec' E1 E2]; subst;
    cbn [await_signature]; unfold bind_ok, mbind at 1, eff_bind at 1, fmap, eff_fmap, mbind, eff_bind;
    unfold recv_frame, on_part; rewrite Hr; cbn.
  - inversion Hrec'; subst. by rewrite decide_True.
  - apply Forall_cons in Hn as [Hs Hn].
    assert (Hgo : await_signature fuel i (set_link l1 w) = Some (Ok sig, set_link l' w)).
    { rewrite (IH (set_link l1 w) l'); [done|done|exact Hrec'|cbn in Hf; lia]. }
    destruct f; try done. by rewrite decide_False.
Qed.

(** C10: every signature answers its own request.  [sign] sends exactly one
    request, under its next id, and returns a signature
    exactly when the client goes on to send that signature under that id,
    preceded by nothing but keep-alives and answers to other ids; it then
    reads no further. *)
Theorem signature_answers_request key alg data (st st' : Signing) sig :
  let i := next_id st in
  (exists fuel, sign fuel key alg data st = Some (Ok sig, st')) <->
  exists l1 noise l', 
    link_send (link (world st)) (ServerFrame.SignRequest i (as_bytes key) data) = Some (Ok tt, l1) /\
    Forall (skipped i) noise /\ receives l1 (noise ++ [ClientFrame.SignResponse i sig]) l' /\
    st' = mkSigning (set_link l' (world st)) (wrap 64 (i + 1)).
Proof.
  intros i. unfold sign, on_world, on_part. setoid_rewrite bind_Some_inv. split.
  - intros (fuel & ? & ? & [= <- <-] & H). rewrite bind_Some_inv in H.
    destruct H as (? & ? & [= <- <-] & H). cbn [world] in H.
    destruct (bind_ok _ _ _) as [[a w1]|] eqn:E; [|done]. injection H as -> <-.
    apply bind_ok_inv in E as [(u & w2 & Hs & Hw)|(? & ? & _ & [=])].
    apply fmap_inv in Hs as (r0 & Hs & Hr0). unfold send_frame, on_part in Hs.
    destruct (link_send _ _) as [[r1 l1]|] eqn:El; [|done]. injection Hs as <- <-.
    destruct r1 as [[]|]; [|done]. apply await_signature_ok in Hw as (noise & l' & Hn & -> & Hrec).
    exists l1, noise, l'. by destruct (world st).
  - intros (l1 & noise & l' & Hl & Hn & Hrec & ->). exists (S (length noise)).
    exists i, st. split; [done|]. rewrite bind_Some_inv. eexists _, _. split; [done|].
    cbn [world next_id]. unfold bind_ok, mbind at 1, eff_bind at 1, fmap, eff_fmap, mbind, eff_bind.
    unfold send_frame, on_part, mret, eff_ret. cbn [link world]. rewrite Hl. cbn [map_err].
    rewrite (await_signature_enough i sig noise _ l') by (done || cbn; lia).
    by destruct (world st).
Qed.

End Frame.

(** ** Witnesses *)

Module Witness.
Import Registry.Witness Ssh.Witness.
#[local] Existing Instance Wire.quinn_error.

(** A client whose frames are known, on a connection that carries [budget]
    more frames to it and then fails. *)
Record Script : Type := mkScript {
  inbox : list ClientFrame;
  outbox : list ServerFrame;
  budget : nat;
}.

#[export] Instance script_link : Link Script := {|
  link_send l f :=
    match budget l with
    | O => Some (Err (Write tt), l)
    | S n => Some (Ok tt, mkScript (inbox l) (outbox l ++ [f]) n)
    end;
  link_recv l :=
    match inbox l with
    | [] => Some (Err (Read tt), l)
    | f :: fs => Some (Ok f, mkScript fs (outbox l) (budget l))
    end;
  sent := outbox;
|}.

#[export] Instance script_laws : LinkLaws Script.
Proof.
  split; intros l l' *; cbn; repeat case_match; intros; by simplify_eq.
Defined.

#[export] Instance renderings : Renderings := {|
  uuid_to_string := fmt_int;
  frame_debug _ := "frame";
|}.

(** A control plane that counts sessions opened and closed, and knows one
    token. *)
Definition counting : AuthHook (Z * Z) := {|
  authorize _ token :=
    mret (if decide (token = Some [x01]) then Ok unlimited else Err (mkDenied "unknown account"));
  session_open _ _ _ '(o, c) := Some (Ok tt, (o + 1, c));
  session_close _ _ '(o, c) := Some (tt, (o, c + 1));
  report_usage := default_report_usage;
|}.

Definition hello (token : option (list byte)) : ClientFrame :=
  ClientFrame.Hello 1 "ipad" None token.
Definition open_box (auth : AuthIntent) : ClientFrame :=
  ClientFrame.Open (mkTargetSpec "box" 22 "me") auth 80 24.

Definition start (fs : list ClientFrame) (budget : nat) : World (L:=Script) (CP:=Z * Z) (G:=Z) (N:=list string) :=
  mkWorld (mkScript fs [] budget) (0, 0) new ∅ 0 [].

(** A client that signs for its key, with a keep-alive and a stale answer on
    the way. *)
Definition delegated : list ClientFrame :=
  [hello (Some [x01]); open_box (AuthIntent.DelegatedKey (as_bytes "K")); ClientFrame.Ping;
   ClientFrame.SignResponse 7 [xff]; ClientFrame.SignResponse 1 (reverse challenge)].

Example delegated_opens :
  match negotiate 10 counting (start delegated 10) with
  | Some (Ok (Some n), w) => Some (outbox (link w), plane w, map fst (map_to_list (by_id (registry (manager w)))))
  | _ => None
  end = Some (ServerFrame.SignRequest 1 (as_bytes "K") challenge :: welcome (mkSession 0 (token 1) None 1) false,
              (1, 0), [0]).
Proof. vm_compute. reflexivity. Qed.

(** The same client on a connection that dies right before the greeting. *)
Definition result (fs : list ClientFrame) (budget : nat) :=
  default (Err (Msg "none"), start fs budget) (negotiate 10 counting (start fs budget)).

Lemma run_delegated : negotiate 10 counting (start delegated 10) = Some (result delegated 10).
Proof. vm_compute. reflexivity. Defined.

Lemma run_broken : negotiate 10 counting (start delegated 1) = Some (result delegated 1).
Proof. vm_compute. reflexivity. Defined.

Lemma negotiation_dialogue_witness :
  exists signs tail, Forall is_sign_request signs /\
    outbox (link (result delegated 10).2) = [] ++ signs ++ tail /\
    match (result delegated 10).1 with
    | Ok (Some n) => exists resumed, tail = welcome (session n) resumed
    | Ok None => exists msg, tail = [ServerFrame.Error msg]
    | Err _ => tail = [] \/ exists s resumed, tail = take 1 (welcome s resumed)
    end.
Proof.
  pose proof run_delegated as H. revert H. destruct (result delegated 10) as [r w']. intros H.
  exact (negotiation_dialogue 10 counting (start delegated 10) r w' H).
Defined.

Lemma fresh_start : next_draw_fresh (start delegated 1) [].
Proof. vm_compute. split; intros H; inversion H. Defined.

(** A session in the registry, and a client that comes back with its token. *)
Definition one := create (G:=Z) new ∅ 0 (mkSshHandle None).
Definition s1 : Session := one.1.1.1.

Definition returning : World (L:=Script) (CP:=Z * Z) (G:=Z) (N:=list string) :=
  mkWorld (mkScript [ClientFrame.Hello 1 "phone" (Some (mkResumeToken (Registry.resume_token s1))) (Some [x01])] [] 10)
    (0, 0) one.1.1.2 one.1.2 one.2 [].

Definition returned := default (Err (Msg "none"), returning) (negotiate 10 counting returning).

Lemma run_returning : negotiate 10 counting returning = Some (returned.1, returned.2).
Proof. vm_compute. reflexivity. Defined.

Lemma one_holds : holds (manager returning) [s1].
Proof.
  eapply (create_holds new [] (holds_new DEFAULT_SCROLLBACK_BYTES) ∅ 0 (mkSshHandle None) s1 _ one.1.2 one.2);
    [reflexivity|intros H; inversion H..].
Defined.

Lemma fresh_returning : next_draw_fresh returning [s1].
Proof. vm_compute. split; intros H; inversion H as [|? ? ? H1]; inversion H1. Defined.

(** On a connection that breaks the session is orphaned: it stays in the registry
    and counts at the control plane, though no client has its token.  A client
    with a token gets its session. *)
Lemma negotiation_sessions_witness :
  ((exists s, holds (manager (result delegated 1).2) [s]) /\ plane (result delegated 1).2 = (1, 0)) /\
  holds (manager returned.2) [s1] /\ returned.1 = Ok (Some (mkNegotiated s1 unlimited (Some [x01]))).
Proof.
  split; [split; [|vm_compute; reflexivity]|split; [|vm_compute; reflexivity]].
  - pose proof (fun r w' H => negotiation_sessions 10 counting (start delegated 1) r w' [] H
                  (holds_new _) fresh_start) as Hn.
    specialize (Hn (result delegated 1).1 (result delegated 1).2).
    rewrite <-surjective_pairing in Hn. specialize (Hn run_broken).
    assert (E : (result delegated 1).1 = Err (Msg (TransportError_display (Write tt))))
      by (vm_compute; reflexivity).
    rewrite E in Hn. destruct Hn as [Hh|(s & _ & _ & _ & _ & Hh & _)]; [exfalso|exists s; exact Hh].
    pose proof (len_holds _ _ Hh) as Hlen. revert Hlen. vm_compute. discriminate.
  - pose proof (negotiation_sessions 10 counting returning returned.1 returned.2 [s1] run_returning
                  one_holds fresh_returning) as Hn.
    assert (E : returned.1 = Ok (Some (mkNegotiated s1 unlimited (Some [x01])))) by (vm_compute; reflexivity).
    rewrite E in Hn.
    assert (Ea : presented_token returning ≫= Spec.bearer [s1] = Some s1) by (vm_compute; reflexivity).
    cbn zeta in Hn. rewrite Ea in Hn. apply Hn.
Defined.

Lemma authorization_gate_witness :
  negotiate 0 counting (start [hello None; open_box (AuthIntent.Password "pw")] 10) =
  Some (Ok None, mkWorld (mkScript [open_box (AuthIntent.Password "pw")]
                            [ServerFrame.Error "authorization denied: unknown account"] 9)
                   (0, 0) new ∅ 0 []).
Proof.
  rewrite (authorization_gate 0 counting (start [hello None; open_box (AuthIntent.Password "pw")] 10)
    (hello None) (mkScript [open_box (AuthIntent.Password "pw")] [] 10)
    "authorization denied: unknown account" (0, 0)); vm_compute; reflexivity.
Defined.

End Witness.
