(* ===== verification/Progress.v ===== *)
(** * A negotiation ends

    The loop of [ControlSigner::sign] and [negotiate] in
    [crates/gw-server/src/handler.rs] read frames until they are satisfied;
    Negotiate.v gives them fuel.  Here: as long as every call they await is
    answered, by the client's connection ([Prompt]), by the target
    ([Responsive]) and by the control plane ([answering]), and the client sends
    finitely many more frames ([FiniteLink]), they return, and any fuel above
    the number of frames gives the same result.  None of the calls has a
    deadline: [unanswered_authorization] is what happens without an answer. *)

From S2P Require Import Prelude Utf8 Frame Codec WireFormat Framed Link Scrollback Registry Quota HttpHook Ssh Negotiate.

(** ** Connections that end *)

(** [pending] bounds the frames that can still be received. *)
Class FiniteLink {PE : PostcardError} {QE : QuinnError} (L : Type) {LK : Link L} : Type := {
  pending : L -> nat;
  pending_send l l' f r : link_send l f = Some (r, l') -> (pending l' <= pending l)%nat;
  pending_recv l l' r :
    link_recv l = Some (r, l') -> (pending l' + (if is_ok r then 1 else 0) <= pending l)%nat;
}.

(** Its calls complete, with a frame or an error. *)
Class Prompt {PE : PostcardError} {QE : QuinnError} (L : Type) {LK : Link L} : Prop := {
  send_completes l f : is_Some (link_send l f);
  recv_completes l : is_Some (link_recv l);
}.

(** A stream does not come to hold more than it held. *)
Class FiniteStream {QE : QuinnError} (R : Type) {RS : RecvStream R} : Prop :=
  read_exact_shrinks (r r' : R) n x :
    read_exact r n = (x, r') -> (length (unread r') <= length (unread r))%nat.

Section FiniteFramed.
Context {PE : PostcardError} {QE : QuinnError}.
Context {S : Type} {SS : SendStream S}.
Context {R : Type} {RS : RecvStream R} {RL : RecvStreamLaws R} {FS : FiniteStream R}.
Context {PS : Postcard ServerFrame} {PC : Postcard ClientFrame} {ST : Stalls S R}.

Lemma read_prefix_shrinks (r r' : R) a :
  read_exact r LEN_PREFIX = (Ok a, r') -> (length (unread r') + 1 <= length (unread r))%nat.
Proof.
  intros E. destruct (decide (len (unread r) < LEN_PREFIX)) as [Hs|Hl].
  - destruct (read_exact_short _ _ Hs) as (e & r1 & E1). congruence.
  - unfold len, LEN_PREFIX in *. pose proof (take_drop 4 (unread r)) as Hu.
    assert (Hn : Z.of_nat (length (take 4 (unread r))) = 4) by (rewrite length_take; lia).
    destruct (read_exact_n _ _ _ 4 (eq_sym Hu)) as (r1 & E1 & Hr1); [by unfold len; rewrite Hn|].
    rewrite E1 in E. injection E as _ <-. rewrite Hr1, length_drop. lia.
Qed.

Lemma recv_shrinks (r r' : R) x :
  recv (T:=ClientFrame) r = (x, r') ->
  (length (unread r') + (if is_ok x then 1 else 0) <= length (unread r))%nat.
Proof.
  unfold recv. destruct (read_exact r LEN_PREFIX) as [[a|e] r1] eqn:E1.
  2: { intros [= <- <-]. cbn. rewrite Nat.add_0_r. by eapply read_exact_shrinks. }
  apply read_prefix_shrinks in E1.
  case_decide; [intros [= <- <-]; cbn; lia|].
  destruct (read_exact r1 _) as [[b|e] r2] eqn:E2; intros [= <- <-];
    apply read_exact_shrinks in E2; [destruct (is_ok _)|cbn]; lia.
Qed.

#[export] Instance framed_finite : FiniteLink FramedLink.
Proof.
  refine {| pending l := length (unread (rx l)) |}.
  - intros l l' f r. cbn. destruct (send_stalls _ _); [done|]. destruct (send (tx l) f). by intros [= _ <-].
  - intros l l' r. cbn. destruct (recv_stalls _); [done|]. destruct (recv (rx l)) as [x r'] eqn:E. intros [= <- <-].
    by apply recv_shrinks in E.
Defined.

End FiniteFramed.

(** ** Targets that answer *)

(** An authentication that ends whatever signatures it is given. *)
Fixpoint settles {K N A} (d : Dialog K N A) : Prop :=
  match d with
  | Finished _ _ => True
  | Hangs => False
  | Ask _ _ _ k => forall signature, settles (k signature)
  end.

(** Every call to [russh] returns. *)
Class Responsive (N : Type) {RU : Russh N} : Prop := {
  connect_returns H check host port st n : is_Some (client_connect H check host port st n);
  password_returns h user pw n : is_Some (authenticate_password h user pw n);
  publickey_returns h user key n : is_Some (authenticate_publickey h user key n);
  delegated_settles h user key alg n : settles (authenticate_publickey_with h user key alg n);
  channel_returns h n : is_Some (channel_open_session h n);
  pty_returns ch wr term c r pw ph n : is_Some (request_pty ch wr term c r pw ph n);
  shell_returns ch wr n : is_Some (request_shell ch wr n);
}.

(** ** Computations that return *)

(** [m1] and [m2], started with a measure of at most [b], return the same and
    leave it so. *)
Definition agree {W A} (mu : W -> nat) (b : nat) (m1 m2 : Eff W A) : Prop :=
  forall w, (mu w <= b)%nat ->
    exists a w', m1 w = Some (a, w') /\ m2 w = Some (a, w') /\ (mu w' <= b)%nat.

Create HintDb progress.

Section Agree.
Context {W : Type} (mu : W -> nat) (b : nat).

Lemma agree_ret {A} (a : A) : agree mu b (mret a) (mret a).
Proof. intros w Hw. by exists a, w. Qed.

Lemma agree_reads {A} (f : W -> A) : agree mu b (reads f) (reads f).
Proof. intros w Hw. by exists (f w), w. Qed.

Lemma agree_modifies (f : W -> W) :
  (forall w, mu (f w) <= mu w)%nat -> agree mu b (modifies f) (modifies f).
Proof. intros Hf w Hw. exists tt, (f w). specialize (Hf w). repeat split; lia. Qed.

Lemma agree_bind {A B} (m1 m2 : Eff W A) (k1 k2 : A -> Eff W B) :
  agree mu b m1 m2 -> (forall a, agree mu b (k1 a) (k2 a)) -> agree mu b (m1 ≫= k1) (m2 ≫= k2).
Proof.
  intros Hm Hk w Hw. destruct (Hm w Hw) as (a & w1 & E1 & E2 & Hw1).
  destruct (Hk a w1 Hw1) as (c & w2 & E3 & E4 & Hw2). exists c, w2.
  unfold mbind, eff_bind. by rewrite E1, E2.
Qed.

Lemma agree_bind_ok {A B E} (m1 m2 : Eff W (Result A E)) (k1 k2 : A -> Eff W (Result B E)) :
  agree mu b m1 m2 -> (forall a, agree mu b (k1 a) (k2 a)) ->
  agree mu b (bind_ok m1 k1) (bind_ok m2 k2).
Proof. intros Hm Hk. apply agree_bind; [done|]. intros [a|e]; [done|apply agree_ret]. Qed.

Lemma agree_fmap {A B} (f : A -> B) (m1 m2 : Eff W A) :
  agree mu b m1 m2 -> agree mu b (f <$> m1) (f <$> m2).
Proof. intros Hm. apply agree_bind; [done|]. intros a. apply agree_ret. Qed.

(** A call on a part that the measure does not look at. *)
Lemma agree_on_part {P A} (get : W -> P) (put : P -> W -> W) (m : Eff P A) :
  (forall p w, mu (put p w) <= mu w)%nat -> (forall p, is_Some (m p)) ->
  agree mu b (on_part get put m) (on_part get put m).
Proof.
  intros Hput Hm w Hw. unfold on_part. destruct (Hm (get w)) as [[a p] ->].
  exists a, (put p w). specialize (Hput p w). repeat split; lia.
Qed.

End Agree.

Ltac agree :=
  repeat (intros;
    first
      [ apply agree_ret | apply agree_reads | assumption | solve [eauto with progress]
      | apply agree_bind_ok | apply agree_fmap | apply agree_bind | case_match ]).

(** ** Opening the target *)

(** A call on the network alone. *)
Abbreviation returns m := (agree (fun _ => 0%nat) 0 m m).

Lemma returns_calls {N A} (m : Eff N A) : (forall n, is_Some (m n)) -> returns m.
Proof. intros Hm n _. destruct (Hm n) as [[a n'] E]. by exists a, n'. Qed.

Lemma returns_on_part {W P A} (mu : W -> nat) b (get : W -> P) (put : P -> W -> W) (m : Eff P A) :
  returns m -> (forall p w, mu (put p w) <= mu w)%nat ->
  agree mu b (on_part get put m) (on_part get put m).
Proof.
  intros Hm Hput. apply agree_on_part; [done|]. intros p.
  destruct (Hm p) as (a & p' & E & _); [done|]. by exists (a, p').
Qed.

#[export] Hint Resolve returns_calls connect_returns password_returns publickey_returns
  channel_returns pty_returns shell_returns : progress.

Section Open.
Context {N : Type} {RU : Russh N} {RR : Responsive N}.

Lemma connect_agree target : returns (connect target).
Proof. unfold connect. agree. Qed.

Lemma finish_open_agree handle fp cols rows : returns (finish_open handle fp cols rows).
Proof. unfold finish_open. agree. Qed.

Lemma authenticate_agree handle user auth : returns (authenticate handle user auth).
Proof. unfold authenticate. agree. Qed.

#[local] Hint Resolve connect_agree finish_open_agree authenticate_agree : progress.

Lemma open_agree target auth cols rows : returns (open target auth cols rows).
Proof. unfold open. agree. Qed.

(** An authentication that settles ends, if its signatures come. *)
Lemma drive_agree {W A} (mu : W -> nat) b (set_net : N -> W -> W) (s1 s2 : RemoteSigner W)
    (d : Dialog PublicKey N A) :
  (forall n w, mu (set_net n w) <= mu w)%nat -> settles d ->
  (forall key alg data, agree mu b (s1 key alg data) (s2 key alg data)) ->
  agree mu b (drive set_net s1 d) (drive set_net s2 d).
Proof.
  intros Hput Hd Hs. induction d as [a n| |key alg data k IH]; cbn [drive]; cbn in Hd.
  - intros w Hw. exists a, (set_net n w). specialize (Hput n w). repeat split; lia.
  - done.
  - apply agree_bind; [|auto]. unfold auth_publickey_sign. agree.
Qed.

Lemma open_delegated_agree {W} (mu : W -> nat) b (net : W -> N) set_net target key
    (s1 s2 : RemoteSigner W) cols rows :
  (forall n w, mu (set_net n w) <= mu w)%nat ->
  (forall key alg data, agree mu b (s1 key alg data) (s2 key alg data)) ->
  agree mu b (open_delegated net set_net target key s1 cols rows)
    (open_delegated net set_net target key s2 cols rows).
Proof.
  intros Hput Hs. unfold open_delegated. apply agree_bind_ok.
  { apply returns_on_part; [apply connect_agree|done]. }
  intros [h fp]. apply agree_bind_ok; [apply agree_ret|]. intros k. apply agree_bind_ok.
  - intros w Hw. by apply (agree_fmap _ _ _ _ _ (drive_agree mu b set_net s1 s2 _ Hput
      (delegated_settles h _ _ None (net w)) Hs)).
  - intros [|]; [|apply agree_ret]. apply returns_on_part; [apply finish_open_agree|done].
Qed.

End Open.

(** ** Negotiation *)

Section Negotiation.
Context {PE : PostcardError} {QE : QuinnError} {RN : Renderings}.
Context {L : Type} {LK : Link L} {FL : FiniteLink L} {PL : Prompt L}.
Context {CP : Type} {G : Type} {EN : Entropy G} {N : Type} {RU : Russh N} {RR : Responsive N}.

#[local] Abbreviation World := (@World L CP G N).
#[local] Abbreviation Signing := (@Signing L CP G N).

(** The frames a negotiation can still receive. *)
Definition frames_left (w : World) : nat := pending (link w).

Lemma send_frame_agree b f : agree frames_left b (send_frame f) (send_frame f).
Proof.
  intros w Hw. unfold send_frame, on_part. destruct (send_completes (link w) f) as [[r l] E].
  rewrite E. apply pending_send in E. eexists _, _. do 2 (split; [done|]). unfold frames_left in *. cbn. lia.
Qed.

Lemma recv_frame_agree b : agree frames_left b recv_frame recv_frame.
Proof.
  intros w Hw. unfold recv_frame, on_part. destruct (recv_completes (link w)) as [[r l] E].
  rewrite E. apply pending_recv in E. eexists _, _. do 2 (split; [done|]). unfold frames_left in *. cbn. lia.
Qed.

Lemma on_plane_agree {A} b (f : Eff CP A) :
  (forall p, is_Some (f p)) -> agree frames_left b (on_plane f) (on_plane f).
Proof. intros Hf. by apply agree_on_part. Qed.

(** The control plane answers. *)
Record answering (hook : AuthHook CP) : Prop := {
  authorize_answers name token p : is_Some (authorize hook name token p);
  session_open_answers token sid name p : is_Some (session_open hook token sid name p);
}.

#[local] Hint Resolve send_frame_agree recv_frame_agree on_plane_agree authorize_answers
  session_open_answers : progress.

(** Every frame the signer passes over is one less to come. *)
Lemma await_signature_agree id b : forall f1 f2, (b < f1)%nat -> (b < f2)%nat ->
  agree frames_left b (await_signature f1 id) (await_signature f2 id).
Proof.
  induction b as [b IH] using lt_wf_ind. intros [|f1] [|f2] H1 H2; [lia..|].
  intros w Hw. cbn [await_signature]. unfold bind_ok, fmap, eff_fmap, mbind, eff_bind, recv_frame,
    on_part. destruct (recv_completes (link w)) as [[[f|e] l] E]; rewrite E; apply pending_recv in E;
    unfold frames_left in *; cbn in *.
  2: { eexists _, _. do 2 (split; [done|]). cbn. lia. }
  assert (Hnext : agree frames_left (pred b) (await_signature f1 id) (await_signature f2 id))
    by (apply IH; lia).
  assert (Hw1 : (frames_left (set_link l w) <= pred b)%nat) by (unfold frames_left; cbn; lia).
  assert (Hret : forall r : Result (list byte) RemoteSignerError, exists a w',
    Some (r, set_link l w) = Some (a, w') /\ Some (r, set_link l w) = Some (a, w') /\
    (pending (link w') <= b)%nat) by (intros r; eexists _, _; do 2 (split; [done|]); cbn; lia).
  assert (Hgo : exists a w', await_signature f1 id (set_link l w) = Some (a, w') /\
    await_signature f2 id (set_link l w) = Some (a, w') /\ (pending (link w') <= b)%nat).
  { destruct (Hnext _ Hw1) as (a & w' & E1 & E2 & Hw'). exists a, w'.
    unfold frames_left in Hw'. repeat split; [done..|lia]. }
  destruct f; try apply Hret; [|apply Hgo]. case_decide; [apply Hret|apply Hgo].
Qed.

Lemma sign_agree b f1 f2 key alg data : (b < f1)%nat -> (b < f2)%nat ->
  agree (fun st : Signing => frames_left (world st)) b (sign f1 key alg data) (sign f2 key alg data).
Proof.
  intros H1 H2. unfold sign. apply agree_bind; [apply agree_reads|]. intros i.
  apply agree_bind; [by apply agree_modifies|]. intros _ st Hst.
  assert (Ha : agree frames_left b
    (bind_ok (map_err signer_error <$> send_frame (ServerFrame.SignRequest i (as_bytes key) data))
      (fun _ => await_signature f1 i))
    (bind_ok (map_err signer_error <$> send_frame (ServerFrame.SignRequest i (as_bytes key) data))
      (fun _ => await_signature f2 i))).
  { apply agree_bind_ok; [apply agree_fmap, send_frame_agree|]. intros _.
    by apply await_signature_agree. }
  destruct (Ha _ Hst) as (a & w' & E1 & E2 & Hw'). exists a, (mkSigning w' (next_id st)).
  unfold on_world, on_part. by rewrite E1, E2.
Qed.

Lemma open_for_auth_agree b f1 f2 target auth cols rows : (b < f1)%nat -> (b < f2)%nat ->
  agree frames_left b (open_for_auth f1 target auth cols rows) (open_for_auth f2 target auth cols rows).
Proof.
  intros H1 H2. unfold open_for_auth. destruct auth as [key|secret|pem pass|key_id].
  - destruct (from_utf8 key) as [openssh|]; [|apply agree_ret]. intros w Hw. unfold with_signer.
    destruct (open_delegated_agree (fun st : Signing => frames_left (world st)) b signing_net
      set_signing_net (mkSshTarget (Frame.host target) (Frame.port target) (Frame.user target))
      openssh (sign f1) (sign f2) cols rows (fun n st => le_n _)
      (fun key alg data => sign_agree b f1 f2 key alg data H1 H2) (mkSigning w 1) Hw)
      as (a & st & E1 & E2 & Hst).
    rewrite E1, E2. eauto.
  - apply returns_on_part; [apply open_agree|done].
  - apply returns_on_part; [apply open_agree|done].
  - apply agree_ret.
Qed.

Lemma refuse_agree {A} b msg :
  agree frames_left b (refuse (A:=A) msg : Eff World _) (refuse msg).
Proof. unfold refuse, any. agree. Qed.

Lemma create_session_agree b ssh : agree frames_left b (create_session ssh) (create_session ssh).
Proof.
  intros w Hw. unfold create_session. destruct (create _ _ _ _) as [[[s m] h] g]. by eexists _, _.
Qed.

Lemma find_session_agree b f1 f2 tok : (b < f1)%nat -> (b < f2)%nat ->
  agree frames_left b (find_session f1 tok) (find_session f2 tok).
Proof.
  intros H1 H2. pose proof (@refuse_agree (Session * bool) b). pose proof (create_session_agree b).
  pose proof (fun t a c r => open_for_auth_agree b f1 f2 t a c r H1 H2). unfold find_session, any. agree.
Qed.

Lemma welcome_client_agree b hook name tok ent s resumed : answering hook ->
  agree frames_left b (welcome_client hook name tok ent s resumed : Eff World _)
    (welcome_client hook name tok ent s resumed).
Proof.
  intros Ha. unfold welcome_client. apply agree_bind; [unfold announce; agree|]. intros [_|denied].
  - unfold any. agree.
  - apply agree_bind; [by apply agree_modifies|]. intros _. apply refuse_agree.
Qed.

Lemma negotiate_agree b f1 f2 hook : answering hook -> (b < f1)%nat -> (b < f2)%nat ->
  agree frames_left b (negotiate f1 hook : Eff World _) (negotiate f2 hook).
Proof.
  intros Ha H1 H2. pose proof (@refuse_agree Negotiated b).
  pose proof (fun t => find_session_agree b f1 f2 t H1 H2).
  pose proof (fun name tok ent s r => welcome_client_agree b hook name tok ent s r Ha).
  unfold negotiate, any. agree.
Qed.

(** C18: a negotiation ends, if it is answered.  When the control plane and the
    target answer every call, the client's connection completes every send and
    every receive, with a frame or an error, and the client sends finitely many
    more frames, [negotiate] returns, after reading at most those frames, and
    its result is the same for every fuel above their number: its loops are
    bounded by what the client sends, and no schedule of keep-alives or stale
    signatures keeps it going. *)
Theorem negotiation_returns hook (w : World) :
  answering hook -> exists r w', (frames_left w' <= frames_left w)%nat /\
    forall fuel, (frames_left w < fuel)%nat -> negotiate fuel hook w = Some (r, w').
Proof.
  intros Ha. set (b := frames_left w).
  destruct (negotiate_agree b (S b) (S b) hook Ha (Nat.lt_succ_diag_r b) (Nat.lt_succ_diag_r b) w (le_n _))
    as (r & w' & E & _ & Hw'). exists r, w'. split; [done|]. intros fuel Hf.
  destruct (negotiate_agree b (S b) fuel hook Ha (Nat.lt_succ_diag_r b) Hf w (le_n _))
    as (r2 & w2 & E1 & E2 & _). congruence.
Qed.

End Negotiation.

(** ** Without an answer *)

(** Nothing but an answer ends the wait.  When the control plane accepts the
    connection and never answers the authorization of a client that said [Hello],
    its negotiation never ends, however long it is given: the HTTP client has no
    deadline, and the client is neither refused nor let in. *)
Theorem unanswered_authorization {PE : PostcardError} {QE : QuinnError} {RN : Renderings}
    {L : Type} {LK : Link L} {CP : Type} {RQ : Reqwest CP} {G : Type} {EN : Entropy G}
    {N : Type} {RU : Russh N} (self : HttpAuthHook) (w : World (L:=L) (CP:=CP) (G:=G) (N:=N))
    name resume account l1 :
  link_recv (link w) = Some (Ok (ClientFrame.Hello PROTOCOL_VERSION name resume account), l1) ->
  post_send (mkRequest (base self +:+ "/v1/authorize") (key self)
               (AuthorizeRequest name (from_utf8_lossy <$> account))) (plane w) = None ->
  forall fuel, negotiate fuel (http_hook self) w = None.
Proof.
  intros Hr Hp fuel. unfold negotiate, any, recv_frame, bind_ok, fmap, eff_fmap, mbind, eff_bind, on_part.
  rewrite Hr. cbn [map_err mret eff_ret]. rewrite decide_False by (intros H; by apply H).
  unfold on_plane, on_part. cbn [plane set_link http_hook authorize].
  unfold http_authorize, call_json, bind_ok, mbind, eff_bind, post. by rewrite Hp.
Qed.

(** ** Witness *)

Module Witness.
Import Registry.Witness Ssh.Witness Negotiate.Witness.
#[local] Existing Instances Wire.quinn_error Wire.incoming_stream.

#[export] Instance script_finite : FiniteLink Script.
Proof.
  refine {| pending l := length (inbox l) |}.
  - intros l l' f r. cbn. by destruct (budget l); intros [= _ <-].
  - intros l l' r. cbn. destruct (inbox l) as [|f fs] eqn:E; intros [= <- <-]; cbn; [rewrite E|]; cbn; lia.
Defined.

#[export] Instance script_prompt : Prompt Script.
Proof. split; [intros l f; cbn; destruct (budget l)|intros l; cbn; destruct (inbox l)]; by eexists. Defined.

Lemma counting_answers : answering counting.
Proof. split; [by eexists|]. intros t s n [o c]. by eexists. Defined.

#[export] Instance lab_responsive : Responsive (list string).
Proof.
  split; try (intros; by eexists).
  - intros H check h p st n. cbn. destruct (check "K" st). by eexists.
  - intros h u k alg n. cbn. by intros [|].
Defined.

(** Streams that hold what they hold are finite. *)
#[export] Instance incoming_finite : FiniteStream (list byte).
Proof.
  intros r r' n x. cbn. case_match; intros [= _ <-]; cbn; rewrite ?length_drop; lia.
Qed.

(** The client of Negotiate.v that signs for its key. *)
Lemma negotiation_returns_witness :
  exists r w', (pending (link w') <= 5)%nat /\
    forall fuel, (5 < fuel)%nat -> negotiate fuel counting (start delegated 10) = Some (r, w').
Proof. exact (negotiation_returns counting (start delegated 10) counting_answers). Defined.

(** A control plane that takes requests and says nothing. *)
#[local] Instance mute : Reqwest unit := {|
  ReqwestError := unit; Response := unit; reqwest_display _ := "error"; is_success _ := true;
  status_display _ := "200 OK"; post_send _ _ := None;
  json_authorize _ _ := None; json_session_open _ _ := None;
|}.

Lemma unanswered_authorization_witness :
  forall fuel, negotiate fuel (http_hook (mkHttpAuthHook "http://cp" None))
    (mkWorld (N:=list string) (G:=Z) (mkScript [hello None] [] 10) tt new ∅ 0 []) = None.
Proof.
  intros fuel. refine (unanswered_authorization (mkHttpAuthHook "http://cp" None) _ "ipad" None None
    (mkScript [] [] 10) _ _ fuel); reflexivity.
Defined.

End Witness.
