(* ===== verification/Connection.v ===== *)
(** * A live connection ([handle_connection], [receiver_loop] and [sender_task]
    in [crates/gw-server/src/handler.rs])

    After the negotiation two tasks share the connection: the receiver applies
    the client's frames to the session, the sender streams the session's
    output and the receiver's replies back.  They run concurrently with each
    other and with the session's ingest task; [step] is one step of one of
    them, between two points where it can be suspended, and a run is any
    sequence of steps.  The receiver's end ends the connection. *)

From S2P Require Import Prelude Frame Codec WireFormat Framed Scrollback Registry Quota Throttle Link Ssh Negotiate.

(** Why the receiver's loop ended. *)
Inductive Outcome : Type := Detached | Closed.

#[export] Instance Outcome_eq_dec : EqDecision Outcome.
Proof. solve_decision. Defined.

(** Where the sender task is: at its [select!]; with a chunk, at the limiter; in
    the middle of sending a frame; returned. *)
Inductive SenderPc : Type :=
  | Selecting
  | Chunk (bytes : list byte)
  | Sending (f : ServerFrame)
  | Stopped.

(** The capacity of the channel of replies. *)
Definition OOB_CAPACITY : usize := 16.

(** What may happen next: the receiver's turn; the sender takes a chunk, takes a
    reply, or goes on; of the session's own tasks, the ingest task appends what
    the target wrote, the actor ends, the ingest task marks the end. *)
Inductive Step : Type :=
  | Receive
  | TakeChunk
  | TakeOob
  | Continue
  | TargetWrites (data : list byte)
  | ActorEnds
  | TargetEnds.

Section Connection.
Context {PE : PostcardError} {QE : QuinnError} {RN : Renderings}.
Context {L : Type} {LK : Link L}.
Context {CP : Type} {G : Type} {EN : Entropy G} {N : Type} {RU : Russh N}.
(** The clock of the bandwidth limiter, and a bound on the turns it waits. *)
Context (now : nat -> Instant) (fuel : nat).

#[local] Abbreviation World := (@World L CP G N).

Record Conn : Type := mkConn {
  w : World;
  oob : list ServerFrame;
  oob_open : bool;
  meter : UsageMeter;
  limiter : option (TokenBucket * Instant);
  clock : nat;
  cursor : u64;
  pc : SenderPc;
  outcome : option Outcome;
}.

Definition set_w (x : World) (c : Conn) : Conn :=
  mkConn x (oob c) (oob_open c) (meter c) (limiter c) (clock c) (cursor c) (pc c) (outcome c).
Definition set_oob (x : list ServerFrame) (c : Conn) : Conn :=
  mkConn (w c) x (oob_open c) (meter c) (limiter c) (clock c) (cursor c) (pc c) (outcome c).
Definition set_oob_open (x : bool) (c : Conn) : Conn :=
  mkConn (w c) (oob c) x (meter c) (limiter c) (clock c) (cursor c) (pc c) (outcome c).
Definition set_meter (x : UsageMeter) (c : Conn) : Conn :=
  mkConn (w c) (oob c) (oob_open c) x (limiter c) (clock c) (cursor c) (pc c) (outcome c).
Definition set_limiter (x : option (TokenBucket * Instant)) (i : nat) (c : Conn) : Conn :=
  mkConn (w c) (oob c) (oob_open c) (meter c) x i (cursor c) (pc c) (outcome c).
Definition set_cursor (x : u64) (c : Conn) : Conn :=
  mkConn (w c) (oob c) (oob_open c) (meter c) (limiter c) (clock c) x (pc c) (outcome c).
Definition set_pc (x : SenderPc) (c : Conn) : Conn :=
  mkConn (w c) (oob c) (oob_open c) (meter c) (limiter c) (clock c) (cursor c) x (outcome c).
Definition set_outcome (x : Outcome) (c : Conn) : Conn :=
  mkConn (w c) (oob c) (oob_open c) (meter c) (limiter c) (clock c) (cursor c) (pc c) (Some x).
Definition set_heap (h : Heap) (x : World) : World :=
  mkWorld (link x) (plane x) (manager x) h (entropy x) (net x).

(** The two tasks as they are spawned: a reader from the start of the
    scrollback, no reply queued, a fresh meter. *)
Definition attach (x : World) (e : Entitlement) : Conn :=
  mkConn x [] true meter_default (limiter_new e (now 0)) 1 0 Selecting None.

Section Steps.
Context (session : Session).

(** [session.send_input(input).await], its result dropped. *)
Definition apply_input (input : SshInput) (c : Conn) : Conn :=
  set_w (set_heap (send_input (heap (w c)) session input).2 (w c)) c.

(** [oob.send(f).await], its result dropped: it waits while the channel is full,
    and fails when the sender task is gone. *)
Definition reply (f : ServerFrame) (c : Conn) : option Conn :=
  match pc c with
  | Stopped => Some c
  | _ => if decide (len (oob c) < OOB_CAPACITY) then Some (set_oob (oob c ++ [f]) c) else None
  end.

(** A turn of [receiver_loop]. *)
Definition receive (c : Conn) : option Conn :=
  '(r, l) ← link_recv (link (w c));
  let c := set_w (set_link l (w c)) c in
  match r with
  | Ok (ClientFrame.Data bytes) =>
      Some (apply_input (SshInput.Data bytes) (set_meter (add_in (meter c) (len bytes)) c))
  | Ok (ClientFrame.Resize cols rows) => Some (apply_input (SshInput.Resize cols rows) c)
  | Ok ClientFrame.Ping => reply ServerFrame.Pong c
  | Ok ClientFrame.Close => Some (set_outcome Closed c)
  | Ok _ => Some c
  | Err _ => Some (set_outcome Detached c)
  end.

(** The [chunk] branch of [sender_task]'s [select!]: not ready while there is
    nothing to read. *)
Definition take_chunk (c : Conn) : option Conn :=
  o ← heap (w c) !! cell session;
  let '(p, cur) := next_poll (inner o) (cursor c) in
  let c := set_cursor cur c in
  match p with
  | Pending => None
  | Panic => Some (set_pc Stopped c)
  | Ready None => Some (set_pc (Sending ServerFrame.Closed) c)
  | Ready (Some bytes) => Some (set_pc (Chunk bytes) c)
  end.

(** The [frame] branch. *)
Definition take_oob (c : Conn) : option Conn :=
  if oob_open c then
    match oob c, outcome c with
    | f :: fs, _ => Some (set_pc (Sending f) (set_oob fs c))
    | [], Some _ => Some (set_oob_open false c)
    | [], None => None
    end
  else None.

(** After the [select!]: throttle and meter the chunk, send the frame, loop or
    break. *)
Definition continue (c : Conn) : option Conn :=
  match pc c with
  | Chunk bytes =>
      r ← throttle now fuel (limiter c) (clock c) (len bytes);
      match r with
      | None => Some (set_pc Stopped c) (* [time_until] panicked *)
      | Some (limiter, i) =>
          Some (set_pc (Sending (ServerFrame.Data bytes))
                  (set_meter (add_out (meter c) (len bytes)) (set_limiter limiter i c)))
      end
  | Sending f =>
      '(r, l) ← link_send (link (w c)) f;
      let c := set_w (set_link l (w c)) c in
      Some (set_pc (match r, f with
                    | Ok _, ServerFrame.Closed => Stopped
                    | Ok _, _ => Selecting
                    | Err _, _ => Stopped
                    end) c)
  | Selecting | Stopped => None
  end.

(** A step of the session's own tasks, on its object. *)
Definition on_cell (f : Cell -> Cell) (c : Conn) : option Conn :=
  o ← heap (w c) !! cell session;
  Some (set_w (set_heap (<[cell session := f o]> (heap (w c))) (w c)) c).

Definition ingest (f : SessionInner -> SessionInner) : Conn -> option Conn :=
  on_cell (fun o => mkCell (f (inner o)) (sent_input o) (input_open o)).

(** The actor's exit drops its end of the input channel. *)
Definition drop_input : Conn -> option Conn :=
  on_cell (fun o => mkCell (inner o) (sent_input o) false).

(** One step; [None] when it is not enabled. *)
Definition step (s : Step) (c : Conn) : option Conn :=
  match s with
  | Receive => match outcome c with None => receive c | Some _ => None end
  | TakeChunk => match pc c with Selecting => take_chunk c | _ => None end
  | TakeOob => match pc c with Selecting => take_oob c | _ => None end
  | Continue => continue c
  | TargetWrites data => ingest (fun i => append i data) c
  | ActorEnds => drop_input c
  | TargetEnds => ingest set_closed c
  end.

Fixpoint steps (ss : list Step) (c : Conn) : option Conn :=
  match ss with
  | [] => Some c
  | s :: ss => c ← step s c; steps ss c
  end.

End Steps.

(** The end of [handle_connection], once the receiver has returned: the sender
    is aborted wherever it is, the usage reported, the session closed or held. *)
Definition conclude (hook : AuthHook CP) (n : Negotiated) (out : Outcome) (c : Conn)
    : option World :=
  let session := session n in
  let session_id := uuid_to_string (id session) in
  let '(bytes_in, bytes_out) := totals (meter c) in
  '(_, x) ← on_plane (report_usage hook (account_token n) session_id bytes_in bytes_out) (w c);
  if bool_decide (out = Closed) || is_closed (heap x) session then
    '(_, x) ← on_plane (session_close hook (account_token n) session_id) x;
    Some (set_manager (remove (manager x) (id session)) x)
  else Some x.

(** [handle_connection], with the steps its tasks take; [None] when they are not
    possible or do not lead to the receiver's end. *)
Definition handle_connection (hook : AuthHook CP) (ss : list Step) (x : World) : option World :=
  '(r, x) ← negotiate fuel hook x;
  match r with
  | Ok (Some n) =>
      c ← steps (session n) ss (attach x (entitlement n));
      out ← outcome c;
      conclude hook n out c
  | Ok None => Some x
  | Err _ => Some x
  end.

(** ** What a run is about *)

Section Runs.
Context (session : Session).

(** The frame the receiver gets in a step. *)
Definition heard_now (s : Step) (c : Conn) : list ClientFrame :=
  match s, link_recv (link (w c)) with
  | Receive, Some (Ok f, _) => [f]
  | _, _ => []
  end.

(** The frames the receiver gets in a run. *)
Fixpoint heard (ss : list Step) (c : Conn) : list ClientFrame :=
  match ss with
  | [] => []
  | s :: ss =>
      match step session s c with
      | Some c' => heard_now s c ++ heard ss c'
      | None => []
      end
  end.

(** The chunk the sender takes in a step that leads to [c']. *)
Definition taken_now (s : Step) (c' : Conn) : list (list byte) :=
  match s, pc c' with
  | TakeChunk, Chunk bytes => [bytes]
  | _, _ => []
  end.

(** The chunks the sender takes in a run. *)
Fixpoint taken (ss : list Step) (c : Conn) : list (list byte) :=
  match ss with
  | [] => []
  | s :: ss =>
      match step session s c with
      | Some c' => taken_now s c' ++ taken ss c'
      | None => []
      end
  end.

End Runs.

(** What a client frame asks of the session, and the bytes it counts for. *)
Definition input_of (f : ClientFrame) : list SshInput :=
  match f with
  | ClientFrame.Data bytes => [SshInput.Data bytes]
  | ClientFrame.Resize cols rows => [SshInput.Resize cols rows]
  | _ => []
  end.

Definition payload (f : ClientFrame) : Z :=
  match f with ClientFrame.Data bytes => len bytes | _ => 0 end.

(** The chunks among the frames sent. *)
Definition data_of (f : ServerFrame) : list (list byte) :=
  match f with ServerFrame.Data bytes => [bytes] | _ => [] end.

Definition chunks (fs : list ServerFrame) : list (list byte) := concat (map data_of fs).

(** The chunk the sender holds. *)
Definition in_flight (p : SenderPc) : list (list byte) :=
  match p with
  | Chunk bytes => [bytes]
  | Sending f => data_of f
  | Selecting | Stopped => []
  end.

Definition bytes_of (l : list (list byte)) : Z := len (concat l).

Definition inputs_of (fs : list ClientFrame) : list SshInput := concat (map input_of fs).
Definition payloads (fs : list ClientFrame) : Z := foldr (fun f n => payload f + n) 0 fs.

Lemma inputs_of_app fs1 fs2 : inputs_of (fs1 ++ fs2) = inputs_of fs1 ++ inputs_of fs2.
Proof. unfold inputs_of. by rewrite map_app, concat_app. Qed.

Lemma payloads_app fs1 fs2 : payloads (fs1 ++ fs2) = payloads fs1 + payloads fs2.
Proof.
  unfold payloads. rewrite foldr_app. induction fs1 as [|f fs1 IH]; [done|]. cbn [foldr]. lia.
Qed.

Lemma chunks_app fs1 fs2 : chunks (fs1 ++ fs2) = chunks fs1 ++ chunks fs2.
Proof. unfold chunks. by rewrite map_app, concat_app. Qed.

Lemma chunks_one f : chunks [f] = data_of f.
Proof. unfold chunks. cbn. by rewrite app_nil_r. Qed.

Lemma bytes_of_app l1 l2 : bytes_of (l1 ++ l2) = bytes_of l1 + bytes_of l2.
Proof. unfold bytes_of. by rewrite concat_app, len_app. Qed.

(** ** The way in *)

Section In.
Context (session : Session).

(** What a run may have done to the session's input: everything asked of it was
    passed on, as long as the actor took it. *)
Definition passed_on (o : Cell) (asked : list SshInput) (o' : Cell) : Prop :=
  exists passed lost, asked = passed ++ lost /\ sent_input o' = sent_input o ++ passed /\
    (input_open o' = true -> lost = []) /\
    (input_open o = false -> passed = [] /\ input_open o' = false).

Lemma passed_on_trans o1 a1 o2 a2 o3 :
  passed_on o1 a1 o2 -> passed_on o2 a2 o3 -> passed_on o1 (a1 ++ a2) o3.
Proof.
  intros (p1 & l1 & -> & H1 & O1 & C1) (p2 & l2 & -> & H2 & O2 & C2).
  destruct (input_open o2) eqn:E.
  - rewrite O1 by done. exists (p1 ++ p2), l2. rewrite app_nil_r, H2, H1, !app_assoc.
    split_and!; [done..|]. intros H. by destruct (C1 H).
  - destruct C2 as [-> Ho]; [done|]. exists p1, (l1 ++ l2). cbn [app]. rewrite H2, H1, Ho, !app_nil_r, !app_assoc.
    split_and!; [done..|]. intros H. split; [|done]. by destruct (C1 H).
Qed.

Lemma passed_on_same o o' :
  sent_input o' = sent_input o -> (input_open o' = true -> input_open o = true) -> passed_on o [] o'.
Proof.
  intros H Ho. exists [], []. split_and!; [done|by rewrite app_nil_r|done|]. intros E. split; [done|].
  destruct (input_open o'); [|done]. by rewrite Ho in E.
Qed.

(** The session's object and the input counter, before and after. *)
Record input_step (c : Conn) (fs : list ClientFrame) (c' : Conn) (o o' : Cell) : Prop := {
  input_meter : bytes_in (meter c') = wrap 64 (bytes_in (meter c) + payloads fs);
  input_cell : heap (w c') !! cell session = Some o';
  input_passed : passed_on o (inputs_of fs) o';
}.

Lemma input_step_trans c1 f1 c2 f2 c3 o1 o2 o3 :
  input_step c1 f1 c2 o1 o2 -> input_step c2 f2 c3 o2 o3 -> input_step c1 (f1 ++ f2) c3 o1 o3.
Proof.
  intros [M1 _ P1] [M2 H2 P2]. split; [|done|].
  - rewrite M2, M1, wrap_add, payloads_app by lia. f_equal. lia.
  - rewrite inputs_of_app. by eapply passed_on_trans.
Qed.

Lemma input_step_same c c' o o' :
  fits 64 (bytes_in (meter c)) -> bytes_in (meter c') = bytes_in (meter c) ->
  heap (w c') !! cell session = Some o' -> passed_on o [] o' -> input_step c [] c' o o'.
Proof. intros Hf Hm Hh Hp. split; [|done|done]. rewrite Hm, Z.add_0_r. by rewrite wrap_id. Qed.

(** One input applied. *)
Lemma apply_input_step i c o :
  heap (w c) !! cell session = Some o ->
  exists o', heap (w (apply_input session i c)) !! cell session = Some o' /\ passed_on o [i] o'.
Proof.
  intros Ho. unfold apply_input, send_input. rewrite Ho. destruct (input_open o) eqn:E; cbn.
  - rewrite lookup_insert_eq. eexists. split; [done|]. exists [i], []. split_and!; [done..|]. intros Hc. congruence.
  - exists o. split; [done|]. exists [], [i]. rewrite app_nil_r, E. split_and!; [done..|]. auto.
Qed.

Lemma receive_step c c' o :
  heap (w c) !! cell session = Some o -> fits 64 (bytes_in (meter c)) ->
  receive session c = Some c' -> exists o', input_step c (heard_now Receive c) c' o o'.
Proof.
  intros Ho Hf. unfold receive, heard_now. destruct (link_recv (link (w c))) as [[[f|e] l]|]; [| |done]; cbn [mbind option_bind].
  2: { intros [= <-]. exists o. apply input_step_same; [done..|]. by apply passed_on_same. }
  set (c1 := set_w (set_link l (w c)) c).
  assert (Hquiet : forall x, heap (w x) = heap (w c) -> meter x = meter c ->
    inputs_of [f] = [] -> payload f = 0 -> input_step c [f] x o o).
  { intros x Hh Hm Hi Hp. split; [rewrite Hm; cbn; rewrite Hp, !Z.add_0_r; by rewrite wrap_id|by rewrite Hh|].
    rewrite Hi. by apply passed_on_same. }
  destruct f as [v nm rs tk|t a cs rw|bytes|cs rw|i sg| |]; try (intros [= <-]; exists o; by apply Hquiet).
  - intros [= <-]. destruct (apply_input_step (SshInput.Data bytes)
      (set_meter (add_in (meter c) (len bytes)) c1) o Ho) as (o' & Ho' & Hp).
    exists o'. split; [cbn; by rewrite Z.add_0_r|done|done].
  - intros [= <-]. destruct (apply_input_step (SshInput.Resize cs rw) c1 o Ho) as (o' & Ho' & Hp).
    exists o'. split; [cbn; rewrite Z.add_0_r; by rewrite wrap_id|done|done].
  - unfold reply. intros H. exists o. repeat case_match; simplify_eq; by apply Hquiet.
Qed.

Lemma step_input s c c' o :
  heap (w c) !! cell session = Some o -> fits 64 (bytes_in (meter c)) ->
  step session s c = Some c' -> exists o', input_step c (heard_now s c) c' o o'.
Proof.
  intros Ho Hf H. assert (Hsame : forall x, heap (w x) = heap (w c) ->
    bytes_in (meter x) = bytes_in (meter c) -> exists o', input_step c [] x o o').
  { intros x Hh Hm. exists o. apply input_step_same; [done..|by rewrite Hh|by apply passed_on_same]. }
  assert (Hcell : forall f x, on_cell session f c = Some x ->
    (forall o, sent_input (f o) = sent_input o) ->
    (forall o, input_open (f o) = true -> input_open o = true) -> exists o', input_step c [] x o o').
  { intros f x (o1 & Ho1 & [= <-])%bind_Some Hs Hop. rewrite Ho in Ho1. injection Ho1 as <-.
    exists (f o). apply input_step_same; [done..|cbn; by rewrite lookup_insert_eq|].
    apply passed_on_same; auto. }
  destruct s; cbn [step heard_now] in *.
  - destruct (outcome c); [done|]. by apply receive_step.
  - destruct (pc c); try done. unfold take_chunk in H. apply bind_Some in H as (o1 & _ & H).
    destruct (next_poll _ _) as [p cur]. destruct p as [[bytes|]| |]; simplify_eq; by apply Hsame.
  - destruct (pc c); try done. unfold take_oob in H. repeat case_match; simplify_eq; by apply Hsame.
  - unfold continue in H. destruct (pc c) as [|bytes|f|]; simplify_eq.
    + apply bind_Some in H as ([[lim i]|] & _ & H); simplify_eq; by apply Hsame.
    + apply bind_Some in H as ([r l] & _ & H). simplify_eq. by apply Hsame.
  - by eapply Hcell.
  - by eapply Hcell.
  - by eapply Hcell.
Qed.

Lemma steps_input ss : forall c c' o,
  heap (w c) !! cell session = Some o -> fits 64 (bytes_in (meter c)) ->
  steps session ss c = Some c' -> exists o', input_step c (heard session ss c) c' o o'.
Proof.
  induction ss as [|s ss IH]; intros c c' o Ho Hf; cbn [steps heard].
  - intros [= <-]. exists o. apply input_step_same; [done..|]. by apply passed_on_same.
  - intros (c1 & E & H)%bind_Some. rewrite E. destruct (step_input _ _ _ _ Ho Hf E) as [o1 Hi].
    destruct (IH c1 c' o1) as [o' Hi']; [apply Hi| |done|].
    + rewrite (input_meter _ _ _ _ _ Hi). apply wrap_fits. lia.
    + exists o'. by eapply input_step_trans.
Qed.

End In.

(** ** The way out *)

Section Out.
Context {LL : LinkLaws L}.
Context (session : Session).

(** The chunk the sender has metered and not yet sent. *)
Definition metered (p : SenderPc) : list (list byte) :=
  match p with
  | Sending f => data_of f
  | _ => []
  end.

(** Of the chunks lost when the sender stopped, those that are metered: all, but
    for one at which the limiter panicked. *)
Definition counted (c : Conn) (lost metered : list (list byte)) : Prop :=
  metered = lost \/
  metered = [] /\ exists bytes, lost = [bytes] /\
    throttle now fuel (limiter c) (clock c) (len bytes) = Some None.

(** From [c0], when no chunk was held, to [c]: the chunks taken are those sent,
    the one held and, once the sender has stopped, one that was lost with it;
    all but the one not yet metered are counted. *)
Record output_run (c0 : Conn) (taken : list (list byte)) (c : Conn) : Prop := {
  output_split : exists delivered lost cut,
    chunks (sent (link (w c))) = chunks (sent (link (w c0))) ++ delivered /\
    taken = delivered ++ in_flight (pc c) ++ lost /\
    (length lost <= 1)%nat /\ (pc c <> Stopped -> lost = []) /\
    counted c lost cut /\
    bytes_out (meter c) =
      wrap 64 (bytes_out (meter c0) + bytes_of (delivered ++ metered (pc c) ++ cut));
  output_oob : Forall (fun f => data_of f = []) (oob c);
}.

(** A step that touches neither what was sent nor the sender. *)
Lemma output_quiet c0 tk c c' :
  output_run c0 tk c -> sent (link (w c')) = sent (link (w c)) -> pc c' = pc c ->
  bytes_out (meter c') = bytes_out (meter c) -> limiter c' = limiter c -> clock c' = clock c ->
  Forall (fun f => data_of f = []) (oob c') -> output_run c0 (tk ++ []) c'.
Proof.
  intros [(d & l & k & H) _] Hs Hp Hm Hli Hcl Ho. rewrite app_nil_r. split; [|done].
  exists d, l, k. unfold counted. by rewrite Hs, Hp, Hm, Hli, Hcl.
Qed.

(** Nothing is lost before the sender stops. *)
Lemma counted_nil c k : counted c [] k -> k = [].
Proof. by intros [->|(_ & ? & [=] & _)]. Qed.

Lemma counted_none c : counted c [] [].
Proof. by left. Qed.

(** The sender leaves its [select!] with no chunk, or stops there. *)
Lemma output_selected c0 tk c c' :
  output_run c0 tk c -> pc c = Selecting -> sent (link (w c')) = sent (link (w c)) ->
  in_flight (pc c') = [] -> metered (pc c') = [] -> bytes_out (meter c') = bytes_out (meter c) ->
  Forall (fun f => data_of f = []) (oob c') -> output_run c0 (tk ++ []) c'.
Proof.
  intros [(d & l & k & H1 & H2 & H3 & H4 & H5 & H6) _] Hp Hs Hi Hmt Hm Ho. rewrite Hp in *.
  rewrite H4 in * by done. apply counted_nil in H5 as ->. rewrite app_nil_r. split; [|done].
  exists d, [], []. rewrite Hs, Hi, Hmt, Hm. split_and!; first [done|apply counted_none].
Qed.

Lemma receive_output c0 tk c c' :
  output_run c0 tk c -> receive session c = Some c' -> output_run c0 (tk ++ []) c'.
Proof.
  intros Hr. unfold receive. destruct (link_recv (link (w c))) as [[r l]|] eqn:E; [|done].
  cbn [mbind option_bind]. apply link_recv_sent in E. pose proof (output_oob _ _ _ Hr) as Ho.
  assert (Hpong : Forall (fun f => data_of f = []) (oob c ++ [ServerFrame.Pong]))
    by (apply Forall_app; split; [done|by repeat constructor]).
  destruct r as [[v nm rs tk'|t a cs rw|bytes|cs rw|i sg| |]|e]; unfold reply; intros H;
    repeat case_match; simplify_eq; by apply (output_quiet _ _ _ _ Hr).
Qed.

Lemma take_chunk_output c0 tk c c' :
  output_run c0 tk c -> pc c = Selecting -> take_chunk session c = Some c' ->
  output_run c0 (tk ++ taken_now TakeChunk c') c'.
Proof.
  intros Hr Hp (o & _ & H)%bind_Some. pose proof (output_oob _ _ _ Hr) as Ho.
  destruct (next_poll _ _) as [p cur]. cbv zeta in H.
  destruct p as [[bytes|]| |]; [injection H as <-..|done|injection H as <-].
  - destruct Hr as [(d & l & k & H1 & H2 & H3 & H4 & H5 & H6) _]. rewrite Hp in *. rewrite H4 in * by done.
    apply counted_nil in H5 as ->. cbn in H2. rewrite app_nil_r in H2. subst tk. split; [|done].
    exists d, [], []. split_and!; first [done|apply counted_none].
  - by apply (output_selected _ _ _ _ Hr).
  - by apply (output_selected _ _ _ _ Hr).
Qed.

Lemma continue_output c0 tk c c' :
  output_run c0 tk c -> continue c = Some c' -> output_run c0 (tk ++ []) c'.
Proof.
  intros [(d & l & k & H1 & H2 & H3 & H4 & H5 & H6) Ho]. unfold continue. rewrite app_nil_r.
  destruct (pc c) as [|bytes|f|] eqn:Hp; [done| | |done].
  - rewrite H4 in * by done. apply counted_nil in H5 as ->.
    intros ([[lim i]|] & Hth & [= <-])%bind_Some; (split; [|done]); cbn in *.
    + exists d, [], []. split_and!; try first [done|apply counted_none].
      cbn. rewrite H6, wrap_add by lia. rewrite !bytes_of_app.
      unfold bytes_of. cbn [concat]. rewrite !app_nil_r. f_equal. unfold len. cbn [length]. lia.
    + exists d, [bytes], []. split_and!; [done|done|cbn; lia|done| |done].
      right. split; [done|]. by exists bytes.
  - intros ([r lk] & E & [= <-])%bind_Some. rewrite H4 in * by done. apply counted_nil in H5 as ->.
    split; [|done]. cbn in H2, H6 |- *. destruct r as [u|e].
    + apply link_send_ok in E. exists (d ++ data_of f), [], []. cbn [link set_link].
      rewrite E, chunks_app, H1, <-!app_assoc, chunks_one. rewrite app_nil_r in *.
      assert (Hpc : in_flight (match f with ServerFrame.Closed => Stopped | _ => Selecting end) = [] /\
        metered (match f with ServerFrame.Closed => Stopped | _ => Selecting end) = [])
        by (by destruct f).
      destruct Hpc as [-> ->]. cbn. rewrite !app_nil_r.
      split_and!; [done|done|lia|done|apply counted_none|done].
    + apply link_send_err in E. exists d, (data_of f), (data_of f). cbn. rewrite E, app_nil_r in *.
      split_and!; [done|done|destruct f; cbn; lia|done|by left|done].
Qed.

Lemma step_output c0 tk s c c' :
  output_run c0 tk c -> step session s c = Some c' -> output_run c0 (tk ++ taken_now s c') c'.
Proof.
  intros Hr H. pose proof (output_oob _ _ _ Hr) as Ho.
  assert (Hcell : forall f, on_cell session f c = Some c' -> output_run c0 (tk ++ []) c').
  { intros f (o1 & Ho1 & [= <-])%bind_Some. by apply (output_quiet _ _ _ _ Hr). }
  destruct s; cbn [step taken_now] in *; [| | | |by eapply Hcell..].
  - destruct (outcome c); [done|]. by eapply receive_output.
  - destruct (pc c) eqn:Hp; try done. by eapply take_chunk_output.
  - destruct (pc c) eqn:Hp; try done. unfold take_oob in H. destruct (oob_open c); [|done].
    destruct (oob c) as [|f fs] eqn:Hq; [destruct (outcome c)|]; simplify_eq.
    + apply (output_selected _ _ _ _ Hr); try done; cbn; by rewrite ?Hp, ?Hq.
    + apply Forall_cons in Ho as [Hf Hfs]. by apply (output_selected _ _ _ _ Hr).
  - by eapply continue_output.
Qed.

Lemma steps_output c0 ss : forall tk c c',
  output_run c0 tk c -> steps session ss c = Some c' -> output_run c0 (tk ++ taken session ss c) c'.
Proof.
  induction ss as [|s ss IH]; intros tk c c' Hr; cbn [steps taken].
  - intros [= <-]. by rewrite app_nil_r.
  - intros (c1 & E & H)%bind_Some. rewrite E, app_assoc. apply IH; [|done].
    by eapply step_output.
Qed.

(** ** The reader behind the way out *)

(** What a step is to the session's scrollback. *)
Definition event_of (s : Step) : list Event :=
  match s with
  | TargetWrites data => [Output data]
  | TargetEnds => [Ended]
  | TakeChunk => [Next]
  | _ => []
  end.

Definition events_of (ss : list Step) : list Event := concat (map event_of ss).

(** The scrollback and the reader's cursor after one step. *)
Definition scrolled (s : Step) (i : SessionInner) (cur : u64) : SessionInner * u64 :=
  after i cur (event_of s).

Lemma apply_input_inner i c o :
  heap (w c) !! cell session = Some o ->
  exists o', heap (w (apply_input session i c)) !! cell session = Some o' /\ inner o' = inner o.
Proof.
  intros Ho. unfold apply_input, send_input. rewrite Ho. destruct (input_open o); cbn; [|eauto].
  rewrite lookup_insert_eq. eauto.
Qed.

Lemma step_scrolled s c c' o :
  heap (w c) !! cell session = Some o -> step session s c = Some c' ->
  exists o', heap (w c') !! cell session = Some o' /\
    (inner o', cursor c') = scrolled s (inner o) (cursor c).
Proof.
  intros Ho H. assert (Hcell : forall f, on_cell session f c = Some c' ->
    heap (w c') !! cell session = Some (f o) /\ cursor c' = cursor c).
  { intros f (o1 & Ho1 & [= <-])%bind_Some. rewrite Ho in Ho1. injection Ho1 as <-.
    cbn. by rewrite lookup_insert_eq. }
  destruct s; cbn [step] in H; unfold scrolled; cbn [event_of after];
    try (apply Hcell in H as [Hc ->]; eexists; by split).
  - destruct (outcome c); [done|]. unfold receive in H. apply bind_Some in H as ([r l] & _ & H).
    destruct r as [[v nm rs tk|t a cs rw|bytes|cs rw|i sg| |]|e]; unfold reply in H;
      try (repeat case_match; simplify_eq; by exists o).
    + injection H as <-. destruct (apply_input_inner (SshInput.Data bytes)
        (set_meter (add_in (meter c) (len bytes)) (set_w (set_link l (w c)) c)) o Ho) as (o' & Ho' & Hi).
      exists o'. split; [done|]. by rewrite Hi.
    + injection H as <-. destruct (apply_input_inner (SshInput.Resize cs rw)
        (set_w (set_link l (w c)) c) o Ho) as (o' & Ho' & Hi).
      exists o'. split; [done|]. by rewrite Hi.
  - destruct (pc c); try done. exists o. unfold take_chunk in H. rewrite Ho in H.
    apply bind_Some in H as (? & [= <-] & H). destruct (next_poll _ _) as [p cur]. cbv zeta in H.
    destruct p as [[bytes|]| |]; by simplify_eq.
  - destruct (pc c); try done. exists o. unfold take_oob in H. repeat case_match; by simplify_eq.
  - exists o. unfold continue in H. destruct (pc c); simplify_eq.
    + apply bind_Some in H as ([[lim i]|] & _ & H); by simplify_eq.
    + apply bind_Some in H as ([r l] & _ & H). by simplify_eq.
Qed.

(** A stopped sender reads no more. *)
Lemma stopped_step s c c' :
  pc c = Stopped -> step session s c = Some c' -> pc c' = Stopped /\ s <> TakeChunk.
Proof.
  intros Hp H. assert (Hcell : forall f, on_cell session f c = Some c' -> pc c' = Stopped)
    by (by intros f (o1 & Ho1 & [= <-])%bind_Some).
  destruct s; cbn [step] in H; rewrite ?Hp in H; try done; try (split; [by eapply Hcell|done]).
  - destruct (outcome c); [done|]. split; [|done]. unfold receive, reply in H.
    apply bind_Some in H as ([[f|] l] & _ & H); [|by simplify_eq].
    destruct f; try (injection H as <-; exact Hp).
    cbn [pc set_w] in H. rewrite Hp in H. by injection H as <-.
  - unfold continue in H. by rewrite Hp in H.
Qed.

Lemma stopped_steps ss : forall c c',
  pc c = Stopped -> steps session ss c = Some c' -> pc c' = Stopped.
Proof.
  induction ss as [|s ss IH]; intros c c' Hp; cbn [steps]; [by intros [= <-]|].
  intros (c1 & E & H)%bind_Some. eapply IH; [|exact H]. by eapply stopped_step.
Qed.

Lemma run_app evs1 evs2 : forall i cur,
  run i cur (evs1 ++ evs2) =
  run i cur evs1 ++ run (after i cur evs1).1 (after i cur evs1).2 evs2.
Proof.
  induction evs1 as [|[data| | |] evs1 IH]; intros i cur; cbn [app run after]; [done|by rewrite IH..|].
  destruct (next_poll i cur) as [p cur']. cbn. by rewrite IH.
Qed.

Lemma received_app ps1 ps2 : received (ps1 ++ ps2) = received ps1 ++ received ps2.
Proof.
  induction ps1 as [|p ps1 IH]; [done|]. rewrite <-app_comm_cons.
  rewrite (received_cons p (ps1 ++ ps2)), (received_cons p ps1), IH.
  by rewrite app_assoc.
Qed.

(** The chunks taken are what a reader of the session would receive. *)
Lemma steps_taken ss : forall c c' o,
  heap (w c) !! cell session = Some o -> steps session ss c = Some c' ->
  received (run (inner o) (cursor c) (events_of ss)) = concat (taken session ss c).
Proof.
  induction ss as [|s ss IH]; intros c c' o Ho; cbn [steps taken]; [done|].
  intros (c1 & E & H)%bind_Some. rewrite E. change (events_of (s :: ss)) with (event_of s ++ events_of ss).
  destruct (step_scrolled _ _ _ _ Ho E) as (o1 & Ho1 & Hs). unfold scrolled in Hs.
  rewrite run_app, received_app, <-Hs. cbn [fst snd]. rewrite (IH _ _ _ Ho1 H), concat_app. f_equal.
  destruct s; try done. cbn [step event_of] in *. destruct (pc c) eqn:Hp; try done.
  unfold take_chunk in E. rewrite Ho in E. apply bind_Some in E as (? & [= <-] & E).
  cbn [run]. destruct (next_poll _ _) as [p cur]. cbv zeta in E.
  by destruct p as [[bytes|]| |]; simplify_eq.
Qed.

Lemma output_attached x e : output_run (attach x e) [] (attach x e).
Proof.
  split; [|constructor]. exists [], [], []. cbn. rewrite app_nil_r.
  split_and!; [done|done|lia|done|apply counted_none|by rewrite wrap_id].
Qed.

(** C26: input is faithful.  Over any run of a connection, the session's actor
    is given exactly the keystrokes and resizes of the frames the client sent,
    in their order, as long as it takes input (a prefix of them otherwise),
    and the input the connection reports is the bytes of those frames, modulo
    [2 ^ 64]. *)
Theorem connection_input x e ss c o :
  heap x !! cell session = Some o -> steps session ss (attach x e) = Some c ->
  let fs := heard session ss (attach x e) in
  (totals (meter c)).1 = wrap 64 (payloads fs) /\
  exists o' passed lost, heap (w c) !! cell session = Some o' /\
    inputs_of fs = passed ++ lost /\ sent_input o' = sent_input o ++ passed /\
    (input_open o' = true -> lost = []).
Proof.
  intros Ho H fs. destruct (steps_input session ss (attach x e) c o Ho ltac:(done) H)
    as [o' [Hm Hc (p & l & Hi & Hs & Hop & _)]].
  split; [exact Hm|]. by exists o', p, l.
Qed.

(** C7: output is faithful.  On a session whose target has written [hist], over
    any run of a connection, the data frames the client is sent are, in order,
    what a reader that starts at the oldest byte still held reads of the whole
    output; nothing is missing while the sender is waiting for more. *)
Theorem connection_output x e ss c o hist :
  heap x !! cell session = Some o -> represents (inner o) hist ->
  len (hist ++ total (events_of ss)) < 2 ^ 64 ->
  steps session ss (attach x e) = Some c ->
  exists delivered missing,
    chunks (sent (link (w c))) = chunks (sent (link x)) ++ delivered /\
    received (Spec.run (max_bytes (inner o)) hist (closed (inner o)) 0 (events_of ss)) =
      concat delivered ++ missing /\
    (pc c = Selecting -> missing = []).
Proof.
  intros Ho Hrep Hlen H.
  destruct (steps_output (attach x e) ss [] _ _ (output_attached x e) H) as [(d & l & k & H1 & H2 & _ & H4 & _) _].
  pose proof (steps_taken ss (attach x e) c o Ho H) as Hrec.
  change (cursor (attach x e)) with 0 in Hrec. pose proof (len_nonneg hist).
  rewrite (run_represents _ _ hist) in Hrec by (done || lia).
  exists d, (concat (in_flight (pc c)) ++ concat l). split_and!; [exact H1| |].
  - rewrite Hrec. cbn [app] in H2. by rewrite H2, !concat_app.
  - intros Hp. rewrite Hp in *. by rewrite H4.
Qed.

(** C33: usage is what was sent.  The output a connection reports is, modulo
    [2 ^ 64], the bytes of the data frames the client was sent; with those of the
    frame it is sending, when that is in the middle; and once the sender has
    stopped, with those of the one chunk it had taken and could not deliver,
    unless the limiter panicked before it was counted.  A chunk still at the
    limiter is not counted. *)
Theorem connection_usage x e ss c :
  steps session ss (attach x e) = Some c ->
  exists delivered lost cut,
    chunks (sent (link (w c))) = chunks (sent (link x)) ++ delivered /\
    taken session ss (attach x e) = delivered ++ in_flight (pc c) ++ lost /\
    (length lost <= 1)%nat /\ (pc c <> Stopped -> lost = []) /\
    (cut = lost \/
     cut = [] /\ exists bytes, lost = [bytes] /\
       throttle now fuel (limiter c) (clock c) (len bytes) = Some None) /\
    (totals (meter c)).2 =
      wrap 64 (bytes_of (delivered ++ match pc c with Sending f => data_of f | _ => [] end ++ cut)).
Proof.
  intros H.
  destruct (steps_output (attach x e) ss [] _ _ (output_attached x e) H)
    as [(d & l & k & H1 & H2 & H3 & H4 & H5 & H6) _].
  by exists d, l, k.
Qed.

(** C8: close and detach.  When a connection ends its usage is reported, once.
    If the client closed the session, or the session has ended, it is then
    reported closed and leaves the registry: its token names nothing any more,
    every other session stays.  Otherwise it is held: registry and token are
    as they were, and the control plane is told nothing more.  A report that the
    control plane never answers holds the connection's task there. *)
Theorem connection_end hook n out c live :
  holds (manager (w c)) live -> Negotiate.session n ∈ live ->
  let s := Negotiate.session n in
  let sid := uuid_to_string (id s) in
  match report_usage hook (account_token n) sid (totals (meter c)).1 (totals (meter c)).2 (plane (w c)) with
  | None => conclude hook n out c = None
  | Some (_, reported) =>
      if bool_decide (out = Closed) || is_closed (heap (w c)) s then
        match session_close hook (account_token n) sid reported with
        | None => conclude hook n out c = None
        | Some (_, told) =>
            exists x, conclude hook n out c = Some x /\ plane x = told /\
              holds (manager x) (Spec.without live (id s)) /\
              resume (manager x) (Registry.resume_token s) = None
        end
      else
        exists x, conclude hook n out c = Some x /\ plane x = reported /\ holds (manager x) live /\
          resume (manager x) (Registry.resume_token s) = Some s
  end.
Proof.
  intros Hl Hs s sid. unfold conclude, on_plane, on_part. cbn [totals fst snd]. fold s sid.
  destruct (report_usage _ _ _ _ _ _) as [[[] reported]|]; [|done]. cbn [mbind option_bind].
  change (heap (set_plane _ (w c))) with (heap (w c)). cbn [plane set_plane].
  destruct (bool_decide (out = Closed) || is_closed (heap (w c)) s); cbn.
  - destruct (session_close _ _ _ _) as [[[] told]|]; [|done]. eexists. split; [done|]. cbn.
    pose proof (remove_holds _ _ Hl (id s)) as Hr. split_and!; [done|done|].
    rewrite (resume_holds _ _ Hr). destruct (Spec.bearer _ _) as [s'|] eqn:E; [|done].
    apply resume_spec_Some in E as [Hin Ht]; [|apply Hr].
    apply list_elem_of_filter in Hin as [Hne Hin]. destruct Hne. f_equal.
    by eapply NoDup_fmap_inj; [apply (tokens_distinct _ _ Hl)|..].
  - eexists. split; [done|]. split_and!; [done|done|]. cbn. rewrite (resume_holds _ _ Hl).
    apply resume_spec_Some; [apply Hl|done].
Qed.

End Out.

End Connection.

(** ** Witnesses *)

Module Witness.
Import Registry.Witness Ssh.Witness Negotiate.Witness.
#[local] Existing Instance Wire.quinn_error.

(** One session, freshly opened, and a client that types, pings and closes. *)
Definition made := create (G:=Z) new ∅ 0 (mkSshHandle None).
Definition s : Session := made.1.1.1.

Definition typed : list ClientFrame :=
  [ClientFrame.Data (as_bytes "ls"); ClientFrame.Ping; ClientFrame.Resize 80 24; ClientFrame.Close].

Definition world (budget : nat) : World (L:=Script) (CP:=Z * Z) (G:=Z) (N:=list string) :=
  mkWorld (mkScript typed [] budget) (1, 0) made.1.1.2 made.1.2 made.2 [].

Definition now (i : nat) : Instant := Z.of_nat i.

Definition run_steps : list Step :=
  [TargetWrites (as_bytes "$ "); TakeChunk; Receive; Continue; Receive; Continue; TakeOob; Continue;
   Receive; TargetWrites (as_bytes "a.out"); TakeChunk; Continue; Continue; Receive].

Definition final (budget : nat) :=
  default (attach now (world budget) unlimited) (steps now 0 s run_steps (attach now (world budget) unlimited)).

Lemma run_final : steps now 0 s run_steps (attach now (world 10) unlimited) = Some (final 10).
Proof. vm_compute. reflexivity. Defined.

Definition o : Cell := mkCell (new_inner DEFAULT_SCROLLBACK_BYTES) [] true.

Lemma o_cell : heap (world 10) !! cell s = Some o.
Proof. vm_compute. reflexivity. Defined.

Lemma connection_input_witness :
  let fs := heard now 0 s run_steps (attach now (world 10) unlimited) in
  (totals (meter (final 10))).1 = wrap 64 (payloads fs) /\
  exists o' passed lost, heap (w (final 10)) !! cell s = Some o' /\
    inputs_of fs = passed ++ lost /\ sent_input o' = sent_input o ++ passed /\
    (input_open o' = true -> lost = []).
Proof. exact (connection_input now 0 s (world 10) unlimited run_steps (final 10) o o_cell run_final). Defined.

Lemma connection_output_witness :
  exists delivered missing,
    chunks (outbox (link (w (final 10)))) = chunks (outbox (link (world 10))) ++ delivered /\
    received (Spec.run (max_bytes (inner o)) [] (closed (inner o)) 0 (events_of run_steps)) =
      concat delivered ++ missing /\
    (pc (final 10) = Selecting -> missing = []).
Proof.
  apply (connection_output now 0 s (world 10) unlimited run_steps (final 10) o []
    o_cell (represents_new DEFAULT_SCROLLBACK_BYTES ltac:(done)) ltac:(done) run_final).
Defined.

(** The same client on a connection that carries one frame only: the second chunk
    is lost with it, and counted. *)
Definition broken_steps : list Step :=
  [TargetWrites (as_bytes "$ "); TakeChunk; Continue; Continue; TargetWrites (as_bytes "a.out");
   TakeChunk; Continue; Continue].

Definition broken :=
  default (attach now (world 1) unlimited) (steps now 0 s broken_steps (attach now (world 1) unlimited)).

Lemma run_cut_off : steps now 0 s broken_steps (attach now (world 1) unlimited) = Some broken.
Proof. vm_compute. reflexivity. Defined.

Lemma connection_usage_witness :
  exists delivered lost cut,
    chunks (outbox (link (w broken))) = chunks (outbox (link (world 1))) ++ delivered /\
    [as_bytes "$ "; as_bytes "a.out"] = delivered ++ [] ++ lost /\
    (length lost <= 1)%nat /\ (pc broken <> Stopped -> lost = []) /\
    (cut = lost \/
     cut = [] /\ exists bytes, lost = [bytes] /\
       throttle now 0 (limiter broken) (clock broken) (len bytes) = Some None) /\
    7 = wrap 64 (bytes_of (delivered ++ [] ++ cut)).
Proof. exact (connection_usage now 0 s (world 1) unlimited broken_steps broken run_cut_off). Defined.

(** What they come to there. *)
Example final_state :
  (totals (meter (final 10)), outbox (link (w (final 10))), outcome (final 10), sent_input <$> heap (w (final 10)) !! cell s) =
  ((2, 7), [ServerFrame.Data (as_bytes "$ "); ServerFrame.Pong; ServerFrame.Data (as_bytes "a.out")],
   Some Closed, Some [SshInput.Data (as_bytes "ls"); SshInput.Resize 80 24]).
Proof. vm_compute. reflexivity. Qed.

Definition negotiated : Negotiated := mkNegotiated s unlimited None.

Lemma final_holds : holds (manager (w (final 10))) [s].
Proof.
  assert (E : manager (w (final 10)) = made.1.1.2) by (vm_compute; reflexivity). rewrite E.
  eapply (create_holds new [] (holds_new DEFAULT_SCROLLBACK_BYTES) ∅ 0 (mkSshHandle None) s _ made.1.2 made.2);
    [reflexivity|intros H; inversion H..].
Defined.

Lemma connection_end_witness :
  exists x, conclude counting negotiated Closed (final 10) = Some x /\
    plane x = (1, 1) /\ holds (manager x) [] /\ resume (manager x) (Registry.resume_token s) = None.
Proof.
  pose proof (connection_end counting negotiated Closed (final 10) [s] final_holds
    (list_elem_of_here s [])) as H.
  cbn [Negotiate.session negotiated report_usage session_close counting default_report_usage] in H.
  assert (Ep : plane (w (final 10)) = (1, 0)) by (vm_compute; reflexivity). rewrite Ep in H.
  rewrite bool_decide_true in H by done. cbn -[conclude] in H. destruct H as (x & Hx & Hp & Hh & Hr).
  exists x. split; [exact Hx|]. split; [rewrite Hp; reflexivity|]. split; [exact Hh|exact Hr].
Defined.

(** Two connections attached to the session when it ends: each of them reports
    the session closed, though it was opened once. *)
Example closed_twice :
  (x ← conclude counting negotiated Closed (final 10);
   plane <$> conclude counting negotiated Detached
               (attach now (set_heap (<[cell s := mkCell (set_closed (inner o)) [] false]> (heap x)) x)
                  unlimited)) = Some (1, 2).
Proof. vm_compute. reflexivity. Qed.

End Witness.
