(* ===== verification/Bounds.v ===== *)
(** * What a connection can hold

    The types of [receiver_loop] and [sender_task] do not bound what they
    accumulate; the program does.  [tidy] is the shape of a connection's state
    that every step keeps: its queue of replies within its channel's capacity,
    its counters within their width, at most one chunk in hand, of at most the
    session's scrollback. *)

From S2P Require Import Prelude Frame Codec WireFormat Framed Scrollback Registry Quota Throttle Link Ssh Negotiate Connection.

(** The buffer never outgrows its bound. *)
Lemma append_bounded i data :
  0 <= max_bytes i -> max_bytes (append i data) = max_bytes i /\ len (buf (append i data)) <= max_bytes i.
Proof.
  intros Hm. unfold append. case_decide; cbn; split; try done; [|lia].
  unfold len. rewrite length_drop. unfold len in *. lia.
Qed.

Lemma next_poll_bounded i cur chunk cur' :
  next_poll i cur = (Ready (Some chunk), cur') -> len chunk <= len (buf i).
Proof.
  unfold next_poll. repeat case_decide; repeat case_match; intros; simplify_eq.
  all: unfold len; rewrite length_drop; lia.
Qed.

Section Bounds.
Context {PE : PostcardError} {QE : QuinnError} {RN : Renderings}.
Context {L : Type} {LK : Link L} {LL : LinkLaws L}.
Context {CP : Type} {G : Type} {EN : Entropy G} {N : Type} {RU : Russh N}.
Context (now : nat -> Instant) (fuel : nat) (session : Session) (limited : bool) (m : usize).
#[local] Abbreviation Conn := (@Conn L CP G N).
#[local] Abbreviation World := (@World L CP G N).

Record tidy (c : Conn) : Prop := {
  tidy_oob : Forall (fun f => f = ServerFrame.Pong) (oob c) /\ len (oob c) <= OOB_CAPACITY;
  tidy_meter : fits 64 (bytes_in (meter c)) /\ fits 64 (bytes_out (meter c));
  tidy_chunk : bytes_of (in_flight (pc c)) <= m;
  tidy_limiter : is_Some (limiter c) <-> limited = true;
  tidy_object : exists o, heap (w c) !! cell session = Some o /\ max_bytes (inner o) = m /\
    len (buf (inner o)) <= m;
}.

Lemma throttle_limiter lim i amount lim' i' :
  throttle now fuel lim i amount = Some (Some (lim', i')) -> is_Some lim' <-> is_Some lim.
Proof.
  unfold throttle. destruct lim as [[b last]|]; [|by intros [= <- _]].
  intros ([b' last' j sl|] & _ & H)%bind_Some; simplify_eq. split; eauto.
Qed.

(** The session's object after a step, from what the step is to the scrollback. *)
Lemma tidy_object_step st (c c' : Conn) :
  0 <= m -> tidy c -> step now fuel session st c = Some c' ->
  exists o, heap (w c') !! cell session = Some o /\ max_bytes (inner o) = m /\ len (buf (inner o)) <= m.
Proof.
  intros Hm [_ _ _ _ (o & Ho & Hmax & Hbuf)] H.
  destruct (step_scrolled now fuel session st c c' o Ho H) as (o' & Ho' & Hs).
  exists o'. split; [done|]. unfold scrolled in Hs.
  destruct st; cbn in Hs; try (injection Hs as -> _; by split).
  injection Hs as E _. rewrite E. destruct (append_bounded (inner o) data); [lia|].
  split; [congruence|lia].
Qed.

Lemma data_of_pong f : f = ServerFrame.Pong -> data_of f = [].
Proof. by intros ->. Qed.

Lemma bytes_of_one b : bytes_of [b] = len b.
Proof. unfold bytes_of. cbn. by rewrite app_nil_r. Qed.

Lemma step_tidy st (c c' : Conn) :
  0 <= m -> tidy c -> step now fuel session st c = Some c' -> tidy c'.
Proof.
  intros Hm Ht H. pose proof (tidy_object_step _ _ _ Hm Ht H) as Hobj.
  assert (Hzero : bytes_of [] <= m) by done.
  assert (Hkeep : forall x : Conn, oob x = oob c -> meter x = meter c -> bytes_of (in_flight (pc x)) <= m ->
    limiter x = limiter c ->
    (exists o, heap (w x) !! cell session = Some o /\ max_bytes (inner o) = m /\ len (buf (inner o)) <= m) ->
    tidy x).
  { intros x Hq Hme Hp Hl Ho. destruct Ht. split; rewrite ?Hq, ?Hme, ?Hl; done. }
  pose proof Ht as [[Hpong Hcap] [Hin Hout] Hchunk Hlim (o & Ho & Hmax & Hbuf)].
  assert (Hcell : forall f, on_cell session f c = Some c' -> tidy c').
  { intros f (o1 & Ho1 & [= <-])%bind_Some. by apply Hkeep. }
  destruct st; cbn [step] in H; [| | | |by eapply Hcell..].
  - destruct (outcome c); [done|]. unfold receive in H. apply bind_Some in H as ([[f|e] l] & _ & H).
    2: { injection H as <-. by apply Hkeep. }
    destruct f; unfold reply in H; try (injection H as <-; by apply Hkeep).
    + injection H as <-. split; try done. split; [|done]. cbn. by apply wrap_fits.
    + cbn [pc oob set_w] in H.
      assert (Hr : c' = set_w (set_link l (w c)) c \/
        (len (oob c) < OOB_CAPACITY /\ c' = set_oob (oob c ++ [ServerFrame.Pong]) (set_w (set_link l (w c)) c)))
        by (destruct (pc c); [case_decide; simplify_eq; auto..|simplify_eq; auto]).
      destruct Hr as [->|[Hlt ->]]; [by apply Hkeep|]. split; try done. cbn. split.
      * apply Forall_app. split; [done|by repeat constructor].
      * rewrite len_app. unfold len at 2. cbn. lia.
  - destruct (pc c) eqn:Ep; try done. unfold take_chunk in H. rewrite Ho in H.
    apply bind_Some in H as (? & [= <-] & H). destruct (next_poll _ _) as [p cur] eqn:Enp.
    destruct p as [[bytes|]| |]; [injection H as <-|injection H as <-; by apply Hkeep|done|injection H as <-; by apply Hkeep].
    apply next_poll_bounded in Enp. apply Hkeep; try done. cbn [pc set_pc in_flight].
    rewrite bytes_of_one. lia.
  - destruct (pc c) eqn:Ep; try done. unfold take_oob in H. destruct (oob_open c); [|done].
    destruct (oob c) as [|f fs] eqn:Eq; [destruct (outcome c); [|done]; injection H as <-; apply Hkeep; try done;
      cbn; by rewrite ?Ep|].
    injection H as <-. apply Forall_cons in Hpong as [-> Hpong].
    split; try done. cbn. split; [done|]. unfold len in *. cbn in Hcap. lia.
  - unfold continue in H. destruct (pc c) as [|bytes|f|] eqn:Ep; simplify_eq.
    + apply bind_Some in H as ([[lim i]|] & Hth & [= <-]); [|by apply Hkeep].
      apply throttle_limiter in Hth. split; try done; cbn; [|by rewrite Hth].
      split; [done|by apply wrap_fits].
    + apply bind_Some in H as ([[u|e] l] & _ & [= <-]); apply Hkeep; try done. by destruct f.
Qed.

Lemma steps_tidy ss : forall c c' : Conn,
  0 <= m -> tidy c -> steps now fuel session ss c = Some c' -> tidy c'.
Proof.
  induction ss as [|st ss IH]; intros c c' Hm Ht; cbn [steps]; [by intros [= <-]|].
  intros (c1 & E & H)%bind_Some. eapply IH; [done| |exact H]. by eapply step_tidy.
Qed.

End Bounds.

(** C28: a connection is well formed, and its memory bounded.  Over any run of a
    connection its replies are pongs, at most the sixteen its channel holds,
    its two counters stay within 64 bits, it has a limiter exactly when the
    entitlement sets a rate, the sender holds at most one chunk, never larger
    than the session's scrollback bound, and the scrollback itself stays
    within that bound. *)
Theorem connection_bounded {PE : PostcardError} {QE : QuinnError} {RN : Renderings}
    {L : Type} {LK : Link L} {LL : LinkLaws L} {CP G : Type} {EN : Entropy G} {N : Type} {RU : Russh N}
    (now : nat -> Instant) fuel session (x : World (L:=L) (CP:=CP) (G:=G) (N:=N)) e ss c o :
  heap x !! cell session = Some o -> 0 <= len (buf (inner o)) <= max_bytes (inner o) ->
  steps now fuel session ss (attach now x e) = Some c ->
  tidy session (bool_decide (is_Some (max_bytes_per_sec e))) (max_bytes (inner o)) c.
Proof.
  intros Ho Hbuf. apply steps_tidy; [lia|]. split; cbn.
  - by split; [constructor|].
  - by split.
  - change (bytes_of []) with 0. lia.
  - unfold limiter_new. rewrite bool_decide_eq_true.
    by destruct (max_bytes_per_sec e); split; intros [? ?]; eauto.
  - exists o. split_and!; [done..|lia].
Qed.

(** ** Witness *)

Module Witness.
Import Registry.Witness Ssh.Witness Negotiate.Witness Connection.Witness.
#[local] Existing Instance Wire.quinn_error.

Lemma connection_bounded_witness : tidy s false DEFAULT_SCROLLBACK_BYTES (final 10).
Proof.
  refine (connection_bounded Connection.Witness.now 0 s (world 10) unlimited run_steps (final 10) o o_cell _ run_final).
  vm_compute. split; discriminate.
Defined.

End Witness.
