(* ===== verification/Phases.v ===== *)
(** * A connection's task, one suspension at a time ([handle_connection] and
    [negotiate] in [crates/gw-server/src/handler.rs])

    Negotiate.v and Connection.v give what a connection's task does when no
    other task comes in between.  But the task is suspended at every [await],
    and there other connections, which share its registry and its control
    plane, go on.  [Phase] and [Ending] are the points where [negotiate] and the
    end of [handle_connection] can be suspended, [phase_step] and [ending_step]
    the code between two of them; [connection_phases] shows that together they
    are the same functions.  Gateway.v interleaves them. *)

From S2P Require Import Prelude Frame Codec WireFormat Framed Scrollback Registry Quota Throttle Link Ssh Negotiate Connection.

Section Phases.
Context {PE : PostcardError} {QE : QuinnError} {RN : Renderings}.
Context {L : Type} {LK : Link L}.
Context {CP : Type} {G : Type} {EN : Entropy G} {N : Type} {RU : Russh N}.

#[local] Abbreviation World := (@World L CP G N).
#[local] Abbreviation Conn := (@Conn L CP G N).

(** ** Negotiation *)

(** About to do what the name says, with the locals still needed. *)
Inductive Phase : Type :=
  | AwaitHello
  | Authorizing (client_name : string) (resume_token : option ResumeToken)
      (account_token : option (list byte))
  | Finding (client_name : string) (resume_token : option ResumeToken)
      (account_token : option (list byte)) (entitlement : Entitlement)
  | AwaitOpen (client_name : string) (account_token : option (list byte))
      (entitlement : Entitlement)
  | Opening (target : TargetSpec) (auth : AuthIntent) (cols rows : u16) (client_name : string)
      (account_token : option (list byte)) (entitlement : Entitlement)
  | Creating (ssh : SshHandle) (client_name : string) (account_token : option (list byte))
      (entitlement : Entitlement)
  | Announcing (s : Session) (client_name : string) (account_token : option (list byte))
      (entitlement : Entitlement)
  | Withdrawing (s : Session) (message : string)
  | Refusing (message : string)
  | Greeting (s : Session) (resumed : bool) (account_token : option (list byte))
      (entitlement : Entitlement)
  | GoingLive (s : Session) (account_token : option (list byte)) (entitlement : Entitlement)
  | Answered (r : Result (option Negotiated) Error).

(** What follows the first frame. *)
Definition on_hello (f : ClientFrame) : Phase :=
  match f with
  | ClientFrame.Hello version client_name resume_token account_token =>
      if decide (version <> PROTOCOL_VERSION) then Refusing (version_mismatch version)
      else Authorizing client_name resume_token account_token
  | _ => Refusing "expected Hello"
  end.

(** A fallible call on the connection: its error ends the negotiation. *)
Definition or_fail {A} (m : Eff World (Result A TransportError)) (k : A -> Phase)
    : Eff World Phase :=
  r ← any m;
  mret (match r with
        | Ok a => k a
        | Err e => Answered (Err e)
        end).

(** To the next suspension; [None] when the call never returns, or when nothing
    is left to do. *)
Definition phase_step (fuel : nat) (hook : AuthHook CP) (p : Phase) : Eff World Phase :=
  match p with
  | AwaitHello => or_fail recv_frame on_hello
  | Authorizing name resume_token token =>
      authorized ← on_plane (authorize hook name token);
      mret (match authorized with
            | Err denied => Refusing (Denied_display denied)
            | Ok entitlement => Finding name resume_token token entitlement
            end)
  | Finding name resume_token token entitlement =>
      existing ← reads (fun w => t ← resume_token; resume (manager w) (resume_bytes t));
      mret (match existing with
            | Some s => Greeting s true token entitlement
            | None => AwaitOpen name token entitlement
            end)
  | AwaitOpen name token entitlement =>
      or_fail recv_frame (fun f =>
        match f with
        | ClientFrame.Open target auth cols rows =>
            Opening target auth cols rows name token entitlement
        | _ => Refusing "expected Open"
        end)
  | Opening target auth cols rows name token entitlement =>
      opened ← open_for_auth fuel target auth cols rows;
      mret (match opened with
            | Ok ssh => Creating (spawn_actor ssh) name token entitlement
            | Err error => Refusing ("connect failed: " +:+ Error_display error)
            end)
  | Creating ssh name token entitlement =>
      s ← create_session ssh; mret (Announcing s name token entitlement)
  | Announcing s name token entitlement =>
      announced ← announce hook name token s false;
      mret (match announced with
            | Err denied => Withdrawing s (Denied_display denied)
            | Ok _ => Greeting s false token entitlement
            end)
  | Withdrawing s message =>
      _ ← modifies (fun w => set_manager (remove (manager w) (id s)) w); mret (Refusing message)
  | Refusing message =>
      or_fail (send_frame (ServerFrame.Error message)) (fun _ => Answered (Ok None))
  | Greeting s resumed token entitlement =>
      or_fail (send_frame (ServerFrame.Hello PROTOCOL_VERSION (id s) resumed
                             (mkResumeToken (Registry.resume_token s))))
        (fun _ => GoingLive s token entitlement)
  | GoingLive s token entitlement =>
      or_fail (send_frame (ServerFrame.Status SessionStatus.Live))
        (fun _ => Answered (Ok (Some (mkNegotiated s entitlement token))))
  | Answered _ => fun _ => None
  end.

(** At most [n] steps, with nothing in between. *)
Fixpoint run_phases (fuel : nat) (hook : AuthHook CP) (n : nat) (p : Phase)
    : Eff World (Result (option Negotiated) Error) :=
  match p, n with
  | Answered r, _ => mret r
  | _, O => fun _ => None
  | _, S n => p ← phase_step fuel hook p; run_phases fuel hook n p
  end.

(** ** The end of the connection *)

(** After the receiver's loop. *)
Inductive Ending : Type :=
  | Reporting (out : Outcome) (bytes_in bytes_out : u64)
  | Deciding (out : Outcome)
  | Closing
  | Removing
  | Over.

Definition ending_step (hook : AuthHook CP) (n : Negotiated) (e : Ending) : Eff World Ending :=
  let session := session n in
  let session_id := uuid_to_string (id session) in
  match e with
  | Reporting out bytes_in bytes_out =>
      _ ← on_plane (report_usage hook (account_token n) session_id bytes_in bytes_out);
      mret (Deciding out)
  | Deciding out =>
      closed ← reads (fun w => is_closed (heap w) session);
      mret (if bool_decide (out = Closed) || closed : bool then Closing else Over)
  | Closing =>
      _ ← on_plane (session_close hook (account_token n) session_id); mret Removing
  | Removing =>
      _ ← modifies (fun w => set_manager (remove (manager w) (id session)) w); mret Over
  | Over => fun _ => None
  end.

Fixpoint run_ending (hook : AuthHook CP) (n : Negotiated) (k : nat) (e : Ending) (w : World)
    : option World :=
  match e, k with
  | Over, _ => Some w
  | _, O => None
  | _, S k =>
      match ending_step hook n e w with
      | Some (e, w) => run_ending hook n k e w
      | None => None
      end
  end.

(** [sender.abort()], and the meter read. *)
Definition leave (out : Outcome) (c : Conn) : Ending :=
  let '(bytes_in, bytes_out) := totals (meter c) in Reporting out bytes_in bytes_out.

(** ** The same functions *)

Section Same.
Context (fuel : nat) (hook : AuthHook CP).
#[local] Abbreviation phases := (run_phases fuel hook).

Lemma phases_step n p (w : World) :
  (forall r, p <> Answered r) ->
  phases (S n) p w =
  match phase_step fuel hook p w with Some (p, w) => phases n p w | None => None end.
Proof. intros Hp. destruct p; try done. by destruct (Hp r). Qed.

Lemma phases_answered n r (w : World) : phases n (Answered r) w = Some (r, w).
Proof. by destruct n. Qed.

Lemma or_fail_phases {A} n (m : Eff World (Result A TransportError)) k w :
  match or_fail m k w with Some (p, w) => phases n p w | None => None end =
  bind_ok (any m) (fun a => phases n (k a)) w.
Proof.
  unfold or_fail, bind_ok, mbind, eff_bind. destruct (any m w) as [[[a|e] w']|]; [done| |done].
  exact (phases_answered n (Err e) w').
Qed.

Lemma bind_phases {A} n (m : Eff World A) (k : A -> Phase) w :
  match (m ≫= fun a => mret (k a)) w with Some (p, w) => phases n p w | None => None end =
  (m ≫= fun a => phases n (k a)) w.
Proof. unfold mbind, eff_bind. by destruct (m w) as [[a w']|]. Qed.

Lemma bind_ext {A B} (m : Eff World A) (k1 k2 : A -> Eff World B) w :
  (forall a w, k1 a w = k2 a w) -> (m ≫= k1) w = (m ≫= k2) w.
Proof. intros Hk. unfold mbind, eff_bind. destruct (m w) as [[a w']|]; [apply Hk|done]. Qed.

Lemma bind_ok_ext {A B E} (m : Eff World (Result A E)) (k1 k2 : A -> Eff World (Result B E)) w :
  (forall a w, k1 a w = k2 a w) -> bind_ok m k1 w = bind_ok m k2 w.
Proof. intros Hk. apply bind_ext. intros [a|e] w1; [apply Hk|done]. Qed.

Lemma bind_reads {A B} (f : World -> A) (k : A -> Eff World B) w : (reads f ≫= k) w = k (f w) w.
Proof. done. Qed.

Lemma bind_ok_eq {A B E} (m : Eff World (Result A E)) (k : A -> Eff World (Result B E)) w :
  bind_ok m k w =
  match m w with
  | Some (Ok a, w) => k a w
  | Some (Err e, w) => Some (Err e, w)
  | None => None
  end.
Proof. unfold bind_ok, mbind, eff_bind. by destruct (m w) as [[[a|e] w']|]. Qed.

Lemma refusing_phases n message (w : World) : phases (S n) (Refusing message) w = refuse message w.
Proof.
  rewrite phases_step by done. cbn [phase_step]. rewrite or_fail_phases. apply bind_ok_ext.
  intros [] w1. apply phases_answered.
Qed.

Lemma greeting_phases n s resumed token entitlement (w : World) :
  phases (S (S n)) (Greeting s resumed token entitlement) w =
  bind_ok (any (send_frame (ServerFrame.Hello PROTOCOL_VERSION (id s) resumed
                              (mkResumeToken (Registry.resume_token s)))))
    (fun _ => bind_ok (any (send_frame (ServerFrame.Status SessionStatus.Live)))
                (fun _ => mret (Ok (Some (mkNegotiated s entitlement token))))) w.
Proof.
  rewrite phases_step by done. cbn [phase_step]. rewrite or_fail_phases. apply bind_ok_ext.
  intros [] w1. rewrite phases_step by done. cbn [phase_step]. rewrite or_fail_phases.
  apply bind_ok_ext. intros [] w2. apply phases_answered.
Qed.

Lemma announcing_phases n s name token entitlement (w : World) :
  phases (S (S (S n))) (Announcing s name token entitlement) w =
  welcome_client hook name token entitlement s false w.
Proof.
  rewrite phases_step by done. cbn [phase_step]. rewrite bind_phases. unfold welcome_client.
  apply bind_ext. intros [u|denied] w1; [apply greeting_phases|].
  rewrite phases_step by done. cbn [phase_step]. rewrite (bind_phases _ _ (fun _ => _)).
  apply bind_ext. intros [] w2. apply refusing_phases.
Qed.

(** What [negotiate] does once the client is let in. *)
Definition admitted (name : string) (resume_token : option ResumeToken)
    (token : option (list byte)) (entitlement : Entitlement)
    : Eff World (Result (option Negotiated) Error) :=
  bind_ok (find_session fuel resume_token) (fun found =>
    match found with
    | None => mret (Ok None)
    | Some (s, resumed) => welcome_client hook name token entitlement s resumed
    end).

(** [bind_ok] after a call that found nothing. *)
Lemma refuse_then {A B} message (k : option A -> Eff World (Result (option B) Error)) w :
  (forall w, k None w = Some (Ok None, w)) ->
  bind_ok (refuse message) k w = refuse message w.
Proof.
  intros Hk. unfold refuse, bind_ok, mbind, eff_bind, any, fmap, eff_fmap, mbind, eff_bind.
  destruct (send_frame _ w) as [[[[]|e] w1]|]; cbn; [apply Hk|done|done].
Qed.

Lemma opening_phases n target auth cols rows name token entitlement (w : World) :
  phases (S (S (S (S (S n))))) (Opening target auth cols rows name token entitlement) w =
  bind_ok
    (opened ← open_for_auth fuel target auth cols rows;
     match opened with
     | Ok ssh => s ← create_session (spawn_actor ssh); mret (Ok (Some (s, false)))
     | Err error => refuse ("connect failed: " +:+ Error_display error)
     end)
    (fun found =>
       match found with
       | None => mret (Ok None)
       | Some (s, resumed) => welcome_client hook name token entitlement s resumed
       end) w.
Proof.
  rewrite phases_step by done. cbn [phase_step]. rewrite bind_phases.
  unfold bind_ok at 1. unfold mbind, eff_bind.
  destruct (open_for_auth _ _ _ _ _ w) as [[[ssh|error] w1]|]; [| |done].
  - rewrite phases_step by done. cbn [phase_step].
    rewrite (bind_phases _ _ (fun s => Announcing s name token entitlement)).
    unfold mbind, eff_bind. destruct (create_session _ w1) as [[s w2]|]; [|done].
    apply announcing_phases.
  - rewrite refusing_phases. symmetry. by apply refuse_then.
Qed.

Lemma finding_phases name resume_token token entitlement (w : World) :
  phases 7 (Finding name resume_token token entitlement) w =
  admitted name resume_token token entitlement w.
Proof.
  rewrite phases_step by done. cbn [phase_step].
  rewrite bind_phases, bind_reads. unfold admitted. rewrite bind_ok_eq.
  unfold find_session at 1. rewrite bind_reads.
  destruct (resume_token ≫= _) as [s|] eqn:E; [apply greeting_phases|].
  rewrite phases_step by done. cbn [phase_step]. rewrite or_fail_phases, <-bind_ok_eq.
  rewrite !(bind_ok_eq (any recv_frame)), bind_ok_eq, (bind_ok_eq (any recv_frame)).
  destruct (any recv_frame w) as [[[f|e] w1]|]; [|done|done].
  rewrite <-bind_ok_eq.
  destruct f; try (rewrite refusing_phases; symmetry; by apply refuse_then).
  apply opening_phases.
Qed.

Lemma negotiate_phases (w : World) : phases 9 AwaitHello w = negotiate fuel hook w.
Proof.
  rewrite phases_step by done. cbn [phase_step]. rewrite or_fail_phases. apply bind_ok_ext.
  intros f w1. destruct f as [version name resume token| | | | | |]; try apply refusing_phases.
  cbn [on_hello]. case_decide; [apply refusing_phases|].
  rewrite phases_step by done. cbn [phase_step]. rewrite bind_phases. apply bind_ext.
  intros [entitlement|denied] w2; [apply finding_phases|apply refusing_phases].
Qed.

Lemma conclude_phases n out (c : Conn) :
  run_ending hook n 4 (leave out c) (w c) = conclude hook n out c.
Proof.
  unfold leave, conclude. destruct (totals (meter c)) as [i o].
  unfold run_ending, ending_step, on_plane, on_part, mbind, eff_bind, modifies, reads, mret, eff_ret.
  destruct (report_usage _ _ _ _ _ _) as [[[] p]|]; [|done]. cbn [option_bind].
  destruct (bool_decide (out = Closed) || is_closed _ (session n)); [|done].
  by destruct (session_close _ _ _ _) as [[[] q]|].
Qed.

(** Suspension points.  Run with nothing in between, a connection's task
    passes at most nine suspension points before it is attached or gone, and
    four after its receiver has ended, and does exactly what [handle_connection]
    does. *)
Theorem connection_phases (now : nat -> Instant) ss (x : World) :
  handle_connection now fuel hook ss x =
  '(r, x) ← phases 9 AwaitHello x;
  match r with
  | Ok (Some n) =>
      c ← steps now fuel (session n) ss (attach now x (entitlement n));
      out ← outcome c;
      run_ending hook n 4 (leave out c) (w c)
  | _ => Some x
  end.
Proof.
  rewrite negotiate_phases. unfold handle_connection.
  destruct (negotiate fuel hook x) as [[[[n|]|e] x']|]; [|done..]. cbn [mbind option_bind].
  destruct (steps _ _ _ _ _) as [c|]; [cbn [mbind option_bind]|done].
  destruct (outcome c) as [out|]; [cbn [mbind option_bind]|done].
  by rewrite conclude_phases.
Qed.

End Same.
End Phases.
