(* ===== verification/Gateway.v ===== *)
(** * Many connections at once ([serve] and [handle_connection] in
    [crates/gw-server/src/lib.rs] and [handler.rs])

    Every accepted client gets a task, and the tasks share the registry with
    its sessions, the control plane and the source of ids.  [gstep] is one turn
    of one of them, between two of its suspension points (Phases.v and
    Connection.v), or one of the tasks of a session; a run is any sequence of
    turns.  A task keeps its own connection and its view of the network; the
    shared parts are those of the gateway whenever it has its turn ([enter]).

    [History] remembers what the theorems are about and the program does not
    keep: who opened which session, which token each client presented, what its
    meter showed in the end, and every call to the control plane with its
    arguments.  That these are the calls made is a theorem ([gsteps_replays]):
    one after the other, they take the control plane where the run has. *)

From S2P Require Import Prelude Frame Codec WireFormat Framed Scrollback Registry Quota Throttle Link Ssh Negotiate Connection Phases.

Section Gateway.
Context {PE : PostcardError} {QE : QuinnError} {RN : Renderings}.
Context {L : Type} {LK : Link L}.
Context {CP : Type} {G : Type} {EN : Entropy G} {N : Type} {RU : Russh N}.
Context (now : nat -> Instant) (fuel : nat) (hook : AuthHook CP).

#[local] Abbreviation World := (@World L CP G N).
#[local] Abbreviation Conn := (@Conn L CP G N).

(** A connection's task: in [negotiate]; with its two tasks running; past the
    receiver's end. *)
Inductive Task : Type :=
  | Negotiating (x : World) (p : Phase)
  | Attached (n : Negotiated) (c : Conn)
  | Leaving (x : World) (n : Negotiated) (e : Ending).

Record Gateway : Type := mkGateway {
  g_plane : CP;
  g_manager : SessionManager;
  g_heap : Heap;
  g_entropy : G;
  tasks : gmap nat Task;
}.

(** What a task sees when it has its turn, and what it leaves behind. *)
Definition enter (g : Gateway) (x : World) : World :=
  mkWorld (link x) (g_plane g) (g_manager g) (g_heap g) (g_entropy g) (net x).
Definition leave_behind (g : Gateway) (i : nat) (t : Task) (x : World) : Gateway :=
  mkGateway (plane x) (manager x) (heap x) (entropy x) (<[i := t]> (tasks g)).
Definition enter_conn (g : Gateway) (c : Conn) : Conn := set_w (enter g (w c)) c.

(** A client accepted, on its connection and its view of the network; a turn of
    a task, of its receiver or its sender if it has them; a turn of the tasks
    of the session whose object is [p]. *)
Inductive Event : Type :=
  | Accepted (l : L) (n : N)
  | Turn (i : nat) (s : Step)
  | OnSession (p : positive) (s : Step).

(** What a session's own tasks do to its object. *)
Definition cell_effect (s : Step) : option (Cell -> Cell) :=
  match s with
  | TargetWrites data =>
      Some (fun o => mkCell (append (inner o) data) (sent_input o) (input_open o))
  | ActorEnds => Some (fun o => mkCell (inner o) (sent_input o) false)
  | TargetEnds => Some (fun o => mkCell (set_closed (inner o)) (sent_input o) (input_open o))
  | _ => None
  end.

(** A turn of a task that sees the gateway [g]; the receiver's turn after its
    end is the task's own. *)
Definition task_step (g : Gateway) (s : Step) (t : Task) : option (Task * World) :=
  match t with
  | Negotiating x (Answered (Ok (Some n))) =>
      let x := enter g x in Some (Attached n (attach now x (entitlement n)), x)
  | Negotiating x p =>
      '(p, x) ← phase_step fuel hook p (enter g x); Some (Negotiating x p, x)
  | Attached n c =>
      let c := enter_conn g c in
      match s, outcome c with
      | Receive, Some out => Some (Leaving (w c) n (leave out c), w c)
      | (Receive | TakeChunk | TakeOob | Continue), _ =>
          c ← step now fuel (session n) s c; Some (Attached n c, w c)
      | _, _ => None
      end
  | Leaving x n e => '(e, x) ← ending_step hook n e (enter g x); Some (Leaving x n e, x)
  end.

(** One turn; [None] when it cannot be taken now. *)
Definition gstep (e : Event) (g : Gateway) : option Gateway :=
  match e with
  | Accepted l n =>
      let x := mkWorld l (g_plane g) (g_manager g) (g_heap g) (g_entropy g) n in
      Some (leave_behind g (fresh (dom (tasks g))) (Negotiating x AwaitHello) x)
  | Turn i s =>
      t ← tasks g !! i;
      '(t, x) ← task_step g s t;
      Some (leave_behind g i t x)
  | OnSession p s =>
      f ← cell_effect s;
      o ← g_heap g !! p;
      Some (mkGateway (g_plane g) (g_manager g) (<[p := f o]> (g_heap g)) (g_entropy g) (tasks g))
  end.

(** ** History *)

(** A call to the control plane, with its arguments; of [session_open], also
    whether it let the session open. *)
Inductive Call : Type :=
  | Authorize (client_name : string) (token : option (list byte))
  | SessionOpen (token : option (list byte)) (session_id client_name : string) (allowed : bool)
  | ReportUsage (token : option (list byte)) (session_id : string) (bytes_in bytes_out : u64)
  | SessionClose (token : option (list byte)) (session_id : string).

(** The hook's method takes the control plane from [p] to [p']. *)
Definition performs (c : Call) (p p' : CP) : Prop :=
  match c with
  | Authorize name token => exists r, authorize hook name token p = Some (r, p')
  | SessionOpen token session_id name allowed =>
      exists r, session_open hook token session_id name p = Some (r, p') /\ is_ok r = allowed
  | ReportUsage token session_id bytes_in bytes_out =>
      report_usage hook token session_id bytes_in bytes_out p = Some (tt, p')
  | SessionClose token session_id => session_close hook token session_id p = Some (tt, p')
  end.

(** The calls of a run, newest first, each with the task that made it, are all
    that happened to the control plane. *)
Fixpoint replays (cs : list (nat * Call)) (p p' : CP) : Prop :=
  match cs with
  | [] => p' = p
  | (_, c) :: cs => exists q, replays cs p q /\ performs c q p'
  end.

Record History : Type := mkHistory {
  made : list (nat * Session);
  presented : list (nat * list byte);
  metered : list (nat * (u64 * u64));
  calls : list (nat * Call);
}.

(** What a turn of a task, from [t] to [t'], adds: the session it enters in the
    registry, the token its client presents, its meter when its receiver has
    ended, and its call to the control plane. *)
Definition makes (t t' : Task) : list Session :=
  match t, t' with
  | Negotiating _ (Creating _ _ _ _), Negotiating _ (Announcing s _ _ _) => [s]
  | _, _ => []
  end.

Definition presents (t t' : Task) : list (list byte) :=
  match t, t' with
  | Negotiating _ AwaitHello, Negotiating _ (Authorizing _ (Some token) _) => [resume_bytes token]
  | _, _ => []
  end.

Definition meters (t t' : Task) : list (u64 * u64) :=
  match t, t' with
  | Attached _ c, Leaving _ _ _ => [totals (meter c)]
  | _, _ => []
  end.

Definition says (t t' : Task) : list Call :=
  match t, t' with
  | Negotiating _ (Authorizing name _ token), _ => [Authorize name token]
  | Negotiating _ (Announcing s name token _), Negotiating _ (Greeting _ _ _ _) =>
      [SessionOpen token (uuid_to_string (id s)) name true]
  | Negotiating _ (Announcing s name token _), _ =>
      [SessionOpen token (uuid_to_string (id s)) name false]
  | Leaving _ n (Reporting _ bytes_in bytes_out), _ =>
      [ReportUsage (account_token n) (uuid_to_string (id (session n))) bytes_in bytes_out]
  | Leaving _ n Closing, _ =>
      [SessionClose (account_token n) (uuid_to_string (id (session n)))]
  | _, _ => []
  end.

Definition remember (i : nat) (t t' : Task) (h : History) : History :=
  mkHistory ((pair i <$> makes t t') ++ made h) ((pair i <$> presents t t') ++ presented h)
    ((pair i <$> meters t t') ++ metered h) ((pair i <$> says t t') ++ calls h).

Definition note (e : Event) (g g' : Gateway) (h : History) : History :=
  match e with
  | Turn i _ =>
      match tasks g !! i, tasks g' !! i with
      | Some t, Some t' => remember i t t' h
      | _, _ => h
      end
  | _ => h
  end.

Fixpoint gsteps (es : list Event) (g : Gateway) (h : History) : option (Gateway * History) :=
  match es with
  | [] => Some (g, h)
  | e :: es => g' ← gstep e g; gsteps es g' (note e g g' h)
  end.

(** [serve], before the first client. *)
Definition ready (p : CP) (e : G) : Gateway := mkGateway p new ∅ e ∅.
Definition blank : History := mkHistory [] [] [] [].

(** The sessions made so far, newest first; their ids and tokens are drawn at
    random, and taken to be distinct. *)
Definition sessions_made (h : History) : list Session := snd <$> made h.
Definition drawn_apart (h : History) : Prop :=
  NoDup (id <$> sessions_made h) /\ NoDup (Registry.resume_token <$> sessions_made h).

(** The session a task works for, and the token it has been presented. *)
Definition phase_session (p : Phase) : option Session :=
  match p with
  | Announcing s _ _ _ | Withdrawing s _ | Greeting s _ _ _ | GoingLive s _ _ => Some s
  | Answered (Ok (Some n)) => Some (session n)
  | _ => None
  end.

Definition phase_token (p : Phase) : option (list byte) :=
  match p with
  | Authorizing _ t _ | Finding _ t _ _ => resume_bytes <$> t
  | _ => None
  end.

Definition works_for (t : Task) : option Session :=
  match t with
  | Negotiating _ p => phase_session p
  | Attached n _ | Leaving _ n _ => Some (session n)
  end.

(** ** What a turn can do *)

Section Turns.
Context {LL : LinkLaws L}.

(** A step of a negotiation: where it leads, and the sessions afterwards. *)
Inductive moves (x : World) : Phase -> Phase -> World -> Prop :=
  | Goes p p' x' :
      phase_session p' = None -> phase_token p' = None -> same_sessions x x' -> moves x p p' x'
  | Hears name t tok x' :
      same_sessions x x' -> moves x AwaitHello (Authorizing name t tok) x'
  | Allows name t tok ent x' :
      same_sessions x x' -> moves x (Authorizing name t tok) (Finding name t tok ent) x'
  | Resumes name t tok ent s :
      resume (manager x) (resume_bytes t) = Some s ->
      moves x (Finding name (Some t) tok ent) (Greeting s true tok ent) x
  | Creates ssh name tok ent s x' :
      created x s x' -> moves x (Creating ssh name tok ent) (Announcing s name tok ent) x'
  | Announces s name tok ent x' :
      same_sessions x x' -> moves x (Announcing s name tok ent) (Greeting s false tok ent) x'
  | Denies s name tok ent msg x' :
      same_sessions x x' -> moves x (Announcing s name tok ent) (Withdrawing s msg) x'
  | Withdraws s msg :
      moves x (Withdrawing s msg) (Refusing msg) (set_manager (remove (manager x) (id s)) x)
  | Greets s resumed tok ent x' :
      same_sessions x x' -> moves x (Greeting s resumed tok ent) (GoingLive s tok ent) x'
  | GoesLive s tok ent x' :
      same_sessions x x' ->
      moves x (GoingLive s tok ent) (Answered (Ok (Some (mkNegotiated s ent tok)))) x'.

Lemma or_fail_inv {A} (m : Eff World (Result A TransportError)) k x p x' :
  or_fail m k x = Some (p, x') ->
  exists r, m x = Some (r, x') /\ (p = match r with
                                     | Ok a => k a
                                     | Err e => Answered (Err (Msg (TransportError_display e)))
                                     end).
Proof.
  unfold or_fail, any. rewrite bind_Some_inv. setoid_rewrite fmap_inv.
  intros (r & x1 & (r0 & Hm & ->) & [= <- <-]). exists r0. by destruct r0.
Qed.

Lemma send_frame_sessions f (x : World) r x' : send_frame f x = Some (r, x') -> same_sessions x x'.
Proof. intros [[Hs _ _] _]%send_frame_inv. exact Hs. Qed.

Lemma recv_frame_sessions (x : World) r x' : recv_frame x = Some (r, x') -> same_sessions x x'.
Proof. intros [[Hs _ _] _]%recv_frame_inv. exact Hs. Qed.

Lemma phase_step_moves p x p' x' : phase_step fuel hook p x = Some (p', x') -> moves x p p' x'.
Proof.
  destruct p as [|name t tok|name t tok ent|name tok ent|tg au co ro name tok ent|ssh name tok ent|
    s name tok ent|s msg|msg|s resumed tok ent|s tok ent|r]; cbn [phase_step].
  - intros (r & Hs%recv_frame_sessions & ->)%or_fail_inv.
    destruct r as [[v name t tok| | | | | |]|e]; cbn; try by apply Goes.
    case_decide; [by apply Goes|by apply Hears].
  - rewrite bind_Some_inv. intros (r & x1 & (Hs & _)%on_plane_inv & [= <- <-]).
    destruct r; [by apply Allows|by apply Goes].
  - rewrite bind_Some_inv. intros (r & x1 & [= <- <-] & [= <- <-]).
    destruct t as [t|]; cbn; [|by apply Goes].
    destruct (resume _ _) as [s|] eqn:E; [by apply Resumes|by apply Goes].
  - intros (r & Hs%recv_frame_sessions & ->)%or_fail_inv. destruct r as [[]|e]; by apply Goes.
  - rewrite bind_Some_inv. intros (r & x1 & Ho & [= <- <-]).
    apply open_for_auth_talked in Ho as (f & _ & [Hs _ _]). destruct r; by apply Goes.
  - rewrite bind_Some_inv. intros (s & x1 & Hc & [= <- <-]). apply Creates. exists ssh.
    unfold create_session in Hc. destruct (create _ _ _ _) as [[[s0 m] h] e]. by injection Hc as <- <-.
  - rewrite bind_Some_inv. intros (r & x1 & (Hs & _)%announce_inv & [= <- <-]).
    destruct r; [by apply Announces|by apply Denies].
  - rewrite bind_Some_inv. intros ([] & x1 & [= <-] & [= <- <-]). apply Withdraws.
  - intros (r & Hs%send_frame_sessions & ->)%or_fail_inv. destruct r; by apply Goes.
  - intros (r & Hs%send_frame_sessions & ->)%or_fail_inv. destruct r; [by apply Greets|by apply Goes].
  - intros (r & Hs%send_frame_sessions & ->)%or_fail_inv. destruct r; [by apply GoesLive|by apply Goes].
  - done.
Qed.

(** The steps that are a connection's own. *)
Definition own_step (s : Step) : bool :=
  match s with
  | Receive | TakeChunk | TakeOob | Continue => true
  | TargetWrites _ | ActorEnds | TargetEnds => false
  end.

(** A turn of a task. *)
Inductive turned (g : Gateway) (s : Step) : Task -> Task -> World -> Prop :=
  | Negotiates x p p' x' :
      moves (enter g x) p p' x' -> turned g s (Negotiating x p) (Negotiating x' p') x'
  | Attaches x n :
      turned g s (Negotiating x (Answered (Ok (Some n))))
        (Attached n (attach now (enter g x) (entitlement n))) (enter g x)
  | Steps n c c' :
      own_step s = true -> step now fuel (session n) s (enter_conn g c) = Some c' ->
      turned g s (Attached n c) (Attached n c') (w c')
  | Leaves n c out :
      s = Receive -> outcome c = Some out ->
      turned g s (Attached n c) (Leaving (enter g (w c)) n (leave out (enter_conn g c)))
        (enter g (w c))
  | Ends x n e e' x' :
      ending_step hook n e (enter g x) = Some (e', x') ->
      turned g s (Leaving x n e) (Leaving x' n e') x'.

Lemma task_step_turned g s t t' x : task_step g s t = Some (t', x) -> turned g s t t' x.
Proof.
  destruct t as [y p|n c|y n e]; cbn [task_step].
  - assert (Hp : ('(p, x) ← phase_step fuel hook p (enter g y); Some (Negotiating x p, x)) =
      Some (t', x) -> turned g s (Negotiating y p) t' x).
    { intros ([p' x'] & Hp%phase_step_moves & [= <- <-])%bind_Some. by apply Negotiates. }
    destruct p as [| | | | | | | | | | |[[n|]|e]]; try apply Hp.
    intros [= <- <-]. apply Attaches.
  - assert (Hs : own_step s = true ->
      (c ← step now fuel (session n) s (enter_conn g c); Some (Attached n c, w c)) = Some (t', x) ->
      turned g s (Attached n c) t' x).
    { intros Ho (c' & Hc & [= <- <-])%bind_Some. by apply Steps. }
    change (outcome (enter_conn g c)) with (outcome c). destruct s; try done; try by apply Hs.
    destruct (outcome c) as [out|] eqn:E; [|by apply Hs].
    intros [= <- <-]. by apply Leaves.
  - intros ([e' x'] & He & [= <- <-])%bind_Some. by apply Ends.
Qed.

(** ** The calls to the control plane *)

(** Its state is changed by at most the call [cs], which is made. *)
Definition spoken (cs : list Call) (p p' : CP) : Prop :=
  match cs with
  | [] => p' = p
  | c :: cs => performs c p p' /\ cs = []
  end.

Lemma replays_spoken i cs h p q q' :
  replays h p q -> spoken cs q q' -> replays ((pair i <$> cs) ++ h) p q'.
Proof. intros Hr. destruct cs as [|c cs]; cbn; [by intros ->|]. intros [Hc ->]. by exists q. Qed.

Lemma send_frame_spoken f (x : World) r x' : send_frame f x = Some (r, x') -> plane x' = plane x.
Proof. by intros [[_ -> _] _]%send_frame_inv. Qed.

Lemma recv_frame_spoken (x : World) r x' : recv_frame x = Some (r, x') -> plane x' = plane x.
Proof. by intros [[_ -> _] _]%recv_frame_inv. Qed.

Lemma phase_step_spoken y z p x p' x' :
  phase_step fuel hook p x = Some (p', x') ->
  spoken (says (Negotiating y p) (Negotiating z p')) (plane x) (plane x').
Proof.
  destruct p as [|name t tok|name t tok ent|name tok ent|tg au co ro name tok ent|ssh name tok ent|
    s name tok ent|s msg|msg|s resumed tok ent|s tok ent|r]; cbn [phase_step says spoken].
  - by intros (r & H%recv_frame_spoken & _)%or_fail_inv.
  - rewrite bind_Some_inv. intros (r & x1 & (_ & _ & Hc)%on_plane_inv & [= <- <-]). cbn. by eauto.
  - rewrite bind_Some_inv. by intros (r & x1 & [= <- <-] & [= <- <-]).
  - by intros (r & H%recv_frame_spoken & _)%or_fail_inv.
  - rewrite bind_Some_inv. intros (r & x1 & Ho & [= <- <-]).
    by apply open_for_auth_talked in Ho as (f & _ & [_ H _]).
  - rewrite bind_Some_inv. intros (s & x1 & Hc & [= <- <-]).
    unfold create_session in Hc. destruct (create _ _ _ _) as [[[s0 m] h] e]. by injection Hc as <- <-.
  - rewrite bind_Some_inv. intros (r & x1 & (_ & _ & Hc)%on_plane_inv & [= <- <-]).
    destruct r; cbn; by eauto.
  - rewrite bind_Some_inv. by intros ([] & x1 & [= <-] & [= <- <-]).
  - by intros (r & H%send_frame_spoken & _)%or_fail_inv.
  - by intros (r & H%send_frame_spoken & _)%or_fail_inv.
  - by intros (r & H%send_frame_spoken & _)%or_fail_inv.
  - done.
Qed.

Lemma ending_step_spoken y z n e (x : World) e' x' :
  ending_step hook n e x = Some (e', x') ->
  spoken (says (Leaving y n e) (Leaving z n e')) (plane x) (plane x').
Proof.
  destruct e; cbn [ending_step]; [| | | |done]; rewrite bind_Some_inv; intros (u & x1 & H & [= <- <-]).
  - apply on_plane_inv in H as (_ & _ & H). by destruct u.
  - by injection H as _ <-.
  - apply on_plane_inv in H as (_ & _ & H). by destruct u.
  - by injection H as _ <-.
Qed.

(** ** The sessions' objects *)

(** What the receiver does to its session's object when it hears [f]. *)
Definition typed (f : ClientFrame) (o : Cell) : Cell :=
  mkCell (inner o) (sent_input o ++ input_of f) (input_open o).

(** The shared parts as they were, or but for what [f] is to the session. *)
Definition untouched (x x' : World) : Prop :=
  manager x' = manager x /\ plane x' = plane x /\ entropy x' = entropy x /\ heap x' = heap x.
Definition types (s : Session) (f : ClientFrame) (x x' : World) : Prop :=
  manager x' = manager x /\ plane x' = plane x /\ entropy x' = entropy x /\
  exists o, heap x !! cell s = Some o /\ input_open o = true /\
    heap x' = <[cell s := typed f o]> (heap x).

Lemma apply_input_types s f i (c : Conn) :
  input_of f = [i] ->
  untouched (w c) (w (apply_input s i c)) \/ types s f (w c) (w (apply_input s i c)).
Proof.
  intros Hi. unfold apply_input, send_input, untouched, types, typed. rewrite Hi. cbn.
  destruct (heap (w c) !! cell s) as [o|]; [|by left]. destruct (input_open o) eqn:E; [|by left].
  right. split_and!; [done..|]. exists o. by rewrite E.
Qed.

(** A connection's own step leaves the shared parts alone, but for the input of
    its session when the receiver hears one. *)
Lemma own_step_shared n st (c c' : Conn) :
  own_step st = true -> step now fuel (session n) st c = Some c' ->
  untouched (w c) (w c') \/
  exists f l, st = Receive /\ link_recv (link (w c)) = Some (Ok f, l) /\
    types (session n) f (w c) (w c').
Proof.
  intros Hst H. assert (Hsame : forall x : Conn, w x = w c -> untouched (w c) (w x))
    by (by intros x ->).
  destruct st; try done; cbn [step] in H.
  - destruct (outcome c); [done|]. unfold receive in H.
    destruct (link_recv (link (w c))) as [[[f|e] l]|]; cbn [mbind option_bind] in H; simplify_eq; [|by left].
    destruct f as [| |bytes|cols rows| | |]; unfold reply in H;
      try (repeat case_match; simplify_eq; by left); simplify_eq.
    + edestruct (apply_input_types (session n) (ClientFrame.Data bytes)) as [Hu|Ht];
        [done|left; exact Hu|right; by eexists _, _].
    + edestruct (apply_input_types (session n) (ClientFrame.Resize cols rows)) as [Hu|Ht];
        [done|left; exact Hu|right; by eexists _, _].
  - left. destruct (pc c); try done. unfold take_chunk in H. apply bind_Some in H as (o & _ & H).
    destruct (next_poll _ _) as [p cur]. destruct p as [[bytes|]| |]; simplify_eq; by apply Hsame.
  - left. destruct (pc c); try done. unfold take_oob in H. repeat case_match; simplify_eq; by apply Hsame.
  - left. unfold continue in H. destruct (pc c) as [|bytes|f|]; simplify_eq.
    + apply bind_Some in H as ([[lim i]|] & _ & H); simplify_eq; by apply Hsame.
    + apply bind_Some in H as ([r l] & _ & H). by simplify_eq.
Qed.

(** What a session's reader and actor go by stays as it is. *)
Definition kept (h h' : Heap) : Prop :=
  forall p o, h !! p = Some o ->
    exists o', h' !! p = Some o' /\ inner o' = inner o /\ input_open o' = input_open o.

Lemma kept_refl h : kept h h.
Proof. intros p o Ho. by exists o. Qed.

Lemma kept_new h p o : h !! p = None -> kept h (<[p := o]> h).
Proof. intros Hp q o' Ho'. exists o'. by rewrite lookup_insert_ne by congruence. Qed.

Lemma kept_typed (h : Heap) p f o : h !! p = Some o -> kept h (<[p := typed f o]> h).
Proof.
  intros Hp q o' Ho'. destruct (decide (p = q)) as [<-|Hne].
  - exists (typed f o). rewrite lookup_insert_eq. rewrite Hp in Ho'. by injection Ho' as <-.
  - exists o'. by rewrite lookup_insert_ne.
Qed.

Lemma created_cell (x : World) s x' :
  created x s x' ->
  heap x !! cell s = None /\
  heap x' = <[cell s := mkCell (new_inner (max_scrollback (manager x))) [] true]> (heap x).
Proof. intros [ssh (Hn & Hh & _)%create_heap]. done. Qed.

Lemma moves_kept (x : World) p p' x' : moves x p p' x' -> kept (heap x) (heap x').
Proof.
  destruct 1 as [p p' x' _ _ (_ & -> & _)|n t k x' (_ & -> & _)|n t k e x' (_ & -> & _)| |
    ssh n t e s x' [Hn ->]%created_cell|s n t e x' (_ & -> & _)|s n t e m x' (_ & -> & _)| |
    s r t e x' (_ & -> & _)|s t e x' (_ & -> & _)]; try apply kept_refl.
  by apply kept_new.
Qed.

Lemma ending_step_heap n e (x : World) e' x' : ending_step hook n e x = Some (e', x') -> heap x' = heap x.
Proof.
  destruct e; cbn [ending_step]; [| | | |done]; rewrite bind_Some_inv; intros (u & y & H & [= <- <-]).
  - by apply on_plane_inv in H as [(_ & -> & _) _].
  - by injection H as _ <-.
  - by apply on_plane_inv in H as [(_ & -> & _) _].
  - by injection H as _ <-.
Qed.

Lemma turned_kept g s t t' x : turned g s t t' x -> kept (g_heap g) (heap x).
Proof.
  destruct 1 as [y p p' x' Hm|y n|n c c' Ho Hs|n c out -> Hout|y n e e' x' He].
  - by apply moves_kept in Hm.
  - apply kept_refl.
  - apply own_step_shared in Hs as [(_ & _ & _ & ->)|(f & l & -> & _ & (_ & _ & _ & o & Hc & _ & ->))];
      [apply kept_refl| |done]. by apply kept_typed.
  - apply kept_refl.
  - apply ending_step_heap in He as ->. apply kept_refl.
Qed.

(** ** One client's view *)

(** What a connection keeps for itself. *)
Definition own_state (c : Conn) :=
  (link (w c), oob c, oob_open c, meter c, limiter c, clock c, cursor c, pc c, outcome c).

(** The same connection, on objects of its session with the same output and the
    same end. *)
Definition alike (s : Session) (c c' : Conn) : Prop :=
  own_state c = own_state c' /\
  exists o o', heap (w c) !! cell s = Some o /\ heap (w c') !! cell s = Some o' /\
    inner o = inner o' /\ input_open o = input_open o'.

Lemma alike_refl s c : is_Some (heap (w c) !! cell s) -> alike s c c.
Proof. intros [o Ho]. split; [done|]. by exists o, o. Qed.

Lemma on_cell_alike s f c c' c1 :
  (forall o o', inner o = inner o' -> input_open o = input_open o' ->
     inner (f o) = inner (f o') /\ input_open (f o) = input_open (f o')) ->
  alike s c c' -> on_cell s f c = Some c1 -> exists c1', on_cell s f c' = Some c1' /\ alike s c1 c1'.
Proof.
  intros Hf [Ho (o & o' & Hc & Hc' & Hi & Hop)]. unfold on_cell. rewrite Hc, Hc'. cbn. intros [= <-].
  eexists. split; [done|]. split; [exact Ho|]. exists (f o), (f o'). cbn. rewrite !lookup_insert_eq.
  split_and!; [done..| |]; by apply Hf.
Qed.

Lemma apply_input_alike s i c c' : alike s c c' -> alike s (apply_input s i c) (apply_input s i c').
Proof.
  intros [Ho (o & o' & Hc & Hc' & Hi & Hop)]. split; [exact Ho|].
  unfold apply_input, send_input. rewrite Hc, Hc', <-Hop. destruct (input_open o) eqn:E; cbn.
  - eexists _, _. rewrite !lookup_insert_eq. split_and!; [done..|exact Hi|done].
  - exists o, o'. split_and!; [done..|]. congruence.
Qed.

Lemma receive_alike s c c' c1 :
  alike s c c' -> receive s c = Some c1 -> exists c1', receive s c' = Some c1' /\ alike s c1 c1'.
Proof.
  intros Ha. destruct Ha as [Ho Hcells] eqn:E. clear E.
  destruct c as [[lk pl ma he en ne] q qo me li cl cu pcc ou], c' as [[lk' pl' ma' he' en' ne'] q' qo' me' li' cl' cu' pcc' ou'].
  unfold own_state in Ho. cbn in Ho, Hcells. injection Ho as <- <- <- <- <- <- <- <- <-.
  unfold receive. cbn [w link]. destruct (link_recv lk) as [[[f|e] l]|]; cbn [mbind option_bind]; [| |done].
  2: { intros [= <-]. eexists. split; [done|]. by split. }
  destruct f as [| |bytes|cols rows| | |]; unfold reply; cbn [set_w pc oob];
    try (repeat case_match; intros [= <-]; eexists; (split; [done|]); by split); intros [= <-];
    eexists; (split; [reflexivity|]); apply apply_input_alike; by split.
Qed.

(** A step of the connection or its session does the same on both. *)
Lemma step_alike s st c c' c1 :
  alike s c c' -> step now fuel s st c = Some c1 ->
  exists c1', step now fuel s st c' = Some c1' /\ alike s c1 c1'.
Proof.
  intros Ha. destruct st; cbn [step].
  - assert (Hout : outcome c' = outcome c) by (destruct Ha as [Ho _]; by injection Ho).
    rewrite Hout. destruct (outcome c); [done|]. by apply receive_alike.
  - destruct Ha as [Ho (o & o' & Hc & Hc' & Hi & Hop)].
    assert (Hpc : pc c' = pc c) by by injection Ho. rewrite Hpc. destruct (pc c); try done.
    unfold take_chunk. rewrite Hc, Hc'. cbn [mbind option_bind]. rewrite Hi.
    unfold own_state in Ho. injection Ho as Hl Hq Hqo Hm Hli Hcl Hcu _ Hou. rewrite Hcu.
    destruct (next_poll (inner o') (cursor c')) as [p cur]. intros H.
    assert (Hk : forall x x', own_state x = own_state x' -> heap (w x) = heap (w c) ->
      heap (w x') = heap (w c') -> alike s x x').
    { intros x x' Hx H1 H2. split; [done|]. exists o, o'. rewrite H1, H2. by split_and!. }
    destruct p as [[bytes|]| |]; [| |done|]; injection H as <-; eexists; (split; [done|]);
      apply Hk; try done; unfold own_state; cbn; congruence.
  - destruct Ha as [Ho Hcells]. unfold own_state in Ho. injection Ho as Hl Hq Hqo Hm Hli Hcl Hcu Hpc Hou.
    rewrite <-Hpc. destruct (pc c) eqn:Ep; try done. unfold take_oob. rewrite <-Hqo, <-Hq, <-Hou.
    intros H. repeat case_match; simplify_eq; eexists; (split; [done|]); (split; [|exact Hcells]);
      unfold own_state; cbn; congruence.
  - destruct Ha as [Ho Hcells]. unfold own_state in Ho. injection Ho as Hl Hq Hqo Hm Hli Hcl Hcu Hpc Hou.
    unfold continue. rewrite <-Hpc, <-Hl, <-Hli, <-Hcl.
    destruct (pc c) as [|bytes|f|] eqn:Ep; [done| | |done].
    + destruct (throttle _ _ _ _ _) as [[[lim j]|]|]; cbn; [| |done]; intros [= <-]; eexists;
        (split; [done|]); (split; [|exact Hcells]); unfold own_state; cbn; congruence.
    + destruct (link_send _ _) as [[r l]|]; cbn; [|done]. intros [= <-]. eexists. split; [done|].
      split; [|exact Hcells]. unfold own_state. cbn. congruence.
  - apply on_cell_alike; [|done]. intros o o' Hi Hop. cbn. by rewrite ?Hi.
  - apply on_cell_alike; [|done]. intros o o' Hi Hop. cbn. by rewrite ?Hi.
  - apply on_cell_alike; [|done]. intros o o' Hi Hop. cbn. by rewrite ?Hi.
Qed.

(** The steps a run has for task [i], at the session whose object is [p]. *)
Definition view (i : nat) (p : positive) (e : Event) : list Step :=
  match e with
  | Turn j s => if decide (j = i) then [s] else []
  | OnSession q s => if decide (q = p) then [s] else []
  | Accepted _ _ => []
  end.

Definition views (i : nat) (p : positive) (es : list Event) : list Step := concat (map (view i p) es).

Lemma turn_inv i s g g' :
  gstep (Turn i s) g = Some g' ->
  exists t t' x, tasks g !! i = Some t /\ turned g s t t' x /\ g' = leave_behind g i t' x.
Proof.
  cbn [gstep]. intros (t & Ht & ([t' x] & Hs%task_step_turned & [= <-])%bind_Some)%bind_Some. eauto 10.
Qed.

Lemma steps_app s ss1 ss2 (c : Conn) :
  steps now fuel s (ss1 ++ ss2) c = c ← steps now fuel s ss1 c; steps now fuel s ss2 c.
Proof.
  revert c. induction ss1 as [|st ss1 IH]; intros c; [done|]. cbn.
  destruct (step now fuel s st c); [apply IH|done].
Qed.

Lemma task_step_spoken g s t t' x :
  task_step g s t = Some (t', x) -> spoken (says t t') (g_plane g) (plane x).
Proof.
  destruct t as [y p|n c|y n e].
  - cbn [task_step]. assert (Hp : ('(p, x) ← phase_step fuel hook p (enter g y);
        Some (Negotiating x p, x)) = Some (t', x) ->
      spoken (says (Negotiating y p) t') (g_plane g) (plane x)).
    { intros ([p' x'] & Hp & [= <- <-])%bind_Some. by apply (phase_step_spoken y x') in Hp. }
    destruct p as [| | | | | | | | | | |[[n|]|e]]; try apply Hp. by intros [= <- <-].
  - intros H. assert (Hs : says (Attached n c) t' = []) by done. rewrite Hs.
    apply task_step_turned in H. inversion H as [| |? ? ? Hown Hst|? ? out| ]; subst; [|done].
    by apply own_step_shared in Hst as [(_ & -> & _)|(f & l & _ & _ & (_ & -> & _))].
  - cbn [task_step]. intros ([e' x'] & He & [= <- <-])%bind_Some. by apply (ending_step_spoken y x') in He.
Qed.

(** The control plane is where the calls have taken it. *)
Lemma gstep_replays e g g' h p :
  gstep e g = Some g' -> replays (calls h) p (g_plane g) -> replays (calls (note e g g' h)) p (g_plane g').
Proof.
  destruct e as [l nn|i s|q s]; cbn [gstep note].
  - by intros [= <-].
  - intros (t & Ht & ([t' x] & Hs & [= <-])%bind_Some)%bind_Some. rewrite Ht. cbn [leave_behind tasks].
    rewrite lookup_insert_eq. intros Hr. eapply replays_spoken; [exact Hr|by apply (task_step_spoken _ s)].
  - by intros (f & _ & (o & _ & [= <-])%bind_Some)%bind_Some.
Qed.

Lemma gsteps_replays es : forall g h g' h' p,
  gsteps es g h = Some (g', h') -> replays (calls h) p (g_plane g) -> replays (calls h') p (g_plane g').
Proof.
  induction es as [|e es IH]; intros g h g' h' p; cbn [gsteps].
  - by intros [= <- <-].
  - intros (g1 & H & Hrun)%bind_Some Hr. eapply IH; [exact Hrun|by eapply gstep_replays].
Qed.

(** What one step does to a task: nothing, or its turn. *)
Lemma gstep_task e g g' i t :
  gstep e g = Some g' -> tasks g !! i = Some t ->
  exists t', tasks g' !! i = Some t' /\
    (t' = t \/ exists s x, e = Turn i s /\ turned g s t t' x /\ g' = leave_behind g i t' x).
Proof.
  destruct e as [l nn|j s|p s].
  - cbn. intros [= <-] Ht. exists t. cbn. split; [|by left]. rewrite lookup_insert_ne; [done|].
    intros E. assert (Hf : fresh (dom (tasks g)) ∈ dom (tasks g)) by (rewrite E; by eapply elem_of_dom_2).
    by apply is_fresh in Hf.
  - intros (t0 & t' & x & Ht0 & Hturn & ->)%turn_inv Ht. destruct (decide (j = i)) as [->|Hne].
    + rewrite Ht in Ht0. injection Ht0 as <-. exists t'. cbn. rewrite lookup_insert_eq.
      split; [done|]. right. eauto.
    + exists t. cbn. rewrite lookup_insert_ne by done. auto.
  - cbn. intros (f & _ & (o & _ & [= <-])%bind_Some)%bind_Some Ht. exists t. auto.
Qed.

Lemma gstep_left e g g' i x n k :
  gstep e g = Some g' -> tasks g !! i = Some (Leaving x n k) ->
  exists x' k', tasks g' !! i = Some (Leaving x' n k').
Proof.
  intros H Ht. destruct (gstep_task _ _ _ _ _ H Ht) as (t' & Ht' & [->|(s & y & _ & Hturn & _)]).
  - eauto.
  - inversion Hturn; subst. eauto.
Qed.

Lemma gsteps_left es : forall g h g' h' i x n k,
  gsteps es g h = Some (g', h') -> tasks g !! i = Some (Leaving x n k) ->
  exists x' k', tasks g' !! i = Some (Leaving x' n k').
Proof.
  induction es as [|e es IH]; intros g h g' h' i x n k; cbn [gsteps].
  - intros [= <- <-]. eauto.
  - intros (g1 & H & Hrun)%bind_Some Ht. destruct (gstep_left _ _ _ _ _ _ _ H Ht) as (x1 & k1 & Ht1).
    by eapply IH.
Qed.

(** The sessions' objects over one step of the gateway. *)
Lemma gstep_kept e g g' p :
  gstep e g = Some g' -> (forall s, e <> OnSession p s) ->
  forall o, g_heap g !! p = Some o ->
    exists o', g_heap g' !! p = Some o' /\ inner o' = inner o /\ input_open o' = input_open o.
Proof.
  destruct e as [l nn|j s|q s].
  - cbn. intros [= <-] _. apply kept_refl.
  - intros (t & t' & x & _ & Hturn & ->)%turn_inv _ o Ho. by apply (turned_kept _ _ _ _ _ Hturn).
  - cbn. intros (f & _ & (o' & _ & [= <-])%bind_Some)%bind_Some Hne o Ho. exists o. cbn.
    rewrite lookup_insert_ne; [done|]. intros ->. by destruct (Hne s).
Qed.

(** One step of the gateway is at most one of the connection alone. *)
Lemma gstep_alike e g g' i n c c1 c' :
  gstep e g = Some g' -> tasks g !! i = Some (Attached n c) -> tasks g' !! i = Some (Attached n c1) ->
  alike (session n) (enter_conn g c) c' ->
  exists c1', steps now fuel (session n) (view i (cell (session n)) e) c' = Some c1' /\
    alike (session n) (enter_conn g' c1) c1'.
Proof.
  intros H Ht Ht1 Ha.
  destruct (gstep_task _ _ _ _ _ H Ht) as (t' & Ht' & [->|(s & x & -> & Hturn & ->)]).
  - rewrite Ht' in Ht1. injection Ht1 as <-.
    assert (Hquiet : view i (cell (session n)) e = [] -> (forall s, e <> OnSession (cell (session n)) s) ->
      exists c1', steps now fuel (session n) (view i (cell (session n)) e) c' = Some c1' /\
        alike (session n) (enter_conn g' c) c1').
    { intros -> Hne. exists c'. split; [done|]. destruct Ha as [Ho (o & o' & Hc & Hc' & Hi & Hop)].
      split; [exact Ho|]. destruct (gstep_kept _ _ _ _ H Hne o Hc) as (o1 & Hc1 & Hi1 & Hop1).
      exists o1, o'. cbn. split_and!; congruence. }
    destruct e as [l nn|j s|q s]; [by apply Hquiet| |].
    + destruct (decide (j = i)) as [->|Hne]; [|apply Hquiet; [cbn; by rewrite decide_False|done]].
      apply turn_inv in H as (t & t' & x & Ht0 & Hturn & ->). rewrite Ht in Ht0. injection Ht0 as <-.
      cbn in Ht'. rewrite lookup_insert_eq in Ht'. injection Ht' as ->.
      inversion Hturn as [| |? ? ? Hown Hstep| |]; subst.
      destruct (step_alike _ _ _ _ _ Ha Hstep) as (c1' & Hc1' & Ha'). exists c1'.
      cbn. rewrite decide_True by done. cbn. rewrite Hc1'. split; [done|].
      unfold enter_conn, enter, leave_behind. cbn. destruct c as [[] ? ? ? ? ? ? ? ?]. exact Ha'.
    + destruct (decide (q = cell (session n))) as [->|Hne].
      2: { apply Hquiet; [cbn; by rewrite decide_False|]. intros s' [= ->]. done. }
      cbn in H. apply bind_Some in H as (f & Hf & (o & Ho & [= <-])%bind_Some).
      cbn [view]. rewrite decide_True by done. cbn [steps].
      assert (Hstep : step now fuel (session n) s (enter_conn g c) =
        Some (enter_conn (mkGateway (g_plane g) (g_manager g) (<[cell (session n):=f o]> (g_heap g))
                (g_entropy g) (tasks g)) c)).
      { destruct s; try done; injection Hf as <-; cbn [step]; unfold ingest, drop_input, on_cell;
          cbn [w enter_conn set_w heap enter]; rewrite Ho; done. }
      destruct (step_alike _ _ _ _ _ Ha Hstep) as (c1' & Hc1' & Ha'). exists c1'. by rewrite Hc1'.
  - cbn in Ht1. rewrite lookup_insert_eq in Ht1. injection Ht1 as ->.
    inversion Hturn as [| |? ? ? Hown Hstep| |]; subst.
    destruct (step_alike _ _ _ _ _ Ha Hstep) as (c1' & Hc1' & Ha'). exists c1'.
    cbn. rewrite decide_True by done. cbn. rewrite Hc1'. split; [done|].
    unfold enter_conn, enter, leave_behind. cbn. by destruct c1 as [[] ? ? ? ? ? ? ? ?].
Qed.

Lemma gsteps_alike es : forall g h g' h' i n c n' c1 c',
  gsteps es g h = Some (g', h') -> tasks g !! i = Some (Attached n c) ->
  tasks g' !! i = Some (Attached n' c1) -> alike (session n) (enter_conn g c) c' ->
  n' = n /\ exists c1', steps now fuel (session n) (views i (cell (session n)) es) c' = Some c1' /\
    alike (session n) (enter_conn g' c1) c1'.
Proof.
  induction es as [|e es IH]; intros g h g' h' i n c n' c1 c'; cbn [gsteps].
  - intros [= <- <-] Ht Ht1 Ha. rewrite Ht in Ht1. injection Ht1 as <- <-. split; [done|]. by exists c'.
  - intros (g1 & H & Hrun)%bind_Some Ht Ht1 Ha.
    assert (Hmid : exists c2, tasks g1 !! i = Some (Attached n c2)).
    { destruct (gstep_task _ _ _ _ _ H Ht) as (t' & Ht' & [->|(s & x & _ & Hturn & _)]); [eauto|].
      inversion Hturn; subst; [eauto|].
      destruct (gsteps_left _ _ _ _ _ _ _ _ _ Hrun Ht') as (x1 & k1 & E). congruence. }
    destruct Hmid as [c2 Hc2]. destruct (gstep_alike _ _ _ _ _ _ _ _ H Ht Hc2 Ha) as (c2' & Hs & Ha2).
    destruct (IH _ _ _ _ _ _ _ _ _ _ Hrun Hc2 Ht1 Ha2) as (-> & c1' & Hs1 & Ha1).
    split; [done|]. exists c1'. split; [|done]. unfold views. cbn [map concat]. by rewrite steps_app, Hs.
Qed.

(** C2: every client as if alone.  Whatever the other clients, their sessions
    and the gateway do meanwhile, a connection attached to a session goes
    through exactly the steps it would go through alone with that session:
    those of its own turns and of the session's tasks.  All it keeps (what it
    sent and may send, its replies, meter, limiter, reader and outcome) is the
    same, and so are the output and the end of its session; other clients of
    the same session can only add to the session's input. *)
Theorem gateway_alone es g h g' h' i n c n' c1 :
  gsteps es g h = Some (g', h') ->
  tasks g !! i = Some (Attached n c) -> tasks g' !! i = Some (Attached n' c1) ->
  is_Some (g_heap g !! cell (session n)) ->
  n' = n /\
  exists alone,
    steps now fuel (session n) (views i (cell (session n)) es) (enter_conn g c) = Some alone /\
    alike (session n) (enter_conn g' c1) alone.
Proof. intros Hrun Ht Ht1 Ho. eapply gsteps_alike; [done..|]. by apply alike_refl. Qed.

End Turns.

End Gateway.

(** ** Witness *)

Module Witness.
Import Registry.Witness Ssh.Witness Negotiate.Witness.
#[local] Existing Instance Wire.quinn_error.

(** Client 0 opens a session; client 1 resumes it with its token, types into it
    while client 0 does, and closes it. *)
Definition opener : Script :=
  mkScript [hello (Some [x01]); open_box (AuthIntent.Password "pw"); ClientFrame.Data (as_bytes "ls")] [] 10.
Definition resumer : Script :=
  mkScript [ClientFrame.Hello 1 "phone" (Some (mkResumeToken (token 1))) (Some [x01]);
            ClientFrame.Data (as_bytes "q"); ClientFrame.Close] [] 10.

Definition now (i : nat) : Instant := Z.of_nat i.
Definition turns (i k : nat) : list (Event (L:=Script) (N:=list string)) := repeat (Turn i Receive) k.

Definition opened : list (Event (L:=Script) (N:=list string)) :=
  Accepted opener [] :: turns 0 10 ++
  [OnSession 1 (TargetWrites (as_bytes "$ ")); Turn 0%nat TakeChunk; Turn 0%nat Continue; Turn 0%nat Continue].
Definition shared : list (Event (L:=Script) (N:=list string)) :=
  Accepted resumer [] :: turns 1 6.
Definition closing : list (Event (L:=Script) (N:=list string)) :=
  [Turn 1%nat Receive; Turn 0%nat Receive; Turn 1%nat Receive; Turn 1%nat TakeChunk] ++ turns 1 5.

Definition start : Gateway (L:=Script) (CP:=Z * Z) (G:=Z) (N:=list string) := ready (0, 0) 0.
Definition reach (es : list (Event (L:=Script) (N:=list string))) : Gateway * History :=
  default (start, blank) (gsteps now 5 counting es start blank).

(** Both clients typed into one session; the control plane saw it opened and
    closed once; client 0 is still attached to it. *)
Example both_typed :
  let g := (reach (opened ++ shared ++ closing)).1 in
  (g_plane g, sent_input <$> g_heap g !! 1%positive, is_empty (g_manager g)) =
  ((1, 1), Some [SshInput.Data (as_bytes "q"); SshInput.Data (as_bytes "ls")], true).
Proof. vm_compute. reflexivity. Qed.

(** The connection of an attached client. *)
Definition conn_of (g : Gateway (L:=Script) (CP:=Z * Z) (G:=Z) (N:=list string)) (i : nat)
    : Negotiated * Conn :=
  match tasks g !! i with
  | Some (Attached n c) => (n, c)
  | _ => (mkNegotiated (mkSession 0 [] None 1) unlimited None,
          attach now (mkWorld opener (g_plane g) (g_manager g) (g_heap g) (g_entropy g) []) unlimited)
  end.

Definition early := conn_of (reach opened).1 0.
Definition late := conn_of (reach (opened ++ shared ++ closing)).1 0.

Lemma early_attached : tasks (reach opened).1 !! 0%nat = Some (Attached early.1 early.2).
Proof. vm_compute. reflexivity. Defined.

Lemma late_attached : tasks (reach (opened ++ shared ++ closing)).1 !! 0%nat = Some (Attached late.1 late.2).
Proof. vm_compute. reflexivity. Defined.

Lemma run_on : gsteps now 5 counting (shared ++ closing) (reach opened).1 (reach opened).2 =
  Some ((reach (opened ++ shared ++ closing)).1, (reach (opened ++ shared ++ closing)).2).
Proof. vm_compute. reflexivity. Defined.

Lemma early_object : is_Some (g_heap (reach opened).1 !! cell (session early.1)).
Proof. vm_compute. eexists. reflexivity. Defined.

(** From the moment client 0 is attached, alone and not. *)
Lemma gateway_alone_witness :
  late.1 = early.1 /\
  exists alone,
    steps now 5 (session early.1) (views 0 (cell (session early.1)) (shared ++ closing))
      (enter_conn (reach opened).1 early.2) = Some alone /\
    alike (session early.1) (enter_conn (reach (opened ++ shared ++ closing)).1 late.2) alone.
Proof.
  exact (gateway_alone now 5 counting _ _ _ _ _ 0 _ _ _ _ run_on early_attached late_attached early_object).
Defined.

End Witness.
