(* ===== verification/Custody.v ===== *)
(** * Who holds which session, over every run of the gateway

    The invariants of Gateway.v's runs: the registry always holds a part of the
    sessions made, each with an object of its own; a task only works for a
    session it opened or whose token it was presented; no session leaves the
    registry without the control plane having denied it or being called with its
    closing; usage is reported once, with the totals of the meter. *)

From S2P Require Import Prelude Frame Codec WireFormat Framed Scrollback Registry Quota Throttle Link Ssh Negotiate Connection Phases Gateway.

Section Custody.
Context {PE : PostcardError} {QE : QuinnError} {RN : Renderings}.
Context {L : Type} {LK : Link L} {LL : LinkLaws L}.
Context {CP : Type} {G : Type} {EN : Entropy G} {N : Type} {RU : Russh N}.
Context (now : nat -> Instant) (fuel : nat) (hook : AuthHook CP).

#[local] Abbreviation World := (@World L CP G N).
#[local] Abbreviation Conn := (@Conn L CP G N).
#[local] Abbreviation Gateway := (@Gateway L CP G N).
#[local] Abbreviation Task := (@Task L CP G N).
#[local] Abbreviation Event := (@Event L N).
#[local] Abbreviation gstep := (gstep now fuel hook).
#[local] Abbreviation gsteps := (gsteps now fuel hook).
#[local] Abbreviation turned := (turned now fuel hook).
Implicit Types (g : Gateway) (h : History) (e : Event).

(** Task [i] opened the session, or its client presented the token. *)
Definition entitled h (i : nat) (s : Session) : Prop :=
  (i, s) ∈ made h \/ s ∈ sessions_made h /\ (i, Registry.resume_token s) ∈ presented h.

Lemma entitled_made h i s : entitled h i s -> s ∈ sessions_made h.
Proof. intros [H|[H _]]; [|done]. unfold sessions_made. by apply (list_elem_of_fmap_2 snd _ (i, s)). Qed.

(** The control plane denied the session, or was told that it is closed. *)
Definition parted h (s : Session) : Prop :=
  (exists i tok name, (i, SessionOpen tok (uuid_to_string (id s)) name false) ∈ calls h) \/
  (exists i tok, (i, SessionClose tok (uuid_to_string (id s))) ∈ calls h).

Lemma parted_id h s s' : id s = id s' -> parted h s -> parted h s'.
Proof. unfold parted. by intros ->. Qed.

(** The session a task is about to take from the registry. *)
Definition parting (t : Task) : option Session :=
  match t with
  | Negotiating _ (Withdrawing s _) => Some s
  | Leaving _ n Removing => Some (session n)
  | _ => None
  end.

Definition bearing (t : Task) : option (list byte) :=
  match t with
  | Negotiating _ p => phase_token p
  | _ => None
  end.

Record task_ok h (i : nat) (t : Task) : Prop := {
  ok_session s : works_for t = Some s -> entitled h i s;
  ok_token tok : bearing t = Some tok -> (i, tok) ∈ presented h;
  ok_parting s : parting t = Some s -> parted h s;
}.

(** What is remembered of task [i]. *)
Definition by_task {A} (i : nat) (l : list (nat * A)) : list A :=
  omap (fun '(j, a) => if decide (j = i) then Some a else None) l.

Definition is_report (c : Call) : bool :=
  match c with ReportUsage _ _ _ _ => true | _ => false end.

Definition usage_reports h (i : nat) : list Call :=
  filter (fun c => is_report c = true) (by_task i (calls h)).

(** A task that has not got to its report has made none; one that has got past
    it has made one, of its account, its session and its final meter. *)
Definition accounted (reports : list Call) (totals : list (u64 * u64)) (t : option Task) : Prop :=
  match t with
  | Some (Leaving _ _ (Reporting _ bytes_in bytes_out)) =>
      reports = [] /\ totals = [(bytes_in, bytes_out)]
  | Some (Leaving _ n _) =>
      exists bytes_in bytes_out, totals = [(bytes_in, bytes_out)] /\
        reports = [ReportUsage (account_token n) (uuid_to_string (id (session n))) bytes_in bytes_out]
  | _ => reports = [] /\ totals = []
  end.

Definition usage_ok h (i : nat) (t : option Task) : Prop :=
  accounted (usage_reports h i) (by_task i (metered h)) t.

Record invariant (live : list Session) g h : Prop := {
  inv_holds : holds (g_manager g) live;
  inv_live : live ⊆ sessions_made h;
  inv_parted s : s ∈ sessions_made h -> s ∈ live \/ parted h s;
  inv_cells : NoDup (cell <$> sessions_made h);
  inv_objects s : s ∈ sessions_made h -> is_Some (g_heap g !! cell s);
  inv_tasks i t : tasks g !! i = Some t -> task_ok h i t;
}.

(** ** History only grows *)

Record grows h h' : Prop := {
  grows_made : exists l, made h' = l ++ made h;
  grows_presented : presented h ⊆ presented h';
  grows_calls : calls h ⊆ calls h';
}.

Lemma grows_refl h : grows h h.
Proof. split; [by exists []|done|done]. Qed.

Lemma grows_trans h1 h2 h3 : grows h1 h2 -> grows h2 h3 -> grows h1 h3.
Proof.
  intros [[l1 E1] P1 C1] [[l2 E2] P2 C2]. split; [|by etrans..].
  exists (l2 ++ l1). by rewrite E2, E1, app_assoc.
Qed.

Lemma remember_grows i (t t' : Task) h : grows h (remember i t t' h).
Proof. split; cbn; [by eexists|set_solver..]. Qed.

Lemma grows_parted h h' s : grows h h' -> parted h s -> parted h' s.
Proof.
  intros [_ _ C] [(i & tok & name & H)|(i & tok & H)]; [left; exists i, tok, name|right; exists i, tok];
    by apply C.
Qed.

Lemma note_grows e g g' h : grows h (note e g g' h).
Proof. unfold note. repeat case_match; try apply grows_refl. apply remember_grows. Qed.

Lemma gsteps_grows es : forall g h g' h', gsteps es g h = Some (g', h') -> grows h h'.
Proof.
  induction es as [|e es IH]; intros g h g' h'; cbn [Gateway.gsteps].
  - intros [= <- <-]. apply grows_refl.
  - intros (g1 & _ & H)%bind_Some. eapply grows_trans; [apply note_grows|by eapply IH].
Qed.

Lemma grows_sessions h h' : grows h h' -> sessions_made h ⊆ sessions_made h'.
Proof. intros [[l E] _ _]. unfold sessions_made. rewrite E, fmap_app. intros s Hs. apply elem_of_app. by right. Qed.

Lemma grows_apart h h' : grows h h' -> drawn_apart h' -> drawn_apart h.
Proof.
  intros [[l E] _ _] [H1 H2].
  assert (Es : sessions_made h' = (snd <$> l) ++ sessions_made h)
    by (unfold sessions_made; by rewrite E, fmap_app).
  rewrite Es in H1, H2. rewrite fmap_app in H1. rewrite fmap_app in H2.
  apply NoDup_app in H1 as (_ & _ & H1). apply NoDup_app in H2 as (_ & _ & H2). done.
Qed.

Lemma grows_entitled h h' i s : grows h h' -> entitled h i s -> entitled h' i s.
Proof.
  intros Hg [Hm|[Hs Hp]]; pose proof (grows_sessions _ _ Hg); destruct Hg as [[l E] P C].
  - left. rewrite E. apply elem_of_app. by right.
  - right. auto.
Qed.

Lemma grows_task h h' i t : grows h h' -> task_ok h i t -> task_ok h' i t.
Proof.
  intros Hg [Hs Ht Hp]. split.
  - intros s E. eapply grows_entitled; [done|auto].
  - intros tok E. by apply (grows_presented _ _ Hg), Ht.
  - intros s E. eapply grows_parted; [done|auto].
Qed.

(** ** One turn *)

(** What a turn does to the registry: nothing, or it enters the session the
    task has made, or it takes out the task's session. *)
Inductive registers g h (i : nat) (t t' : Task) (x : World) : Prop :=
  | Unchanged : manager x = g_manager g -> made (remember i t t' h) = made h -> registers g h i t t' x
  | Enters y s :
      works_for t' = Some s -> made (remember i t t' h) = (i, s) :: made h ->
      created (enter g y) s x -> registers g h i t t' x
  | TakesOut s :
      works_for t = Some s -> parting t = Some s ->
      manager x = remove (g_manager g) (id s) -> made (remember i t t' h) = made h ->
      registers g h i t t' x.

Lemma goes_made (y z : World) i p p' h :
  phase_session p' = None -> made (remember i (Negotiating y p) (Negotiating z p') h) = made h.
Proof. intros Hp. destruct p; try done; by destruct p'. Qed.

Lemma ending_step_inv n (k k' : Ending) (y x' : World) :
  ending_step hook n k y = Some (k', x') ->
  (k = Removing /\ manager x' = remove (manager y) (id (session n))) \/
  (k <> Removing /\ manager x' = manager y).
Proof.
  destruct k; cbn [ending_step]; [| | | |done]; rewrite bind_Some_inv; intros (u & x1 & H & [= <- <-]).
  - right. by apply on_plane_inv in H as [(-> & _) _].
  - right. by injection H as _ <-.
  - right. by apply on_plane_inv in H as [(-> & _) _].
  - left. by injection H as _ <-.
Qed.

(** A report leads to the decision, and the decision to nothing that was reported. *)
Lemma ending_step_next n (k k' : Ending) (y x' : World) :
  ending_step hook n k y = Some (k', x') ->
  match k, k' with
  | Reporting _ _ _, Deciding _ | Deciding _, (Closing | Over) | Closing, Removing | Removing, Over => True
  | _, _ => False
  end.
Proof.
  destruct k; cbn [ending_step]; [| | | |done]; rewrite bind_Some_inv; intros (u & x1 & H & [= <- <-]); try done.
  by destruct (_ || _).
Qed.

Lemma turned_registers g s t t' x h i : turned g s t t' x -> registers g h i t t' x.
Proof.
  destruct 1 as [y p p' x' Hm|y n|n c c' Ho Hs|n c out -> Hout|y n e e' x' He].
  - destruct Hm as [p p' x' Hp Ht [Hm _]|nm tk k x' [Hm _]|nm tk k e x' [Hm _]| |
      ssh nm k e s0 x' Hc|s0 nm k e x' [Hm _]|s0 nm k e msg x' [Hm _]|s0 msg|s0 r k e x' [Hm _]|
      s0 k e x' [Hm _]].
    + by apply Unchanged; [|apply goes_made].
    + apply Unchanged; [done|]. by destruct tk.
    + by apply Unchanged.
    + by apply Unchanged.
    + by eapply Enters.
    + by apply Unchanged.
    + by apply Unchanged.
    + by eapply TakesOut.
    + by apply Unchanged.
    + by apply Unchanged.
  - by apply Unchanged.
  - apply own_step_shared in Hs as [(Hm & _)|(f & l & _ & _ & (Hm & _))]; [by apply Unchanged|by apply Unchanged|done].
  - by apply Unchanged.
  - destruct (ending_step_inv _ _ _ _ _ He) as [(-> & Hm)|(Hne & Hm)]; [by eapply TakesOut|by apply Unchanged].
Qed.

Lemma turned_task live g h s t t' x i :
  invariant live g h -> turned g s t t' x -> task_ok h i t -> task_ok (remember i t t' h) i t'.
Proof.
  intros Hinv Hturn Hok. pose proof (remember_grows i t t' h) as Hg.
  pose proof (grows_task _ _ _ _ Hg Hok) as [Hses Htok _].
  destruct Hturn as [y p p' x' Hm|y n|n c c' Ho Hs|n c out -> Hout|y n e e' x' He].
  - destruct Hm as [p p' x' Hp Ht _|nm tk k x' _|nm tk k e x' _|nm tk k e s0 Hr|
      ssh nm k e s0 x' _|s0 nm k e x' _|s0 nm k e msg x' _|s0 msg|s0 r k e x' _|s0 k e x' _].
    + split; cbn; [by rewrite Hp|by rewrite Ht|]. by destruct p'.
    + split; try done. cbn. destruct tk; [|done]. intros tok [= <-]. left.
    + split; done.
    + split; try done. intros s' [= <-]. cbn [works_for enter manager] in Hr.
      rewrite (resume_holds _ _ (inv_holds _ _ _ Hinv)) in Hr.
      apply resume_spec_Some in Hr as [Hs0 Ht0]; [|apply (inv_holds _ _ _ Hinv)].
      right. split; [by apply (inv_live _ _ _ Hinv)|]. rewrite Ht0. by apply Htok.
    + split; try done. intros s' [= <-]. left. left.
    + split; done.
    + split; try done. intros s' [= <-]. left. cbn. exists i, k, nm. left.
    + by split.
    + split; done.
    + split; done.
  - split; done.
  - split; done.
  - by split.
  - split; try done. intros s' Hs. apply ending_step_next in He. destruct e'; try done.
    destruct e; try done. injection Hs as <-. right. exists i, (account_token n). left.
Qed.

Lemma by_task_new {A} i j (l : list A) rest :
  by_task j ((pair i <$> l) ++ rest) = (if decide (i = j) then l else []) ++ by_task j rest.
Proof.
  unfold by_task. rewrite omap_app. f_equal. induction l as [|a l IH]; cbn; [by case_decide|].
  rewrite IH. by case_decide.
Qed.

(** What is remembered of task [j] after a turn of task [i]. *)
Lemma remember_meter i (t t' : Task) h j :
  by_task j (metered (remember i t t' h)) =
  (if decide (i = j) then meters t t' else []) ++ by_task j (metered h).
Proof. apply by_task_new. Qed.

Lemma remember_usage i (t t' : Task) h j :
  usage_reports (remember i t t' h) j =
  filter (fun c => is_report c = true) (if decide (i = j) then says t t' else []) ++ usage_reports h j.
Proof. unfold usage_reports, remember. cbn [calls]. by rewrite by_task_new, filter_app. Qed.

Lemma usage_other i (t t' : Task) h j u : i <> j -> usage_ok h j u -> usage_ok (remember i t t' h) j u.
Proof.
  intros Hne. unfold usage_ok. rewrite remember_meter, remember_usage, !decide_False by done.
  done.
Qed.

Lemma turned_usage g s t t' x h i :
  turned g s t t' x -> usage_ok h i (Some t) -> usage_ok (remember i t t' h) i (Some t').
Proof.
  intros Hturn. unfold usage_ok. rewrite remember_meter, remember_usage, !decide_True by done.
  destruct Hturn as [y p p' x' Hm|y n|n c c' Ho Hs|n c out -> Hout|y n e e' x' He]; cbn [accounted].
  - intros [-> ->]. rewrite !app_nil_r. split; [|done]. destruct p; try done. by destruct p'.
  - done.
  - done.
  - intros [-> ->]. unfold leave. by destruct (totals (meter c)) as [bi bo] eqn:E.
  - apply ending_step_next in He. destruct e as [out bi bo| | | |], e'; try done.
    intros [-> ->]. by exists bi, bo.
Qed.

Lemma gstep_usage e g h g' :
  gstep e g = Some g' -> (forall i, usage_ok h i (tasks g !! i)) ->
  forall i, usage_ok (note e g g' h) i (tasks g' !! i).
Proof.
  intros H Hu i. specialize (Hu i). destruct e as [l nn|j s|q s].
  - cbn in H. injection H as <-. cbn. destruct (decide (fresh (dom (tasks g)) = i)) as [<-|Hne].
    + assert (E : tasks g !! fresh (dom (tasks g)) = None) by (apply not_elem_of_dom, is_fresh).
      rewrite E in Hu. by rewrite lookup_insert_eq.
    + by rewrite lookup_insert_ne.
  - apply turn_inv in H as (t & t' & x & Ht & Hturn & ->); [|done]. cbn [note].
    rewrite Ht. cbn [leave_behind tasks]. rewrite lookup_insert_eq. destruct (decide (j = i)) as [<-|Hne].
    + rewrite lookup_insert_eq. rewrite Ht in Hu. by eapply turned_usage.
    + rewrite lookup_insert_ne by done. by apply usage_other.
  - cbn in H. by apply bind_Some in H as (f & _ & (o & Ho & [= <-])%bind_Some).
Qed.

Lemma gsteps_usage es : forall g h g' h',
  gsteps es g h = Some (g', h') -> (forall i, usage_ok h i (tasks g !! i)) ->
  forall i, usage_ok h' i (tasks g' !! i).
Proof.
  induction es as [|e es IH]; intros g h g' h'; cbn [Gateway.gsteps].
  - by intros [= <- <-].
  - intros (g1 & H & Hrun)%bind_Some Hu. eapply IH; [exact Hrun|by eapply gstep_usage].
Qed.

Lemma usage_ready (p : CP) (gen : G) i : usage_ok blank i (tasks (ready (L:=L) (N:=N) p gen) !! i).
Proof. cbn. by rewrite lookup_empty. Qed.

(** The registry after a turn; a session that has left stays out. *)
Lemma turned_live live g h s t t' x i :
  invariant live g h -> turned g s t t' x -> task_ok h i t -> drawn_apart (remember i t t' h) ->
  exists live', holds (manager x) live' /\ live' ⊆ sessions_made (remember i t t' h) /\
    (forall r, r ∈ sessions_made (remember i t t' h) -> r ∈ live' \/ parted (remember i t t' h) r) /\
    (forall r, r ∈ sessions_made h -> r ∈ live' -> r ∈ live).
Proof.
  intros Hinv Hturn Hok Hap.
  assert (Hparted : forall r, parted h r -> parted (remember i t t' h) r)
    by (intros r; apply grows_parted, remember_grows).
  destruct (turned_registers _ _ _ _ _ h i Hturn) as [Hm Hmade|y r Hr Hmade Hc|r Hr Hpart Hm Hmade];
    unfold sessions_made in *; rewrite Hmade in *.
  - exists live. rewrite Hm. destruct Hinv. split_and!; [done|done| |done].
    intros r Hr. destruct (inv_parted0 r Hr) as [|]; [by left|right; auto].
  - destruct Hap as [Hids Htoks]. unfold sessions_made in Hids, Htoks. rewrite Hmade in Hids, Htoks.
    cbn in Hids, Htoks. apply NoDup_cons in Hids as [Hid _], Htoks as [Htok _].
    pose proof (inv_live _ _ _ Hinv) as Hl. exists (r :: live). cbn. split_and!.
    + destruct Hc as [ssh Hc]. eapply create_holds; [apply (inv_holds _ _ _ Hinv)|exact Hc|..].
      * intros Hin. apply Hid. apply list_elem_of_fmap in Hin as (q & Hq & Hin).
        rewrite Hq. apply list_elem_of_fmap_2. by apply Hl.
      * intros Hin. apply Htok. apply list_elem_of_fmap in Hin as (q & Hq & Hin).
        rewrite Hq. apply list_elem_of_fmap_2. by apply Hl.
    + intros q. rewrite !elem_of_cons. intros [->|Hq]; [by left|right; by apply Hl].
    + intros q. rewrite !elem_of_cons. intros [->|Hq]; [auto|].
      destruct (inv_parted _ _ _ Hinv q Hq); auto.
    + intros q Hq. rewrite elem_of_cons. intros [->|]; [|done].
      destruct Hid. by apply list_elem_of_fmap_2.
  - exists (Spec.without live (id r)). rewrite Hm.
    assert (Hout : forall q, q ∈ Spec.without live (id r) -> q ∈ live)
      by (intros q [_ ?]%list_elem_of_filter; done).
    split_and!; [apply remove_holds, Hinv| | |auto].
    + intros q Hq. by apply (inv_live _ _ _ Hinv), Hout.
    + intros q Hq. destruct (inv_parted _ _ _ Hinv q Hq) as [Hin|]; [|auto].
      destruct (decide (id q = id r)) as [E|Hne]; [|left; by apply list_elem_of_filter].
      right. apply Hparted. apply (parted_id _ r); [done|]. by apply (ok_parting _ _ _ Hok).
Qed.

Lemma turned_objects live g h s t t' x i :
  invariant live g h -> turned g s t t' x ->
  NoDup (cell <$> sessions_made (remember i t t' h)) /\
  (forall r, r ∈ sessions_made (remember i t t' h) -> is_Some (heap x !! cell r)).
Proof.
  intros Hinv Hturn. pose proof (turned_kept _ _ _ _ _ _ _ _ Hturn) as Hk.
  assert (Hold : forall r, r ∈ sessions_made h -> is_Some (heap x !! cell r)).
  { intros r Hr. destruct (inv_objects _ _ _ Hinv r Hr) as [o Ho].
    destruct (Hk _ _ Ho) as (o' & Ho' & _). eauto. }
  destruct (turned_registers _ _ _ _ _ h i Hturn) as [Hm Hmade|y r Hr Hmade Hc|r Hr Hpart Hm Hmade];
    unfold sessions_made in *; rewrite Hmade in *; try (split; [apply (inv_cells _ _ _ Hinv)|exact Hold]).
  apply created_cell in Hc as [Hn Hh]. cbn in *. split.
  - apply NoDup_cons. split; [|apply (inv_cells _ _ _ Hinv)].
    intros (q & Hq & Hin)%list_elem_of_fmap. destruct (inv_objects _ _ _ Hinv q Hin) as [o Ho].
    cbn in Hn. congruence.
  - intros q. rewrite elem_of_cons. intros [->|Hq]; [|by apply Hold].
    rewrite Hh, lookup_insert_eq. eauto.
Qed.

Lemma gstep_invariant live e g h g' :
  invariant live g h -> gstep e g = Some g' -> drawn_apart (note e g g' h) ->
  exists live', invariant live' g' (note e g g' h) /\
    (forall r, r ∈ sessions_made h -> r ∈ live' -> r ∈ live).
Proof.
  intros Hinv H Hap. destruct e as [l nn|i s|p s].
  - cbn in H. injection H as <-. exists live. split; [|auto]. destruct Hinv. split; try done; cbn.
    + intros i t. rewrite lookup_insert_Some. intros [[<- <-]|[_ Ht]]; [by split|by eapply inv_tasks0].
  - apply turn_inv in H as (t & t' & x & Ht & Hturn & ->); [|done].
    cbn [note] in *. rewrite Ht in *. cbn [leave_behind tasks] in *. rewrite lookup_insert_eq in *.
    pose proof (inv_tasks _ _ _ Hinv _ _ Ht) as Hok.
    destruct (turned_live _ _ _ _ _ _ _ _ Hinv Hturn Hok Hap) as (live' & H1 & H2 & H3 & H4).
    destruct (turned_objects _ _ _ _ _ _ _ i Hinv Hturn) as [H5 H6].
    exists live'. split; [|done]. split; try done; cbn.
    + intros j u. rewrite lookup_insert_Some. intros [[<- <-]|[_ Hu]].
      * by eapply turned_task.
      * eapply grows_task; [apply remember_grows|]. by eapply inv_tasks.
  - cbn in H. apply bind_Some in H as (f & _ & (o & Ho & [= <-])%bind_Some).
    exists live. split; [|auto]. destruct Hinv. split; try done; cbn.
    intros r Hr. destruct (decide (p = cell r)) as [->|Hne]; [rewrite lookup_insert_eq; eauto|].
    rewrite lookup_insert_ne by done. auto.
Qed.

Lemma gsteps_invariant es : forall live g h g' h',
  invariant live g h -> gsteps es g h = Some (g', h') -> drawn_apart h' ->
  exists live', invariant live' g' h' /\
    (forall r, r ∈ sessions_made h -> r ∈ live' -> r ∈ live).
Proof.
  induction es as [|e es IH]; intros live g h g' h' Hinv; cbn [Gateway.gsteps].
  - intros [= <- <-] _. by exists live.
  - intros (g1 & H & Hrun)%bind_Some Hap.
    destruct (gstep_invariant _ _ _ _ _ Hinv H) as (live1 & Hinv1 & H1).
    { eapply grows_apart; [by eapply gsteps_grows|done]. }
    destruct (IH _ _ _ _ _ Hinv1 Hrun Hap) as (live' & Hinv' & H2). exists live'.
    split; [done|]. intros r Hr Hr'. apply H1; [done|]. apply H2; [|done].
    by apply (grows_sessions _ _ (note_grows e g g1 h)).
Qed.

Lemma invariant_ready (p : CP) (gen : G) : invariant [] (ready p gen) blank.
Proof.
  split; cbn.
  - apply holds_new.
  - done.
  - by intros s ?%elem_of_nil.
  - constructor.
  - by intros s ?%elem_of_nil.
  - intros i t. by rewrite lookup_empty.
Qed.

(** What changes the input of an object there already is. *)
Lemma turned_input g s t t' x p o o' :
  turned g s t t' x -> g_heap g !! p = Some o -> heap x !! p = Some o' ->
  sent_input o' <> sent_input o ->
  exists n c f l, s = Receive /\ t = Attached n c /\ cell (session n) = p /\
    link_recv (link (w c)) = Some (Ok f, l) /\ sent_input o' = sent_input o ++ input_of f.
Proof.
  intros Hturn Ho Ho' Hne. assert (Hsame : heap x = g_heap g -> False) by (intros E; rewrite E in Ho'; congruence).
  destruct Hturn as [y q q' x' Hm|y n|n c c' Hown Hs|n c out -> Hout|y n e e' x' He].
  - exfalso. destruct Hm as [q q' x' _ _ (_ & E & _)|? ? ? x' (_ & E & _)|? ? ? ? x' (_ & E & _)| |
      ssh n t e s0 x' [Hn E]%created_cell|? ? ? ? x' (_ & E & _)|? ? ? ? ? x' (_ & E & _)| |
      ? ? ? ? x' (_ & E & _)|? ? ? x' (_ & E & _)]; try by apply Hsame.
    rewrite E in Ho'. cbn in Ho', Hn. rewrite lookup_insert_ne in Ho' by congruence. congruence.
  - by destruct Hsame.
  - apply own_step_shared in Hs as [(_ & _ & _ & E)|(f & l & -> & Hr & (_ & _ & _ & o1 & Ho1 & _ & E))];
      [by destruct Hsame| |done].
    exists n, c, f, l. cbn in Ho1, E, Hr. rewrite E in Ho'.
    destruct (decide (cell (session n) = p)) as [<-|Hp].
    + rewrite lookup_insert_eq in Ho'. rewrite Ho in Ho1. by simplify_eq.
    + rewrite lookup_insert_ne in Ho' by done. congruence.
  - by destruct Hsame.
  - destruct Hsame. by apply ending_step_heap in He.
Qed.

Lemma gstep_input e g g' p o o' :
  gstep e g = Some g' -> g_heap g !! p = Some o -> g_heap g' !! p = Some o' ->
  sent_input o' <> sent_input o ->
  exists i n c f l, e = Turn i Receive /\ tasks g !! i = Some (Attached n c) /\
    cell (session n) = p /\ link_recv (link (w c)) = Some (Ok f, l) /\
    sent_input o' = sent_input o ++ input_of f.
Proof.
  destruct e as [l nn|i s|q s].
  - cbn. intros [= <-]. cbn. congruence.
  - intros (t & t' & x & Ht & Hturn & ->)%turn_inv Ho Ho' Hne; [|done]. cbn in Ho'.
    destruct (turned_input _ _ _ _ _ _ _ _ Hturn Ho Ho' Hne) as (n & c & f & l & -> & -> & H).
    exists i, n, c, f, l. by destruct H as (? & ? & ?).
  - cbn. intros (f & Hf & (o1 & Ho1 & [= <-])%bind_Some)%bind_Some Ho Ho' Hne. destruct Hne.
    cbn in Ho'. apply lookup_insert_Some in Ho' as [[-> <-]|[_ Ho']]; [|congruence].
    rewrite Ho in Ho1. injection Ho1 as <-. destruct s; cbn in Hf; by simplify_eq.
Qed.

(** ** Over every run *)

Section Runs.
Context (p : CP) (gen : G) (es : list Event) g h.
Context (Hrun : gsteps es (ready p gen) blank = Some (g, h)).

(** C5: the registry under concurrency.  However the tasks of all clients
    interleave, the registry's two maps hold exactly a list of live sessions,
    each of them one that a client opened.  A session that has left the
    registry is one whose opening the control plane denied or whose closing it
    was told, with the session's id; and whatever happens next, it never comes
    back: its token stays worthless.  These calls are the hook's own: made in
    their order, with their arguments and answers, they and nothing else have
    taken the control plane from where it was to where it is. *)
Theorem gateway_registry es' g' h' :
  gsteps es' g h = Some (g', h') -> drawn_apart h' ->
  exists live live',
    holds (g_manager g) live /\ holds (g_manager g') live' /\ live' ⊆ sessions_made h' /\
    (forall s, s ∈ sessions_made h' -> s ∈ live' \/ parted h' s) /\
    (forall s, s ∈ sessions_made h -> (s ∉ live) -> s ∉ live') /\
    replays hook (calls h') p (g_plane g').
Proof.
  intros Hrun' Hap.
  destruct (gsteps_invariant _ _ _ _ _ _ (invariant_ready p gen) Hrun) as (live & Hinv & _).
  { eapply grows_apart; [by eapply gsteps_grows|done]. }
  destruct (gsteps_invariant _ _ _ _ _ _ Hinv Hrun' Hap) as (live' & Hinv' & Hback).
  exists live, live'. split_and!; [apply Hinv|apply Hinv'|apply Hinv'| | |].
  - apply (inv_parted _ _ _ Hinv').
  - intros s Hs Hno Hin. by apply Hno, Hback.
  - eapply gsteps_replays; [done|exact Hrun'|]. by eapply gsteps_replays.
Qed.

(** C4: no one else at the keyboard.  A connection is only ever attached to a
    session its own client opened, or whose resume token its client presented;
    and input reaches a session only by the receiver of a connection attached
    to it, which passes on what its client has just typed and nothing else. *)
Theorem gateway_access :
  drawn_apart h ->
  (forall i n c, tasks g !! i = Some (Attached n c) -> entitled h i (session n)) /\
  (forall e g' s o o', gstep e g = Some g' -> s ∈ sessions_made h ->
     g_heap g !! cell s = Some o -> g_heap g' !! cell s = Some o' -> sent_input o' <> sent_input o ->
     exists i n c f l, e = Turn i Receive /\ tasks g !! i = Some (Attached n c) /\
       session n = s /\ link_recv (link (w c)) = Some (Ok f, l) /\
       sent_input o' = sent_input o ++ input_of f).
Proof.
  intros Hap. destruct (gsteps_invariant _ _ _ _ _ _ (invariant_ready p gen) Hrun Hap) as (live & Hinv & _).
  split.
  - intros i n c Ht. by apply (ok_session _ _ _ (inv_tasks _ _ _ Hinv _ _ Ht)).
  - intros e g' s o o' H Hs Ho Ho' Hne.
    destruct (gstep_input _ _ _ _ _ _ H Ho Ho' Hne) as (i & n & c & f & l & -> & Ht & Hc & Hr & Hi).
    exists i, n, c, f, l. split_and!; try done.
    pose proof (ok_session _ _ _ (inv_tasks _ _ _ Hinv _ _ Ht) _ eq_refl) as Hen.
    eapply NoDup_fmap_inj; [apply (inv_cells _ _ _ Hinv)|by eapply entitled_made|done..].
Qed.

(** C29: usage is reported once.  The calls made to the hook, which have taken
    the control plane from where it was to where it is, hold for each connection
    that has got past its report exactly one usage report: with the token the
    client gave, the session's id, and the two totals its meter showed when its
    receiver ended.  For any other there is none: not for a negotiation that
    failed, nor while the connection lasts. *)
Theorem gateway_usage :
  replays hook (calls h) p (g_plane g) /\
  forall i, match tasks g !! i with
            | Some (Leaving _ _ (Reporting _ bytes_in bytes_out)) =>
                usage_reports h i = [] /\ by_task i (metered h) = [(bytes_in, bytes_out)]
            | Some (Leaving _ n _) =>
                exists bytes_in bytes_out, by_task i (metered h) = [(bytes_in, bytes_out)] /\
                  usage_reports h i =
                    [ReportUsage (account_token n) (uuid_to_string (id (session n))) bytes_in bytes_out]
            | _ => usage_reports h i = []
            end.
Proof.
  split; [by eapply gsteps_replays|]. intros i.
  pose proof (gsteps_usage _ _ _ _ _ Hrun (usage_ready p gen) i) as H. unfold usage_ok, accounted in H.
  by repeat case_match; destruct_and?.
Qed.

End Runs.

End Custody.

(** ** Witnesses *)

Module Witness.
Import Registry.Witness Ssh.Witness Negotiate.Witness Gateway.Witness.
#[local] Existing Instance Wire.quinn_error.

Lemma all_apart : drawn_apart (reach (opened ++ shared ++ closing)).2.
Proof. vm_compute. split; (constructor; [intros H; inversion H|constructor]). Defined.

Lemma both_apart : drawn_apart (reach (opened ++ shared)).2.
Proof. vm_compute. split; (constructor; [intros H; inversion H|constructor]). Defined.

Lemma run_both : gsteps now 5 counting (opened ++ shared) start blank =
  Some ((reach (opened ++ shared)).1, (reach (opened ++ shared)).2).
Proof. vm_compute. reflexivity. Defined.

Lemma run_all : gsteps now 5 counting closing (reach (opened ++ shared)).1 (reach (opened ++ shared)).2 =
  Some ((reach (opened ++ shared ++ closing)).1, (reach (opened ++ shared ++ closing)).2).
Proof. vm_compute. reflexivity. Defined.

Lemma gateway_registry_witness :
  exists live live',
    holds (g_manager (reach (opened ++ shared)).1) live /\
    holds (g_manager (reach (opened ++ shared ++ closing)).1) live' /\
    live' ⊆ sessions_made (reach (opened ++ shared ++ closing)).2 /\
    (forall s, s ∈ sessions_made (reach (opened ++ shared ++ closing)).2 ->
       s ∈ live' \/ parted (reach (opened ++ shared ++ closing)).2 s) /\
    (forall s, s ∈ sessions_made (reach (opened ++ shared)).2 -> (s ∉ live) -> s ∉ live') /\
    replays counting (calls (reach (opened ++ shared ++ closing)).2) (0, 0)
      (g_plane (reach (opened ++ shared ++ closing)).1).
Proof. exact (gateway_registry now 5 counting (0, 0) 0 _ _ _ run_both _ _ _ run_all all_apart). Defined.

(** Client 1 is attached with the token, and types. *)
Definition before := (reach (opened ++ shared)).1.
Definition typing := default before (gstep now 5 counting (Turn 1%nat Receive) before).
Definition object (g : Gateway (L:=Script) (CP:=Z * Z) (G:=Z) (N:=list string)) : Cell :=
  default (mkCell (new_inner 0) [] true) (g_heap g !! 1%positive).
Definition the_session : Session := mkSession 0 (token 1) (Some "SHA256:K") 1.

Lemma resumer_attached :
  tasks before !! 1%nat = Some (Attached (conn_of before 1).1 (conn_of before 1).2).
Proof. vm_compute. reflexivity. Defined.

Lemma gateway_access_witness :
  entitled (reach (opened ++ shared)).2 1 (session (conn_of before 1).1) /\
  exists i n c f l, Turn (L:=Script) (N:=list string) 1 Receive = Turn i Receive /\ tasks before !! i = Some (Attached n c) /\
    session n = the_session /\ link_recv (link (w c)) = Some (Ok f, l) /\
    sent_input (object typing) = sent_input (object before) ++ input_of f.
Proof.
  destruct (gateway_access now 5 counting (0, 0) 0 _ _ _ run_both both_apart) as [Ha Hi]. split.
  - exact (Ha 1%nat (conn_of before 1).1 (conn_of before 1).2 resumer_attached).
  - apply (Hi (Turn 1%nat Receive) typing the_session (object before) (object typing)); vm_compute;
      [reflexivity|left|reflexivity|reflexivity|discriminate].
Defined.

Lemma run_whole : gsteps now 5 counting (opened ++ shared ++ closing) start blank =
  Some ((reach (opened ++ shared ++ closing)).1, (reach (opened ++ shared ++ closing)).2).
Proof. vm_compute. reflexivity. Defined.

(** Client 1 has reported the byte it typed, client 0 nothing yet. *)
Lemma gateway_usage_witness :
  replays counting (calls (reach (opened ++ shared ++ closing)).2) (0, 0)
    (g_plane (reach (opened ++ shared ++ closing)).1) /\
  usage_reports (reach (opened ++ shared ++ closing)).2 0 = [] /\
  exists bytes_in bytes_out,
    by_task 1 (metered (reach (opened ++ shared ++ closing)).2) = [(bytes_in, bytes_out)] /\
    usage_reports (reach (opened ++ shared ++ closing)).2 1 =
      [ReportUsage (Some [x01]) (uuid_to_string 0) bytes_in bytes_out].
Proof.
  destruct (gateway_usage now 5 counting (0, 0) 0 _ _ _ run_whole) as [Hr Hu].
  split; [exact Hr|]. pose proof (Hu 0%nat) as H0. pose proof (Hu 1%nat) as H1. clear Hr Hu.
  split; [vm_compute in H0; vm_compute; exact H0|vm_compute in H1; vm_compute; exact H1].
Defined.

End Witness.
