(* ===== verification/Serve.v ===== *)
(** * The accept loop ([serve] in [crates/gw-server/src/lib.rs], [Server::accept]
    and [accept_control] in [crates/gw-transport/src/server.rs])

    One task accepts clients for the whole gateway: it awaits the next incoming
    connection, then that connection's handshake, then its control stream, and
    only then spawns the client's task and listens again.  [accept_step] is that
    task, one [await] at a time; what QUIC answers is the environment's.  The
    tasks it spawns are Gateway.v's, which run on meanwhile. *)

From S2P Require Import Prelude Frame Codec WireFormat Framed Scrollback Registry Quota Throttle Link Ssh Negotiate Connection Phases Gateway.

Section Serve.
Context {PE : PostcardError} {QE : QuinnError} {RN : Renderings}.
Context {L : Type} {LK : Link L}.
Context {CP : Type} {G : Type} {EN : Entropy G} {N : Type} {RU : Russh N}.
Context (now : nat -> Instant) (fuel : nat) (hook : AuthHook CP).

#[local] Abbreviation Gateway := (@Gateway L CP G N).
#[local] Abbreviation Event := (@Event L N).

(** Where the accept task is, and for which peer it waits. *)
Inductive Accepting : Type :=
  | Listening
  | Handshaking (peer : nat)
  | AwaitingControl (peer : nat)
  | Returned.

(** What an [await] of it is answered with. *)
Inductive Answer : Type :=
  | Incoming (peer : nat)
  | EndpointClosed
  | Handshaken (peer : nat) (r : Result unit ConnectionError)
  | ControlStream (peer : nat) (r : Result (L * N) ConnectionError).

(** To the next [await]; what [server.accept()] returned, if it did: [None] when
    the endpoint is closed, else a client or the error with it. *)
Definition accept_step (a : Answer) (p : Accepting)
    : option (Accepting * option (option (Result (L * N) TransportError))) :=
  match p, a with
  | Listening, Incoming peer => Some (Handshaking peer, None)
  | Listening, EndpointClosed => Some (Returned, Some None)
  | Handshaking peer, Handshaken peer' r =>
      if decide (peer = peer') then
        Some (match r with
              | Ok _ => (AwaitingControl peer, None)
              | Err e => (Listening, Some (Some (Err (Framed.Connection e))))
              end)
      else None
  | AwaitingControl peer, ControlStream peer' r =>
      if decide (peer = peer') then
        Some (Listening, Some (Some (map_err Framed.Connection r)))
      else None
  | _, _ => None
  end.

Record Server : Type := mkServer { accepting : Accepting; gateway : Gateway }.

Inductive ServerEvent : Type :=
  | Network (a : Answer)
  | Task (e : Event).

(** A turn of the accept task or of another task. *)
Definition serve_step (e : ServerEvent) (s : Server) : option Server :=
  match e with
  | Network a =>
      '(p, accepted) ← accept_step a (accepting s);
      match accepted with
      | Some (Some (Ok (l, n))) =>
          g ← gstep now fuel hook (Accepted l n) (gateway s); Some (mkServer p g)
      | Some (Some (Err _)) | Some None | None => Some (mkServer p (gateway s))
      end
  | Task (Accepted _ _) => None
  | Task e => g ← gstep now fuel hook e (gateway s); Some (mkServer (accepting s) g)
  end.

Fixpoint serve_steps (es : list ServerEvent) (s : Server) : option Server :=
  match es with
  | [] => Some s
  | e :: es => s ← serve_step e s; serve_steps es s
  end.

(** ** What it comes to *)

(** The gateway's event of an event of the server. *)
Definition gateway_event (e : ServerEvent) : list Event :=
  match e with
  | Network (ControlStream _ (Ok (l, n))) => [Accepted l n]
  | Network _ => []
  | Task e => [e]
  end.

Definition gateway_events (es : list ServerEvent) : list Event := concat (map gateway_event es).

(** The answer is the one the accept task is waiting for. *)
Definition answers (p : Accepting) (e : ServerEvent) : bool :=
  match p, e with
  | Listening, Network (Incoming _ | EndpointClosed) => true
  | Handshaking peer, Network (Handshaken peer' _) => bool_decide (peer = peer')
  | AwaitingControl peer, Network (ControlStream peer' _) => bool_decide (peer = peer')
  | _, _ => false
  end.

Lemma serve_step_gateway e s s' h :
  serve_step e s = Some s' ->
  exists h', gsteps now fuel hook (gateway_event e) (gateway s) h = Some (gateway s', h').
Proof.
  destruct e as [a|e]; cbn [serve_step].
  - intros ([p acc] & Ha & H)%bind_Some.
    assert (Hstay : gateway_event (Network a) = [] -> gateway s' = gateway s ->
      exists h', gsteps now fuel hook (gateway_event (Network a)) (gateway s) h = Some (gateway s', h'))
      by (intros -> ->; by exists h).
    destruct (accepting s) as [|q|q|], a as [q'| |q' r|q' r]; try done; cbn in Ha.
    + simplify_eq. by apply Hstay.
    + simplify_eq. by apply Hstay.
    + case_decide; [|done]. destruct r; simplify_eq; by apply Hstay.
    + case_decide; [|done]. destruct r as [[l n]|e]; cbn in Ha; simplify_eq; [|by apply Hstay].
      apply bind_Some in H as (g & Hg & [= <-]). cbn in Hg. simplify_eq. by eexists.
  - assert (Hgo : (g ← gstep now fuel hook e (gateway s); Some (mkServer (accepting s) g)) = Some s' ->
      exists h', gsteps now fuel hook [e] (gateway s) h = Some (gateway s', h')).
    { intros (g & Hg & [= <-])%bind_Some. cbn [gsteps]. rewrite Hg. cbn. eauto. }
    destruct e; [done|apply Hgo..].
Qed.

Lemma gsteps_app es1 es2 : forall (g : Gateway) h,
  gsteps now fuel hook (es1 ++ es2) g h =
  '(g, h) ← gsteps now fuel hook es1 g h; gsteps now fuel hook es2 g h.
Proof.
  induction es1 as [|e es1 IH]; intros g h; [done|]. cbn [app gsteps].
  destruct (gstep now fuel hook e g) as [g1|]; [apply IH|done].
Qed.

Lemma serve_steps_gateway es : forall s s' h,
  serve_steps es s = Some s' ->
  exists h', gsteps now fuel hook (gateway_events es) (gateway s) h = Some (gateway s', h').
Proof.
  induction es as [|e es IH]; intros s s' h; cbn [serve_steps]; [intros [= <-]; by exists h|].
  intros (s1 & He & Hes)%bind_Some. destruct (serve_step_gateway _ _ _ h He) as [h1 H1].
  destruct (IH _ _ h1 Hes) as [h' H']. exists h'.
  change (gateway_events (e :: es)) with (gateway_event e ++ gateway_events es).
  by rewrite gsteps_app, H1.
Qed.

(** The accept task returns when the endpoint is closed. *)
Lemma serve_returns es : forall s s',
  serve_steps es s = Some s' -> accepting s' = Returned ->
  accepting s = Returned \/ Network EndpointClosed ∈ es.
Proof.
  induction es as [|e es IH]; intros s s'; cbn [serve_steps]; [intros [= <-]; by left|].
  intros (s1 & He & Hes)%bind_Some Hr. destruct (IH _ _ Hes Hr) as [Hs1|Hin]; [|right; by right].
  destruct e as [a|e]; cbn in He.
  - apply bind_Some in He as ([p acc] & Ha & H). destruct (accepting s) eqn:Ep; [| | |by left];
      right; destruct a; cbn in Ha; try done; repeat case_match; simplify_eq; try done;
      try (apply bind_Some in H as (? & _ & [= <-])); cbn in Hs1; simplify_eq; by left.
  - destruct e; [done|..]; apply bind_Some in He as (g & _ & [= <-]); by left.
Qed.

(** C16: the server is the gateway of Gateway.v.  Whatever the network does, a
    run of the server is a run of the gateway whose clients are, in order,
    exactly those whose control stream arrived, each accepted once; failed
    handshakes and streams cost nobody else anything, and the accept task
    returns only when the endpoint is closed. *)
Theorem serve_runs_gateway es : forall s s' h,
  serve_steps es s = Some s' ->
  (exists h', gsteps now fuel hook (gateway_events es) (gateway s) h = Some (gateway s', h')) /\
  (accepting s' = Returned -> accepting s = Returned \/ Network EndpointClosed ∈ es).
Proof. intros H. split; [by apply serve_steps_gateway|by eapply serve_returns]. Qed.

Lemma waiting_step e s s' :
  serve_step e s = Some s' -> answers (accepting s) e = false ->
  accepting s' = accepting s /\ exists e', e = Task e' /\ gateway_event e = [e'] /\
    forall l n, e' <> Accepted l n.
Proof.
  destruct e as [a|e]; cbn [serve_step].
  - intros ([p acc] & Ha & _)%bind_Some Hno. exfalso. unfold accept_step in Ha.
    destruct (accepting s), a; try done; cbn in Hno; case_decide; try done;
      by rewrite bool_decide_true in Hno.
  - destruct e; [done|..]; intros (g & _ & [= <-])%bind_Some _; (split; [done|]); by eexists.
Qed.

(** C15: one silent client holds up all others.  From the moment a connection is
    taken up until that peer's own handshake and control stream arrive, no
    other client can be accepted: however long the run, without an answer
    from that peer the accept task stays where it is, and the gateway gets no
    new client. *)
Theorem silent_client_blocks es : forall s s',
  serve_steps es s = Some s' -> Forall (fun e => answers (accepting s) e = false) es ->
  accepting s' = accepting s /\
  (forall l n, Accepted l n ∉ gateway_events es) /\
  dom (tasks (gateway s')) = dom (tasks (gateway s)).
Proof.
  induction es as [|e es IH]; intros s s'; cbn [serve_steps].
  - intros [= <-] _. split_and!; [done| |done]. intros l n. apply not_elem_of_nil.
  - intros (s1 & He & Hes)%bind_Some [Hno Hall]%Forall_cons.
    destruct (waiting_step _ _ _ He Hno) as (Hp & e' & -> & Hev & Hne). rewrite <-Hp in Hall |- *.
    destruct (IH _ _ Hes Hall) as (H1 & H2 & H3). split_and!; [done| |].
    + intros l n. change (gateway_events (Task e' :: es)) with ([e'] ++ gateway_events es).
      intros [E%list_elem_of_singleton|Hin]%elem_of_app; [by eapply (Hne l n)|by eapply H2].
    + rewrite H3. destruct e' as [l n|i st|p st]; [by destruct (Hne l n)|..];
        cbn [serve_step] in He; apply bind_Some in He as (g & Hg & [= <-]); cbn [gateway].
      * cbn in Hg. apply bind_Some in Hg as (t & Ht & ([t' x] & _ & [= <-])%bind_Some). cbn.
        rewrite dom_insert_L. apply elem_of_dom_2 in Ht.
        by apply subseteq_union_1_L, singleton_subseteq_l.
      * cbn in Hg. by apply bind_Some in Hg as (f & _ & (o & _ & [= <-])%bind_Some).
Qed.

End Serve.

(** ** Witnesses *)

Module Witness.
Import Registry.Witness Ssh.Witness Negotiate.Witness Gateway.Witness.
#[local] Existing Instance Wire.quinn_error.

#[local] Abbreviation ServerEvent := (ServerEvent (L:=Script) (N:=list string)).

(** A client is served; another completes its handshake and falls silent, while
    the first types on. *)
Definition served : list ServerEvent :=
  [Network (Incoming 3); Network (Handshaken 3 (Ok tt)); Network (ControlStream 3 (Ok (opener, [])))] ++
  map Task (turns 0 10) ++ [Network (Incoming 4); Network (Handshaken 4 (Ok tt))].
Definition idle : list ServerEvent := [Task (OnSession 1 (TargetWrites (as_bytes "$ "))); Task (Turn 0%nat Receive)].

Definition server (es : list ServerEvent) :=
  default (mkServer Listening start) (serve_steps now 5 counting es (mkServer Listening start)).

Lemma run_served : serve_steps now 5 counting served (mkServer Listening start) = Some (server served).
Proof. vm_compute. reflexivity. Defined.

Lemma run_idle : serve_steps now 5 counting idle (server served) = Some (server (served ++ idle)).
Proof. vm_compute. reflexivity. Defined.

Lemma serve_runs_gateway_witness :
  (exists h', gsteps now 5 counting (Accepted opener [] :: turns 0 10) start blank =
     Some (gateway (server served), h')) /\
  (accepting (server served) = Returned -> Listening = Returned \/ Network EndpointClosed ∈ served).
Proof. exact (serve_runs_gateway now 5 counting served (mkServer Listening start) _ blank run_served). Defined.

Lemma silent_client_blocks_witness :
  accepting (server (served ++ idle)) = AwaitingControl 4 /\
  (forall l n, Accepted l n ∉ gateway_events idle) /\
  dom (tasks (gateway (server (served ++ idle)))) = {[0%nat]}.
Proof.
  destruct (silent_client_blocks now 5 counting idle (server served) _ run_idle) as (H1 & H2 & H3).
  - repeat constructor.
  - split; [rewrite H1; vm_compute; reflexivity|]. split; [exact H2|].
    rewrite H3. vm_compute. reflexivity.
Defined.

End Witness.
