(* ===== verification/Startup.v ===== *)
(** * Startup ([crates/gw-server/src/config.rs], [main.rs], [build_server] in
    [lib.rs], and the server side of [crates/gw-transport/src/tls.rs] and
    [server.rs])

    From the configuration file and the environment to the hook and the
    endpoint the gateway serves with.  The file system and the environment are
    functions; TOML, TLS and QUIC are third-party ([Toml], [Tls]). *)

From S2P Require Import Prelude Quota HttpHook.

(** [std::net::SocketAddr]. *)
Record SocketAddr : Type := mkSocketAddr { ip : list Z; sock_port : u16 }.

(** Default UDP port the gateway's QUIC endpoint binds to. *)
Definition DEFAULT_PORT : u16 := 4433.

(** ALPN protocol identifier. *)
Definition ALPN : list byte := as_bytes "sharkgw/1".

Record Config : Type := mkConfig {
  listen : SocketAddr;
  tls_cert : option string;
  tls_key : option string;
  auth_webhook_url : option string;
  control_plane_url : option string;
  gateway_key : option string;
}.

Definition config_default : Config :=
  mkConfig (mkSocketAddr [0; 0; 0; 0] DEFAULT_PORT) None None None None None.

(** What the program reads: files (with the rendering of an I/O error) and
    environment variables. *)
Record Environment : Type := mkEnvironment {
  path_exists : string -> bool;
  read_to_string : string -> Result string string;
  env_var : string -> option string;
}.

(** [toml::from_str::<Config>]. *)
Class Toml : Type := { from_toml : string -> Result Config string }.

Definition set_control_plane_url (v : option string) (c : Config) : Config :=
  mkConfig (listen c) (tls_cert c) (tls_key c) (auth_webhook_url c) v (gateway_key c).
Definition set_gateway_key (v : option string) (c : Config) : Config :=
  mkConfig (listen c) (tls_cert c) (tls_key c) (auth_webhook_url c) (control_plane_url c) v.

(** An override from the environment: set and not empty. *)
Definition env_override (env : Environment) (name : string) (current : option string)
    : option string :=
  match env_var env name with
  | Some v => if decide (v = EmptyString) then current else Some v
  | None => current
  end.

Section Load.
Context {TO : Toml}.

(** [Config::load]. *)
Definition load (env : Environment) (path : string) : Result Config Error :=
  (let? config :=
     if path_exists env path then
       let? text := context (fun e => e) ("reading config " +:+ path) (read_to_string env path) in
       context (fun e => e) ("parsing config " +:+ path) (from_toml text)
     else Ok config_default in
   let config := set_control_plane_url
     (env_override env "SHARK_CONTROL_PLANE_URL" (control_plane_url config)) config in
   let config := set_gateway_key
     (env_override env "SHARK_GATEWAY_KEY" (gateway_key config)) config in
   Ok config)%gw.

End Load.

(** ** The hook ([main]) *)

(** The hook [main] builds: the HTTP one, or [None] for [AllowAll]. *)
Definition choose_http_hook (config : Config) : option HttpAuthHook :=
  match
    match control_plane_url config with
    | Some url => Some url
    | None => auth_webhook_url config
    end
  with
  | Some base => Some (hook_new base (gateway_key config))
  | None => None
  end.

Definition choose_hook {W} {RQ : Reqwest W} (config : Config) : AuthHook W :=
  match choose_http_hook config with
  | Some h => http_hook h
  | None => AllowAll
  end.

(** ** The endpoint *)

(** [quinn::TransportConfig], what the code sets of it, in seconds. *)
Record TransportConfig : Type := mkTransportConfig {
  max_idle_timeout : option Z;
  keep_alive_interval : option Z;
}.

(** [rustls], [rustls_pemfile], [rcgen] and [quinn]. *)
Class Tls : Type := {
  Certificate : Type;
  TlsKey : Type;
  RustlsConfig : Type;
  QuicCrypto : Type;
  Endpoint : Type;
  pem_certs : list byte -> Result (list Certificate) string;
  pem_private_key : list byte -> Result (option TlsKey) string;
  simple_self_signed : list string -> Result (Certificate * TlsKey) string;
  (** No client authentication, one chain and key, and these ALPN protocols. *)
  with_single_cert : list Certificate -> TlsKey -> Result RustlsConfig string;
  quic_crypto : RustlsConfig -> list (list byte) -> Result QuicCrypto string;
  endpoint_server : QuicCrypto -> TransportConfig -> SocketAddr -> Result Endpoint string;
}.

Section Serve.
Context {TL : Tls}.

(** [transport]: a 30 s idle timeout, a keep-alive every 10 s. *)
Definition transport : TransportConfig := mkTransportConfig (Some 30) (Some 10).

(** [quinn::ServerConfig]. *)
Record ServerConfig : Type := mkServerConfig { crypto : QuicCrypto; transport_config : TransportConfig }.

(** [build_server_config]. *)
Definition build_server_config (certs : list Certificate) (key : TlsKey)
    : Result ServerConfig Error :=
  (let? rustls_config := context (fun e => e) "build server TLS config" (with_single_cert certs key) in
   let? quic := context (fun e => e) "build QUIC server crypto config"
                  (quic_crypto rustls_config [ALPN]) in
   Ok (mkServerConfig quic transport))%gw.

(** [self_signed_server_config]. *)
Definition self_signed_server_config : Result (ServerConfig * Certificate) Error :=
  (let? (cert, key) := context (fun e => e) "generate self-signed certificate"
                          (simple_self_signed ["localhost"%string]) in
   let? config := build_server_config [cert] key in
   Ok (config, cert))%gw.

(** [server_config_from_pem]. *)
Definition server_config_from_pem (cert_pem key_pem : string) : Result ServerConfig Error :=
  (let? certs := context (fun e => e) "parse certificate PEM" (pem_certs (as_bytes cert_pem)) in
   if decide (certs = []) then Err (Msg "no certificates in PEM")
   else
     let? key := context (fun e => e) "parse private key PEM" (pem_private_key (as_bytes key_pem)) in
     match key with
     | None => Err (Msg "no private key in PEM")
     | Some key => build_server_config certs key
     end)%gw.

(** [Server::bind] and [Server::bind_self_signed]; their error is a
    [TransportError], here its rendering. *)
Definition bind (addr : SocketAddr) (config : ServerConfig) : Result Endpoint string :=
  map_err (fun e => "io: " +:+ e) (endpoint_server (crypto config) (transport_config config) addr).

Definition bind_self_signed (addr : SocketAddr) : Result (Endpoint * Certificate) string :=
  (let? (config, cert) := map_err Error_display self_signed_server_config in
   let? endpoint := bind addr config in
   Ok (endpoint, cert))%gw.

(** [build_server]. *)
Definition build_server (env : Environment) (config : Config) : Result Endpoint Error :=
  (match tls_cert config, tls_key config with
   | Some cert_path, Some key_path =>
       let? cert := context (fun e => e) ("read tls_cert " +:+ cert_path) (read_to_string env cert_path) in
       let? key := context (fun e => e) ("read tls_key " +:+ key_path) (read_to_string env key_path) in
       let? server_config := server_config_from_pem cert key in
       context (fun e => e) "bind QUIC endpoint" (bind (listen config) server_config)
   | _, _ =>
       let? (server, _) := context (fun e => e) "bind QUIC endpoint (self-signed)"
                              (bind_self_signed (listen config)) in
       Ok server
   end)%gw.

End Serve.

(** ** What a configuration means *)

(** The first of several settings that is given. *)
Fixpoint first_set {A} (l : list (option A)) : option A :=
  match l with
  | [] => None
  | Some a :: _ => Some a
  | None :: l => first_set l
  end.

(** A variable of the environment, when set and not empty. *)
Definition setting (env : Environment) (name : string) : option string :=
  v ← env_var env name; if decide (v = EmptyString) then None else Some v.

Lemma env_override_setting env name current :
  env_override env name current = first_set [setting env name; current].
Proof.
  unfold env_override, setting. destruct (env_var env name) as [v|]; cbn; [case_decide|];
    by destruct current.
Qed.

(** The configuration before the environment is applied. *)
Definition file_config {TO : Toml} (env : Environment) (path : string) (c : Config) : Prop :=
  if path_exists env path then
    exists text, read_to_string env path = Ok text /\ from_toml text = Ok c
  else c = config_default.

Lemma bind_result {A B E} (r : Result A E) (k : A -> Result B E) b :
  (let? x := r in k x)%gw = Ok b <-> exists a, r = Ok a /\ k a = Ok b.
Proof. destruct r; split; [eauto|by intros (? & [= <-] & ?)|done|by intros (? & [=] & _)]. Qed.

Lemma context_inv {A E} (show : E -> string) c (r : Result A E) a : context show c r = Ok a <-> r = Ok a.
Proof. destruct r; cbn; split; congruence. Qed.

Lemma load_ok {TO : Toml} env path c :
  load env path = Ok c <->
  exists f, file_config env path f /\
    c = set_gateway_key (first_set [setting env "SHARK_GATEWAY_KEY"; gateway_key f])
          (set_control_plane_url
             (first_set [setting env "SHARK_CONTROL_PLANE_URL"; control_plane_url f]) f).
Proof.
  unfold load, file_config. rewrite bind_result. split; intros (f & Hf & H); exists f.
  - injection H as <-. rewrite !env_override_setting. split; [|done].
    destruct (path_exists env path); [|by injection Hf].
    apply bind_result in Hf as (text & Ht%context_inv & Hp%context_inv). by exists text.
  - rewrite !env_override_setting, H. split; [|done].
    destruct (path_exists env path); [|by rewrite Hf]. destruct Hf as (text & Ht & Hp).
    apply bind_result. exists text. by rewrite !context_inv.
Qed.

(** C38: who decides.  A gateway whose configuration loads (the file, where
    there is one, was read and parsed) authorizes through the control plane
    named by the environment, else by [control_plane_url], else by the legacy
    [auth_webhook_url], with the key of the environment, else of the file; it
    admits everyone exactly when none of the three names one.  Nothing else
    in the configuration depends on the environment. *)
Theorem startup_hook {TO : Toml} env path c :
  load env path = Ok c ->
  exists f, file_config env path f /\
    (listen c, tls_cert c, tls_key c) = (listen f, tls_cert f, tls_key f) /\
    choose_http_hook c =
      match first_set [setting env "SHARK_CONTROL_PLANE_URL"; control_plane_url f;
                       auth_webhook_url f] with
      | Some url => Some (hook_new url (first_set [setting env "SHARK_GATEWAY_KEY"; gateway_key f]))
      | None => None
      end.
Proof.
  intros (f & Hf & ->)%load_ok. exists f. split_and!; [done|done|].
  unfold choose_http_hook. cbn.
  destruct (setting env "SHARK_CONTROL_PLANE_URL"), (control_plane_url f), (auth_webhook_url f); done.
Qed.

Section Serving.
Context {TL : Tls}.

(** An endpoint that presents these certificates, under this key. *)
Definition presents (certs : list Certificate) (key : TlsKey) (addr : SocketAddr) (e : Endpoint)
    : Prop :=
  exists rustls quic, with_single_cert certs key = Ok rustls /\
    quic_crypto rustls [ALPN] = Ok quic /\ endpoint_server quic transport addr = Ok e.

Lemma bound certs key addr config e :
  build_server_config certs key = Ok config -> bind addr config = Ok e -> presents certs key addr e.
Proof.
  unfold build_server_config, bind. rewrite bind_result. intros (r & Hr%context_inv & H).
  rewrite bind_result in H. destruct H as (q & Hq%context_inv & [= <-]). cbn.
  destruct (endpoint_server q transport addr) eqn:E; cbn; [|done]. intros [= ->]. by exists r, q.
Qed.

(** C39: the gateway's identity.  It listens on the configured address, with the
    gateway's ALPN, and presents the configured certificate chain, which is
    not empty, under the configured key, when both are configured; in every
    other case, a certificate without a key included, it presents a fresh
    self-signed one.  A file that cannot be read or parsed stops it. *)
Theorem server_identity env c e :
  build_server env c = Ok e ->
  exists certs key, certs <> [] /\ presents certs key (listen c) e /\
    match tls_cert c, tls_key c with
    | Some cert_path, Some key_path =>
        exists cert_pem key_pem, read_to_string env cert_path = Ok cert_pem /\
          read_to_string env key_path = Ok key_pem /\
          pem_certs (as_bytes cert_pem) = Ok certs /\
          pem_private_key (as_bytes key_pem) = Ok (Some key)
    | _, _ => exists cert, certs = [cert] /\ simple_self_signed ["localhost"%string] = Ok (cert, key)
    end.
Proof.
  assert (Hself : (let? (server, _) := context (fun e => e) "bind QUIC endpoint (self-signed)"
                              (bind_self_signed (listen c)) in Ok server)%gw = Ok e ->
    exists certs key, certs <> [] /\ presents certs key (listen c) e /\
      exists cert, certs = [cert] /\ simple_self_signed ["localhost"%string] = Ok (cert, key)).
  { rewrite bind_result. intros ([server cert] & Hb%context_inv & [= ->]).
    unfold bind_self_signed in Hb. apply bind_result in Hb as ([config cert'] & Hc & Hb).
    apply bind_result in Hb as (e' & Hb & [= -> ->]).
    destruct self_signed_server_config as [cc|] eqn:E; [|done]. injection Hc as ->.
    unfold self_signed_server_config in E. apply bind_result in E as ([cert1 key] & Hs%context_inv & E).
    apply bind_result in E as (config' & Hc & [= -> ->]).
    exists [cert], key. split_and!; [done|by eapply bound|by exists cert]. }
  unfold build_server. destruct (tls_cert c) as [cp|], (tls_key c) as [kp|]; try exact Hself. clear Hself.
  rewrite bind_result. intros (cert & Hcert%context_inv & H).
  apply bind_result in H as (key & Hkey%context_inv & H).
  apply bind_result in H as (config & Hconf & Hb%context_inv).
  unfold server_config_from_pem in Hconf. apply bind_result in Hconf as (certs & Hcs%context_inv & H).
  case_decide as Hne; [done|]. apply bind_result in H as ([k|] & Hk%context_inv & H); [|done].
  exists certs, k. split_and!; [done|by eapply bound|]. by exists cert, key.
Qed.

End Serving.

(** ** Witnesses *)

Module Witness.

(** TOML that is one line, the control plane's URL. *)
#[export] Instance one_line : Toml := {|
  from_toml text := Ok (set_control_plane_url (Some text) config_default);
|}.

Definition env : Environment := {|
  path_exists p := bool_decide (p = "gw.toml"%string);
  read_to_string p := Ok (if decide (p = "gw.toml") then "http://file" else p)%string;
  env_var name := if decide (name = "SHARK_GATEWAY_KEY"%string) then Some "k"%string else Some EmptyString;
|}.

Definition loaded : Config :=
  set_gateway_key (Some "k"%string) (set_control_plane_url (Some "http://file"%string) config_default).

Lemma startup_hook_witness :
  exists f, file_config env "gw.toml" f /\
    (listen loaded, tls_cert loaded, tls_key loaded) = (listen f, tls_cert f, tls_key f) /\
    choose_http_hook loaded =
      match first_set [setting env "SHARK_CONTROL_PLANE_URL"; control_plane_url f;
                       auth_webhook_url f] with
      | Some url => Some (hook_new url (first_set [setting env "SHARK_GATEWAY_KEY"; gateway_key f]))
      | None => None
      end.
Proof. apply (startup_hook env "gw.toml" loaded). reflexivity. Defined.

(** Everything succeeds, and an endpoint shows what it presents. *)
#[export] Instance paper : Tls := {|
  Certificate := string; TlsKey := string; RustlsConfig := list string; QuicCrypto := list string;
  Endpoint := list string;
  pem_certs b := Ok [string_of_bytes b]; pem_private_key b := Ok (Some (string_of_bytes b));
  simple_self_signed names := Ok ("self-signed", "fresh")%string;
  with_single_cert certs _ := Ok certs; quic_crypto r _ := Ok r; endpoint_server q _ _ := Ok q;
|}.

(** A certificate without its key. *)
Definition keyless : Config :=
  mkConfig (listen config_default) (Some "cert.pem"%string) None None None None.

Lemma server_identity_witness :
  exists certs key, certs <> [] /\ presents certs key (listen keyless) ["self-signed"%string] /\
    exists cert, certs = [cert] /\ simple_self_signed ["localhost"%string] = Ok (cert, key).
Proof. apply (server_identity env keyless). reflexivity. Defined.

End Witness.
