(* ===== verification/Endpoint.v ===== *)
(** * The QUIC endpoints ([crates/gw-transport/src/server.rs], [client.rs] and
    [tls.rs])

    The gateway's endpoint and the client library's, as they call [quinn]: what
    is awaited in which order, and which error each failure becomes.  [quinn] is
    a parameter acting on the network [Q].  [accept_run] ties [Server::accept]
    to the accept task of Serve.v, one [await] at a time; [pinned_pair] is the
    trust a pinned client places in a self-signed gateway. *)

From S2P Require Import Prelude Frame Codec WireFormat Framed Link Negotiate Startup Serve.

(** The client's side of [rustls]. *)
Class TlsClient {TL : Tls} : Type := {
  RootStore : Type;
  ClientRustls : Type;
  ClientCrypto : Type;
  (** A root store with one certificate added to an empty one. *)
  root_store_of : Certificate -> Result RootStore string;
  (** These roots, no client authentication. *)
  with_roots : RootStore -> ClientRustls;
  client_quic_crypto : ClientRustls -> list (list byte) -> Result ClientCrypto string;
}.

(** [quinn]'s endpoints; a stream is its two halves. *)
Class Quinn {QE : QuinnError} {TL : Tls} {TC : TlsClient} (Q S R : Type) : Type := {
  IncomingConn : Type;
  Connecting : Type;
  QuicConnection : Type;
  ClientEndpoint : Type;
  endpoint_accept : Endpoint -> Eff Q (option IncomingConn);
  incoming_await : IncomingConn -> Eff Q (Result QuicConnection ConnectionError);
  accept_bi : QuicConnection -> Eff Q (Result (S * R) ConnectionError);
  local_addr_of : Endpoint -> Eff Q (Result SocketAddr string);
  close_endpoint : Endpoint -> Z -> list byte -> Eff Q unit;
  wait_idle_server : Endpoint -> Eff Q unit;
  endpoint_client : SocketAddr -> Eff Q (Result ClientEndpoint string);
  set_default_client_config : ClientEndpoint -> ClientCrypto -> TransportConfig -> ClientEndpoint;
  endpoint_connect : ClientEndpoint -> SocketAddr -> string -> Eff Q (Result Connecting ConnectError);
  connecting_await : Connecting -> Eff Q (Result QuicConnection ConnectionError);
  open_bi : QuicConnection -> Eff Q (Result (S * R) ConnectionError);
  wait_idle_client : ClientEndpoint -> Eff Q unit;
}.

Section Endpoint.
Context {PE : PostcardError} {QE : QuinnError} {TL : Tls} {TC : TlsClient}.
Context {Q S R : Type} {QU : Quinn Q S R}.

Record ClientConnection : Type := mkClientConnection {
  conn : QuicConnection;
  send_half : S;
  recv_half : R;
}.

#[local] Abbreviation TResult A := (Result A TransportError).

(** ** The process's crypto provider *)

(** [rustls]'s process-wide default, and whether [CRYPTO_INIT] has run. *)
Inductive Provider : Type := Ring | OtherProvider.
Record Process : Type := mkProcess { crypto_init : bool; default_provider : option Provider }.

(** [install_crypto_provider], before every configuration is built: once, and a
    provider that is already there stays. *)
Definition install_crypto_provider (p : Process) : Process :=
  if crypto_init p then p
  else mkProcess true (match default_provider p with None => Some Ring | found => found end).

(** Every configuration finds a provider, the same each time. *)
Lemma provider_installed n :
  (0 < n)%nat ->
  Nat.iter n install_crypto_provider (mkProcess false None) = mkProcess true (Some Ring).
Proof.
  intros Hn. destruct n as [|n]; [lia|]. clear Hn. induction n as [|n IH]; [done|].
  change (install_crypto_provider (Nat.iter (Datatypes.S n) install_crypto_provider (mkProcess false None)) =
    mkProcess true (Some Ring)). by rewrite IH.
Qed.

(** ** The gateway's endpoint *)

(** [accept_control]. *)
Definition accept_control (incoming : IncomingConn) : Eff Q (TResult ClientConnection) :=
  (conn ←? (map_err Framed.Connection <$> incoming_await incoming);
   '(send, recv) ←? (map_err Framed.Connection <$> accept_bi conn);
   mret (Ok (mkClientConnection conn send recv)))%gw.

(** [Server::accept]: [None] when the endpoint is closed. *)
Definition accept (self : Endpoint) : Eff Q (option (TResult ClientConnection)) :=
  incoming ← endpoint_accept self;
  match incoming with
  | None => mret None
  | Some incoming => Some <$> accept_control incoming
  end.

(** [Server::local_addr]. *)
Definition local_addr (self : Endpoint) : Eff Q (TResult SocketAddr) :=
  map_err Io <$> local_addr_of self.

(** [Server::shutdown]. *)
Definition shutdown (self : Endpoint) : Eff Q unit :=
  _ ← close_endpoint self 0 (as_bytes "shutdown"); wait_idle_server self.

(** ** The client's endpoint *)

(** [quinn::ClientConfig]. *)
Record ClientConfig : Type := mkClientConfig {
  client_crypto : ClientCrypto;
  client_transport : TransportConfig;
}.

(** [pinned_client_config]. *)
Definition pinned_client_config (server_cert : Certificate) : Result ClientConfig Error :=
  (let? roots := context (fun e => e) "pin server cert" (root_store_of server_cert) in
   let? quic := context (fun e => e) "build QUIC client crypto config"
                  (client_quic_crypto (with_roots roots) [ALPN]) in
   Ok (mkClientConfig quic transport))%gw.

(** [Client::new]: an ephemeral port of every interface. *)
Definition client_new (config : ClientConfig) : Eff Q (TResult ClientEndpoint) :=
  (endpoint ←? (map_err Io <$> endpoint_client (mkSocketAddr [0; 0; 0; 0] 0));
   mret (Ok (set_default_client_config endpoint (client_crypto config) (client_transport config))))%gw.

(** [Client::connect]. *)
Definition client_connect (self : ClientEndpoint) (addr : SocketAddr) (server_name : string)
    : Eff Q (TResult ClientConnection) :=
  (connecting ←? (map_err Connect <$> endpoint_connect self addr server_name);
   conn ←? (map_err Framed.Connection <$> connecting_await connecting);
   '(send, recv) ←? (map_err Framed.Connection <$> open_bi conn);
   mret (Ok (mkClientConnection conn send recv)))%gw.

(** [Client::wait_idle]. *)
Definition wait_idle (self : ClientEndpoint) : Eff Q unit := wait_idle_client self.

(** ** [Server::accept] and the accept task *)

(** The accept task through a list of answers, until it has a result. *)
Fixpoint accept_run {L N : Type} (answers : list Answer) (p : Accepting)
    : option (Accepting * option (Result (L * N) TransportError)) :=
  match answers with
  | [] => None
  | a :: answers =>
      '(p, r) ← accept_step a p;
      match r, answers with
      | Some r, [] => Some (p, r)
      | None, _ => accept_run answers p
      | Some _, _ :: _ => None
      end
  end.

(** A client, as Serve.v has it: its streams and its view of the network. *)
Definition as_client {L N : Type} (link_of : S -> R -> L) (n : N) (c : ClientConnection) : L * N :=
  (link_of (send_half c) (recv_half c), n).

(** Every [accept] that returns is one round of the accept task: the same
    answers, in the same order, end in the same result. *)
Lemma accept_is_a_round {L N : Type} (link_of : S -> R -> L) (n : N) peer self q r q' :
  accept self q = Some (r, q') ->
  exists answers, accept_run answers Listening =
    Some (match r with None => Returned | Some _ => Listening end,
          option_map (fun r => match r with
                               | Ok c => Ok (as_client link_of n c)
                               | Err e => Err e
                               end) r) /\
    (r <> None -> head answers = Some (Incoming peer)).
Proof.
  unfold accept. rewrite bind_Some_inv. intros ([inc|] & q1 & _ & H).
  2: { injection H as <- <-. by exists [EndpointClosed]. }
  apply fmap_inv in H as (rc & Hc & ->). unfold accept_control in Hc.
  apply bind_ok_inv in Hc. setoid_rewrite fmap_inv in Hc.
  destruct Hc as [(cn & q2 & ([cn'|] & _ & [= ->]) & Hc)|(e & q2 & ([|e'] & _ & [= ->]) & [= -> ->])].
  2: { exists [Incoming peer; Handshaken peer (Err e')]. cbn. by rewrite decide_True. }
  apply bind_ok_inv in Hc. setoid_rewrite fmap_inv in Hc.
  destruct Hc as [([s r] & q3 & ([sr|] & _ & [= <-]) & Hc)|(e & q3 & ([|e'] & _ & [= ->]) & [= -> ->])].
  - injection Hc as <- <-.
    exists [Incoming peer; Handshaken peer (Ok tt); ControlStream peer (Ok (link_of s r, n))].
    cbn. rewrite !decide_True by done. cbn. by rewrite decide_True.
  - exists [Incoming peer; Handshaken peer (Ok tt); ControlStream peer (Err e')].
    cbn. rewrite !decide_True by done. cbn. by rewrite decide_True.
Qed.

(** ** A pinned pair *)

(** Trust on first use.  A client configured with the certificate that
    [bind_self_signed] returned trusts exactly the one certificate the gateway
    presents, a fresh one for [localhost]; and both sides offer the same one
    protocol and keep the connection alive on the same terms. *)
Theorem pinned_pair addr e cert config :
  bind_self_signed addr = Ok (e, cert) -> pinned_client_config cert = Ok config ->
  exists key roots,
    simple_self_signed ["localhost"%string] = Ok (cert, key) /\ presents [cert] key addr e /\
    root_store_of cert = Ok roots /\
    client_quic_crypto (with_roots roots) [ALPN] = Ok (client_crypto config) /\
    client_transport config = transport.
Proof.
  unfold bind_self_signed, pinned_client_config. rewrite bind_result.
  intros ([sc cert'] & Hc & Hb) Hp. apply bind_result in Hb as (e' & Hb & [= -> ->]).
  destruct self_signed_server_config as [cc|] eqn:E; [|done]. injection Hc as ->.
  unfold self_signed_server_config in E. apply bind_result in E as ([cert1 key] & Hs%context_inv & E).
  apply bind_result in E as (sc' & Hc & [= -> ->]).
  apply bind_result in Hp as (roots & Hr%context_inv & Hp).
  apply bind_result in Hp as (quic & Hq%context_inv & [= <-]).
  exists key, roots. split_and!; [done|by eapply bound|done..].
Qed.

End Endpoint.

(** ** Witness *)

Module Witness.
Import Startup.Witness.

#[export] Instance paper_client : TlsClient := {|
  RootStore := string; ClientRustls := string; ClientCrypto := string;
  root_store_of c := Ok c; with_roots r := r; client_quic_crypto c _ := Ok c;
|}.

Lemma pinned_pair_witness :
  exists key roots,
    simple_self_signed ["localhost"%string] = Ok ("self-signed"%string, key) /\
    presents ["self-signed"%string] key (listen config_default) ["self-signed"%string] /\
    root_store_of "self-signed"%string = Ok roots /\
    client_quic_crypto (with_roots roots) [ALPN] = Ok "self-signed"%string /\ transport = transport.
Proof.
  exact (pinned_pair (listen config_default) ["self-signed"%string] "self-signed"%string
    (mkClientConfig "self-signed"%string transport) eq_refl eq_refl).
Defined.

End Witness.
