(* ===== verification/Main.v ===== *)
(** * The whole program ([main] in [crates/gw-server/src/main.rs], [serve] in
    [crates/gw-server/src/lib.rs])

    From the configuration file to the accept loop: [main] loads the
    configuration, picks the hook and serves; [serve] makes a registry and binds
    the endpoint.  What runs then is the server of Serve.v. *)

From S2P Require Import Prelude Frame Codec WireFormat Framed Scrollback Registry Quota Throttle Link Ssh Negotiate Connection Phases Gateway Custody Serve HttpHook Startup.

Section Main.
Context {PE : PostcardError} {QE : QuinnError} {RN : Renderings}.
Context {L : Type} {LK : Link L} {LL : LinkLaws L}.
Context {CP : Type} {G : Type} {EN : Entropy G} {N : Type} {RU : Russh N}.
Context {TO : Toml} {TL : Tls} {RQ : Reqwest CP}.
Context (now : nat -> Instant) (fuel : nat).

#[local] Abbreviation Server := (@Server L CP G N).

(** A process that serves: its endpoint, the hook it asks, and its tasks. *)
Record Serving : Type := mkServing {
  endpoint : Endpoint;
  serving_hook : AuthHook CP;
  server : Server;
}.

(** [serve], up to its loop; [p] is the control plane's world, [gen] the source
    of randomness. *)
Definition serve (env : Environment) (config : Config) (hook : AuthHook CP) (p : CP) (gen : G)
    : Result Serving Error :=
  (let? endpoint := build_server env config in
   Ok (mkServing endpoint hook (mkServer Listening (ready p gen))))%gw.

(** [main], with the path of the configuration file from the command line. *)
Definition main (env : Environment) (path : string) (p : CP) (gen : G) : Result Serving Error :=
  (let? config := load env path in
   serve env config (choose_hook config) p gen)%gw.

(** [main] serves exactly when the configuration loads and the endpoint binds. *)
Lemma main_ok env path p gen x :
  main env path p gen = Ok x <->
  exists config, load env path = Ok config /\ build_server env config = Ok (endpoint x) /\
    serving_hook x = choose_hook config /\ server x = mkServer Listening (ready p gen).
Proof.
  unfold main, serve. rewrite bind_result. split.
  - intros (config & Hl & H). apply bind_result in H as (e & He & [= <-]). by exists config.
  - intros (config & Hl & He & Hh & Hs). exists config. split; [done|]. rewrite bind_result.
    exists (endpoint x). split; [done|]. destruct x. cbn in *. by subst.
Qed.

(** C3: the whole program, from its command line to any moment of its life.
    [main] fails, before anything is served, when the configuration cannot be
    loaded or the endpoint cannot be bound.  Otherwise it serves on that
    endpoint, and after any run of its accept loop, its clients' tasks and its
    sessions: the control plane is where the calls remembered, each made with
    its arguments to the hook the configuration names, have taken it, and
    nothing else has; the registry holds exactly a list of sessions that clients
    opened, and every other session ever opened is one whose opening that hook
    denied or whose closing it was told; and that hook was called with the usage
    of every connection once, if the connection has got past its report, and
    else not.  (Of a connection without a byte the HTTP hook then sends nothing:
    [HttpHook.http_reports].) *)
Theorem main_serves env path p gen x es s :
  main env path p gen = Ok x ->
  serve_steps now fuel (serving_hook x) es (server x) = Some s ->
  exists config h, load env path = Ok config /\ build_server env config = Ok (endpoint x) /\
    gsteps now fuel (choose_hook config) (gateway_events es) (ready p gen) blank = Some (gateway s, h) /\
    replays (choose_hook config) (calls h) p (g_plane (gateway s)) /\
    (forall i, accounted (usage_reports h i) (by_task i (metered h)) (tasks (gateway s) !! i)) /\
    (drawn_apart h ->
     exists live, holds (g_manager (gateway s)) live /\ live ⊆ sessions_made h /\
       forall session, session ∈ sessions_made h -> session ∈ live \/ parted h session).
Proof.
  intros (config & Hl & He & Hh & Hs)%main_ok Hrun. rewrite Hh, Hs in Hrun.
  destruct (serve_steps_gateway _ _ _ _ _ _ blank Hrun) as [h Hg].
  exists config, h. split_and!; [done..| | |].
  - by eapply gsteps_replays.
  - exact (gsteps_usage _ _ _ _ _ _ _ _ Hg (usage_ready p gen)).
  - intros Hap.
    destruct (gsteps_invariant _ _ _ _ _ _ _ _ _ (invariant_ready p gen) Hg Hap) as (live & Hinv & _).
    exists live. split_and!; apply Hinv.
Qed.

End Main.

(** ** Witness *)

Module Witness.
Import Registry.Witness Ssh.Witness Negotiate.Witness Gateway.Witness HttpHook.Witness Startup.Witness.
#[local] Existing Instance Wire.quinn_error.

(** The configuration names a control plane, the environment its key. *)
Definition env : Environment := {|
  path_exists p := true;
  read_to_string p := Ok "http://cp/"%string;
  env_var name := if decide (name = "SHARK_GATEWAY_KEY"%string) then Some "secret"%string else None;
|}.

(** A client with an account opens a session, types, and closes it. *)
Definition client : Script :=
  mkScript [ClientFrame.Hello 1 "ipad" None (Some (as_bytes "tok-123"));
            open_box (AuthIntent.Password "pw"); ClientFrame.Data (as_bytes "ls"); ClientFrame.Close] [] 10.

Definition life : list (ServerEvent (L:=Script) (N:=list string)) :=
  [Network (Incoming 3); Network (Handshaken 3 (Ok tt)); Network (ControlStream 3 (Ok (client, [])))] ++
  repeat (Task (Turn 0%nat Receive)) 17.

Definition config : Config :=
  set_gateway_key (Some "secret"%string) (set_control_plane_url (Some "http://cp/"%string) config_default).

Definition serving : Serving (L:=Script) (CP:=list Request) (G:=Z) (N:=list string) :=
  mkServing ["self-signed"%string] (choose_hook config) (mkServer Listening (ready [] 0)).

Definition after : Server (L:=Script) (CP:=list Request) (G:=Z) (N:=list string) :=
  default (server serving) (serve_steps now 5 (serving_hook serving) life (server serving)).

Lemma main_starts : main env "gw.toml" [] 0 = Ok serving.
Proof. vm_compute. reflexivity. Defined.

Lemma life_runs : serve_steps now 5 (serving_hook serving) life (server serving) = Some after.
Proof. vm_compute. reflexivity. Defined.
(** The control plane heard of the client four times, with the gateway's key. *)
Example control_plane_heard :
  rev (g_plane (gateway after)) =
  map (fun '(u, b) => mkRequest u (Some "secret"%string) b)
    [("http://cp/v1/authorize", AuthorizeRequest "ipad" (Some "tok-123"));
     ("http://cp/v1/sessions/open", SessionOpenRequest "tok-123" "0" "ipad");
     ("http://cp/v1/usage", UsageReport "tok-123" "0" 2 0);
     ("http://cp/v1/sessions/close", SessionCloseRequest "tok-123" "0")]%string.
Proof. vm_compute. reflexivity. Qed.

(** The same four as the calls of the gateway. *)
Example calls_made :
  match gsteps now 5 (choose_hook config) (gateway_events life) (ready [] 0) blank with
  | Some (_, h) => rev (calls h)
  | None => []
  end =
  map (pair 0%nat)
    [Authorize "ipad" (Some (as_bytes "tok-123"));
     SessionOpen (Some (as_bytes "tok-123")) (uuid_to_string 0) "ipad" true;
     ReportUsage (Some (as_bytes "tok-123")) (uuid_to_string 0) 2 0;
     SessionClose (Some (as_bytes "tok-123")) (uuid_to_string 0)]%string.
Proof. vm_compute. reflexivity. Qed.

(** From the command line to there. *)
Lemma main_serves_witness :
  exists c h, load env "gw.toml" = Ok c /\ build_server env c = Ok ["self-signed"%string] /\
    gsteps now 5 (choose_hook c) (gateway_events life) (ready [] 0) blank = Some (gateway after, h) /\
    replays (choose_hook c) (calls h) [] (g_plane (gateway after)) /\
    accounted (usage_reports h 0) (by_task 0 (metered h)) (tasks (gateway after) !! 0%nat).
Proof.
  destruct (main_serves now 5 env "gw.toml" [] 0 serving life after main_starts life_runs)
    as (c & h & Hl & Hb & Hg & Hr & Hu & _).
  exact (ex_intro _ c (ex_intro _ h (conj Hl (conj Hb (conj Hg (conj Hr (Hu 0%nat))))))).
Defined.

End Witness.
