(* ===== verification/UnitTests.v ===== *)
(** * The source's unit tests (the [tests] modules of [crates/gw-core/src/lib.rs],
    [crates/gw-core/src/quota.rs], [crates/gw-proto/src/codec.rs] and
    [crates/gw-server/src/http_hook.rs])

    Each test is the boolean its assertions compute, over the definitions of the
    development; a test fails where the source panics.  The tests of the session
    registry await a reader while the ingest task runs: they take the turns of
    both during each [await], and pass whatever the turns are. *)

From S2P Require Import Prelude Utf8 Frame Codec WireFormat Scrollback Registry Quota HttpHook.

(** ** Sessions ([gw-core/src/lib.rs]) *)

(** A test of one session: the manager, and the channel the test feeds the
    session's output through, with what is in it and whether it is open. *)
Record Bench : Type := mkBench {
  mgr : SessionManager;
  heap : gmap positive Cell;
  queue : list (list byte);
  feeding : bool;
}.

Definition set_heap (h : gmap positive Cell) (b : Bench) : Bench := mkBench (mgr b) h (queue b) (feeding b).
Definition set_queue (q : list (list byte)) (b : Bench) : Bench := mkBench (mgr b) (heap b) q (feeding b).

Definition fake_handle : SshHandle := mkSshHandle (Some "SHA256:test").

(** [feed.send(data)]; [drop(feed)]. *)
Definition feed (data : list byte) (b : Bench) : Bench := set_queue (queue b ++ [data]) b.
Definition drop_feed (b : Bench) : Bench := mkBench (mgr b) (heap b) (queue b) false.

(** What runs next: the ingest task, or the test itself. *)
Inductive Turn : Type := Ingest | Test.

Definition with_inner (f : SessionInner -> SessionInner) (s : Session) (b : Bench) : Bench :=
  set_heap (alter (fun c => mkCell (f (inner c)) (sent_input c) (input_open c)) (cell s) (heap b)) b.

(** A turn of the session's ingest task. *)
Definition ingest_turn (s : Session) (b : Bench) : Bench :=
  match queue b with
  | data :: rest => with_inner (fun i => append i data) s (set_queue rest b)
  | [] => if feeding b then b else with_inner set_closed s b
  end.

(** [reader.next().await] during [turns]: what it returns and the reader's
    cursor; [None] if it is still waiting, or panicked. *)
Fixpoint next (s : Session) (turns : list Turn) (cursor : u64) (b : Bench)
    : option (option (list byte) * u64 * Bench * list Turn) :=
  match turns with
  | [] => None
  | Ingest :: turns => next s turns cursor (ingest_turn s b)
  | Test :: turns =>
      c ← heap b !! cell s;
      match next_poll (inner c) cursor with
      | (Ready o, cursor) => Some (o, cursor, b, turns)
      | (Pending, cursor) => next s turns cursor b
      | (Panic, _) => None
      end
  end.

(** [read_n]; [fuel] bounds the calls of [next]. *)
Fixpoint read_n (fuel : nat) (s : Session) (n : usize) (turns : list Turn) (cursor : u64)
    (got : list byte) (b : Bench) : option (list byte * u64 * Bench) :=
  if decide (len got < n) then
    match fuel with
    | O => None
    | S fuel =>
        match next s turns cursor b with
        | Some (Some chunk, cursor, b, turns) => read_n fuel s n turns cursor (got ++ chunk) b
        | Some (None, cursor, b, _) => Some (got, cursor, b)
        | None => None
        end
    end
  else Some (got, cursor, b).

Section Tests.
Context {G : Type} {EN : Entropy G} (g : G).

(** [mgr.create(handle)] on a new manager of [max]. *)
Definition create_one (max : usize) : Session * Bench :=
  let '(session, mgr, heap, _) := create (with_scrollback max) ∅ g fake_handle in
  (session, mkBench mgr heap [] true).

(** [read_n(&mut reader, n)], with a turn at most for each call. *)
Definition read (s : Session) (n : usize) (turns : list Turn) (b : Bench) : option (list byte * u64 * Bench) :=
  read_n (S (length turns)) s n turns 0 [] b.

Definition reads (s : Session) (n : usize) (turns : list Turn) (b : Bench) (expected : list byte) : bool :=
  match read s n turns b with
  | Some (got, _, _) => bool_decide (got = expected)
  | None => false
  end.

Definition replays_scrollback_then_streams_live (turns : list Turn) : bool :=
  let '(session, b) := create_one DEFAULT_SCROLLBACK_BYTES in
  let b := feed (as_bytes "world") (feed (as_bytes "hello ") b) in
  reads session 11 turns b (as_bytes "hello world").

Definition resume_returns_same_session_and_replays_all (turns : list Turn) : bool :=
  let '(session, b) := create_one DEFAULT_SCROLLBACK_BYTES in
  let token := resume_token session in
  let b := feed (as_bytes "def") (feed (as_bytes "abc") b) in
  match resume (mgr b) token with
  | None => false
  | Some resumed =>
      bool_decide (id resumed = id session) && reads resumed 6 turns b (as_bytes "abcdef")
  end.

Definition reader_ends_when_session_closes (turns1 turns2 : list Turn) : bool :=
  let '(session, b) := create_one DEFAULT_SCROLLBACK_BYTES in
  let b := drop_feed (feed (as_bytes "bye") b) in
  match read session 3 turns1 b with
  | None => false
  | Some (got, cursor, b) =>
      bool_decide (got = as_bytes "bye") &&
      match next session turns2 cursor b with
      | Some (None, _, _, _) => true
      | _ => false
      end
  end.

Definition forwards_input_to_ssh : bool :=
  let '(session, b) := create_one DEFAULT_SCROLLBACK_BYTES in
  let '(sent, heap) := send_input (heap b) session (SshInput.Data (as_bytes "ls" ++ [x0a])) in
  sent &&
  match heap !! cell session with
  | Some c => bool_decide (head (sent_input c) = Some (SshInput.Data (as_bytes "ls" ++ [x0a])))
  | None => false
  end.

Definition scrollback_is_bounded_and_advances_cursor (turns : list Turn) : bool :=
  let '(session, b) := create_one 8 in
  let b := feed (as_bytes "0123456789") b in
  reads session 8 turns b (as_bytes "23456789").

End Tests.

(** ** The hook, the bucket and the meter ([gw-core/src/quota.rs]) *)

Definition allow_all_is_unlimited : bool :=
  match authorize (W:=unit) AllowAll "client" None tt with
  | Some (Ok ent, _) => bool_decide (max_bytes_per_sec ent = None /\ max_sessions ent = None)
  | _ => false
  end.

Definition bucket_consumes_then_refills : bool :=
  let b := bucket_new 100 100 in
  let '(r1, b) := try_consume b 100 in
  let '(r2, b) := try_consume b 1 in
  let b := refill b (mkDuration 1 0) in
  let '(r3, b) := try_consume b 100 in
  r1 && negb r2 && r3.

Definition bucket_refill_caps_at_capacity : bool :=
  let b := bucket_new 10 10 in
  let b := refill b (mkDuration 100 0) in
  let '(r1, b) := try_consume b 10 in
  let '(r2, b) := try_consume b 1 in
  r1 && negb r2.

Definition time_until_is_positive_when_empty : bool :=
  let b := bucket_new 10 10 in
  let '(r, b) := try_consume b 10 in
  r && match time_until b 10 with Some d => bool_decide (as_nanos ZERO < as_nanos d) | None => false end.

Definition meter_accumulates : bool :=
  let m := add_in (add_out (add_out meter_default 120) 80) 5 in
  bool_decide (totals m = (5, 200)).

(** ** Frames ([gw-proto/src/codec.rs]) *)

Section Frames.
Context {PE : PostcardError} {PC : Postcard ClientFrame} {PS : Postcard ServerFrame}.

(** [decode(&encode(&frame).unwrap()).unwrap()] is [frame]. *)
Definition roundtrips {T} {P : Postcard T} `{EqDecision T} (frame : T) : bool :=
  match encode frame with
  | Err _ => false
  | Ok bytes => match decode bytes with Ok back => bool_decide (frame = back) | Err _ => false end
  end.

Definition sample_open : ClientFrame :=
  ClientFrame.Open (mkTargetSpec "host01.example.com" 22 "root")
    (AuthIntent.DelegatedKey (as_bytes "ssh-ed25519 AAAA...")) 120 40.

Definition client_frame_roundtrip : bool := roundtrips sample_open.

Definition server_frame_roundtrip : bool :=
  roundtrips (ServerFrame.SignRequest 7 (as_bytes "ssh-ed25519 AAAA...") [x01; x02; x03; x04; x05]).

Definition framed_carries_a_correct_length_prefix : bool :=
  let frame := ClientFrame.Ping in
  match encode_framed frame with
  | Err _ => false
  | Ok framed =>
      let declared := from_be_bytes (take (Z.to_nat LEN_PREFIX) framed) in
      bool_decide (declared = len framed - LEN_PREFIX) &&
      match decode (drop (Z.to_nat LEN_PREFIX) framed) with
      | Ok back => bool_decide (frame = back)
      | Err _ => false
      end
  end.

Definition auth_intent_variants_roundtrip : bool :=
  forallb (fun auth => roundtrips (ClientFrame.Open (mkTargetSpec "h" 22 "u") auth 80 24))
    [AuthIntent.DelegatedKey [x09; x09]; AuthIntent.Password "hunter2"; AuthIntent.GatewayKey "ops-key"].

End Frames.

(** ** The HTTP control plane ([gw-server/src/http_hook.rs]) *)

(** A control plane that replies 200 to any request, with one body; reading the
    body as one of the two types is [serde]'s, given here by its outcome. *)
Definition mock_base (authorized : option AuthorizeResponse) (opened : option SessionOpenResponse)
    : Reqwest unit := {|
  ReqwestError := unit; Response := unit;
  reqwest_display _ := "error decoding response body";
  is_success _ := true;
  status_display _ := "200 OK";
  post_send _ w := Some (Ok tt, w);
  json_authorize _ w := Some (match authorized with Some a => Ok a | None => Err tt end, w);
  json_session_open _ w := Some (match opened with Some o => Ok o | None => Err tt end, w);
|}.

(** [s.contains(t)]. *)
Definition contains (s t : string) : bool := match String.index 0 t s with Some _ => true | None => false end.

Definition allowed_maps_entitlement : bool :=
  let base := mock_base (Some (mkAuthorizeResponse true None (mkEntitlementDto (Some 1000) (Some 5)))) None in
  let hook := hook_new "http://127.0.0.1:4000" None in
  match http_authorize (RQ:=base) hook "ipad" (Some (as_bytes "tok-123")) tt with
  | Some (Ok ent, _) => bool_decide (max_bytes_per_sec ent = Some 1000 /\ max_sessions ent = Some 5)
  | _ => false
  end.

Definition denied_relays_reason : bool :=
  let base := mock_base
    (Some (mkAuthorizeResponse false (Some "over session quota") (mkEntitlementDto None None))) None in
  let hook := hook_new "http://127.0.0.1:4000" None in
  match http_authorize (RQ:=base) hook "ipad" None tt with
  | Some (Err err, _) => contains (Denied_display err) "over session quota"
  | _ => false
  end.

Definition session_open_refused_is_denied : bool :=
  let base := mock_base None (Some (mkSessionOpenResponse false (Some "session limit reached (3 concurrent)"))) in
  let hook := hook_new "http://127.0.0.1:4000" (Some "secret") in
  match http_session_open (RQ:=base) hook (Some (as_bytes "tok")) "sess-1" "ipad" tt with
  | Some (Err err, _) => contains (Denied_display err) "session limit reached"
  | _ => false
  end.

Definition base_url_is_normalized : bool :=
  bool_decide (base (hook_new "http://cp:8080/v1/authorize" None) = "http://cp:8080"%string) &&
  bool_decide (base (hook_new "http://cp:8080/" None) = "http://cp:8080"%string).

(** ** The session tests pass, whatever the turns *)

(** The ingest task has [k] turns, and the test one after them. *)
Fixpoint fair (k : nat) (turns : list Turn) : bool :=
  match turns with
  | [] => false
  | Ingest :: turns => fair (pred k) turns
  | Test :: turns => (k =? 0)%nat || fair k turns
  end.

Section Bench.
Context (s : Session) (max : usize) (open : bool) (T : list byte).

(** All that is fed is [T], and [hist] of it has reached the scrollback. *)
Record bench_ok (hist : list byte) (b : Bench) : Prop := {
  bench_cell : exists c, heap b !! cell s = Some c /\ represents (inner c) hist /\
    max_bytes (inner c) = max /\ (closed (inner c) = true -> queue b = []);
  bench_queue : hist ++ concat (queue b) = T;
  bench_chunks : Forall (fun data => data <> []) (queue b);
  bench_feeding : feeding b = open;
}.

Context (Hlen : len T < 2 ^ 64).

Lemma bench_prefix hist b : bench_ok hist b -> len hist <= len T.
Proof. intros [_ <- _ _]. rewrite len_app. pose proof (len_nonneg (concat (queue b))). lia. Qed.

Lemma bench_done hist b : bench_ok hist b -> queue b = [] <-> hist = T.
Proof.
  intros [_ Hq Hc _]. split.
  - intros E. rewrite E, app_nil_r in Hq. done.
  - intros ->. destruct (queue b) as [|data rest]; [done|]. apply Forall_cons in Hc as [Hd _].
    apply (f_equal len) in Hq. rewrite len_app in Hq. cbn in Hq. rewrite len_app in Hq.
    pose proof (len_nonneg (concat rest)). destruct data; [done|]. unfold len in *. cbn in Hq. lia.
Qed.

Lemma with_inner_cell f b c :
  heap b !! cell s = Some c ->
  heap (with_inner f s b) !! cell s = Some (mkCell (f (inner c)) (sent_input c) (input_open c)).
Proof. intros Hc. cbn. by rewrite lookup_alter_eq, Hc. Qed.

Lemma ingest_turn_ok hist b :
  bench_ok hist b -> exists hist', bench_ok hist' (ingest_turn s b) /\ len hist <= len hist' /\
    length (queue (ingest_turn s b)) = pred (length (queue b)).
Proof.
  intros Hok. pose proof Hok as [(c & Hc & Hr & Hm & Hcl) Hq Hch Hf].
  unfold ingest_turn. destruct (queue b) as [|data rest] eqn:E.
  - exists hist. split; [|split; [lia|destruct (feeding b); cbn; by rewrite E]].
    destruct (feeding b) eqn:Ef; [done|]. split; cbn; rewrite ?E; [|done..|congruence].
    eexists. split; [by apply with_inner_cell|]. cbn. split_and!; [by apply represents_closed|done|done].
  - apply Forall_cons in Hch as [_ Hch]. exists (hist ++ data). rewrite len_app.
    split; [|split; [pose proof (len_nonneg data); lia|done]].
    split; [|cbn; by rewrite <-app_assoc|done|done].
    eexists. split; [by apply with_inner_cell|]. cbn. rewrite max_append, closed_append.
    split_and!; [|done|by intros ?%Hcl]. apply represents_append; [done|]. rewrite <-Hq in Hlen. cbn in Hlen.
    rewrite app_assoc, len_app in Hlen. pose proof (len_nonneg (concat rest)). lia.
Qed.

(** With something left to read, a call of [next] returns what it finds. *)
Lemma next_spec turns : forall k hist b cursor,
  bench_ok hist b -> (length (queue b) <= k)%nat -> fair k turns = true ->
  0 <= cursor <= len hist -> cursor < len T -> len T <= max ->
  exists hist' b' turns',
    next s turns cursor b = Some (Some (drop (Z.to_nat cursor) hist'), len hist', b', turns') /\
    bench_ok hist' b' /\ cursor <= len hist' /\ (length turns' < length turns)%nat /\
    (hist' = T \/ exists k', (length (queue b') <= k')%nat /\ fair k' turns' = true).
Proof.
  induction turns as [|[|] turns IH]; intros k hist b cursor Hok Hk Hfair Hcur Hlt Hmax; [done| |].
  - destruct (ingest_turn_ok hist b Hok) as (hist1 & Hok1 & Hle & Hq1). cbn [next].
    destruct (IH (pred k) hist1 (ingest_turn s b) cursor) as (h & b' & t' & ? & ? & ? & ? & ?);
      [done|lia|done|lia|done|done|].
    exists h, b', t'. split_and!; [done..|cbn; lia|done].
  - pose proof Hok as [(c & Hc & Hr & Hm & Hcl) Hq Hch Hf]. pose proof (bench_prefix _ _ Hok) as Hpre.
    cbn [next fair] in *. rewrite Hc. cbn [mbind option_bind].
    rewrite (next_poll_read _ hist) by (done || lia). unfold Spec.read, Spec.oldest.
    rewrite Hm, (Z.max_l 0), Z.max_l by lia.
    destruct (decide (cursor < len hist)) as [Hnews|Hnone].
    + exists hist, b, turns. split_and!; [done|done|lia|cbn; lia|].
      apply orb_true_iff in Hfair as [Hz|Hfair]; [left|right; by exists k].
      apply (bench_done _ _ Hok). apply Nat.eqb_eq in Hz. destruct (queue b); [done|cbn in Hk; lia].
    + assert (Hleft : hist <> T) by (intros ->; lia).
      apply orb_true_iff in Hfair as [Hz|Hfair].
      { apply Nat.eqb_eq in Hz. destruct Hleft. apply (bench_done _ _ Hok). destruct (queue b); [done|cbn in Hk; lia]. }
      destruct (closed (inner c)); [by destruct Hleft; apply (bench_done _ _ Hok), Hcl|].
      destruct (IH k hist b cursor) as (h & b' & t' & ? & ? & ? & ? & ?); [done..|].
      exists h, b', t'. split_and!; [done..|cbn; lia|done].
Qed.

Lemma read_n_spec fuel : forall k turns hist cursor b,
  bench_ok hist b -> (length (queue b) <= k)%nat -> fair k turns = true ->
  0 <= cursor <= len hist -> len T <= max -> (length turns < fuel)%nat ->
  exists b', read_n fuel s (len T) turns cursor (take (Z.to_nat cursor) T) b = Some (T, len T, b') /\
    bench_ok T b'.
Proof.
  induction fuel as [|fuel IH]; intros k turns hist cursor b Hok Hk Hfair Hcur Hmax Hfuel; [lia|].
  pose proof (bench_prefix _ _ Hok) as Hpre. cbn [read_n].
  assert (Hgot : len (take (Z.to_nat cursor) T) = cursor) by (unfold len in *; rewrite length_take; lia).
  rewrite Hgot. case_decide as Hlt.
  - destruct (next_spec turns k hist b cursor) as (hist' & b' & t' & -> & Hok' & Hle & Ht & Hrest); [done..|].
    assert (Hnext : take (Z.to_nat cursor) T ++ drop (Z.to_nat cursor) hist' = take (Z.to_nat (len hist')) T).
    { pose proof Hok' as [_ <- _ _]. unfold len in *. rewrite Nat2Z.id, take_app_length.
      rewrite take_app_le by lia. by rewrite take_drop. }
    rewrite Hnext. destruct Hrest as [->|(k' & Hk' & Hf')].
    + exists b'. split; [|done]. unfold len. rewrite Nat2Z.id, firstn_all. destruct fuel; cbn [read_n];
        (rewrite decide_False by (unfold len; lia)); done.
    + eapply IH; [done..|pose proof (len_nonneg hist'); lia|done|lia].
  - assert (cursor = len T) as -> by lia. assert (hist = T) as ->.
    { pose proof Hok as [_ Hq _ _]. rewrite <-Hq in *. rewrite len_app in *.
      destruct (concat (queue b)); [by rewrite app_nil_r|]. unfold len in *. cbn in *. lia. }
    exists b. split; [|done]. unfold len. by rewrite Nat2Z.id, firstn_all.
Qed.

(** At the end of what is fed, [next] returns the end. *)
Lemma next_ends turns : forall k b,
  bench_ok T b -> open = false -> (k = 0%nat -> exists c, heap b !! cell s = Some c /\ closed (inner c) = true) ->
  fair k turns = true ->
  exists cursor b' turns', next s turns (len T) b = Some (None, cursor, b', turns').
Proof.
  induction turns as [|[|] turns IH]; intros k b Hok Hopen Hk Hfair; [done| |]; cbn [next fair] in *.
  - destruct (ingest_turn_ok T b Hok) as (hist1 & Hok1 & Hle & _).
    assert (hist1 = T) as ->.
    { pose proof Hok1 as [_ Hq _ _]. rewrite <-Hq in Hle at 1. rewrite len_app in Hle.
      destruct (concat _) eqn:E; [by rewrite app_nil_r in Hq|]. unfold len in Hle. cbn in Hle. lia. }
    apply (IH (pred k)); [done..| |done]. intros _.
    pose proof (proj2 (bench_done _ _ Hok) eq_refl) as Hq.
    pose proof Hok as [(c & Hc & _) _ _ Hf]. unfold ingest_turn. rewrite Hq, Hf, Hopen.
    eexists. split; [by apply with_inner_cell|done].
  - pose proof Hok as [(c & Hc & Hr & Hm & Hcl) _ _ _]. rewrite Hc. cbn [mbind option_bind].
    pose proof (rep_max _ _ Hr). pose proof (len_nonneg T).
    rewrite (next_poll_read _ T) by (done || lia). unfold Spec.read, Spec.oldest.
    rewrite decide_False by lia. destruct (closed (inner c)) eqn:E; [by eauto|].
    apply orb_true_iff in Hfair as [Hz|Hfair].
    + apply Nat.eqb_eq in Hz. destruct (Hk Hz) as (c' & Hc' & E'). congruence.
    + rewrite Z.max_l by lia. by apply (IH k).
Qed.

End Bench.

Section Pass.
Context {G : Type} {EN : Entropy G} (g : G).

Lemma create_one_ok max :
  let '(session, b) := create_one g max in
  heap b !! cell session = Some (mkCell (new_inner max) [] true) /\
  queue b = [] /\ feeding b = true /\ resume (mgr b) (resume_token session) = Some session.
Proof.
  unfold create_one, create, spawn. destruct (new_session_id g) as [i g1], (new_resume_token g1) as [t g2].
  cbn [cell heap mgr queue feeding resume_token].
  split_and!; [by rewrite lookup_insert_eq|done|done|].
  unfold resume. cbn [registry by_id by_token]. rewrite lookup_insert_eq. cbn [mbind option_bind].
  by rewrite lookup_insert_eq.
Qed.

(** A session just fed [chunks], whose channel is open or dropped. *)
Lemma fed_ok max chunks open b session :
  heap b !! cell session = Some (mkCell (new_inner max) [] true) -> queue b = chunks ->
  feeding b = open -> Forall (fun data => data <> []) chunks -> 0 <= max ->
  bench_ok session max open (concat chunks) [] b.
Proof.
  intros Hc <- Hf Hch Hmax. split; [|done..].
  eexists. split; [done|]. split_and!; [by apply represents_new|done|done].
Qed.

Lemma reads_fed max chunks open b session turns :
  bench_ok session max open (concat chunks) [] b -> queue b = chunks ->
  fair (length chunks) turns = true -> len (concat chunks) <= max -> len (concat chunks) < 2 ^ 64 ->
  exists b', read session (len (concat chunks)) turns b = Some (concat chunks, len (concat chunks), b') /\
    bench_ok session max open (concat chunks) (concat chunks) b'.
Proof.
  intros Hok Hq Hfair Hmax Hlen.
  apply (read_n_spec _ _ _ _ Hlen _ (length chunks) turns [] 0); try done; [by rewrite Hq|lia].
Qed.

(** As long as the ingest task is not starved, the tests of the registry pass. *)
Theorem session_tests_pass turns turns1 :
  fair 2 turns = true -> fair 1 turns1 = true ->
  replays_scrollback_then_streams_live g turns = true /\
  resume_returns_same_session_and_replays_all g turns = true /\
  reader_ends_when_session_closes g turns1 turns1 = true /\
  forwards_input_to_ssh g = true.
Proof.
  intros H2 H1.
  unfold replays_scrollback_then_streams_live, resume_returns_same_session_and_replays_all,
    reader_ends_when_session_closes, forwards_input_to_ssh, reads.
  pose proof (create_one_ok DEFAULT_SCROLLBACK_BYTES) as Hnew.
  destruct (create_one g DEFAULT_SCROLLBACK_BYTES) as [session b]. destruct Hnew as (Hc & Hq & Hf & Hres).
  split_and!.
  - edestruct (reads_fed DEFAULT_SCROLLBACK_BYTES [as_bytes "hello "; as_bytes "world"] true
      (feed (as_bytes "world") (feed (as_bytes "hello ") b)) session turns) as (b' & E & _);
      [apply fed_ok; cbn; rewrite ?Hq; try done; by repeat constructor|cbn; by rewrite Hq|done..|].
    change 11 with (len (concat [as_bytes "hello "; as_bytes "world"])). rewrite E. done.
  - cbn [mgr feed set_queue]. rewrite Hres.
    edestruct (reads_fed DEFAULT_SCROLLBACK_BYTES [as_bytes "abc"; as_bytes "def"] true
      (feed (as_bytes "def") (feed (as_bytes "abc") b)) session turns) as (b' & E & _);
      [apply fed_ok; cbn; rewrite ?Hq; try done; by repeat constructor|cbn; by rewrite Hq|done..|].
    change 6 with (len (concat [as_bytes "abc"; as_bytes "def"])). cbn [feed set_queue] in E |- *. rewrite E.
    by rewrite bool_decide_true.
  - edestruct (reads_fed DEFAULT_SCROLLBACK_BYTES [as_bytes "bye"] false
      (drop_feed (feed (as_bytes "bye") b)) session turns1) as (b' & E & Hok);
      [apply fed_ok; cbn; rewrite ?Hq; try done; by repeat constructor|cbn; by rewrite Hq|done..|].
    change 3 with (len (concat [as_bytes "bye"])). rewrite E.
    edestruct (next_ends session DEFAULT_SCROLLBACK_BYTES false (concat [as_bytes "bye"]) ltac:(done)
      turns1 1 b' Hok) as (cur & b'' & t' & ->); done.
  - unfold send_input. rewrite Hc. cbn. rewrite lookup_insert_eq. done.
Qed.

(** Nothing more is fed: the turns before the test's do nothing. *)
Lemma next_idle session turns : forall k b c cursor o cursor',
  heap b !! cell session = Some c -> queue b = [] -> feeding b = true ->
  next_poll (inner c) cursor = (Ready o, cursor') -> fair k turns = true ->
  exists turns', next session turns cursor b = Some (o, cursor', b, turns').
Proof.
  induction turns as [|[|] turns IH]; intros k b c cursor o cursor' Hc Hq Hf Hp Hfair; [done| |]; cbn [next].
  - unfold ingest_turn. rewrite Hq, Hf. by eapply (IH (pred k)).
  - rewrite Hc. cbn [mbind option_bind]. rewrite Hp. eauto.
Qed.

(** The chunk longer than the scrollback is read without its oldest bytes. *)
Lemma next_trimmed session turns : forall b,
  heap b !! cell session = Some (mkCell (new_inner 8) [] true) ->
  queue b = [as_bytes "0123456789"] -> feeding b = true -> fair 1 turns = true ->
  exists b' turns', next session turns 0 b = Some (Some (as_bytes "23456789"), 10, b', turns').
Proof.
  induction turns as [|[|] turns IH]; intros b Hc Hq Hf Hfair; [done| |]; cbn [next].
  - unfold ingest_turn. rewrite Hq.
    set (b1 := with_inner (fun i => append i (as_bytes "0123456789")) session (set_queue [] b)).
    assert (Hc1 : heap b1 !! cell session =
      Some (mkCell (append (new_inner 8) (as_bytes "0123456789")) [] true)) 
      by exact (with_inner_cell session (fun i => append i (as_bytes "0123456789")) (set_queue [] b) _ Hc).
    destruct (next_idle session turns 0 b1 _ 0 (Some (as_bytes "23456789")) 10 Hc1) as [turns' H];
      [done|done|vm_compute; reflexivity|done|].
    rewrite H. eauto.
  - rewrite Hc. cbn [mbind option_bind]. by apply IH.
Qed.

Theorem scrollback_test_passes turns :
  fair 1 turns = true -> scrollback_is_bounded_and_advances_cursor g turns = true.
Proof.
  intros Hfair. unfold scrollback_is_bounded_and_advances_cursor, reads, read.
  pose proof (create_one_ok 8) as Hnew. destruct (create_one g 8) as [session b].
  destruct Hnew as (Hc & Hq & Hf & _).
  destruct (next_trimmed session turns (feed (as_bytes "0123456789") b)) as (b' & t' & H);
    [done|cbn; by rewrite Hq|done|done|].
  cbn [read_n]. rewrite decide_True by done. rewrite H. by destruct (length turns).
Qed.

End Pass.

(** The other tests are closed computations. *)
Theorem quota_tests_pass :
  allow_all_is_unlimited = true /\ bucket_consumes_then_refills = true /\
  bucket_refill_caps_at_capacity = true /\ time_until_is_positive_when_empty = true /\
  meter_accumulates = true.
Proof. vm_compute. split_and!; reflexivity. Qed.

Theorem codec_tests_pass :
  client_frame_roundtrip = true /\ server_frame_roundtrip = true /\
  framed_carries_a_correct_length_prefix = true /\ auth_intent_variants_roundtrip = true.
Proof. vm_compute. split_and!; reflexivity. Qed.

Theorem http_tests_pass :
  allowed_maps_entitlement = true /\ denied_relays_reason = true /\
  session_open_refused_is_denied = true /\ base_url_is_normalized = true.
Proof. vm_compute. split_and!; reflexivity. Qed.
